(** * Voice container counter: dictation pipeline

    A shallow embedding of the dictation-to-line pipeline of the
    repository: the batch normalizer and segment extractor of
    [backend/src/index.ts], the expression evaluator and the streaming
    dispatcher of [frontend/src/App.tsx], and the summary aggregation of
    [backend/src/index.ts] / [backend/src/parsing.ts].

    JavaScript strings are sequences of UTF-16 code units, numbers are
    IEEE 754 binary64 values (the [spec_float] model of the standard
    library), regular expressions are interpreted by a backtracking
    matcher that follows the ECMAScript matching order. *)

From Stdlib Require Import String Ascii.
From Stdlib Require Import List Bool Arith ZArith NArith Lia.
From Stdlib Require Import Permutation SpecFloat.
Import ListNotations.

(* ================================================================== *)
(** * Strings *)
(* ================================================================== *)

Module JsString.

Local Open Scope N_scope.

(** A string is the list of its UTF-16 code units. *)
Definition jsstring := list N.

(** String literals of this file are written in UTF-8 and decoded. *)
Fixpoint utf16_of_utf8 (bs : list N) : jsstring :=
  match bs with
  | [] => []
  | b :: tl =>
    if b <? 128 then b :: utf16_of_utf8 tl
    else if b <? 224 then
      match tl with
      | b2 :: tl2 => (N.land b 31 * 64 + N.land b2 63) :: utf16_of_utf8 tl2
      | [] => [65533]
      end
    else if b <? 240 then
      match tl with
      | b2 :: b3 :: tl3 =>
        (N.land b 15 * 4096 + N.land b2 63 * 64 + N.land b3 63)
          :: utf16_of_utf8 tl3
      | _ => [65533]
      end
    else
      match tl with
      | b2 :: b3 :: b4 :: tl4 =>
        let cp := N.land b 7 * 262144 + N.land b2 63 * 4096
                  + N.land b3 63 * 64 + N.land b4 63 in
        let v := cp - 65536 in
        (55296 + v / 1024) :: (56320 + v mod 1024) :: utf16_of_utf8 tl4
      | _ => [65533]
      end
  end.

Definition js (s : string) : jsstring :=
  utf16_of_utf8 (map Byte.to_N (list_byte_of_string s)).

Definition cu_eqb : N -> N -> bool := N.eqb.

Fixpoint str_eqb (a b : jsstring) : bool :=
  match a, b with
  | [], [] => true
  | x :: a', y :: b' => cu_eqb x y && str_eqb a' b'
  | _, _ => false
  end.

(** ** Character classes *)

Definition in_range (lo hi c : N) : bool := (lo <=? c) && (c <=? hi).

(** [\d] *)
Definition is_digit (c : N) : bool := in_range 48 57 c.

(** [\w] (no [u] flag: ASCII letters, digits and underscore) *)
Definition is_word (c : N) : bool :=
  in_range 97 122 c || in_range 65 90 c || is_digit c || (c =? 95).

(** [\s], which is also what [trim] strips: WhiteSpace and
    LineTerminator of ECMAScript. *)
Definition is_space (c : N) : bool :=
  in_range 9 13 c || (c =? 32) || (c =? 160) || (c =? 5760)
  || in_range 8192 8202 c || (c =? 8232) || (c =? 8233) || (c =? 8239)
  || (c =? 8287) || (c =? 12288) || (c =? 65279).

(** [.] without the [s] flag: anything but a line terminator. *)
Definition is_dot (c : N) : bool :=
  negb ((c =? 10) || (c =? 13) || (c =? 8232) || (c =? 8233)).

Definition is_ascii_upper (c : N) : bool := in_range 65 90 c.
Definition is_ascii_lower (c : N) : bool := in_range 97 122 c.

(** Letters of Latin-1 that have a case partner inside Latin-1:
    U+00C0..U+00DE without the multiplication sign, and
    U+00E0..U+00FE without the division sign. *)
Definition is_latin1_upper (c : N) : bool :=
  in_range 192 222 c && negb (c =? 215).
Definition is_latin1_lower (c : N) : bool :=
  in_range 224 254 c && negb (c =? 247).

(** A pattern character under the [i] flag (without [u]).  The two
    sides are compared after the canonicalization of the standard, which
    upper-cases a code unit unless that would turn a non-ASCII unit into
    an ASCII one; for the characters the patterns of this program use
    (ASCII, [é], [×], [']) the units with the same canonical form are
    the character and its Latin-1 case partner. *)
Definition ci (p c : N) : bool :=
  (c =? p)
  || (is_ascii_lower p && (c =? p - 32))
  || (is_ascii_upper p && (c =? p + 32))
  || (is_latin1_lower p && (c =? p - 32))
  || (is_latin1_upper p && (c =? p + 32)).

(** ** trim, slice, startsWith, join *)

Fixpoint trimStart (s : jsstring) : jsstring :=
  match s with
  | c :: tl => if is_space c then trimStart tl else s
  | [] => []
  end.

Definition trimEnd (s : jsstring) : jsstring := rev (trimStart (rev s)).

Definition trim (s : jsstring) : jsstring := trimEnd (trimStart s).

Fixpoint startsWith (s p : jsstring) : bool :=
  match p, s with
  | [], _ => true
  | x :: p', y :: s' => cu_eqb x y && startsWith s' p'
  | _ :: _, [] => false
  end.

Definition slice_from (s : jsstring) (i : nat) : jsstring := skipn i s.
Definition slice (s : jsstring) (i j : nat) : jsstring :=
  firstn (j - i) (skipn i s).

Fixpoint join (sep : jsstring) (l : list jsstring) : jsstring :=
  match l with
  | [] => []
  | [x] => x
  | x :: tl => x ++ sep ++ join sep tl
  end.

(** A string is truthy when it is not empty. *)
Definition truthy (s : jsstring) : bool :=
  match s with [] => false | _ => true end.

(** ** toLowerCase

    On strings of Latin-1 code units [toLowerCase] maps each unit on
    its own; beyond Latin-1 it follows the Unicode tables (with
    context-sensitive cases), which are left as a parameter of the
    development. *)
Definition lower1 (c : N) : N :=
  if is_ascii_upper c || is_latin1_upper c then c + 32 else c.

Definition is_latin1 (c : N) : bool := c <? 256.

Definition toLowerCase (wide : jsstring -> jsstring) (s : jsstring)
  : jsstring :=
  if forallb is_latin1 s then map lower1 s else wide s.

End JsString.

Export JsString.

(* ================================================================== *)
(** * Regular expressions *)
(* ================================================================== *)

Module Regex.

(** The constructs the program's patterns use.  [Chr p] is any single
    character matcher (literal, class, [.]); quantifiers are built from
    [Star]; [Group i] is the i-th capturing group; [Look] is [(?=...)]. *)
Inductive regex : Type :=
| Eps
| Chr (p : N -> bool)
| Seq (r1 r2 : regex)
| Alt (r1 r2 : regex)
| Star (greedy : bool) (r : regex)
| Group (i : nat) (r : regex)
| Bol
| Eol
| WordB
| Look (r : regex).

(** Matcher state: the code unit before the cursor (none at index 0),
    the input from the cursor on, the number of units consumed since the
    match started, and the captures so far. *)
Record mstate : Type := MState {
  prev : option N;
  rest : jsstring;
  pos : nat;
  caps : list (nat * jsstring)
}.

Definition advance (c : N) (tl : jsstring) (st : mstate) : mstate :=
  MState (Some c) tl (S (pos st)) (caps st).

Definition set_cap (i : nat) (v : jsstring) (st : mstate) : mstate :=
  MState (prev st) (rest st) (pos st) ((i, v) :: caps st).

Definition word_before (st : mstate) : bool :=
  match prev st with Some c => is_word c | None => false end.

Definition word_after (st : mstate) : bool :=
  match rest st with c :: _ => is_word c | [] => false end.

(** One quantifier [r*] (greedy) or [r*?] (lazy), [m] being the matcher
    of [r] and [k] what follows: every iteration must consume something
    (an iteration that matches the empty string is rejected), so the
    number of code units left bounds the number of iterations. *)
Fixpoint star_loop (m : (mstate -> option mstate) -> mstate -> option mstate)
  (greedy : bool) (k : mstate -> option mstate) (fuel : nat) (st : mstate)
  {struct fuel} : option mstate :=
  match fuel with
  | O => k st
  | S fuel' =>
    if greedy then
      match m (fun st' => if Nat.ltb (pos st) (pos st')
                          then star_loop m greedy k fuel' st' else None) st with
      | Some x => Some x
      | None => k st
      end
    else
      match k st with
      | Some x => Some x
      | None => m (fun st' => if Nat.ltb (pos st) (pos st')
                              then star_loop m greedy k fuel' st' else None) st
      end
  end.

(** Backtracking matcher in continuation-passing style: [rmatch r k st]
    tries the ways [r] can match at [st] in the priority order of the
    standard and returns the first one the continuation [k] accepts. *)
Fixpoint rmatch (r : regex) (k : mstate -> option mstate) (st : mstate)
  {struct r} : option mstate :=
  match r with
  | Eps => k st
  | Chr p =>
    match rest st with
    | c :: tl => if p c then k (advance c tl st) else None
    | [] => None
    end
  | Seq r1 r2 => rmatch r1 (rmatch r2 k) st
  | Alt r1 r2 =>
    match rmatch r1 k st with
    | Some x => Some x
    | None => rmatch r2 k st
    end
  | Star greedy r1 =>
    star_loop (rmatch r1) greedy k (S (length (rest st))) st
  | Group i r1 =>
    rmatch r1 (fun st' =>
                 k (set_cap i (firstn (pos st' - pos st) (rest st)) st')) st
  | Bol => match prev st with None => k st | Some _ => None end
  | Eol => match rest st with [] => k st | _ :: _ => None end
  | WordB => if xorb (word_before st) (word_after st) then k st else None
  | Look r1 =>
    match rmatch r1 Some st with
    | Some st' => k (MState (prev st) (rest st) (pos st) (caps st'))
    | None => None
    end
  end.

(** ** Building patterns *)

Definition plus (r : regex) : regex := Seq r (Star true r).
Definition star (r : regex) : regex := Star true r.
Definition lazy_star (r : regex) : regex := Star false r.
Definition lazy_plus (r : regex) : regex := Seq r (Star false r).
Definition opt (r : regex) : regex := Alt r Eps.

Fixpoint seq (l : list regex) : regex :=
  match l with
  | [] => Eps
  | [r] => r
  | r :: tl => Seq r (seq tl)
  end.

Fixpoint alt (l : list regex) : regex :=
  match l with
  | [] => Chr (fun _ => false)
  | [r] => r
  | r :: tl => Alt r (alt tl)
  end.

Definition chr (c : N) : regex := Chr (N.eqb c).
Definition chr_i (c : N) : regex := Chr (ci c).
Definition lit (s : jsstring) : regex := seq (map chr s).
Definition lit_i (s : jsstring) : regex := seq (map chr_i s).
Definition digit : regex := Chr is_digit.
Definition space : regex := Chr is_space.
Definition dot : regex := Chr is_dot.
Definition any_of (l : list N) : regex :=
  Chr (fun c => existsb (N.eqb c) l).

(** ** Results *)

(** The value of a capture; a group that did not take part is the
    empty string here (the program only reads groups of the alternative
    that matched). *)
Fixpoint cap (caps : list (nat * jsstring)) (i : nat) : jsstring :=
  match caps with
  | [] => []
  | (j, v) :: tl => if Nat.eqb i j then v else cap tl i
  end.

(** One match attempt at the cursor: length of the match and captures. *)
Definition exec_at (r : regex) (pv : option N) (s : jsstring)
  : option (nat * list (nat * jsstring)) :=
  match rmatch r Some (MState pv s 0 []) with
  | Some st => Some (pos st, caps st)
  | None => None
  end.

Record match_result : Type := MatchResult {
  index : nat;
  matched : jsstring;
  groups : list (nat * jsstring)
}.

(** [re.exec(s)] / [s.match(re)] for a pattern without the [g] flag: the
    leftmost position where the pattern matches. *)
Fixpoint search_from (r : regex) (pv : option N) (s : jsstring) (idx : nat)
  : option match_result :=
  match exec_at r pv s with
  | Some (len, cs) => Some (MatchResult idx (firstn len s) cs)
  | None =>
    match s with
    | [] => None
    | c :: tl => search_from r (Some c) tl (S idx)
    end
  end.

Definition exec (r : regex) (s : jsstring) : option match_result :=
  search_from r None s 0.

Definition test (r : regex) (s : jsstring) : bool :=
  match exec r s with Some _ => true | None => false end.

(** [s.replace(re, f)] for a pattern with the [g] flag.  [skip] counts the
    units of the current match still to be dropped. *)
Fixpoint replace_scan (r : regex)
  (f : jsstring -> list (nat * jsstring) -> jsstring)
  (pv : option N) (skip : nat) (s : jsstring) : jsstring :=
  match s with
  | [] =>
    match skip with
    | O => match exec_at r pv [] with
           | Some (_, cs) => f [] cs
           | None => []
           end
    | S _ => []
    end
  | c :: tl =>
    match skip with
    | S k => replace_scan r f (Some c) k tl
    | O =>
      match exec_at r pv s with
      | Some (len, cs) =>
        f (firstn len s) cs ++
        match len with
        | O => c :: replace_scan r f (Some c) 0 tl
        | S k => replace_scan r f (Some c) k tl
        end
      | None => c :: replace_scan r f (Some c) 0 tl
      end
    end
  end.

Definition replace_all (r : regex)
  (f : jsstring -> list (nat * jsstring) -> jsstring) (s : jsstring)
  : jsstring :=
  replace_scan r f None 0 s.

(** [s.replace(re, f)] without the [g] flag: the first match only. *)
Definition replace_first (r : regex)
  (f : jsstring -> list (nat * jsstring) -> jsstring) (s : jsstring)
  : jsstring :=
  match exec r s with
  | Some m =>
    firstn (index m) s ++ f (matched m) (groups m)
    ++ skipn (index m + length (matched m)) s
  | None => s
  end.

(** [s.split(re)] for a pattern without capturing groups.  [cur] is the
    current piece, reversed. *)
Fixpoint split_scan (r : regex) (pv : option N) (skip : nat)
  (cur : jsstring) (s : jsstring) : list jsstring :=
  match s with
  | [] => [rev cur]
  | c :: tl =>
    match skip with
    | S k => split_scan r (Some c) k [] tl
    | O =>
      match exec_at r pv s with
      | Some (S k, _) => rev cur :: split_scan r (Some c) k [] tl
      | Some (O, _) =>
        match cur with
        | [] => split_scan r (Some c) 0 [c] tl
        | _ :: _ => rev cur :: split_scan r (Some c) 0 [c] tl
        end
      | None => split_scan r (Some c) 0 (c :: cur) tl
      end
    end
  end.

Definition split (r : regex) (s : jsstring) : list jsstring :=
  match s with
  | [] => match exec_at r None [] with Some _ => [] | None => [[]] end
  | _ :: _ => split_scan r None 0 [] s
  end.

End Regex.

Export Regex.

(* ================================================================== *)
(** * Numbers *)
(* ================================================================== *)

Module Number.

(** JavaScript numbers: binary64, rounding to nearest even. *)
Definition number : Type := spec_float.

Definition prec : Z := 53.
Definition emax : Z := 1024.

Definition of_Z (z : Z) : number := binary_normalize prec emax z 0 false.
Definition zero : number := S754_zero false.
Definition NaN : number := S754_nan.

Definition add : number -> number -> number := SFadd prec emax.
Definition sub : number -> number -> number := SFsub prec emax.
Definition mul : number -> number -> number := SFmul prec emax.
Definition div : number -> number -> number := SFdiv prec emax.
Definition neg : number -> number := SFopp.

(** [a < b], [a <= b], [a > b]: false as soon as one side is NaN. *)
Definition ltb (a b : number) : bool := SFltb a b.
Definition leb (a b : number) : bool := SFleb a b.
Definition gtb (a b : number) : bool := SFltb b a.

(** [Number.isFinite] *)
Definition isFinite (x : number) : bool :=
  match x with
  | S754_zero _ | S754_finite _ _ _ => true
  | S754_infinity _ | S754_nan => false
  end.

Definition num_eqb (a b : number) : bool :=
  match a, b with
  | S754_zero s, S754_zero s' => Bool.eqb s s'
  | S754_infinity s, S754_infinity s' => Bool.eqb s s'
  | S754_nan, S754_nan => true
  | S754_finite s m e, S754_finite s' m' e' =>
    Bool.eqb s s' && Pos.eqb m m' && Z.eqb e e'
  | _, _ => false
  end.

(** Value of a run of decimal digits. *)
Definition digit_val (c : N) : Z := Z.of_N c - 48.

Definition digits_to_Z (s : jsstring) : Z :=
  fold_left (fun acc c => (acc * 10 + digit_val c)%Z) s 0%Z.

Fixpoint take_digits (s : jsstring) : jsstring :=
  match s with
  | c :: tl => if is_digit c then c :: take_digits tl else []
  | [] => []
  end.

(** [Number(s)] for a non-empty run of decimal digits (the only use the
    program makes of it). *)
Definition Number_of_digits (s : jsstring) : number := of_Z (digits_to_Z s).

(** [parseInt(s, 10)]: leading white space, an optional sign, then the
    longest run of digits; NaN when there is none. *)
Definition parseInt (s : jsstring) : number :=
  let s1 := trimStart s in
  let '(negative, s2) :=
    match s1 with
    | 45%N :: tl => (true, tl)
    | 43%N :: tl => (false, tl)
    | _ => (false, s1)
    end in
  match take_digits s2 with
  | [] => NaN
  | ds => if negative then neg (of_Z (digits_to_Z ds))
          else of_Z (digits_to_Z ds)
  end.

End Number.

Export Number.

(* ================================================================== *)
(** * Batch mode: segment extractor ([backend/src/index.ts]) *)
(* ================================================================== *)

Section Extractor.

(** [toLowerCase] beyond Latin-1 (Unicode tables). *)
Variable toLowerCaseWide : jsstring -> jsstring.

Let lower : jsstring -> jsstring := toLowerCase toLowerCaseWide.

(** [FR_NUM] *)
Definition FR_NUM : list (jsstring * Z) :=
  [ (js "zero", 0); (js "zéro", 0);
    (js "un", 1); (js "une", 1);
    (js "deux", 2);
    (js "trois", 3);
    (js "quatre", 4);
    (js "cinq", 5);
    (js "six", 6);
    (js "sept", 7);
    (js "huit", 8);
    (js "neuf", 9);
    (js "dix", 10);
    (js "onze", 11);
    (js "douze", 12);
    (js "treize", 13);
    (js "quatorze", 14);
    (js "quinze", 15);
    (js "seize", 16);
    (js "vingt", 20) ]%Z.

(** [FR_NUM[w]] for an own key of the table.  (For the inherited key
    ["constructor"] the lookup gives a function, on which the test
    [qty > 0] of the extractor fails as it does on a missing key.) *)
Fixpoint lookup (tbl : list (jsstring * Z)) (w : jsstring) : option number :=
  match tbl with
  | [] => None
  | (key, v) :: tl => if str_eqb key w then Some (of_Z v) else lookup tl w
  end.

(** [[A-Za-zÀ-ÿ-]] *)
Definition is_letter_or_dash (c : N) : bool :=
  is_ascii_upper c || is_ascii_lower c || in_range 192 255 c || N.eqb c 45.

(** [/^([A-Za-zÀ-ÿ-]+)\b/] *)
Definition re_lead_word : regex :=
  seq [Bol; Group 1 (plus (Chr is_letter_or_dash)); WordB].

Definition parseLeadingNumberWord (seg : jsstring)
  : option number * jsstring :=
  let s := trim seg in
  match exec re_lead_word s with
  | None => (None, s)
  | Some m =>
    let w := lower (cap (groups m) 1) in
    match lookup FR_NUM w with
    | None => (None, s)
    | Some qty => (Some qty, trim (slice_from s (length (matched m))))
    end
  end.

(** [/^(\d+)\s+(.+)$/] *)
Definition re_lead_digits : regex :=
  seq [Bol; Group 1 (plus digit); plus space; Group 2 (plus dot); Eol].

(** [/^(.*?)(?:\s+)?x\s*(\d+)\s*$/i] *)
Definition re_trail_mult : regex :=
  seq [Bol; Group 1 (lazy_star dot); opt (plus space); chr_i 120;
       star space; Group 2 (plus digit); star space; Eol].

(** [/^(.+?)\s+(\d+)\s*$/] *)
Definition re_trail_digits : regex :=
  seq [Bol; Group 1 (lazy_plus dot); plus space; Group 2 (plus digit);
       star space; Eol].

(** [/\s+/] *)
Definition re_spaces : regex := plus space.

(** [/^\d+$/] *)
Definition re_all_digits : regex := seq [Bol; plus digit; Eol].

Definition ParsedLine : Type := (number * jsstring)%type.

Definition accept (quantity : number) (itemLabel : jsstring)
  : option ParsedLine :=
  if gtb quantity zero && truthy itemLabel
  then Some (quantity, itemLabel) else None.

(** 1) quantity first: "10 vis M6x20" *)
Definition strategy1 (s : jsstring) : option ParsedLine :=
  match exec re_lead_digits s with
  | Some m => accept (parseInt (cap (groups m) 1)) (trim (cap (groups m) 2))
  | None => None
  end.

(** 2) quantity first, spelled out: "dix vis M6x20" *)
Definition strategy2 (s : jsstring) : option ParsedLine :=
  match parseLeadingNumberWord s with
  | (Some qty, rest) =>
    if gtb qty zero && truthy rest then Some (qty, trim rest) else None
  | (None, _) => None
  end.

(** 3) "vis M6x20 x 10" or "vis M6x20 x10" *)
Definition strategy3 (s : jsstring) : option ParsedLine :=
  match exec re_trail_mult s with
  | Some m => accept (parseInt (cap (groups m) 2)) (trim (cap (groups m) 1))
  | None => None
  end.

(** 4) quantity last: "vis M6x20 10" *)
Definition strategy4 (s : jsstring) : option ParsedLine :=
  match exec re_trail_digits s with
  | Some m => accept (parseInt (cap (groups m) 2)) (trim (cap (groups m) 1))
  | None => None
  end.

Definition unit_words : list jsstring :=
  [js "mm"; js "millimetre"; js "millimètre"; js "millimetres";
   js "millimètres"].

(** 5) the loop [for (i = 0; i < tokens.length; i++)].  The array is
    kept as the tokens before index [i] ([before]) and those from [i] on;
    [tokens.splice(i, 1)] removes the token at [i], after which the loop,
    when it goes on, steps over the token that moved to index [i]. *)
Fixpoint fallback (before : list jsstring) (from_i : list jsstring)
  : option ParsedLine :=
  match from_i with
  | [] => None
  | tok :: after =>
    if test re_all_digits tok then
      let next := lower (match after with n :: _ => n | [] => [] end) in
      if existsb (str_eqb next) unit_words then
        fallback (before ++ [tok]) after
      else
        let quantity := parseInt tok in
        if leb quantity zero then fallback (before ++ [tok]) after
        else
          let itemLabel := trim (join (js " ") (before ++ after)) in
          if truthy itemLabel then Some (quantity, itemLabel)
          else
            match after with
            | [] => None
            | moved :: after' => fallback (before ++ [moved]) after'
            end
    else fallback (before ++ [tok]) after
  end.

Definition strategy5 (s : jsstring) : option ParsedLine :=
  fallback [] (split re_spaces s).

Definition first_of (a b : option ParsedLine) : option ParsedLine :=
  match a with Some x => Some x | None => b end.

Definition extractQuantityAndLabel (segment : jsstring)
  : option ParsedLine :=
  let s := trim segment in
  if negb (truthy s) then None
  else
    match strategy1 s with
    | Some r => Some r
    | None =>
      match strategy2 s with
      | Some r => Some r
      | None =>
        match strategy3 s with
        | Some r => Some r
        | None =>
          match strategy4 s with
          | Some r => Some r
          | None => strategy5 s
          end
        end
      end
    end.

End Extractor.

(* ================================================================== *)
(** * Expression evaluator ([frontend/src/App.tsx]) *)
(* ================================================================== *)

Module Evaluator.

(** What a parsing function does: it returns a value and leaves the
    cursor somewhere, or it throws.  The cursor [i] into [s] is kept as
    the suffix [s.slice(i)].  [OutOfFuel] belongs to the model only. *)
Inductive outcome : Type :=
| Ret (v : number) (rest : jsstring)
| Throw (msg : jsstring)
| OutOfFuel.

(** [skip]: [while (s[i] === " ") i++] *)
Fixpoint skip (s : jsstring) : jsstring :=
  match s with
  | c :: tl => if N.eqb c 32 then skip tl else s
  | [] => []
  end.

Definition msg_number_expected : jsstring := js "Nombre attendu".
Definition msg_missing_paren : jsstring := js "Parenthèse manquante".
Definition msg_empty : jsstring := js "Expression vide".
Definition msg_invalid : jsstring := js "Résultat invalide".
Definition msg_unexpected (c : N) : jsstring :=
  js "Caractère inattendu: " ++ [34%N; c; 34%N].

(** [peek() === c] *)
Definition peek_is (s : jsstring) (c : N) : bool :=
  match s with
  | x :: _ => N.eqb x c
  | [] => false
  end.

(** [consume()] *)
Definition consume (s : jsstring) : jsstring := tl s.

(** [number] *)
Definition number_ (s0 : jsstring) : outcome :=
  let s := skip s0 in
  match take_digits s with
  | [] => Throw msg_number_expected
  | ds => Ret (Number_of_digits ds) (skipn (length ds) s)
  end.

(** [factor], [term], [expr_]; the two [while (true)] loops are
    [term_loop] and [expr_loop], which carry the accumulator [v]. *)
Fixpoint factor (fuel : nat) (s0 : jsstring) {struct fuel} : outcome :=
  match fuel with
  | O => OutOfFuel
  | S f =>
    let s := skip s0 in
    if peek_is s 43 then factor f (consume s)
    else if peek_is s 45 then
      match factor f (consume s) with
      | Ret v r => Ret (neg v) r
      | o => o
      end
    else if peek_is s 40 then
      match expr_ f (consume s) with
      | Ret v r =>
        if peek_is (skip r) 41 then Ret v (consume (skip r))
        else Throw msg_missing_paren
      | o => o
      end
    else number_ s
  end

with term (fuel : nat) (s : jsstring) {struct fuel} : outcome :=
  match fuel with
  | O => OutOfFuel
  | S f =>
    match factor f s with
    | Ret v r => term_loop f v r
    | o => o
    end
  end

with term_loop (fuel : nat) (v : number) (s0 : jsstring) {struct fuel}
  : outcome :=
  match fuel with
  | O => OutOfFuel
  | S f =>
    let s := skip s0 in
    if peek_is s 42 then
      match factor f (consume s) with
      | Ret rhs r => term_loop f (mul v rhs) r
      | o => o
      end
    else if peek_is s 47 then
      match factor f (consume s) with
      | Ret rhs r => term_loop f (div v rhs) r
      | o => o
      end
    else Ret v s
  end

with expr_ (fuel : nat) (s : jsstring) {struct fuel} : outcome :=
  match fuel with
  | O => OutOfFuel
  | S f =>
    match term f s with
    | Ret v r => expr_loop f v r
    | o => o
    end
  end

with expr_loop (fuel : nat) (v : number) (s0 : jsstring) {struct fuel}
  : outcome :=
  match fuel with
  | O => OutOfFuel
  | S f =>
    let s := skip s0 in
    if peek_is s 43 then
      match term f (consume s) with
      | Ret rhs r => expr_loop f (add v rhs) r
      | o => o
      end
    else if peek_is s 45 then
      match term f (consume s) with
      | Ret rhs r => expr_loop f (sub v rhs) r
      | o => o
      end
    else Ret v s
  end.

(** [{ value, error? }] *)
Record EvalResult : Type := mkEval {
  value : number;
  error : option jsstring
}.

Definition failure (msg : jsstring) : EvalResult := mkEval zero (Some msg).

(** [e?.message || "Erreur de calcul"] *)
Definition caught (msg : jsstring) : jsstring :=
  if truthy msg then msg else js "Erreur de calcul".

Definition evalExprSafe_fuel (fuel : nat) (expr : jsstring)
  : option EvalResult :=
  let s := trim expr in
  if negb (truthy s) then Some (failure msg_empty)
  else
    match expr_ fuel s with
    | Ret v r =>
      match skip r with
      | c :: _ => Some (failure (msg_unexpected c))
      | [] =>
        if negb (isFinite v) then Some (failure msg_invalid)
        else Some (mkEval v None)
      end
    | Throw msg => Some (failure (caught msg))
    | OutOfFuel => None
    end.

(** The recursion is at most three calls deep per character read. *)
Definition evalExprSafe (expr : jsstring) : option EvalResult :=
  evalExprSafe_fuel (3 * length (trim expr) + 3) expr.

(** [if (r.error)] *)
Definition has_error (r : EvalResult) : bool :=
  match error r with Some m => truthy m | None => false end.

End Evaluator.

Export Evaluator.

(* ================================================================== *)
(** * Streaming session ([frontend/src/App.tsx]) *)
(* ================================================================== *)

(** ** Data of the component *)

Record ContainerLine : Type := mkLine {
  line_id : jsstring;
  itemLabel : jsstring;
  quantity : number
}.

Record Container : Type := mkContainer {
  container_id : jsstring;
  label : jsstring;
  lines : list ContainerLine
}.

Record SummaryLine : Type := mkSummary {
  sum_itemLabel : jsstring;
  totalQuantity : number
}.

(** The status texts, with the values interpolated into them. *)
Inductive Status : Type :=
| StContainerCreated (label : jsstring)
| StCreateError (msg : jsstring)
| StEmptyReference
| StActiveReference (label : jsstring)
| StNoActiveReference (seg : jsstring)
| StCalcError (msg seg : jsstring)
| StNothingAdded (v : number)
| StAdded (v : number) (item : jsstring)
| StSegmentError (msg : jsstring)
| StReset.

(** What a handler does, in order: state setters of the component,
    calls of [createContainer] and [addLine], requests to the backend. *)
Inductive Effect : Type :=
| SetContainerLabel (l : jsstring)
| SetContainer (c : Container)
| SetActiveItem (l : jsstring)
| SetExprDraft (e : jsstring)
| SetRefInput (l : jsstring)
| SetQtyInput (q : number)
| SetSummary (s : list SummaryLine)
| SetLoading (b : bool)
| SetStatus (st : Status)
| CallCreateContainer (l : jsstring)
| CallAddLine (item : jsstring) (qty : number)
| PostContainer (l : jsstring)
| PostLine (container : jsstring) (item : jsstring) (qty : number).

(** What the backend answers to the three requests of [addLine]: the
    message of the error thrown by the first request that fails, or the
    refreshed container and summary. *)
Inductive AddLineAnswer : Type :=
| PostRejected (msg : jsstring)
| ContainerRejected (msg : jsstring)
| SummaryRejected (c : Container) (msg : jsstring)
| Refreshed (c : Container) (s : list SummaryLine).

(** The values a render of the component binds: every function declared
    in the component body ([handleSegment], [processBuffer], [addLine],
    [createContainer]) closes over the constants of the render that
    created it; a setter schedules the value of a later render and leaves
    these constants as they are. *)
Record Render : Type := mkRender {
  containerLabel : jsstring;
  container : option Container;
  activeItem : jsstring
}.

Section Streaming.

Variable toLowerCaseWide : jsstring -> jsstring.

(** The backend as seen from the component: the answer to the creation
    of a container (the container, or the message of the error thrown by
    [api]), and the answer to the requests of [addLine]. *)
Variable remote_create : jsstring -> Container + jsstring.
Variable remote_addLine : Container -> jsstring -> number -> AddLineAnswer.

Let lower : jsstring -> jsstring := toLowerCase toLowerCaseWide.

Definition word (w : jsstring) : regex := seq [WordB; lit w; WordB].

Definition const (v : jsstring) : jsstring -> list (nat * jsstring) -> jsstring :=
  fun _ _ => v.

(** [/(\d)\s*x\s*(\d)/g] *)
Definition re_digit_x_digit : regex :=
  seq [Group 1 digit; star space; chr 120; star space; Group 2 digit].

(** [/[^0-9+\-*/().]/g] *)
Definition is_expr_char (c : N) : bool :=
  is_digit c || existsb (N.eqb c) [43; 45; 42; 47; 40; 41; 46]%N.

Definition re_not_expr_char : regex := Chr (fun c => negb (is_expr_char c)).

Definition normalizeMathSpeech (text : jsstring) : jsstring :=
  let t := lower text in
  let t := replace_all (word (js "plus")) (const (js "+")) t in
  let t := replace_all (word (js "moins")) (const (js "-")) t in
  let t := replace_all (word (js "fois")) (const (js "*")) t in
  let t := replace_all (word (js "multiplie")) (const (js "*")) t in
  let t := replace_all (word (js "divise")) (const (js "/")) t in
  let t := replace_all (word (js "divisé")) (const (js "/")) t in
  let t := replace_all (word (js "par")) (const []) t in
  let t := replace_all re_digit_x_digit
             (fun _ cs => cap cs 1 ++ js "*" ++ cap cs 2) t in
  let t := replace_all re_not_expr_char (const []) t in
  let t := replace_all (plus space) (const []) t in
  t.

(** [createContainer(label)] *)
Definition createContainer (env : Render) (lbl0 : option jsstring)
  : list Effect :=
  let lbl := trim (match lbl0 with Some l => l | None => containerLabel env end) in
  if negb (truthy lbl) then []
  else
    [SetLoading true; PostContainer lbl] ++
    match remote_create lbl with
    | inl c =>
      [SetContainer c; SetActiveItem []; SetExprDraft []; SetRefInput [];
       SetQtyInput (of_Z 1); SetSummary [];
       SetStatus (StContainerCreated (label c))]
    | inr msg => [SetStatus (StCreateError msg)]
    end ++ [SetLoading false].

(** [addLine(itemLabel, quantity)]: the effects and the error thrown. *)
Definition addLine (env : Render) (item : jsstring) (qty : number)
  : list Effect * option jsstring :=
  match container env with
  | None => ([], None)
  | Some c =>
    let post := PostLine (container_id c) item qty in
    match remote_addLine c item qty with
    | PostRejected msg => ([post], Some msg)
    | ContainerRejected msg => ([post], Some msg)
    | SummaryRejected c' msg => ([post; SetContainer c'], Some msg)
    | Refreshed c' s => ([post; SetContainer c'; SetSummary s], None)
    end
  end.

(** [/^(\s*(contenant|container|carton|bac)\s* )/i] (one space added
    before the last parenthesis) *)
Definition re_container_prefix : regex :=
  seq [Bol;
       Group 1 (seq [star space;
                     Group 2 (alt [lit_i (js "contenant");
                                   lit_i (js "container");
                                   lit_i (js "carton");
                                   lit_i (js "bac")]);
                     star space])].

(** [/^(\s*(référence|reference|ref|article)\s* )/i] (one space added
    before the last parenthesis) *)
Definition re_reference_prefix : regex :=
  seq [Bol;
       Group 1 (seq [star space;
                     Group 2 (alt [lit_i (js "référence");
                                   lit_i (js "reference");
                                   lit_i (js "ref");
                                   lit_i (js "article")]);
                     star space])].

Definition is_container_segment (low : jsstring) : bool :=
  startsWith low (js "contenant") || startsWith low (js "container")
  || startsWith low (js "carton") || startsWith low (js "bac").

Definition is_reference_segment (low : jsstring) : bool :=
  startsWith low (js "référence") || startsWith low (js "reference")
  || startsWith low (js "ref") || startsWith low (js "article").

(** [handleSegment(raw)]: the effects in order and the error thrown, if
    any; [None] only if the evaluator's model ran out of fuel. *)
Definition handleSegment (env : Render) (raw : jsstring)
  : option (list Effect * option jsstring) :=
  let seg := trim raw in
  if negb (truthy seg) then Some ([], None)
  else
    let low := trim (lower seg) in
    if is_container_segment low then
      let stripped := trim (replace_first re_container_prefix (const []) seg) in
      let label := if truthy stripped then stripped else containerLabel env in
      Some (SetContainerLabel label :: CallCreateContainer label
              :: createContainer env (Some label), None)
    else if is_reference_segment low then
      let label := trim (replace_first re_reference_prefix (const []) seg) in
      if negb (truthy label) then Some ([SetStatus StEmptyReference], None)
      else
        Some ([SetActiveItem label; SetRefInput label; SetExprDraft [];
               SetQtyInput (of_Z 1); SetStatus (StActiveReference label)],
              None)
    else if negb (truthy (trim (activeItem env))) then
      Some ([SetStatus (StNoActiveReference seg)], None)
    else
      let expr := normalizeMathSpeech seg in
      match evalExprSafe expr with
      | None => None
      | Some r =>
        if has_error r then
          Some ([SetExprDraft expr;
                 SetStatus (StCalcError
                              (match error r with Some m => m | None => [] end)
                              seg)], None)
        else if leb (value r) zero then
          Some ([SetExprDraft expr; SetStatus (StNothingAdded (value r))],
                None)
        else
          let '(effs, err) := addLine env (activeItem env) (value r) in
          Some ([SetExprDraft expr; SetQtyInput (value r);
                 SetStatus (StAdded (value r) (activeItem env));
                 CallAddLine (activeItem env) (value r)]
                ++ effs
                ++ match err with
                   | None => [SetExprDraft []]
                   | Some _ => []
                   end,
                err)
      end.

(** [/\b(ok|okay|okey|d'accord|dac)\b/i] *)
Definition okRe : regex :=
  seq [WordB;
       Group 1 (alt [lit_i (js "ok"); lit_i (js "okay"); lit_i (js "okey");
                     lit_i (js "d'accord"); lit_i (js "dac")]);
       WordB].

(** The loop of [processBuffer]: effects so far, and the buffer left.
    Every turn removes a marker from the buffer, so its length bounds the
    number of turns. *)
Fixpoint drain (fuel : nat) (env : Render) (buf : jsstring)
  : option (list Effect * jsstring) :=
  match fuel with
  | O => None
  | S f =>
    match exec okRe buf with
    | None => Some ([], buf)
    | Some m =>
      let seg := trim (slice buf 0 (index m)) in
      let buf' := trim (slice_from buf (index m + length (matched m))) in
      match handleSegment env seg with
      | None => None
      | Some (effs, thrown) =>
        let effs' :=
          effs ++ match thrown with
                  | Some msg => [SetStatus (StSegmentError msg)]
                  | None => []
                  end in
        match drain f env buf' with
        | None => None
        | Some (more, final) => Some (effs' ++ more, final)
        end
      end
    end
  end.

(** [processBuffer()], run on the buffer [bufferRef.current]; the second
    component is the value stored back into it. *)
Definition processBuffer (env : Render) (buffer : jsstring)
  : option (list Effect * jsstring) :=
  drain (S (length buffer)) env buffer.

(** The effect on [finalTranscript]: the new part of the transcript is
    appended to the buffer, which is then drained. *)
Definition ingest (env : Render) (buffer newPart : jsstring)
  : option (list Effect * jsstring) :=
  processBuffer env (trim (buffer ++ js " " ++ newPart)).

End Streaming.

(** The state the setters act on, as the next render will see it. *)
Record UiState : Type := mkUi {
  ui_containerLabel : jsstring;
  ui_container : option Container;
  ui_activeItem : jsstring;
  ui_exprDraft : jsstring;
  ui_status : option Status
}.

Definition apply_effect (u : UiState) (e : Effect) : UiState :=
  match e with
  | SetContainerLabel l =>
    mkUi l (ui_container u) (ui_activeItem u) (ui_exprDraft u) (ui_status u)
  | SetContainer c =>
    mkUi (ui_containerLabel u) (Some c) (ui_activeItem u) (ui_exprDraft u)
         (ui_status u)
  | SetActiveItem l =>
    mkUi (ui_containerLabel u) (ui_container u) l (ui_exprDraft u)
         (ui_status u)
  | SetExprDraft e =>
    mkUi (ui_containerLabel u) (ui_container u) (ui_activeItem u) e
         (ui_status u)
  | SetStatus st =>
    mkUi (ui_containerLabel u) (ui_container u) (ui_activeItem u)
         (ui_exprDraft u) (Some st)
  | _ => u
  end.

Definition apply_effects (u : UiState) (es : list Effect) : UiState :=
  fold_left apply_effect es u.

Definition render_of (u : UiState) : Render :=
  mkRender (ui_containerLabel u) (ui_container u) (ui_activeItem u).

(** The component as first rendered. *)
Definition initial_ui : UiState :=
  mkUi (js "Contenant 001") None [] [] None.

Definition is_add_line (e : Effect) : bool :=
  match e with CallAddLine _ _ => true | _ => false end.


(* ================================================================== *)
(** * Batch mode: normalizer and parser ([backend/src/index.ts]) *)
(* ================================================================== *)

Module Normalizer.

(** [/\bpoint[\s-]?virgule\b/gi] *)
Definition re_point_virgule : regex :=
  seq [WordB; lit_i (js "point");
       opt (Chr (fun c => is_space c || N.eqb c 45));
       lit_i (js "virgule"); WordB].

(** [/\bvirgule\b/gi] *)
Definition re_virgule : regex := seq [WordB; lit_i (js "virgule"); WordB].

Definition number_words : list jsstring :=
  [js "un"; js "une"; js "deux"; js "trois"; js "quatre"; js "cinq";
   js "six"; js "sept"; js "huit"; js "neuf"; js "dix"; js "onze";
   js "douze"; js "treize"; js "quatorze"; js "quinze"; js "seize";
   js "vingt"].

(** [/\bet\s+(?=(\d+|un|une|deux|...|vingt)\b)/gi] *)
Definition re_et : regex :=
  seq [WordB; lit_i (js "et"); plus space;
       Look (seq [Group 1 (alt (plus digit :: map lit_i number_words));
                  WordB])].

(** [[+−-]]: plus, the minus sign U+2212, hyphen-minus *)
Definition is_operator (c : N) : bool :=
  N.eqb c 43 || N.eqb c 8722 || N.eqb c 45.

(** [/\s*[+−-]\s*/g] *)
Definition re_operator : regex :=
  seq [star space; Chr is_operator; star space].

(** [/\bfois\b/gi] *)
Definition re_fois : regex := seq [WordB; lit_i (js "fois"); WordB].

(** [[x×]] under the [i] flag *)
Definition is_times (c : N) : bool := ci 120 c || ci 215 c.

(** [/\bm\s*(\d+)\s*[x×]\s*(\d+)\b/gi] *)
Definition re_dimension : regex :=
  seq [WordB; chr_i 109; star space; Group 1 (plus digit); star space;
       Chr is_times; star space; Group 2 (plus digit); WordB].

(** [/\bm\s*(\d+)\b/gi] *)
Definition re_metric : regex :=
  seq [WordB; chr_i 109; star space; Group 1 (plus digit); WordB].

Definition const (v : jsstring) : jsstring -> list (nat * jsstring) -> jsstring :=
  fun _ _ => v.

Definition sep_semicolon (t : jsstring) : jsstring :=
  replace_all re_point_virgule (const (js ";")) t.
Definition sep_comma (t : jsstring) : jsstring :=
  replace_all re_virgule (const (js ",")) t.
Definition sep_et (t : jsstring) : jsstring :=
  replace_all re_et (const (js ", ")) t.
Definition sep_operator (t : jsstring) : jsstring :=
  replace_all re_operator (const (js ", ")) t.
Definition mult_fois (t : jsstring) : jsstring :=
  replace_all re_fois (const (js "x")) t.
Definition glue_dimension (t : jsstring) : jsstring :=
  replace_all re_dimension
    (fun _ cs => js "M" ++ cap cs 1 ++ js "x" ++ cap cs 2) t.
Definition glue_metric (t : jsstring) : jsstring :=
  replace_all re_metric (fun _ cs => js "M" ++ cap cs 1) t.
Definition collapse_spaces (t : jsstring) : jsstring :=
  replace_all (plus space) (const (js " ")) t.

(** [normalizeDictation(raw)], one definition per statement. *)
Definition normalizeDictation (raw : jsstring) : jsstring :=
  let t := trim raw in
  let t := sep_semicolon t in
  let t := sep_comma t in
  let t := sep_et t in
  let t := sep_operator t in
  let t := mult_fois t in
  let t := glue_dimension t in
  let t := glue_metric t in
  let t := trim (collapse_spaces t) in
  t.

End Normalizer.

Export Normalizer.

Section BatchParser.

Variable toLowerCaseWide : jsstring -> jsstring.

(** [/[;,]+/g] *)
Definition re_separators : regex :=
  plus (Chr (fun c => N.eqb c 59 || N.eqb c 44)).

(** [parseDictation(text)] *)
Definition parseDictation (text : jsstring) : list (jsstring * number) :=
  let norm := normalizeDictation text in
  let segments := filter truthy (map trim (split re_separators norm)) in
  flat_map
    (fun seg =>
       match extractQuantityAndLabel toLowerCaseWide seg with
       | None => []
       | Some (quantity, itemLabel) =>
         [(trim (collapse_spaces itemLabel), quantity)]
       end)
    segments.

End BatchParser.

(* ================================================================== *)
(** * Summary ([backend/src/index.ts], [backend/src/parsing.ts]) *)
(* ================================================================== *)

Section Summary.

(** [a.localeCompare(b)] is given by the platform: negative, zero or
    positive. *)
Variable localeCompare : jsstring -> jsstring -> Z.

(** A [Map<string, number>] keeps its keys in insertion order. *)
Definition totals_map : Type := list (jsstring * number).

Fixpoint map_get (m : totals_map) (k : jsstring) : option number :=
  match m with
  | [] => None
  | (k', v) :: tl => if str_eqb k' k then Some v else map_get tl k
  end.

Fixpoint map_set (m : totals_map) (k : jsstring) (v : number) : totals_map :=
  match m with
  | [] => [(k, v)]
  | (k', v') :: tl =>
    if str_eqb k' k then (k', v) :: tl else (k', v') :: map_set tl k v
  end.

(** [totals.set(l.itemLabel, (totals.get(l.itemLabel) ?? 0) + l.quantity)] *)
Definition add_line (m : totals_map) (l : ContainerLine) : totals_map :=
  map_set m (itemLabel l)
    (add (match map_get m (itemLabel l) with Some v => v | None => zero end)
         (quantity l)).

Definition totals (ls : list ContainerLine) : totals_map :=
  fold_left add_line ls [].

(** [Array.prototype.sort] is stable; for a comparator that is a
    consistent order every conforming implementation returns the list
    computed here. *)
Fixpoint insert_sorted (x : SummaryLine) (l : list SummaryLine)
  : list SummaryLine :=
  match l with
  | [] => [x]
  | y :: tl =>
    if (localeCompare (sum_itemLabel x) (sum_itemLabel y) <=? 0)%Z
    then x :: l else y :: insert_sorted x tl
  end.

Fixpoint sort (l : list SummaryLine) : list SummaryLine :=
  match l with
  | [] => []
  | x :: tl => insert_sorted x (sort tl)
  end.

(** The body shared by [getSummary] and the route
    [GET /containers/:id/summary]. *)
Definition summarize (ls : list ContainerLine) : list SummaryLine :=
  sort (map (fun e => mkSummary (fst e) (snd e)) (totals ls)).

Definition getSummary (c : option Container) : option (list SummaryLine) :=
  match c with
  | None => None
  | Some c => Some (summarize (lines c))
  end.

End Summary.

(** Concrete stand-ins for the parameters, used where a statement is
    about one run: no case mapping beyond Latin-1, a backend that is
    not reachable. *)
Definition wide_unchanged : jsstring -> jsstring := fun s => s.

(** The shape of a result of the evaluator: a finite value and no
    error, or the value 0 and a message that is not empty. *)
Definition well_formed_result (r : EvalResult) : Prop :=
  (error r = None /\ isFinite (value r) = true) \/
  (exists msg, error r = Some msg /\ msg <> [] /\ value r = zero).


(** ** Statement of the dispatch gating *)

Section Gating.
Variable w : jsstring -> jsstring.
Variable rc : jsstring -> Container + jsstring.
Variable ra : Container -> jsstring -> number -> AddLineAnswer.


End Gating.

(** ** Statement of the stability of the summary *)

(** A line whose quantity is an integer: identifier, label, quantity. *)
Definition int_line (l : jsstring * jsstring * Z) : ContainerLine :=
  mkLine (fst (fst l)) (snd (fst l)) (of_Z (snd l)).

Definition int_total (ls : list (jsstring * jsstring * Z)) : Z :=
  fold_right (fun l acc => (snd l + acc)%Z) 0%Z ls.

(** The comparator orders the strings of [L]: any two are comparable,
    the order is transitive, and two strings that compare equal are the
    same string. *)
Definition orders (cmp : jsstring -> jsstring -> Z) (L : list jsstring)
  : Prop :=
  (forall a b, In a L -> In b L -> (cmp a b <= 0 \/ cmp b a <= 0)%Z) /\
  (forall a b c, In a L -> In b L -> In c L ->
                 (cmp a b <= 0 -> cmp b c <= 0 -> cmp a c <= 0)%Z) /\
  (forall a b, In a L -> In b L ->
               (cmp a b <= 0 -> cmp b a <= 0 -> a = b)%Z).

(** Comparison of two strings code unit by code unit, a comparator that
    orders all strings. *)
Fixpoint compare_units (a b : jsstring) : Z :=
  match a, b with
  | [], [] => 0
  | [], _ :: _ => -1
  | _ :: _, [] => 1
  | x :: a', y :: b' =>
    match N.compare x y with
    | Lt => -1
    | Gt => 1
    | Eq => compare_units a' b'
    end
  end%Z.

(** 0.1, 0.2 and 0.3 as the evaluator computes them from "1/10", "2/10"
    and "3/10". *)
Definition tenths (n : Z) : number := div (of_Z n) (of_Z 10).

(** Three lines of one item with the quantities 0.1, 0.2 and 0.3. *)
Definition tenth_lines : list ContainerLine :=
  [mkLine (js "l1") (js "vis") (tenths 1);
   mkLine (js "l2") (js "vis") (tenths 2);
   mkLine (js "l3") (js "vis") (tenths 3)].

(** The lines of the documented example of the aggregator. *)
Definition example_lines : list (jsstring * jsstring * Z) :=
  [(js "l1", js "M6x20", 10); (js "l2", js "M8x30", 3);
   (js "l3", js "M6x20", 5)]%Z.

(** The sum of the quantities of the lines with label [k], and whether
    there is such a line. *)
Definition label_sum (k : jsstring) (ls : list (jsstring * jsstring * Z)) : Z :=
  fold_right (fun l acc => if str_eqb (snd (fst l)) k then snd l + acc else acc)%Z
             0%Z ls.

Definition has_label (k : jsstring) (ls : list (jsstring * jsstring * Z))
  : bool :=
  existsb (fun l => str_eqb (snd (fst l)) k) ls.

Definition lab (x : SummaryLine) : jsstring := sum_itemLabel x.

(** [shl m k] is [m * 2^k]. *)
Definition shl (m : positive) (k : Z) : positive :=
  match k with
  | Zpos n => Pos.iter xO m n
  | _ => m
  end.

(** The binary64 value of a positive integer of at most 53 bits. *)
Definition normal (V : positive) : number :=
  S754_finite false (shl V (53 - Zpos (digits2_pos V))%Z)
              (Zpos (digits2_pos V) - 53)%Z.

(** ** Statements about the normalizer *)

(** The captures are pieces of the input: a property of all code units
    of the input holds of all code units of every capture. *)
Definition caps_all (P : N -> Prop) (cs : list (nat * jsstring)) : Prop :=
  Forall (fun e => Forall P (snd e)) cs.

(** A code unit that is none of [+], [-], U+2212. *)
Definition not_operator (c : N) : Prop := is_operator c = false.

(* ------------------------------------------------------------------ *)
(** ** Notions for the idempotence of the normalizer *)

(** ** Contexts, runs and pieces *)

(** The code unit before the cursor once [s] has been read, [pv] being
    the one before [s]. *)
Definition lastc (pv : option N) (s : jsstring) : option N :=
  fold_left (fun _ c => Some c) s pv.

Definition pv_word (pv : option N) : bool :=
  match pv with Some c => is_word c | None => false end.

Definition head_word (s : jsstring) : bool :=
  match s with c :: _ => is_word c | [] => false end.

Definition last_word (s : jsstring) : bool := pv_word (lastc None s).

Fixpoint take_while (p : N -> bool) (s : jsstring) : jsstring :=
  match s with
  | c :: tl => if p c then c :: take_while p tl else []
  | [] => []
  end.

Fixpoint drop_while (p : N -> bool) (s : jsstring) : jsstring :=
  match s with
  | c :: tl => if p c then drop_while p tl else s
  | [] => []
  end.

Definition head_is (p : N -> bool) (s : jsstring) : bool :=
  match s with c :: _ => p c | [] => false end.

(** [x] is [w] up to case. *)
Fixpoint ci_eq (w x : jsstring) : bool :=
  match w, x with
  | [], [] => true
  | p :: w', c :: x' => ci p c && ci_eq w' x'
  | _, _ => false
  end.

Definition all (p : N -> bool) (s : jsstring) : Prop :=
  Forall (fun c => p c = true) s.

Definition none (p : N -> bool) (s : jsstring) : Prop :=
  Forall (fun c => p c = false) s.

(** A global replacement seen as a list of pieces: a unit that is kept,
    or a match [M] replaced by [B]. *)
Inductive piece : Type :=
| Keep (c : N)
| Repl (M B : jsstring).

Definition src_piece (p : piece) : jsstring :=
  match p with Keep c => [c] | Repl M _ => M end.

Definition dst_piece (p : piece) : jsstring :=
  match p with Keep c => [c] | Repl _ B => B end.

Definition src (L : list piece) : jsstring := flat_map src_piece L.
Definition dst (L : list piece) : jsstring := flat_map dst_piece L.

(** Every kept unit stands where [nomatch] holds of the context and the
    text from there on, every replacement satisfies [rule] for its
    context, its match, its replacement text and the text after it. *)
Fixpoint pieces_ok (nomatch : option N -> jsstring -> Prop)
  (rule : option N -> jsstring -> jsstring -> jsstring -> Prop)
  (pv : option N) (L : list piece) : Prop :=
  match L with
  | [] => True
  | Keep c :: L' =>
    nomatch pv (c :: src L') /\ pieces_ok nomatch rule (Some c) L'
  | Repl M B :: L' =>
    rule pv M B (src L') /\ pieces_ok nomatch rule (lastc pv M) L'
  end.

(** What the scan with pattern [r] and replacement [f] guarantees. *)
Definition scan_nomatch (r : regex) : option N -> jsstring -> Prop :=
  fun pv s => exec_at r pv s = None.

Definition scan_rule (r : regex)
  (f : jsstring -> list (nat * jsstring) -> jsstring)
  : option N -> jsstring -> jsstring -> jsstring -> Prop :=
  fun pv M B rest =>
    M <> [] /\
    exists cs, exec_at r pv (M ++ rest) = Some (length M, cs) /\ B = f M cs.

(** A replacement text is not empty and is made of word units only or
    of other units only. *)
Definition uniform (B : jsstring) : Prop :=
  B <> [] /\ (all is_word B \/ none is_word B).

(** The edges of a replacement: the match does not start or end inside
    a run of word units, and the replacement text starts and ends with a
    word unit only if the match does. *)
Definition good_rule (pv : option N) (M B rest : jsstring) : Prop :=
  M <> [] /\ uniform B /\
  (last_word M = true -> head_word rest = false) /\
  (head_word M = true -> pv_word pv = false) /\
  (head_word B = true -> head_word M = true) /\
  (last_word B = true -> last_word M = true).

(** The window [W] occurs in [t], between two units that are not word
    units (or at an end of [t], [pv0] being what precedes [t]). *)
Definition occurs (W : jsstring -> Prop) (pv0 : option N) (t : jsstring)
  : Prop :=
  exists pre X suf,
    t = pre ++ X ++ suf /\ W X /\
    pv_word (lastc pv0 pre) = false /\ head_word suf = false.

(** A window starts and ends with a word unit. *)
Definition window (W : jsstring -> Prop) : Prop :=
  forall X, W X -> X <> [] /\ head_word X = true /\ last_word X = true.

(** Every replacement text of a piece list is uniform. *)
Definition blocks_uniform (L : list piece) : Prop :=
  forall M B, In (Repl M B) L -> uniform B.

(** ** What a pattern matches *)

(** Iterations of a quantifier, each of which consumes something. *)
Inductive iter (R : mstate -> mstate -> Prop) : mstate -> mstate -> Prop :=
| iter_nil st : iter R st st
| iter_step st st1 st2 :
    R st st1 -> pos st < pos st1 -> iter R st1 st2 -> iter R st st2.

(** [sem r st st']: the pattern [r] can take the matcher from [st] to
    [st'].  The matcher returns the first such way its continuation
    accepts. *)
Fixpoint sem (r : regex) (st st' : mstate) : Prop :=
  match r with
  | Eps => st' = st
  | Chr p =>
    exists c tl, rest st = c :: tl /\ p c = true /\ st' = advance c tl st
  | Seq r1 r2 => exists mid, sem r1 st mid /\ sem r2 mid st'
  | Alt r1 r2 => sem r1 st st' \/ sem r2 st st'
  | Star _ r1 => iter (sem r1) st st'
  | Group i r1 =>
    exists st1, sem r1 st st1 /\
      st' = set_cap i (firstn (pos st1 - pos st) (rest st)) st1
  | Bol => prev st = None /\ st' = st
  | Eol => rest st = [] /\ st' = st
  | WordB => xorb (word_before st) (word_after st) = true /\ st' = st
  | Look r1 =>
    exists st1, sem r1 st st1 /\
      st' = MState (prev st) (rest st) (pos st) (caps st1)
  end.

(** Two states that differ in their captures only. *)
Definition same_input (a b : mstate) : Prop :=
  prev a = prev b /\ rest a = rest b /\ pos a = pos b.

(** Two continuations that accept the same inputs, whatever the
    captures. *)
Definition alike (k k' : mstate -> option mstate) : Prop :=
  forall a b, same_input a b -> (k a = None <-> k' b = None).

(** ** What the patterns of the normalizer match *)

Definition lower_word (w : jsstring) : Prop := all is_ascii_lower w.

Definition digits (d : jsstring) : Prop := d <> [] /\ all is_digit d.

(** The separator [[\s-]] of [point virgule]. *)
Definition is_sep (c : N) : bool := is_space c || N.eqb c 45.

(** What the lookahead of [re_et] accepts. *)
Definition is_num (a : jsstring) : Prop :=
  digits a \/ exists w, In w number_words /\ ci_eq w a = true.

Definition point_virgule_match (X : jsstring) : Prop :=
  exists P sep V, X = P ++ sep ++ V /\
    ci_eq (js "point") P = true /\ ci_eq (js "virgule") V = true /\
    (sep = [] \/ exists c, sep = [c] /\ is_sep c = true).

Definition et_match (X : jsstring) : Prop :=
  exists e ws, X = e ++ ws /\ ci_eq (js "et") e = true /\
               all is_space ws /\ ws <> [].

Definition operator_match (X : jsstring) : Prop :=
  exists ws1 o ws2, X = ws1 ++ o :: ws2 /\
    all is_space ws1 /\ is_operator o = true /\ all is_space ws2.

Definition dimension_match (d1 d2 X : jsstring) : Prop :=
  exists m ws1 ws2 x ws3,
    X = m :: ws1 ++ d1 ++ ws2 ++ x :: ws3 ++ d2 /\
    ci 109 m = true /\ all is_space ws1 /\ digits d1 /\ all is_space ws2 /\
    is_times x = true /\ all is_space ws3 /\ digits d2.

Definition metric_match (d X : jsstring) : Prop :=
  exists m ws, X = m :: ws ++ d /\
    ci 109 m = true /\ all is_space ws /\ digits d.

(** A piece list without replacement. *)
Definition kept (l : list piece) : Prop :=
  Forall (fun p => match p with Keep _ => True | Repl _ _ => False end) l.

(** What the replacements of steps 6 to 8 have in common: a whole run of
    word units is replaced. *)
Definition run_rule (pv : option N) (M B rest : jsstring) : Prop :=
  M <> [] /\ pv_word pv = false /\ head_word rest = false /\
  head_word M = true /\ last_word M = true.

(** ** The steps of the normalizer as piece lists *)

Definition dim_text (d1 d2 : jsstring) : jsstring :=
  js "M" ++ d1 ++ js "x" ++ d2.

Definition met_text (d : jsstring) : jsstring := js "M" ++ d.

Definition rule_pv (pv : option N) (M B rest : jsstring) : Prop :=
  point_virgule_match M /\ B = js ";" /\
  pv_word pv = false /\ head_word rest = false.

Definition rule_word (w b : jsstring) (pv : option N) (M B rest : jsstring)
  : Prop :=
  ci_eq w M = true /\ B = b /\ pv_word pv = false /\ head_word rest = false.

Definition rule_et (pv : option N) (M B rest : jsstring) : Prop :=
  et_match M /\ B = js ", " /\ pv_word pv = false.

Definition rule_op (pv : option N) (M B rest : jsstring) : Prop :=
  operator_match M /\ B = js ", ".

Definition rule_dim (pv : option N) (M B rest : jsstring) : Prop :=
  (exists d1 d2, dimension_match d1 d2 M /\ B = dim_text d1 d2) /\
  pv_word pv = false /\ head_word rest = false.

Definition rule_met (pv : option N) (M B rest : jsstring) : Prop :=
  (exists d, metric_match d M /\ B = met_text d) /\
  pv_word pv = false /\ head_word rest = false.

Definition rule_sp (pv : option N) (M B rest : jsstring) : Prop :=
  M <> [] /\ all is_space M /\ head_is is_space rest = false /\ B = js " ".

Definition nm_sp (pv : option N) (s : jsstring) : Prop :=
  head_is is_space s = false.

(** ** What must not be left in a normalized text *)

Definition W_pv (X : jsstring) : Prop := ci_eq (js "pointvirgule") X = true.
Definition W_v (X : jsstring) : Prop := ci_eq (js "virgule") X = true.
Definition W_fois (X : jsstring) : Prop := ci_eq (js "fois") X = true.

Definition W_et (X : jsstring) : Prop :=
  exists M num, X = M ++ num /\ et_match M /\ is_num num.

(** A dimension or a metric reference that is not written the way the
    normalizer writes it. *)
Definition W_dim (X : jsstring) : Prop :=
  exists d1 d2, dimension_match d1 d2 X /\ X <> dim_text d1 d2.

Definition W_met (X : jsstring) : Prop :=
  exists d, metric_match d X /\ X <> met_text d.

(** No unit of [w] is [c], whatever the case. *)
Definition avoids (c : N) (w : jsstring) : bool :=
  forallb (fun p => negb (N.eqb p c) && negb (N.eqb (p - 32) c)) w.

Definition free (W : jsstring -> Prop) (t : jsstring) : Prop :=
  ~ occurs W None t.

(** The pieces of [collapse_spaces]: a replacement turns white space
    into one space. *)
Definition sp_pieces (l : list piece) : Prop :=
  forall M B, In (Repl M B) l -> M <> [] /\ all is_space M /\ B = js " ".

(** White space in a normalized text: single spaces, never two in a
    row. *)
Fixpoint ws_normal (s : jsstring) : Prop :=
  match s with
  | [] => True
  | c :: tl =>
    (is_space c = true -> c = 32%N /\ head_is is_space tl = false) /\
    ws_normal tl
  end.

(** No white space at either end. *)
Definition trimmed (s : jsstring) : Prop :=
  head_is is_space s = false /\ head_is is_space (rev s) = false.

(** What the normalizer guarantees of its result, and what makes it
    leave a text as it is. *)
Definition normalized (t : jsstring) : Prop :=
  trimmed t /\ ws_normal t /\ Forall not_operator t /\
  free W_pv t /\ free W_v t /\ free W_et t /\ free W_fois t /\
  free W_dim t /\ free W_met t.

(** A code unit of an expression: a digit or one of [+ - * / ( ) .]. *)
Definition expr_unit (c : N) : Prop := is_expr_char c = true.

(** [part] is a run of consecutive units of [s]. *)
Definition part_of (part s : jsstring) : Prop :=
  exists a b, s = a ++ part ++ b.

(** A line the batch parser may return: a quantity greater than 0 and a
    label that is not empty and has no white space at its ends. *)
Definition valid_line (q : number) (l : jsstring) : Prop :=
  gtb q zero = true /\ l <> [] /\ trimmed l.

(* ================================================================== *)
(** * The routes of the backend ([backend/src/index.ts]) *)
(* ================================================================== *)

(** [containers], a [Map<string, Container>]: keys in insertion order. *)
Definition Store : Type := list (jsstring * Container).

(** [containers.get(id)] *)
Fixpoint store_get (st : Store) (id : jsstring) : option Container :=
  match st with
  | [] => None
  | (k, c) :: tl => if str_eqb k id then Some c else store_get tl id
  end.

(** [containers.set(id, c)] *)
Fixpoint store_set (st : Store) (id : jsstring) (c : Container) : Store :=
  match st with
  | [] => [(id, c)]
  | (k, c0) :: tl =>
    if str_eqb k id then (k, c) :: tl else (k, c0) :: store_set tl id c
  end.

(** A container after a change of its array of lines (the object stored
    in the map is changed in place). *)
Definition with_lines (c : Container) (ls : list ContainerLine) : Container :=
  mkContainer (container_id c) (label c) ls.

(** [c.lines.find(l => l.id === lineId)] *)
Definition find_line (lineId : jsstring) (ls : list ContainerLine)
  : option ContainerLine :=
  find (fun l => str_eqb (line_id l) lineId) ls.

(** An assignment to a field of the line that [find] returned: the first
    line with that identifier is changed. *)
Fixpoint update_first (lineId : jsstring)
  (f : ContainerLine -> ContainerLine) (ls : list ContainerLine)
  : list ContainerLine :=
  match ls with
  | [] => []
  | l :: tl =>
    if str_eqb (line_id l) lineId then f l :: tl
    else l :: update_first lineId f tl
  end.

Definition set_itemLabel (v : jsstring) (l : ContainerLine) : ContainerLine :=
  mkLine (line_id l) v (quantity l).

Definition set_quantity (q : number) (l : ContainerLine) : ContainerLine :=
  mkLine (line_id l) (itemLabel l) q.

(** The body of a JSON answer. *)
Inductive Body : Type :=
| BodyOk
| BodyError (msg : jsstring)
| BodyLines (ls : list (jsstring * number))
| BodyContainer (c : Container)
| BodySummary (s : list SummaryLine).

Record Response : Type := mkResponse {
  code : nat;
  body : Body
}.

(** The requests the backend serves.  A field of a JSON body is absent
    ([None]) or has the type the frontend gives it: a string for [text],
    [label] and [itemLabel], a number for [quantity]. *)
Inductive Request : Type :=
| GetHealth
| PostParse (text : option jsstring)
| PostContainers (label : option jsstring)
| GetContainerById (id : jsstring)
| PostLines (id : jsstring) (itemLabel : option jsstring)
            (quantity : option number)
| PutLine (id lineId : jsstring) (itemLabel : option jsstring)
          (quantity : option number)
| GetSummaryById (id : jsstring).

(** [String(x ?? "")] for a string or an absent field. *)
Definition string_or_empty (x : option jsstring) : jsstring :=
  match x with Some s => s | None => [] end.

(** [Number(x)] for a number or an absent field. *)
Definition number_or_nan (x : option number) : number :=
  match x with Some q => q | None => NaN end.

(** [!Number.isFinite(q) || q <= 0] *)
Definition bad_quantity (q : number) : bool :=
  negb (isFinite q) || leb q zero.

Definition err (c : nat) (msg : string) : Response :=
  mkResponse c (BodyError (js msg)).

Section Backend.

Variable toLowerCaseWide : jsstring -> jsstring.
Variable localeCompare : jsstring -> jsstring -> Z.

(** The handlers of [app]; [uid] is the identifier that [uid(10)] draws
    when the handler calls it.  The result is the map after the request
    and the answer. *)
Definition handle (uid : jsstring) (st : Store) (rq : Request)
  : Store * Response :=
  match rq with
  | GetHealth => (st, mkResponse 200 BodyOk)
  | PostParse text =>
    let text := string_or_empty text in
    if negb (truthy (trim text)) then (st, err 400 "text is required")
    else (st, mkResponse 200 (BodyLines (parseDictation toLowerCaseWide text)))
  | PostContainers lbl =>
    let lbl := trim (string_or_empty lbl) in
    if negb (truthy lbl) then (st, err 400 "label is required")
    else
      let c := mkContainer uid lbl [] in
      (store_set st uid c, mkResponse 201 (BodyContainer c))
  | GetContainerById id =>
    match store_get st id with
    | None => (st, err 404 "container not found")
    | Some c => (st, mkResponse 200 (BodyContainer c))
    end
  | PostLines id item qty =>
    match store_get st id with
    | None => (st, err 404 "container not found")
    | Some c =>
      let item := trim (string_or_empty item) in
      let qty := number_or_nan qty in
      if negb (truthy item) then (st, err 400 "itemLabel is required")
      else if bad_quantity qty
      then (st, err 400 "quantity must be a positive number")
      else
        let c' := with_lines c (lines c ++ [mkLine uid item qty]) in
        (store_set st id c', mkResponse 200 (BodyContainer c'))
    end
  | PutLine id lineId item qty =>
    match store_get st id with
    | None => (st, err 404 "container not found")
    | Some c =>
      match find_line lineId (lines c) with
      | None => (st, err 404 "line not found")
      | Some _ =>
        let after_label :=
          match item with
          | None => Some c
          | Some v0 =>
            let v := trim v0 in
            if negb (truthy v) then None
            else Some (with_lines c (update_first lineId (set_itemLabel v)
                                                  (lines c)))
          end in
        match after_label with
        | None => (st, err 400 "itemLabel cannot be empty")
        | Some c1 =>
          match qty with
          | None => (store_set st id c1, mkResponse 200 (BodyContainer c1))
          | Some q =>
            if bad_quantity q
            then (store_set st id c1,
                  err 400 "quantity must be a positive number")
            else
              let c2 := with_lines c1 (update_first lineId (set_quantity q)
                                                    (lines c1)) in
              (store_set st id c2, mkResponse 200 (BodyContainer c2))
          end
        end
      end
    end
  | GetSummaryById id =>
    match store_get st id with
    | None => (st, err 404 "container not found")
    | Some c =>
      (st, mkResponse 200 (BodySummary (summarize localeCompare (lines c))))
    end
  end.

(** The map after a sequence of requests, each with the identifier drawn
    while it is served. *)
Definition serve (st : Store) (rqs : list (jsstring * Request)) : Store :=
  fold_left (fun st e => fst (handle (fst e) st (snd e))) rqs st.

End Backend.

(** What the routes keep true of the map: a container is stored under
    its identifier and has a label; a line has a label and a finite
    quantity greater than 0; labels have no white space at their ends. *)
Definition line_ok (l : ContainerLine) : Prop :=
  itemLabel l <> [] /\ trimmed (itemLabel l) /\
  isFinite (quantity l) = true /\ gtb (quantity l) zero = true.

Definition container_ok (id : jsstring) (c : Container) : Prop :=
  container_id c = id /\ label c <> [] /\ trimmed (label c) /\
  Forall line_ok (lines c).

Definition store_ok (st : Store) : Prop :=
  forall id c, store_get st id = Some c -> container_ok id c.

(** A request that changes a label and a quantity at once. *)
Definition changes_both (rq : Request) : bool :=
  match rq with
  | PutLine _ _ (Some _) (Some _) => true
  | _ => false
  end.

(* ================================================================== *)
(** * The store of containers ([backend/src/parsing.ts], second part) *)
(* ================================================================== *)

(** [{ itemLabel?: string; quantity?: number }] *)
Record Patch : Type := mkPatch {
  patch_itemLabel : option jsstring;
  patch_quantity : option number
}.

(** The two assignments of [updateLine], each made when the field of
    the patch has the expected type. *)
Definition apply_patch (p : Patch) (l : ContainerLine) : ContainerLine :=
  let l1 := match patch_itemLabel p with
            | Some v => set_itemLabel v l
            | None => l
            end in
  match patch_quantity p with
  | Some q => set_quantity q l1
  | None => l1
  end.

(** The functions of the store; [nanoid] is the identifier drawn by
    [nanoid(10)].  Each returns the map after the call and its result
    ([None] for [undefined]). *)
Module StoreApi.

Definition createContainer (nanoid : jsstring) (st : Store) (lbl : jsstring)
  : Store * Container :=
  let c := mkContainer nanoid lbl [] in
  (store_set st nanoid c, c).

Definition getContainer (st : Store) (id : jsstring) : option Container :=
  store_get st id.

Definition addLine (nanoid : jsstring) (st : Store)
  (containerId item : jsstring) (qty : number) : Store * option Container :=
  match store_get st containerId with
  | None => (st, None)
  | Some c =>
    let c' := with_lines c (lines c ++ [mkLine nanoid item qty]) in
    (store_set st containerId c', Some c')
  end.

Definition updateLine (st : Store) (containerId lineId : jsstring) (p : Patch)
  : Store * option Container :=
  match store_get st containerId with
  | None => (st, None)
  | Some c =>
    match find_line lineId (lines c) with
    | None => (st, None)
    | Some _ =>
      let c' := with_lines c (update_first lineId (apply_patch p) (lines c)) in
      (store_set st containerId c', Some c')
    end
  end.

Definition getSummary (localeCompare : jsstring -> jsstring -> Z)
  (st : Store) (containerId : jsstring) : option (list SummaryLine) :=
  getSummary localeCompare (store_get st containerId).

End StoreApi.

(** The identifiers of the lines of the container stored under [id]. *)
Definition line_ids (st : Store) (id : jsstring) : option (list jsstring) :=
  option_map (fun c => map line_id (lines c)) (store_get st id).

(* ================================================================== *)
(** * The simple parser ([backend/src/parsing.ts], first part) *)
(* ================================================================== *)

(** [s.indexOf(t)]: the first index at which [t] occurs in [s], or -1. *)
Fixpoint indexOf_from (s t : jsstring) (i : Z) : Z :=
  if startsWith s t then i
  else
    match s with
    | [] => (-1)%Z
    | _ :: tl => indexOf_from tl t (i + 1)
    end.

Definition indexOf (s t : jsstring) : Z := indexOf_from s t 0.

(** An argument of [slice] as an index into a string of length [len]:
    a negative one counts from the end. *)
Definition slice_index (len : nat) (i : Z) : nat :=
  if (i <? 0)%Z then Z.to_nat (Z.max 0 (Z.of_nat len + i))
  else Nat.min (Z.to_nat i) len.

(** [s.slice(a, b)] and [s.slice(a)] *)
Definition slice_between (s : jsstring) (a b : Z) : jsstring :=
  firstn (slice_index (length s) b - slice_index (length s) a)
         (skipn (slice_index (length s) a) s).

Definition slice_after (s : jsstring) (a : Z) : jsstring :=
  skipn (slice_index (length s) a) s.

(** [/[;,]/g] *)
Definition re_separator : regex := Chr (fun c => N.eqb c 59 || N.eqb c 44).

(** The body of the loop of [parseDictationText] for one segment:
    [None] where the loop goes on to the next segment. *)
Definition parse_segment (seg : jsstring) : option (jsstring * number) :=
  match exec (plus digit) seg with
  | None => None
  | Some m =>
    let qty := parseInt (matched m) in
    if negb (isFinite qty) then None
    else
      let idx := indexOf seg (matched m) in
      let itemLabel :=
        trim (slice_between seg 0 idx
              ++ slice_after seg (idx + Z.of_nat (length (matched m)))) in
      if negb (truthy itemLabel) then None
      else Some (itemLabel, qty)
  end.

(** [parseDictationText(text)] *)
Definition parseDictationText (text : jsstring) : list (jsstring * number) :=
  let raw := trim text in
  if negb (truthy raw) then []
  else
    let segments := filter truthy (map trim (split re_separator raw)) in
    flat_map (fun seg => match parse_segment seg with
                         | Some line => [line]
                         | None => []
                         end)
             segments.

(* ================================================================== *)
(** * Local totals of the component ([frontend/src/App.tsx]) *)
(* ================================================================== *)

Section LocalTotals.

Variable toLowerCaseWide : jsstring -> jsstring.

(** [normKey(s)] *)
Definition normKey (s : jsstring) : jsstring :=
  toLowerCase toLowerCaseWide (trim s).

(** One turn of the loop of [totalsMap]. *)
Definition add_local (m : totals_map) (l : ContainerLine) : totals_map :=
  let k := normKey (itemLabel l) in
  map_set m k
    (add (match map_get m k with Some v => v | None => zero end)
         (quantity l)).

(** [totalsMap], for the lines [container?.lines || []]. *)
Definition totalsMap (c : option Container) : totals_map :=
  fold_left add_local (match c with Some c => lines c | None => [] end) [].

(** [currentSubtotal] *)
Definition currentSubtotal (activeItem : jsstring) (c : option Container)
  : number :=
  if negb (truthy (trim activeItem)) then zero
  else
    match map_get (totalsMap c) (normKey activeItem) with
    | Some v => v
    | None => zero
    end.

(** A line with its label replaced by its key. *)
Definition keyed (l : jsstring * jsstring * Z) : jsstring * jsstring * Z :=
  (fst (fst l), normKey (snd (fst l)), snd l).

End LocalTotals.

(* ================================================================== *)
(** * The grammar of the evaluator ([frontend/src/App.tsx]) *)
(* ================================================================== *)

(** The three levels of the evaluator, one per parsing function: a
    factor is a number, a signed factor or an expression in parentheses;
    a term is a factor followed by any number of [* factor] and
    [/ factor]; an expression is a term followed by any number of
    [+ term] and [- term].  The trees lean to the left, as the loops of
    [term] and [expr_] accumulate. *)
Inductive gfactor : Type :=
| GNum (ds : jsstring)
| GPlus (f : gfactor)
| GMinus (f : gfactor)
| GParen (e : gexpr)
with gterm : Type :=
| GFactor (f : gfactor)
| GMul (t : gterm) (f : gfactor)
| GDiv (t : gterm) (f : gfactor)
with gexpr : Type :=
| GTerm (t : gterm)
| GAdd (e : gexpr) (t : gterm)
| GSub (e : gexpr) (t : gterm).

(** The text of a tree, without white space (what [normalizeMathSpeech]
    hands over has none). *)
Fixpoint text_f (f : gfactor) : jsstring :=
  match f with
  | GNum ds => ds
  | GPlus f => 43%N :: text_f f
  | GMinus f => 45%N :: text_f f
  | GParen e => 40%N :: text_e e ++ [41%N]
  end
with text_t (t : gterm) : jsstring :=
  match t with
  | GFactor f => text_f f
  | GMul t f => text_t t ++ 42%N :: text_f f
  | GDiv t f => text_t t ++ 47%N :: text_f f
  end
with text_e (e : gexpr) : jsstring :=
  match e with
  | GTerm t => text_t t
  | GAdd e t => text_e e ++ 43%N :: text_t t
  | GSub e t => text_e e ++ 45%N :: text_t t
  end.

(** The number a tree stands for. *)
Fixpoint value_f (f : gfactor) : number :=
  match f with
  | GNum ds => Number_of_digits ds
  | GPlus f => value_f f
  | GMinus f => neg (value_f f)
  | GParen e => value_e e
  end
with value_t (t : gterm) : number :=
  match t with
  | GFactor f => value_f f
  | GMul t f => mul (value_t t) (value_f f)
  | GDiv t f => div (value_t t) (value_f f)
  end
with value_e (e : gexpr) : number :=
  match e with
  | GTerm t => value_t t
  | GAdd e t => add (value_e e) (value_t t)
  | GSub e t => sub (value_e e) (value_t t)
  end.

(** Every number of the tree is a run of digits that is not empty. *)
Fixpoint wf_f (f : gfactor) : Prop :=
  match f with
  | GNum ds => digits ds
  | GPlus f => wf_f f
  | GMinus f => wf_f f
  | GParen e => wf_e e
  end
with wf_t (t : gterm) : Prop :=
  match t with
  | GFactor f => wf_f f
  | GMul t f => wf_t t /\ wf_f f
  | GDiv t f => wf_t t /\ wf_f f
  end
with wf_e (e : gexpr) : Prop :=
  match e with
  | GTerm t => wf_t t
  | GAdd e t => wf_e e /\ wf_t t
  | GSub e t => wf_e e /\ wf_t t
  end.

Scheme gfactor_ind3 := Induction for gfactor Sort Prop
  with gterm_ind3 := Induction for gterm Sort Prop
  with gexpr_ind3 := Induction for gexpr Sort Prop.

Combined Scheme grammar_ind from gfactor_ind3, gterm_ind3, gexpr_ind3.

(** A parsing function returns [v] and leaves [r], given enough fuel. *)
Definition returns (run : nat -> outcome) (v : number) (r : jsstring) : Prop :=
  exists n, forall m, n <= m -> run m = Ret v r.

(** What may follow a factor, and what ends a term. *)
Definition no_digit (r : jsstring) : Prop := head_is is_digit r = false.

Definition ends_term (r : jsstring) : Prop :=
  head_is (fun c => is_digit c || N.eqb c 32 || N.eqb c 42 || N.eqb c 47) r
  = false.

(** ** The evaluator under a bounded call stack *)

(** The engine lets only so many calls nest; one call more throws a
    [RangeError], which the [catch] of [evalExprSafe] turns into a result
    like any other error.  [overflow] is the message of that error;
    depths count the calls that may still nest.  The functions above are
    the evaluator on a stack that suffices. *)
Inductive completion : Type :=
| Returned (r : EvalResult)
| Raised (msg : jsstring).

Section Stack.

Variable overflow : jsstring.

(** A call of [skip], [peek], [consume] or of a built-in function, with
    [d] calls left. *)
Definition leaf (d : nat) (k : outcome) : outcome :=
  match d with
  | O => Throw overflow
  | S _ => k
  end.

(** [number], called with [d] calls left. *)
Definition number_in (d : nat) (s0 : jsstring) : outcome :=
  match d with
  | O => Throw overflow
  | S d' => leaf d' (number_ s0)
  end.

(** [factor], [term] and [expr_], called with [d] calls left; the loops
    run in the frame of [term] and [expr_], with [d] calls left below
    it. *)
Fixpoint factor_in (fuel d : nat) (s0 : jsstring) {struct fuel} : outcome :=
  match fuel with
  | O => OutOfFuel
  | S f =>
    match d with
    | O => Throw overflow
    | S d' =>
      leaf d'
        (let s := skip s0 in
         if peek_is s 43 then factor_in f d' (consume s)
         else if peek_is s 45 then
           match factor_in f d' (consume s) with
           | Ret v r => Ret (neg v) r
           | o => o
           end
         else if peek_is s 40 then
           match expr_in f d' (consume s) with
           | Ret v r =>
             if peek_is (skip r) 41 then Ret v (consume (skip r))
             else Throw msg_missing_paren
           | o => o
           end
         else number_in d' s)
    end
  end

with term_in (fuel d : nat) (s : jsstring) {struct fuel} : outcome :=
  match fuel with
  | O => OutOfFuel
  | S f =>
    match d with
    | O => Throw overflow
    | S d' =>
      match factor_in f d' s with
      | Ret v r => term_loop_in f d' v r
      | o => o
      end
    end
  end

with term_loop_in (fuel d : nat) (v : number) (s0 : jsstring) {struct fuel}
  : outcome :=
  match fuel with
  | O => OutOfFuel
  | S f =>
    leaf d
      (let s := skip s0 in
       if peek_is s 42 then
         match factor_in f d (consume s) with
         | Ret rhs r => term_loop_in f d (mul v rhs) r
         | o => o
         end
       else if peek_is s 47 then
         match factor_in f d (consume s) with
         | Ret rhs r => term_loop_in f d (div v rhs) r
         | o => o
         end
       else Ret v s)
  end

with expr_in (fuel d : nat) (s : jsstring) {struct fuel} : outcome :=
  match fuel with
  | O => OutOfFuel
  | S f =>
    match d with
    | O => Throw overflow
    | S d' =>
      match term_in f d' s with
      | Ret v r => expr_loop_in f d' v r
      | o => o
      end
    end
  end

with expr_loop_in (fuel d : nat) (v : number) (s0 : jsstring) {struct fuel}
  : outcome :=
  match fuel with
  | O => OutOfFuel
  | S f =>
    leaf d
      (let s := skip s0 in
       if peek_is s 43 then
         match term_in f d (consume s) with
         | Ret rhs r => expr_loop_in f d (add v rhs) r
         | o => o
         end
       else if peek_is s 45 then
         match term_in f d (consume s) with
         | Ret rhs r => expr_loop_in f d (sub v rhs) r
         | o => o
         end
       else Ret v s)
  end.

(** [evalExprSafe(expr)] with [stack] calls left below its own frame.
    The call of [trim] stands before the [try]: an overflow there is
    raised, not returned. *)
Definition evalExprSafe_in (stack : nat) (expr : jsstring) : option completion :=
  match stack with
  | O => Some (Raised overflow)
  | S _ =>
    let s := trim expr in
    if negb (truthy s) then Some (Returned (failure msg_empty))
    else
      match expr_in (3 * length s + 3) stack s with
      | Ret v r =>
        match skip r with
        | c :: _ => Some (Returned (failure (msg_unexpected c)))
        | [] =>
          if negb (isFinite v) then Some (Returned (failure msg_invalid))
          else Some (Returned (mkEval v None))
        end
      | Throw msg => Some (Returned (failure (caught msg)))
      | OutOfFuel => None
      end
  end.

End Stack.

(** The calls that nest when the text of a tree is evaluated: a number
    takes [factor], [number] and a call in [number]; a sign or a
    parenthesis takes [factor] and what stands behind it; the operands of
    a term are evaluated one after the other below [term], those of an
    expression below [expr_]. *)
Fixpoint need_f (f : gfactor) : nat :=
  match f with
  | GNum _ => 3
  | GPlus f => S (need_f f)
  | GMinus f => S (need_f f)
  | GParen e => S (need_e e)
  end
with need_t (t : gterm) : nat :=
  match t with
  | GFactor f => S (need_f f)
  | GMul t f => Nat.max (need_t t) (S (need_f f))
  | GDiv t f => Nat.max (need_t t) (S (need_f f))
  end
with need_e (e : gexpr) : nat :=
  match e with
  | GTerm t => S (need_t t)
  | GAdd e t => Nat.max (need_e e) (S (need_t t))
  | GSub e t => Nat.max (need_e e) (S (need_t t))
  end.

(* ================================================================== *)
(** * The content of a summary *)
(* ================================================================== *)

(** The summary lines follow one another in the order of the
    comparator. *)
Fixpoint ascending (cmp : jsstring -> jsstring -> Z) (l : list SummaryLine)
  : Prop :=
  match l with
  | [] => True
  | x :: tl =>
    Forall (fun y => (cmp (sum_itemLabel x) (sum_itemLabel y) <= 0)%Z) tl /\
    ascending cmp tl
  end.

(** The characters that the evaluator reads: digits, the space that
    [skip] passes over, and [+ - * / ( )]. *)
Definition is_calc_char (c : N) : bool :=
  is_digit c || existsb (N.eqb c) [32; 43; 45; 42; 47; 40; 41]%N.

(** From [s] the cursor has moved to [r] over characters of the
    evaluator only. *)
Definition eaten (s r : jsstring) : Prop :=
  exists pre, s = pre ++ r /\ all is_calc_char pre.

(* ================================================================== *)
(** * The requests of the component as the backend sees them *)
(* ================================================================== *)

(** The fields of a request that the component sends are such as the
    routes check them: a label that is not blank, a quantity that is
    finite and greater than 0. *)
Definition request_fields_ok (e : Effect) : Prop :=
  match e with
  | PostContainer l => truthy (trim l) = true
  | PostLine _ item q => truthy (trim item) = true /\ bad_quantity q = false
  | _ => True
  end.

(** The answer of the backend to a request of the component, whatever
    the map holds: [POST /containers] with the body [{ label }] is
    answered 201, and [POST /containers/:id/lines] with the body
    [{ itemLabel, quantity }] is not answered 400. *)
Definition accepted_by_backend (w : jsstring -> jsstring) (e : Effect) : Prop :=
  forall cmp uid st,
    match e with
    | PostContainer l =>
      code (snd (handle w cmp uid st (PostContainers (Some l)))) = 201
    | PostLine cid item q =>
      code (snd (handle w cmp uid st (PostLines cid (Some item) (Some q))))
      <> 400
    | _ => True
    end.

(* ================================================================== *)
(** * Dictated calculations ([frontend/src/App.tsx]) *)
(* ================================================================== *)

(** The words of a dictated calculation: numbers in digits, the words
    that [normalizeMathSpeech] looks for, and the two parentheses. *)
Inductive spoken : Type :=
| WNum (ds : jsstring)
| WPlus
| WMoins
| WFois
| WMultiplie
| WDivise
| WDivise_accent
| WPar
| WOpen
| WClose.

Definition word_text (x : spoken) : jsstring :=
  match x with
  | WNum ds => ds
  | WPlus => js "plus"
  | WMoins => js "moins"
  | WFois => js "fois"
  | WMultiplie => js "multiplie"
  | WDivise => js "divise"
  | WDivise_accent => js "divisé"
  | WPar => js "par"
  | WOpen => js "("
  | WClose => js ")"
  end.

(** What is left of each word in the expression. *)
Definition symbol (x : spoken) : jsstring :=
  match x with
  | WNum ds => ds
  | WPlus => js "+"
  | WMoins => js "-"
  | WFois => js "*"
  | WMultiplie => js "*"
  | WDivise => js "/"
  | WDivise_accent => []
  | WPar => []
  | WOpen => js "("
  | WClose => js ")"
  end.

(** The words with one space between them. *)
Definition utterance (ws : list spoken) : jsstring :=
  join (js " ") (map word_text ws).

Definition spoken_ok (x : spoken) : Prop :=
  match x with
  | WNum ds => all is_digit ds
  | _ => True
  end.

(** The seven replacements of words, in the order of the source, and the
    text of a word after the first [n] of them. *)
Definition pass_word (k : nat) : jsstring :=
  match k with
  | 0 => js "plus"
  | 1 => js "moins"
  | 2 => js "fois"
  | 3 => js "multiplie"
  | 4 => js "divise"
  | 5 => js "divisé"
  | _ => js "par"
  end.

Definition pass_symbol (k : nat) : jsstring :=
  match k with
  | 0 => js "+"
  | 1 => js "-"
  | 2 => js "*"
  | 3 => js "*"
  | 4 => js "/"
  | 5 => js "/"
  | _ => []
  end.

Definition stage (n : nat) (x : spoken) : jsstring :=
  match x with
  | WNum ds => ds
  | WPlus => if Nat.leb 1 n then js "+" else js "plus"
  | WMoins => if Nat.leb 2 n then js "-" else js "moins"
  | WFois => if Nat.leb 3 n then js "*" else js "fois"
  | WMultiplie => if Nat.leb 4 n then js "*" else js "multiplie"
  | WDivise => if Nat.leb 5 n then js "/" else js "divise"
  | WDivise_accent => js "divisé"
  | WPar => if Nat.leb 7 n then [] else js "par"
  | WOpen => js "("
  | WClose => js ")"
  end.

(** The words that the replacement number [k] rewrites. *)
Definition hit (k : nat) (x : spoken) : bool :=
  match k, x with
  | 0, WPlus => true
  | 1, WMoins => true
  | 2, WFois => true
  | 3, WMultiplie => true
  | 4, WDivise => true
  | 6, WPar => true
  | _, _ => false
  end.

(** [wd] occurs in [t]. *)
Fixpoint contains (wd t : jsstring) : bool :=
  startsWith t wd ||
  match t with
  | [] => false
  | _ :: tl => contains wd tl
  end.

(** What follows a word of an utterance: nothing, or a space. *)
Definition stop (rest : jsstring) : Prop :=
  rest = [] \/ exists m, rest = 32%N :: m.

(** How one word fares under a pattern: it is matched as a whole, or the
    pattern matches nowhere in it. *)
Definition token_ok {A : Type} (R : regex) (rend : A -> jsstring)
  (hits : A -> bool) (x : A) : Prop :=
  if hits x then
    rend x <> [] /\
    forall pv rest, pv_word pv = false -> stop rest ->
      exists cs, exec_at R pv (rend x ++ rest) = Some (length (rend x), cs)
  else
    forall pre suf pv rest, rend x = pre ++ suf -> suf <> [] -> stop rest ->
      exec_at R pv (suf ++ rest) = None.

(** The words of a tree of the grammar: [plus], [moins], [fois] and
    [divise par] for the four operations. *)
Fixpoint speech_f (f : gfactor) : list spoken :=
  match f with
  | GNum ds => [WNum ds]
  | GPlus f => WPlus :: speech_f f
  | GMinus f => WMoins :: speech_f f
  | GParen e => WOpen :: speech_e e ++ [WClose]
  end
with speech_t (t : gterm) : list spoken :=
  match t with
  | GFactor f => speech_f f
  | GMul t f => speech_t t ++ WFois :: speech_f f
  | GDiv t f => speech_t t ++ WDivise :: WPar :: speech_f f
  end
with speech_e (e : gexpr) : list spoken :=
  match e with
  | GTerm t => speech_t t
  | GAdd e t => speech_e e ++ WPlus :: speech_t t
  | GSub e t => speech_e e ++ WMoins :: speech_t t
  end.

(* ================================================================== *)
(** * Statements about the requests of the component and the pieces of
      the operator replacement *)
(* ================================================================== *)

(** ** Statement of the dispatch gating: what reaches the backend *)



Section GatingRequests.
Variable w : jsstring -> jsstring.
Variable rc : jsstring -> Container + jsstring.
Variable ra : Container -> jsstring -> number -> AddLineAnswer.





End GatingRequests.



(** ** Statement of the operator replacement *)


(* ================================================================== *)
(** * Properties *)
(* ================================================================== *)

Lemma str_eqb_eq a b : str_eqb a b = true <-> a = b.
Proof.
  revert b; induction a as [|x a IH]; intros [|y b]; simpl;
    try (split; [discriminate|discriminate]); try tauto.
  unfold cu_eqb. rewrite andb_true_iff, N.eqb_eq, IH.
  split; [intros [-> ->]; reflexivity | intros H; inversion H; auto].
Qed.


(** ** Segment extractor on the documented segments *)

(** C1 (as the code behaves): on the bare dimension code ["M6x20"] the
    first two strategies do not apply and the trailing-multiplier
    strategy matches with an empty run of white space before the [x]; the
    extractor returns quantity 20 with item label ["M6"], not "no line". *)
Theorem extract_bare_dimension_code (w : jsstring -> jsstring) :
  strategy1 (js "M6x20") = None /\
  strategy2 w (js "M6x20") = None /\
  strategy3 (js "M6x20") = Some (of_Z 20, js "M6") /\
  extractQuantityAndLabel w (js "M6x20") = Some (of_Z 20, js "M6").
Proof. repeat split; vm_compute; reflexivity. Qed.

(** C6: ["vis 6 mm"] yields no line: no strategy before the fallback
    applies, and the fallback skips the token ["6"] because the next token
    is a unit of length (with another word in its place, ["vis 6 cm"], the
    same token is taken as quantity 6). *)
Theorem unit_exclusion (w : jsstring -> jsstring) :
  extractQuantityAndLabel w (js "vis 6 mm") = None /\
  strategy5 w (js "vis 6 mm") = None /\
  strategy5 w (js "vis 6 cm") = Some (of_Z 6, js "vis cm").
Proof. repeat split; vm_compute; reflexivity. Qed.

(** ** Evaluator on the documented expression *)

(** C2 (as stated, refuted): the evaluator does not return 31 on
    ["5+10+20*2-12"]. *)
Lemma evaluate_documented_not_31 :
  ~ (exists r, evalExprSafe (js "5+10+20*2-12") = Some r /\
               value r = of_Z 31).
Proof.
  intros [r [H Hv]]. vm_compute in H. injection H as <-.
  vm_compute in Hv. discriminate Hv.
Qed.

(** C2 (amended): on ["5+10+20*2-12"] the evaluator returns 43, that is
    5 + 10 + (20 * 2) - 12 with [*] binding tighter than [+] and [-] and
    the additive operators applied from left to right. *)
Theorem evaluate_documented_43 :
  evalExprSafe (js "5+10+20*2-12") = Some (mkEval (of_Z 43) None) /\
  of_Z 43 = sub (add (add (of_Z 5) (of_Z 10)) (mul (of_Z 20) (of_Z 2)))
                (of_Z 12).
Proof. split; vm_compute; reflexivity. Qed.

(** ** Streaming session on the documented fragment *)

(** C3 (as the code behaves): a fresh session that ingests
    ["référence vis M6x20 ok 5 plus 10 ok"] in one fragment handles both
    segments with the constants of the same render, in which no item is
    active: the first segment schedules the active item ["vis M6x20"], the
    second one only reports that no reference is active; no call of
    [addLine] is made, and the buffer ends empty. *)
Theorem drain_documented_fragment
  (w : jsstring -> jsstring)
  (rc : jsstring -> Container + jsstring)
  (ra : Container -> jsstring -> number -> AddLineAnswer) :
  exists effs,
    ingest w rc ra (render_of initial_ui) []
           (js "référence vis M6x20 ok 5 plus 10 ok") = Some (effs, []) /\
    effs = [SetActiveItem (js "vis M6x20"); SetRefInput (js "vis M6x20");
            SetExprDraft []; SetQtyInput (of_Z 1);
            SetStatus (StActiveReference (js "vis M6x20"));
            SetStatus (StNoActiveReference (js "5 plus 10"))] /\
    filter is_add_line effs = [] /\
    ui_activeItem (apply_effects initial_ui effs) = js "vis M6x20".
Proof.
  eexists. split; [vm_compute; reflexivity|].
  repeat split; vm_compute; reflexivity.
Qed.

(** ** The evaluator is total *)

Lemma skip_length s : length (skip s) <= length s.
Proof.
  induction s as [|c tl IH]; simpl; [lia|].
  destruct (N.eqb c 32); simpl; lia.
Qed.

Lemma consume_length s : length (consume s) <= length s.
Proof. destruct s; simpl; lia. Qed.

Lemma peek_consume_length s c :
  peek_is s c = true -> S (length (consume s)) = length s.
Proof. destruct s; simpl; [discriminate|reflexivity]. Qed.

Lemma number_shorter s v r : number_ s = Ret v r -> length r <= length s.
Proof.
  unfold number_. destruct (take_digits (skip s)) as [|d ds] eqn:E; [discriminate|].
  intros H; injection H as _ <-.
  pose proof (skip_length s).
  pose proof (length_skipn (length (d :: ds)) (skip s)) as L.
  simpl in *. lia.
Qed.

Lemma number_fuel s : number_ s <> OutOfFuel.
Proof.
  unfold number_. destruct (take_digits (skip s)); discriminate.
Qed.

(** A returning call leaves the cursor at or after where it was. *)
Lemma ret_shorter fuel :
  (forall s v r, factor fuel s = Ret v r -> length r <= length s) /\
  (forall s v r, term fuel s = Ret v r -> length r <= length s) /\
  (forall v0 s v r, term_loop fuel v0 s = Ret v r -> length r <= length s) /\
  (forall s v r, expr_ fuel s = Ret v r -> length r <= length s) /\
  (forall v0 s v r, expr_loop fuel v0 s = Ret v r -> length r <= length s).
Proof.
  induction fuel as [|f (IHf & IHt & IHtl & IHe & IHel)].
  - repeat split; intros; discriminate.
  - repeat split.
    + intros s v r. simpl.
      pose proof (skip_length s) as Hs.
      pose proof (consume_length (skip s)) as Hc.
      destruct (peek_is (skip s) 43).
      { intros H. apply IHf in H. lia. }
      destruct (peek_is (skip s) 45).
      { destruct (factor f (consume (skip s))) eqn:E; try discriminate.
        intros H; injection H as _ <-. apply IHf in E. lia. }
      destruct (peek_is (skip s) 40).
      { destruct (expr_ f (consume (skip s))) eqn:E; try discriminate.
        destruct (peek_is (skip rest0) 41); try discriminate.
        intros H; injection H as _ <-. apply IHe in E.
        pose proof (skip_length rest0). pose proof (consume_length (skip rest0)).
        lia. }
      intros H. apply number_shorter in H.
      pose proof (skip_length (skip s)). lia.
    + intros s v r. simpl.
      destruct (factor f s) eqn:E; try discriminate.
      intros H. apply IHtl in H. apply IHf in E. lia.
    + intros v0 s v r. simpl.
      pose proof (skip_length s) as Hs.
      pose proof (consume_length (skip s)) as Hc.
      destruct (peek_is (skip s) 42).
      { destruct (factor f (consume (skip s))) eqn:E; try discriminate.
        intros H. apply IHtl in H. apply IHf in E. lia. }
      destruct (peek_is (skip s) 47).
      { destruct (factor f (consume (skip s))) eqn:E; try discriminate.
        intros H. apply IHtl in H. apply IHf in E. lia. }
      intros H; injection H as _ <-. lia.
    + intros s v r. simpl.
      destruct (term f s) eqn:E; try discriminate.
      intros H. apply IHel in H. apply IHt in E. lia.
    + intros v0 s v r. simpl.
      pose proof (skip_length s) as Hs.
      pose proof (consume_length (skip s)) as Hc.
      destruct (peek_is (skip s) 43).
      { destruct (term f (consume (skip s))) eqn:E; try discriminate.
        intros H. apply IHel in H. apply IHt in E. lia. }
      destruct (peek_is (skip s) 45).
      { destruct (term f (consume (skip s))) eqn:E; try discriminate.
        intros H. apply IHel in H. apply IHt in E. lia. }
      intros H; injection H as _ <-. lia.
Qed.

(** Three units of fuel per remaining character are enough. *)
Lemma fuel_enough fuel :
  (forall s, 3 * length s + 1 <= fuel -> factor fuel s <> OutOfFuel) /\
  (forall s, 3 * length s + 2 <= fuel -> term fuel s <> OutOfFuel) /\
  (forall v0 s, 3 * length s + 1 <= fuel -> term_loop fuel v0 s <> OutOfFuel) /\
  (forall s, 3 * length s + 3 <= fuel -> expr_ fuel s <> OutOfFuel) /\
  (forall v0 s, 3 * length s + 2 <= fuel -> expr_loop fuel v0 s <> OutOfFuel).
Proof.
  induction fuel as [|f (IHf & IHt & IHtl & IHe & IHel)].
  - repeat split; intros; lia.
  - destruct (ret_shorter f) as (Rf & Rt & Rtl & Re & Rel).
    repeat split.
    + intros s Hlen. simpl.
      pose proof (skip_length s) as Hs.
      destruct (peek_is (skip s) 43) eqn:P1.
      { apply peek_consume_length in P1. apply IHf. lia. }
      destruct (peek_is (skip s) 45) eqn:P2.
      { apply peek_consume_length in P2.
        destruct (factor f (consume (skip s))) eqn:E; try discriminate.
        exfalso. revert E. apply IHf. lia. }
      destruct (peek_is (skip s) 40) eqn:P3.
      { apply peek_consume_length in P3.
        destruct (expr_ f (consume (skip s))) eqn:E; try discriminate.
        - destruct (peek_is (skip rest0) 41); discriminate.
        - exfalso. revert E. apply IHe. lia. }
      apply number_fuel.
    + intros s Hlen. simpl.
      destruct (factor f s) eqn:E; try discriminate.
      * apply Rf in E. apply IHtl. lia.
      * exfalso. revert E. apply IHf. lia.
    + intros v0 s Hlen. simpl.
      pose proof (skip_length s) as Hs.
      destruct (peek_is (skip s) 42) eqn:P1.
      { apply peek_consume_length in P1.
        destruct (factor f (consume (skip s))) eqn:E; try discriminate.
        - apply Rf in E. apply IHtl. lia.
        - exfalso. revert E. apply IHf. lia. }
      destruct (peek_is (skip s) 47) eqn:P2.
      { apply peek_consume_length in P2.
        destruct (factor f (consume (skip s))) eqn:E; try discriminate.
        - apply Rf in E. apply IHtl. lia.
        - exfalso. revert E. apply IHf. lia. }
      discriminate.
    + intros s Hlen. simpl.
      destruct (term f s) eqn:E; try discriminate.
      * apply Rt in E. apply IHel. lia.
      * exfalso. revert E. apply IHt. lia.
    + intros v0 s Hlen. simpl.
      pose proof (skip_length s) as Hs.
      destruct (peek_is (skip s) 43) eqn:P1.
      { apply peek_consume_length in P1.
        destruct (term f (consume (skip s))) eqn:E; try discriminate.
        - apply Rt in E. apply IHel. lia.
        - exfalso. revert E. apply IHt. lia. }
      destruct (peek_is (skip s) 45) eqn:P2.
      { apply peek_consume_length in P2.
        destruct (term f (consume (skip s))) eqn:E; try discriminate.
        - apply Rt in E. apply IHel. lia.
        - exfalso. revert E. apply IHt. lia. }
      discriminate.
Qed.

Lemma caught_nonempty msg : caught msg <> [].
Proof. unfold caught. destruct msg; simpl; discriminate. Qed.

Lemma evalExprSafe_shape expr :
  exists r, evalExprSafe expr = Some r /\ well_formed_result r.
Proof.
  unfold evalExprSafe, evalExprSafe_fuel.
  destruct (truthy (trim expr)); simpl.
  2:{ eexists; split; [reflexivity|]. right. eexists; repeat split. discriminate. }
  destruct (expr_ (length (trim expr) + (length (trim expr) + (length (trim expr) + 0)) + 3) (trim expr)) eqn:E.
  - destruct (skip rest0) as [|c tl].
    + destruct (isFinite v) eqn:F; simpl.
      * eexists; split; [reflexivity|]. left. split; auto.
      * eexists; split; [reflexivity|]. right. eexists; repeat split. discriminate.
    + eexists; split; [reflexivity|]. right. eexists; repeat split. discriminate.
  - eexists; split; [reflexivity|]. right. eexists; repeat split.
    apply caught_nonempty.
  - exfalso. revert E. apply fuel_enough. lia.
Qed.

(** C7: for every input string the evaluator returns a result, which is
    either a finite value without error or the value 0 with a non-empty
    message: the model never runs out of fuel and every [throw] is turned
    into a message.  A non-finite value is reported as a message: ["1/0"]
    gives "Résultat invalide". *)
Theorem evaluator_total :
  (forall expr : jsstring,
      exists r, evalExprSafe expr = Some r /\ well_formed_result r) /\
  evalExprSafe (js "1/0") = Some (failure msg_invalid) /\
  evalExprSafe (js "(1+2") = Some (failure msg_missing_paren) /\
  evalExprSafe (js "") = Some (failure msg_empty).
Proof.
  split; [exact evalExprSafe_shape|].
  repeat split; vm_compute; reflexivity.
Qed.

(** ** Dispatch of a confirmed segment *)

Lemma finite_le_gt v :
  isFinite v = true -> leb v zero = negb (gtb v zero).
Proof.
  destruct v as [s|s| |s m e]; simpl; try discriminate; intros _.
  - reflexivity.
  - destruct s; reflexivity.
Qed.




(** ** Stability of the summary *)

Section SummaryStable.

Local Open Scope Z_scope.

(** ** Sums of integers below 2^53 are exact *)

Lemma digits2_size p : digits2_pos p = Pos.size p.
Proof. induction p; simpl; congruence. Qed.

Lemma iter_pos_iter {A} (f : A -> A) n x : iter_pos f n x = Pos.iter f x n.
Proof.
  revert x; induction n as [n IH|n IH|]; intros x; simpl.
  - rewrite !IH, !Pos.iter_swap. reflexivity.
  - rewrite !IH. reflexivity.
  - reflexivity.
Qed.


Lemma shl_succ m k : 0 <= k -> shl m (k + 1) = xO (shl m k).
Proof.
  intros Hk. destruct k as [|n|n]; try lia; simpl.
  - reflexivity.
  - replace (n + 1)%positive with (Pos.succ n) by lia.
    apply Pos.iter_succ.
Qed.

Lemma shl_ind (P : Z -> Prop) :
  P 0 -> (forall k, 0 <= k -> P k -> P (k + 1)) -> forall k, 0 <= k -> P k.
Proof. intros H0 HS k Hk. apply natlike_ind; auto. Qed.

Lemma digits_shl m k :
  0 <= k -> Zpos (digits2_pos (shl m k)) = Zpos (digits2_pos m) + k.
Proof.
  revert k. apply shl_ind.
  - simpl. lia.
  - intros k Hk IH. rewrite shl_succ by assumption.
    cbn [digits2_pos]. rewrite Pos2Z.inj_succ. lia.
Qed.

Lemma shl_shl m j k : 0 <= j -> 0 <= k -> shl (shl m j) k = shl m (j + k).
Proof.
  intros Hj. revert k. apply shl_ind.
  - rewrite Z.add_0_r. reflexivity.
  - intros k Hk IH. rewrite Z.add_assoc, !shl_succ by lia. congruence.
Qed.

Lemma shl_val m k : 0 <= k -> Zpos (shl m k) = Zpos m * 2 ^ k.
Proof.
  revert k. apply shl_ind.
  - simpl. lia.
  - intros k Hk IH. rewrite shl_succ by assumption.
    rewrite Pos2Z.inj_xO, IH, Z.pow_add_r by lia. lia.
Qed.

Lemma shr_shl M e j :
  0 < j ->
  shr (Build_shr_record (Zpos (shl M j)) false false) e j
  = (Build_shr_record (Zpos M) false false, e + j).
Proof.
  intros Hj. destruct j as [|n|n]; try lia. unfold shr. simpl shl.
  f_equal. rewrite iter_pos_iter. clear Hj.
  revert M. induction n using Pos.peano_ind; intros M.
  - reflexivity.
  - rewrite Pos.iter_succ_r. rewrite Pos.iter_succ. simpl. apply IHn.
Qed.

Lemma fexp53 x : -1021 <= x -> fexp 53 1024 x = x - 53.
Proof. intros H. unfold fexp, emin. lia. Qed.

(** A mantissa of 53 digits is left as it is. *)
Lemma round_aux_normal M E :
  Zpos (digits2_pos M) = 53 -> -1074 <= E <= 971 ->
  binary_round_aux 53 1024 false (Zpos M) E loc_Exact = S754_finite false M E.
Proof.
  intros HM HE. unfold binary_round_aux.
  assert (S0 : shr_fexp 53 1024 (Zpos M) E loc_Exact
               = (Build_shr_record (Zpos M) false false, E)).
  { unfold shr_fexp. cbn [Zdigits2 shr_record_of_loc].
    rewrite HM, fexp53 by lia.
    replace (53 + E - 53 - E) with 0 by lia. reflexivity. }
  rewrite S0. cbn [shr_m loc_of_shr_record round_nearest_even].
  rewrite S0. cbn [shr_m].
  replace (E <=? 1024 - 53) with true by (symmetry; apply Z.leb_le; lia).
  reflexivity.
Qed.

(** Trailing zero bits beyond 53 digits are shifted out exactly. *)
Lemma round_aux_shift M E j :
  Zpos (digits2_pos M) = 53 -> -1074 <= E <= 971 -> 0 < j ->
  binary_round_aux 53 1024 false (Zpos (shl M j)) (E - j) loc_Exact
  = S754_finite false M E.
Proof.
  intros HM HE Hj. unfold binary_round_aux.
  assert (S1 : shr_fexp 53 1024 (Zpos (shl M j)) (E - j) loc_Exact
               = (Build_shr_record (Zpos M) false false, E)).
  { unfold shr_fexp. cbn [Zdigits2 shr_record_of_loc].
    rewrite digits_shl, HM, fexp53 by lia.
    replace (53 + j + (E - j) - 53 - (E - j)) with j by lia.
    rewrite shr_shl by lia. f_equal. lia. }
  rewrite S1. cbn [shr_m loc_of_shr_record round_nearest_even].
  assert (S0 : shr_fexp 53 1024 (Zpos M) E loc_Exact
               = (Build_shr_record (Zpos M) false false, E)).
  { unfold shr_fexp. cbn [Zdigits2 shr_record_of_loc].
    rewrite HM, fexp53 by lia.
    replace (53 + E - 53 - E) with 0 by lia. reflexivity. }
  rewrite S0. cbn [shr_m].
  replace (E <=? 1024 - 53) with true by (symmetry; apply Z.leb_le; lia).
  reflexivity.
Qed.


Lemma digits_pos V : 1 <= Zpos (digits2_pos V).
Proof. lia. Qed.

Lemma round_exact V k :
  Zpos (digits2_pos V) <= 53 -> 0 <= k ->
  binary_round 53 1024 false (shl V k) (- k) = normal V.
Proof.
  intros Hd Hk. unfold binary_round, normal.
  set (d := Zpos (digits2_pos V)) in *.
  assert (1 <= d) by (unfold d; lia).
  rewrite digits_shl by lia. fold d.
  rewrite fexp53 by lia.
  assert (HM : Zpos (digits2_pos (shl V (53 - d))) = 53).
  { rewrite digits_shl by lia. fold d. lia. }
  unfold shl_align.
  destruct (d + k + - k - 53 - - k) as [|p|p] eqn:Ej.
  - (* already 53 digits *)
    replace k with (53 - d) by lia. replace (- (53 - d)) with (d - 53) by lia.
    apply round_aux_normal; [assumption|lia].
  - (* more than 53 digits *)
    replace (shl V k) with (shl (shl V (53 - d)) (Zpos p))
      by (rewrite shl_shl by lia; f_equal; lia).
    replace (- k) with (d - 53 - Zpos p) by lia.
    apply round_aux_shift; [assumption|lia|lia].
  - (* fewer than 53 digits *)
    replace (Pos.iter xO (shl V k) p) with (shl (shl V k) (Zpos p)) by reflexivity.
    rewrite shl_shl by lia.
    replace (k + Zpos p) with (53 - d) by lia.
    replace (d + k + - k - 53) with (d - 53) by lia.
    apply round_aux_normal; [assumption|lia].
Qed.

Lemma of_Z_pos V :
  Zpos (digits2_pos V) <= 53 -> of_Z (Zpos V) = normal V.
Proof.
  intros Hd. unfold of_Z, binary_normalize.
  exact (round_exact V 0 Hd (Z.le_refl 0)).
Qed.

Lemma digits_bound V : Zpos V < 2 ^ 53 <-> Zpos (digits2_pos V) <= 53.
Proof.
  rewrite digits2_size. split; intros H.
  - pose proof (Pos.size_le V) as L.
    destruct (Z_le_gt_dec (Zpos (Pos.size V)) 53) as [|G]; [assumption|exfalso].
    assert (2 ^ 53 <= 2 ^ (Zpos (Pos.size V) - 1)) by (apply Z.pow_le_mono_r; lia).
    assert (2 ^ Zpos (Pos.size V) <= Zpos V~0)
      by (rewrite <- Pos2Z.inj_pow; apply Pos2Z.pos_le_pos; exact L).
    replace (2 ^ Zpos (Pos.size V)) with (2 * 2 ^ (Zpos (Pos.size V) - 1)) in *
      by (rewrite <- Z.pow_succ_r by lia; f_equal; lia).
    lia.
  - pose proof (Pos.size_gt V) as G.
    assert (Zpos V < 2 ^ Zpos (Pos.size V))
      by (rewrite <- Pos2Z.inj_pow; apply Pos2Z.pos_lt_pos; exact G).
    assert (2 ^ Zpos (Pos.size V) <= 2 ^ 53) by (apply Z.pow_le_mono_r; lia).
    lia.
Qed.

(** Adding the binary64 values of two positive integers whose sum is
    below 2^53 gives the binary64 value of the sum. *)
Lemma add_normal a b :
  Zpos (a + b) < 2 ^ 53 -> add (normal a) (normal b) = normal (a + b).
Proof.
  intros Hab.
  assert (Ha : Zpos (digits2_pos a) <= 53) by (apply digits_bound; lia).
  assert (Hb : Zpos (digits2_pos b) <= 53) by (apply digits_bound; lia).
  assert (Hs : Zpos (digits2_pos (a + b)) <= 53) by (apply digits_bound; lia).
  unfold add, normal at 1 2, SFadd.
  set (da := Zpos (digits2_pos a)) in *. set (db := Zpos (digits2_pos b)) in *.
  assert (1 <= da) by (unfold da; lia). assert (1 <= db) by (unfold db; lia).
  set (ez := Z.min (da - 53) (db - 53)).
  assert (Hez : -52 <= ez <= 0) by (unfold ez; lia).
  assert (Sa : fst (shl_align (shl a (53 - da)) (da - 53) ez) = shl a (- ez)).
  { unfold shl_align. destruct (ez - (da - 53)) as [|p|p] eqn:E; cbn [fst].
    - f_equal. lia.
    - lia.
    - change (Pos.iter xO (shl a (53 - da)) p) with (shl (shl a (53 - da)) (Zpos p)).
      rewrite shl_shl by lia. f_equal. lia. }
  assert (Sb : fst (shl_align (shl b (53 - db)) (db - 53) ez) = shl b (- ez)).
  { unfold shl_align. destruct (ez - (db - 53)) as [|p|p] eqn:E; cbn [fst].
    - f_equal. lia.
    - lia.
    - change (Pos.iter xO (shl b (53 - db)) p) with (shl (shl b (53 - db)) (Zpos p)).
      rewrite shl_shl by lia. f_equal. lia. }
  rewrite Sa, Sb. cbn [cond_Zopp].
  assert (Hsum : Zpos (shl a (- ez)) + Zpos (shl b (- ez)) = Zpos (shl (a + b) (- ez))).
  { rewrite !shl_val by lia. lia. }
  rewrite Hsum. unfold binary_normalize.
  replace ez with (- - ez) at 2 by lia.
  apply round_exact; lia.
Qed.

Lemma add_of_Z a b :
  0 <= a -> 0 <= b -> a + b < 2 ^ 53 -> add (of_Z a) (of_Z b) = of_Z (a + b).
Proof.
  intros Ha Hb Hab.
  destruct a as [|a|a]; [|destruct b as [|b|b]|]; try lia.
  - destruct b as [|b|b]; try lia; [reflexivity|].
    rewrite Z.add_0_l. rewrite of_Z_pos by (apply digits_bound; lia).
    reflexivity.
  - rewrite Z.add_0_r. rewrite of_Z_pos by (apply digits_bound; lia).
    reflexivity.
  - change (Zpos a + Zpos b) with (Zpos (a + b)) in *.
    rewrite !of_Z_pos by (apply digits_bound; lia).
    apply add_normal. assumption.
Qed.

Lemma str_eqb_refl a : str_eqb a a = true.
Proof. apply str_eqb_eq. reflexivity. Qed.

Lemma str_eqb_neq a b : a <> b -> str_eqb a b = false.
Proof.
  intros H. destruct (str_eqb a b) eqn:E; [|reflexivity].
  apply str_eqb_eq in E. contradiction.
Qed.

Lemma map_get_set m k v k' :
  map_get (map_set m k v) k' = if str_eqb k k' then Some v else map_get m k'.
Proof.
  induction m as [|[k0 v0] m IH]; simpl.
  - reflexivity.
  - destruct (str_eqb k0 k) eqn:E0; simpl.
    + apply str_eqb_eq in E0. subst k0.
      destruct (str_eqb k k'); reflexivity.
    + rewrite IH. destruct (str_eqb k0 k') eqn:E1; [|reflexivity].
      apply str_eqb_eq in E1. subst k0.
      destruct (str_eqb k k') eqn:E2; [|reflexivity].
      apply str_eqb_eq in E2. subst k'. rewrite str_eqb_refl in E0. discriminate.
Qed.

Lemma map_set_keys m k v :
  map fst (map_set m k v)
  = if existsb (fun e => str_eqb (fst e) k) m then map fst m
    else map fst m ++ [k].
Proof.
  induction m as [|[k0 v0] m IH]; simpl.
  - reflexivity.
  - destruct (str_eqb k0 k) eqn:E0; simpl; [reflexivity|].
    rewrite IH. destruct (existsb _ m); reflexivity.
Qed.

Lemma existsb_key_In m k :
  existsb (fun e : jsstring * number => str_eqb (fst e) k) m = true
  <-> In k (map fst m).
Proof.
  rewrite existsb_exists, in_map_iff. split.
  - intros [e [Hin He]]. apply str_eqb_eq in He. eauto.
  - intros [e [He Hin]]. exists e. split; [assumption|].
    apply str_eqb_eq. assumption.
Qed.

Lemma map_set_NoDup m k v :
  NoDup (map fst m) -> NoDup (map fst (map_set m k v)).
Proof.
  intros H. rewrite map_set_keys.
  destruct (existsb _ m) eqn:E; [assumption|].
  apply NoDup_app; [assumption|repeat constructor; simpl; tauto|].
  intros x Hx [<-|[]]. apply existsb_key_In in Hx. congruence.
Qed.

Lemma totals_snoc ls l : totals (ls ++ [l]) = add_line (totals ls) l.
Proof. unfold totals. rewrite fold_left_app. reflexivity. Qed.

Lemma totals_NoDup ls : NoDup (map fst (totals ls)).
Proof.
  induction ls as [|l ls IH] using rev_ind.
  - constructor.
  - rewrite totals_snoc. unfold add_line. apply map_set_NoDup. assumption.
Qed.

Lemma map_get_In m k v :
  NoDup (map fst m) -> (In (k, v) m <-> map_get m k = Some v).
Proof.
  induction m as [|[k0 v0] m IH]; simpl; intros ND.
  - split; [tauto|discriminate].
  - inversion ND as [|? ? Hnotin ND']; subst.
    destruct (str_eqb k0 k) eqn:E.
    + apply str_eqb_eq in E. subst k0. split.
      * intros [H|H]; [congruence|].
        exfalso. apply Hnotin. apply in_map_iff. exists (k, v). auto.
      * intros H. left. congruence.
    + rewrite <- (IH ND'). split; [|tauto].
      intros [H|H]; [|assumption].
      injection H as -> _. rewrite str_eqb_refl in E. discriminate.
Qed.

(** *** The totals of integer lines *)



Lemma label_sum_app k a b :
  label_sum k (a ++ b) = label_sum k a + label_sum k b.
Proof.
  induction a as [|l a IH]; simpl; [reflexivity|].
  destruct (str_eqb _ k); lia.
Qed.

Lemma int_total_app a b : int_total (a ++ b) = int_total a + int_total b.
Proof. induction a as [|l a IH]; simpl; lia. Qed.

Lemma label_sum_bounds k ls :
  Forall (fun l => 0 < snd l) ls -> 0 <= label_sum k ls <= int_total ls.
Proof.
  induction 1 as [|l ls Hl _ IH]; simpl; [lia|].
  destruct (str_eqb _ k); lia.
Qed.

Lemma int_total_nonneg ls :
  Forall (fun l => 0 < snd l) ls -> 0 <= int_total ls.
Proof. induction 1; simpl; lia. Qed.

Lemma totals_int ls :
  Forall (fun l => 0 < snd l) ls -> int_total ls < 2 ^ 53 ->
  forall k,
    map_get (totals (map int_line ls)) k
    = if has_label k ls then Some (of_Z (label_sum k ls)) else None.
Proof.
  induction ls as [|l ls IH] using rev_ind; intros Hpos Hsum k.
  - reflexivity.
  - apply Forall_app in Hpos. destruct Hpos as [Hpos Hl].
    inversion Hl as [|? ? Hl0 _]; subst.
    rewrite int_total_app in Hsum. cbn [int_total fold_right] in Hsum.
    pose proof (int_total_nonneg _ Hpos) as Hnn.
    rewrite map_app. cbn [map]. rewrite totals_snoc. unfold add_line.
    cbn [int_line itemLabel quantity].
    rewrite map_get_set.
    unfold has_label. rewrite existsb_app. fold (has_label k ls).
    rewrite label_sum_app. simpl.
    destruct (str_eqb (snd (fst l)) k) eqn:E.
    + apply str_eqb_eq in E. subst k.
      rewrite orb_true_r.
      rewrite (IH Hpos ltac:(lia) (snd (fst l))).
      pose proof (label_sum_bounds (snd (fst l)) _ Hpos) as B.
      destruct (has_label (snd (fst l)) ls) eqn:Hh.
      * f_equal. rewrite add_of_Z by lia. f_equal. lia.
      * f_equal.
        assert (label_sum (snd (fst l)) ls = 0) as ->.
        { clear -Hh. induction ls as [|x ls IH]; simpl in *; [reflexivity|].
          apply orb_false_iff in Hh. destruct Hh as [-> Hh]. auto. }
        change zero with (of_Z 0). rewrite add_of_Z by lia. f_equal. lia.
    + rewrite orb_false_r. rewrite (IH Hpos ltac:(lia) k).
      destruct (has_label k ls); [|reflexivity].
      f_equal. f_equal. lia.
Qed.

Lemma label_sum_perm k a b : Permutation a b -> label_sum k a = label_sum k b.
Proof.
  induction 1 as [|x a b _ IH|x y a|a b c _ IH1 _ IH2]; simpl.
  - reflexivity.
  - rewrite IH. reflexivity.
  - destruct (str_eqb _ k), (str_eqb _ k); lia.
  - congruence.
Qed.

Lemma int_total_perm a b : Permutation a b -> int_total a = int_total b.
Proof.
  induction 1 as [|x a b _ IH|x y a|a b c _ IH1 _ IH2]; simpl; lia.
Qed.

Lemma has_label_perm k a b : Permutation a b -> has_label k a = has_label k b.
Proof.
  induction 1 as [|x a b _ IH|x y a|a b c _ IH1 _ IH2]; simpl.
  - reflexivity.
  - rewrite IH. reflexivity.
  - destruct (str_eqb _ k), (str_eqb _ k); reflexivity.
  - congruence.
Qed.

Lemma totals_perm a b :
  Forall (fun l => 0 < snd l) a -> int_total a < 2 ^ 53 -> Permutation a b ->
  Permutation (totals (map int_line a)) (totals (map int_line b)).
Proof.
  intros Hpos Hsum P.
  assert (Hposb : Forall (fun l => 0 < snd l) b)
    by (eapply Permutation_Forall; eassumption).
  assert (Hsumb : int_total b < 2 ^ 53)
    by (rewrite <- (int_total_perm _ _ P); assumption).
  apply NoDup_Permutation.
  - eapply NoDup_map_inv. apply totals_NoDup.
  - eapply NoDup_map_inv. apply totals_NoDup.
  - intros [k v].
    rewrite !map_get_In by apply totals_NoDup.
    rewrite (totals_int _ Hpos Hsum), (totals_int _ Hposb Hsumb).
    rewrite (has_label_perm k _ _ P), (label_sum_perm k _ _ P). tauto.
Qed.

Lemma totals_keys_labels ls k :
  In k (map fst (totals ls)) -> In k (map itemLabel ls).
Proof.
  induction ls as [|l ls IH] using rev_ind.
  - simpl. tauto.
  - rewrite totals_snoc. unfold add_line. rewrite map_set_keys, map_app.
    destruct (existsb _ (totals ls)).
    + intros H. apply in_or_app. left. auto.
    + intros H. apply in_app_or in H. apply in_or_app.
      destruct H as [H|H]; [left; auto|right; exact H].
Qed.

(** *** Sorting *)

Section Sorting.

Variable cmp : jsstring -> jsstring -> Z.
Variable L : list jsstring.
Hypothesis cmp_orders : orders cmp L.


Lemma insert_sorted_comm x y l :
  In (lab x) L -> In (lab y) L -> Forall (fun z => In (lab z) L) l ->
  lab x <> lab y ->
  insert_sorted cmp x (insert_sorted cmp y l)
  = insert_sorted cmp y (insert_sorted cmp x l).
Proof.
  destruct cmp_orders as (Tot & Tr & Anti).
  intros Hx Hy Hl Hxy. unfold lab in *.
  assert (Exy : (cmp (sum_itemLabel x) (sum_itemLabel y) <=? 0)
                = negb (cmp (sum_itemLabel y) (sum_itemLabel x) <=? 0)).
  { destruct (Z.leb_spec (cmp (sum_itemLabel x) (sum_itemLabel y)) 0) as [A|A];
    destruct (Z.leb_spec (cmp (sum_itemLabel y) (sum_itemLabel x)) 0) as [B|B];
      try reflexivity.
    - exfalso. apply Hxy. apply Anti; assumption.
    - destruct (Tot _ _ Hx Hy); lia. }
  induction Hl as [|z l Hz Hl IH]; simpl.
  - rewrite Exy. destruct (cmp (sum_itemLabel y) (sum_itemLabel x) <=? 0);
      reflexivity.
  - destruct (Z.leb_spec (cmp (sum_itemLabel y) (sum_itemLabel z)) 0) as [Byz|Byz];
    destruct (Z.leb_spec (cmp (sum_itemLabel x) (sum_itemLabel z)) 0) as [Bxz|Bxz];
      simpl; rewrite ?Exy;
      destruct (Z.leb_spec (cmp (sum_itemLabel y) (sum_itemLabel x)) 0) as [B|B];
      simpl;
      repeat match goal with
             | H : (?a <= 0)%Z |- context [(?a <=? 0)%Z] =>
               rewrite (proj2 (Z.leb_le a 0) H)
             | H : (0 < ?a)%Z |- context [(?a <=? 0)%Z] =>
               rewrite (proj2 (Z.leb_gt a 0) H)
             end;
      try reflexivity; try (rewrite IH; reflexivity);
      exfalso;
      pose proof (Tot _ _ Hx Hy);
      pose proof (Tr _ _ _ Hx Hy Hz);
      pose proof (Tr _ _ _ Hy Hx Hz);
      lia.
Qed.

Lemma insert_sorted_In x l z :
  In z (insert_sorted cmp x l) <-> z = x \/ In z l.
Proof.
  induction l as [|y l IH]; simpl.
  - intuition.
  - destruct (cmp _ _ <=? 0)%Z; simpl; [intuition|].
    rewrite IH. intuition.
Qed.

Lemma sort_In l z : In z (sort cmp l) <-> In z l.
Proof.
  induction l as [|x l IH]; simpl; [tauto|].
  rewrite insert_sorted_In, IH. intuition.
Qed.

Lemma sort_perm a b :
  Permutation a b ->
  NoDup (map lab a) -> Forall (fun z => In (lab z) L) a ->
  sort cmp a = sort cmp b.
Proof.
  induction 1 as [|x a b P IH|x y a|a b c P1 IH1 P2 IH2]; intros ND HL.
  - reflexivity.
  - simpl. inversion ND; inversion HL; subst. rewrite IH; auto.
  - simpl. inversion ND as [|? ? N1 ND1]; subst.
    inversion HL as [|? ? H1 HL1]; subst. inversion HL1 as [|? ? H2 HL2]; subst.
    apply insert_sorted_comm.
    + assumption.
    + assumption.
    + apply Forall_forall. intros z Hz. apply (proj1 (sort_In _ _)) in Hz.
      rewrite Forall_forall in HL2. exact (HL2 z Hz).
    + intros E. apply N1. simpl. left. symmetry. exact E.
  - rewrite IH1 by assumption. apply IH2.
    + eapply Permutation_NoDup; [apply Permutation_map; eassumption|assumption].
    + eapply Permutation_Forall; eassumption.
Qed.

End Sorting.

(** C9 (amended): for lines whose quantities are positive integers with
    a sum below 2^53, and a comparator that orders their labels,
    summarizing a sequence of lines and summarizing any permutation of it
    give the same sequence of summary lines. *)
Theorem summary_stable_under_reordering
  (cmp : jsstring -> jsstring -> Z) (a b : list (jsstring * jsstring * Z)) :
  orders cmp (map (fun l => snd (fst l)) a) ->
  Forall (fun l => 0 < snd l) a ->
  int_total a < 2 ^ 53 ->
  Permutation a b ->
  summarize cmp (map int_line a) = summarize cmp (map int_line b).
Proof.
  intros Ho Hpos Hsum P. unfold summarize.
  apply sort_perm with (L := map (fun l => snd (fst l)) a).
  - exact Ho.
  - apply Permutation_map. apply totals_perm; assumption.
  - rewrite map_map. rewrite (map_ext _ fst) by reflexivity.
    apply totals_NoDup.
  - apply Forall_forall. intros z Hz. apply in_map_iff in Hz.
    destruct Hz as [[k v] [<- Hin]]. simpl.
    assert (In k (map fst (totals (map int_line a))))
      by (apply in_map_iff; exists (k, v); auto).
    apply totals_keys_labels in H. rewrite map_map in H. exact H.
Qed.

(** *** The code-unit comparator is an order *)

Lemma compare_units_total a b :
  compare_units a b <= 0 \/ compare_units b a <= 0.
Proof.
  revert b; induction a as [|x a IH]; intros [|y b]; simpl; try lia.
  rewrite (N.compare_antisym x y).
  destruct (N.compare x y); simpl; try lia. apply IH.
Qed.

Lemma compare_units_antisym a b :
  compare_units a b <= 0 -> compare_units b a <= 0 -> a = b.
Proof.
  revert b; induction a as [|x a IH]; intros [|y b]; simpl; try lia.
  - reflexivity.
  - rewrite (N.compare_antisym x y).
    destruct (N.compare_spec x y); simpl; try lia.
    subst. intros A B. f_equal. apply IH; assumption.
Qed.

Lemma compare_units_trans a b c :
  compare_units a b <= 0 -> compare_units b c <= 0 -> compare_units a c <= 0.
Proof.
  revert b c; induction a as [|x a IH]; intros [|y b] [|z c]; simpl; try lia.
  destruct (N.compare_spec x y), (N.compare_spec y z), (N.compare_spec x z);
    subst; try lia.
  apply IH.
Qed.

Lemma compare_units_orders L : orders compare_units L.
Proof.
  repeat split; intros.
  - apply compare_units_total.
  - eapply compare_units_trans; eassumption.
  - apply compare_units_antisym; assumption.
Qed.

(** The documented example: M6x20 10, M8x30 3, M6x20 5. *)
Lemma summarize_example :
  summarize compare_units (map int_line example_lines)
  = [mkSummary (js "M6x20") (of_Z 15); mkSummary (js "M8x30") (of_Z 3)].
Proof. vm_compute. reflexivity. Qed.

Lemma summary_stable_witness :
  summarize compare_units (map int_line example_lines)
  = summarize compare_units
      (map int_line [(js "l3", js "M6x20", 5); (js "l1", js "M6x20", 10);
                     (js "l2", js "M8x30", 3)]).
Proof.
  apply summary_stable_under_reordering.
  - apply compare_units_orders.
  - repeat constructor.
  - reflexivity.
  - apply Permutation_sym.
    exact (Permutation_cons_append
             [(js "l1", js "M6x20", 10); (js "l2", js "M8x30", 3)]
             (js "l3", js "M6x20", 5)).
Defined.

(** C9 (as stated, refuted): three lines of one item with the quantities
    0.1, 0.2 and 0.3 sum to 0.6000000000000001 in this order and to 0.6 in
    the reverse order, so the two summaries differ. *)
Lemma summary_depends_on_order :
  Permutation tenth_lines (rev tenth_lines) /\
  Forall (fun l => isFinite (quantity l) = true /\ gtb (quantity l) zero = true)
         tenth_lines /\
  summarize compare_units tenth_lines
  <> summarize compare_units (rev tenth_lines).
Proof.
  split; [apply Permutation_rev|]. split.
  - repeat constructor.
  - vm_compute. discriminate.
Qed.

End SummaryStable.

(** ** Invariants of the matcher *)

Lemma Forall_take {A} (P : A -> Prop) n (l : list A) :
  Forall P l -> Forall P (firstn n l).
Proof.
  intros H. rewrite <- (firstn_skipn n l) in H.
  apply Forall_app in H. tauto.
Qed.

Lemma Forall_drop {A} (P : A -> Prop) n (l : list A) :
  Forall P l -> Forall P (skipn n l).
Proof.
  intros H. rewrite <- (firstn_skipn n l) in H.
  apply Forall_app in H. tauto.
Qed.

Section MatcherInvariant.

(** A property of matcher states that the elementary steps of the
    matcher preserve. *)
Variable I : mstate -> Prop.
Hypothesis I_advance :
  forall st c tl, I st -> rest st = c :: tl -> I (advance c tl st).
Hypothesis I_set_cap :
  forall st st' i, I st -> I st' ->
    I (set_cap i (firstn (pos st' - pos st) (rest st)) st').
Hypothesis I_look :
  forall st st', I st -> I st' ->
    I (MState (prev st) (rest st) (pos st) (caps st')).

Lemma star_loop_invariant
  (m : (mstate -> option mstate) -> mstate -> option mstate)
  (Q : mstate -> Prop) greedy k :
  (forall k' st res, I st ->
     (forall st' res', I st' -> k' st' = Some res' -> Q res') ->
     m k' st = Some res -> Q res) ->
  (forall st' res', I st' -> k st' = Some res' -> Q res') ->
  forall fuel st res,
    I st -> star_loop m greedy k fuel st = Some res -> Q res.
Proof.
  intros Hm Hk. induction fuel as [|fuel IH]; intros st res HI; simpl.
  - apply Hk. assumption.
  - assert (Hiter : forall res0,
      m (fun st' => if Nat.ltb (pos st) (pos st')
                    then star_loop m greedy k fuel st' else None) st = Some res0 ->
      Q res0).
    { intros res0. apply Hm; [assumption|].
      intros st' res' HI'. destruct (Nat.ltb (pos st) (pos st')); [|discriminate].
      apply IH. assumption. }
    destruct greedy.
    + destruct (m _ st) as [x|] eqn:E.
      * intros H; injection H as <-. apply Hiter. reflexivity.
      * apply Hk. assumption.
    + destruct (k st) as [x|] eqn:E.
      * intros H; injection H as <-. eapply Hk; eassumption.
      * apply Hiter.
Qed.

Lemma rmatch_invariant (Q : mstate -> Prop) r :
  forall k st res, I st ->
    (forall st' res', I st' -> k st' = Some res' -> Q res') ->
    rmatch r k st = Some res -> Q res.
Proof.
  revert Q.
  induction r as [|p|r1 IH1 r2 IH2|r1 IH1 r2 IH2|g r1 IH1|i r1 IH1| | | |r1 IH1];
    intros Q k st res HI Hk; cbn [rmatch].
  - apply Hk. assumption.
  - destruct (rest st) as [|c tl] eqn:E; [discriminate|].
    destruct (p c); [|discriminate].
    apply Hk. apply I_advance; assumption.
  - apply IH1; [assumption|].
    intros st' res' HI'. apply IH2; assumption.
  - destruct (rmatch r1 k st) as [x|] eqn:E.
    + intros H; injection H as <-. eapply IH1; eassumption.
    + apply IH2; assumption.
  - apply star_loop_invariant; try assumption.
    intros k' st0 res0. apply IH1.
  - apply IH1; [assumption|].
    intros st' res' HI'. apply Hk. apply I_set_cap; assumption.
  - destruct (prev st); [discriminate|]. apply Hk. assumption.
  - destruct (rest st); [|discriminate]. apply Hk. assumption.
  - destruct (xorb _ _); [|discriminate]. apply Hk. assumption.
  - destruct (rmatch r1 Some st) as [st'|] eqn:E; [|discriminate].
    apply Hk. apply I_look; [assumption|].
    eapply (IH1 I); [exact HI| |exact E].
    intros st0 res0 HI0 H0. injection H0 as <-. assumption.
Qed.

End MatcherInvariant.

Lemma cap_all P cs i : caps_all P cs -> Forall P (cap cs i).
Proof.
  induction 1 as [|[j v] cs Hv _ IH]; simpl; [constructor|].
  destruct (Nat.eqb i j); assumption.
Qed.

Lemma exec_at_caps P r pv s len cs :
  Forall P s -> exec_at r pv s = Some (len, cs) -> caps_all P cs.
Proof.
  intros Hs. unfold exec_at.
  destruct (rmatch r Some (MState pv s 0 [])) as [st|] eqn:E; [|discriminate].
  intros H; injection H as _ <-.
  apply (rmatch_invariant
           (fun st => Forall P (rest st) /\ caps_all P (caps st)))
    with (Q := fun st => caps_all P (caps st)) in E; try assumption.
  - intros st0 c tl [Hr Hc] Hrest. simpl. split; [|assumption].
    rewrite Hrest in Hr. inversion Hr; assumption.
  - intros st0 st' i [Hr Hc] [Hr' Hc']. simpl. split; [assumption|].
    constructor; [|assumption]. simpl. apply Forall_take. assumption.
  - intros st0 st' [Hr Hc] [Hr' Hc']. simpl. split; assumption.
  - simpl. split; [assumption|constructor].
  - intros st' res' [_ Hc] H. injection H as <-. assumption.
Qed.

(** The cursor never moves back. *)
Lemma exec_at_length r pv s len cs :
  exec_at r pv s = Some (len, cs) -> len <= length s.
Proof.
  unfold exec_at.
  destruct (rmatch r Some (MState pv s 0 [])) as [st|] eqn:E; [|discriminate].
  intros H; injection H as <- _.
  apply (rmatch_invariant
           (fun st => pos st + length (rest st) = length s))
    with (Q := fun st => pos st <= length s) in E; try assumption.
  - intros st0 c tl H Hrest. simpl. rewrite Hrest in H. simpl in H. lia.
  - intros st0 st' i H H'. simpl. assumption.
  - intros st0 st' H H'. simpl. assumption.
  - reflexivity.
  - intros st' res' H0 H. injection H as <-. lia.
Qed.

(** ** What a global replacement is made of *)

Section ScanForall.

Variable P : N -> Prop.
Variable r : regex.
Variable f : jsstring -> list (nat * jsstring) -> jsstring.

(** If the replacement text is made of [P] units whenever the input is,
    the result of the replacement is made of [P] units when the input is. *)
Lemma replace_scan_Forall :
  (forall pv s len cs, Forall P s -> exec_at r pv s = Some (len, cs) ->
                       Forall P (f (firstn len s) cs)) ->
  forall s pv skip, Forall P s -> Forall P (replace_scan r f pv skip s).
Proof.
  intros Hf. induction s as [|c tl IH]; intros pv skip Hs; simpl.
  - destruct skip; [|constructor].
    destruct (exec_at r pv []) as [[len cs]|] eqn:E; [|constructor].
    apply (Hf pv [] len cs Hs) in E. destruct len; exact E.
  - inversion Hs as [|? ? Hc Htl]; subst.
    destruct skip; [|apply IH; assumption].
    destruct (exec_at r pv (c :: tl)) as [[len cs]|] eqn:E.
    + apply Forall_app. split; [eapply Hf; eassumption|].
      destruct len; [constructor; [assumption|]|]; apply IH; assumption.
    + constructor; [assumption|apply IH; assumption].
Qed.

(** If moreover the pattern matches, with a match that is not empty,
    wherever a unit is not [P], the result is made of [P] units whatever
    the input. *)
Lemma replace_scan_removes :
  (forall pv s len cs, exec_at r pv s = Some (len, cs) ->
                       Forall P (f (firstn len s) cs)) ->
  (forall pv c tl, ~ P c ->
     exists n cs, exec_at r pv (c :: tl) = Some (S n, cs)) ->
  (forall c, P c \/ ~ P c) ->
  forall s pv skip, Forall P (replace_scan r f pv skip s).
Proof.
  intros Hf Hm Hdec. induction s as [|c tl IH]; intros pv skip; simpl.
  - destruct skip; [|constructor].
    destruct (exec_at r pv []) as [[len cs]|] eqn:E; [|constructor].
    apply Hf in E. destruct len; exact E.
  - destruct skip; [|apply IH].
    destruct (exec_at r pv (c :: tl)) as [[len cs]|] eqn:E.
    + apply Forall_app. split; [eapply Hf; eassumption|].
      destruct len; [|apply IH].
      destruct (Hdec c) as [Hc|Hc]; [constructor; [assumption|apply IH]|].
      destruct (Hm pv c tl Hc) as (n & cs' & E'). congruence.
    + destruct (Hdec c) as [Hc|Hc]; [constructor; [assumption|apply IH]|].
      destruct (Hm pv c tl Hc) as (n & cs' & E'). congruence.
Qed.

End ScanForall.

(** ** The normalizer leaves no operator *)


Lemma not_operator_dec c : not_operator c \/ ~ not_operator c.
Proof. unfold not_operator. destruct (is_operator c); [right|left]; congruence. Qed.

Lemma operator_not_space c : is_operator c = true -> is_space c = false.
Proof.
  unfold is_operator. intros H.
  apply orb_true_iff in H. destruct H as [H|H];
    [apply orb_true_iff in H; destruct H as [H|H]|];
    apply N.eqb_eq in H; subst c; reflexivity.
Qed.

(** Unfolding equations of the matcher. *)
Lemma rmatch_seq r1 r2 k st :
  rmatch (Seq r1 r2) k st = rmatch r1 (rmatch r2 k) st.
Proof. reflexivity. Qed.

Lemma rmatch_chr_cons p k pv c tl n cs :
  rmatch (Chr p) k (MState pv (c :: tl) n cs)
  = if p c then k (MState (Some c) tl (S n) cs) else None.
Proof. reflexivity. Qed.

Lemma rmatch_chr_nil p k pv n cs :
  rmatch (Chr p) k (MState pv [] n cs) = None.
Proof. reflexivity. Qed.

(** A greedy quantifier over a class stops at once on a unit outside
    the class, and at the end of the input. *)
Lemma rmatch_star_stop p k pv c tl n cs :
  p c = false ->
  rmatch (Star true (Chr p)) k (MState pv (c :: tl) n cs)
  = k (MState pv (c :: tl) n cs).
Proof.
  intros Hp. cbn [rmatch rest length star_loop]. rewrite Hp. reflexivity.
Qed.

Lemma rmatch_star_nil p k pv n cs :
  rmatch (Star true (Chr p)) k (MState pv [] n cs) = k (MState pv [] n cs).
Proof. reflexivity. Qed.

(** A greedy quantifier followed by nothing always matches. *)
Lemma rmatch_star_accepts r st :
  exists st', rmatch (Star true r) Some st = Some st'.
Proof.
  cbn [rmatch]. cbn [star_loop].
  destruct (rmatch r _ st); eauto.
Qed.

Lemma rmatch_pos r k st res :
  (forall st' res', pos st <= pos st' -> k st' = Some res' -> pos st <= pos res') ->
  rmatch r k st = Some res -> pos st <= pos res.
Proof.
  intros Hk E.
  apply (rmatch_invariant (fun st0 => pos st <= pos st0))
    with (Q := fun st0 => pos st <= pos st0) in E; try assumption.
  - intros st0 c0 tl0 H _. simpl. lia.
  - intros st0 st1 i H H1. exact H1.
  - intros st0 st1 H H1. exact H.
  - lia.
Qed.

(** The pattern of the operators matches wherever an operator stands,
    and the match contains the operator. *)
Lemma operator_matches pv c tl :
  ~ not_operator c ->
  exists n cs, exec_at re_operator pv (c :: tl) = Some (S n, cs).
Proof.
  intros Hc. assert (Hop : is_operator c = true)
    by (unfold not_operator in Hc; destruct (is_operator c); congruence).
  pose proof (operator_not_space c Hop) as Hsp.
  unfold exec_at, re_operator, star, space. cbn [seq].
  rewrite rmatch_seq, rmatch_star_stop by assumption.
  rewrite rmatch_seq, rmatch_chr_cons, Hop.
  destruct (rmatch_star_accepts (Chr is_space) (MState (Some c) tl 1 []))
    as [st' E].
  rewrite E. apply rmatch_pos in E.
  - simpl in E. destruct (pos st') as [|n]; [lia|]. eauto.
  - intros st0 res H0 H1. injection H1 as <-. exact H0.
Qed.

Lemma Forall_trimStart P s : Forall P s -> Forall P (trimStart s).
Proof.
  induction 1 as [|c tl Hc Htl IH]; simpl; [constructor|].
  destruct (is_space c); [assumption|constructor; assumption].
Qed.

Lemma Forall_trim P s : Forall P s -> Forall P (trim s).
Proof.
  intros H. unfold trim, trimEnd.
  apply Forall_rev. apply Forall_trimStart. apply Forall_rev.
  apply Forall_trimStart. assumption.
Qed.

Lemma sep_operator_clean t : Forall not_operator (sep_operator t).
Proof.
  unfold sep_operator, replace_all. apply replace_scan_removes.
  - intros. repeat constructor.
  - apply operator_matches.
  - apply not_operator_dec.
Qed.

Lemma const_clean (v : jsstring) r t :
  Forall not_operator v -> Forall not_operator t ->
  Forall not_operator (replace_all r (Normalizer.const v) t).
Proof.
  intros Hv Ht. unfold replace_all. apply replace_scan_Forall; [|assumption].
  intros. exact Hv.
Qed.

Lemma normalizeDictation_clean raw :
  Forall not_operator (normalizeDictation raw).
Proof.
  unfold normalizeDictation.
  apply Forall_trim. unfold collapse_spaces. apply const_clean;
    [repeat constructor|].
  unfold glue_metric, replace_all. apply replace_scan_Forall.
  { intros pv s len cs Hs E. apply (exec_at_caps not_operator) in E; [|assumption].
    apply Forall_app. split; [repeat constructor|]. apply cap_all. assumption. }
  unfold glue_dimension, replace_all. apply replace_scan_Forall.
  { intros pv s len cs Hs E. apply (exec_at_caps not_operator) in E; [|assumption].
    repeat (apply Forall_app; split); try (repeat constructor; fail);
      apply cap_all; assumption. }
  unfold mult_fois. apply const_clean; [repeat constructor|].
  apply sep_operator_clean.
Qed.


(* ------------------------------------------------------------------ *)
(** ** Idempotence of the normalizer *)

(** ** Lists of code units *)

Lemma lastc_app pv a b : lastc pv (a ++ b) = lastc (lastc pv a) b.
Proof. unfold lastc. apply fold_left_app. Qed.

Lemma lastc_cons pv c s : lastc pv (c :: s) = lastc (Some c) s.
Proof. reflexivity. Qed.

Lemma lastc_snoc pv s c : lastc pv (s ++ [c]) = Some c.
Proof. rewrite lastc_app. reflexivity. Qed.

Lemma lastc_nonempty pv pv' s : s <> [] -> lastc pv s = lastc pv' s.
Proof.
  destruct s as [|c s]; [congruence|]. intros _. reflexivity.
Qed.

Lemma lastc_some pv s : s <> [] -> exists c, lastc pv s = Some c /\ In c s.
Proof.
  induction s as [|c s IH] using rev_ind; [congruence|].
  intros _. exists c. rewrite lastc_snoc. split; [reflexivity|].
  apply in_or_app. right. left. reflexivity.
Qed.

Lemma take_drop p s : take_while p s ++ drop_while p s = s.
Proof.
  induction s as [|c s IH]; simpl; [reflexivity|].
  destruct (p c); simpl; [rewrite IH|]; reflexivity.
Qed.

Lemma take_while_all p s : all p (take_while p s).
Proof.
  induction s as [|c s IH]; simpl; [constructor|].
  destruct (p c) eqn:E; [constructor; assumption|constructor].
Qed.

Lemma drop_while_head p s : head_is p (drop_while p s) = false.
Proof.
  induction s as [|c s IH]; simpl; [reflexivity|].
  destruct (p c) eqn:E; [assumption|]. simpl. assumption.
Qed.

Lemma take_while_app p a b :
  all p a -> head_is p b = false -> take_while p (a ++ b) = a.
Proof.
  induction 1 as [|c a Hc _ IH]; simpl; intros Hb.
  - destruct b as [|c b]; [reflexivity|]. simpl in *. rewrite Hb. reflexivity.
  - rewrite Hc, IH by assumption. reflexivity.
Qed.

Lemma take_while_length p s : length (take_while p s) <= length s.
Proof.
  induction s as [|c s IH]; simpl; [lia|]. destruct (p c); simpl; lia.
Qed.

Lemma firstn_app_exact {A} (a b : list A) : firstn (length a) (a ++ b) = a.
Proof.
  rewrite firstn_app, Nat.sub_diag, firstn_all. simpl. apply app_nil_r.
Qed.

(** ** Classes of code units *)

Ltac class_solve :=
  unfold is_space, is_word, is_digit, is_operator, is_times, ci,
    is_ascii_lower, is_ascii_upper, is_latin1_lower, is_latin1_upper,
    in_range in *;
  repeat match goal with
         | H : _ = true |- _ =>
           first [ apply orb_true_iff in H; destruct H as [H|H]
                 | apply andb_true_iff in H; destruct H as [? H]
                 | apply N.leb_le in H
                 | apply N.eqb_eq in H
                 | apply negb_true_iff in H ]
         | H : _ = false |- _ =>
           first [ apply orb_false_iff in H; destruct H as [? H]
                 | apply N.leb_gt in H
                 | apply N.eqb_neq in H ]
         end;
  repeat match goal with
         | |- _ = false =>
           first [ apply orb_false_iff; split
                 | apply N.eqb_neq
                 | apply andb_false_iff;
                   first [ left; apply N.leb_gt; lia
                         | right; apply N.leb_gt; lia ] ]
         end;
  try lia; try discriminate.

Lemma space_not_word c : is_space c = true -> is_word c = false.
Proof. intros H. class_solve. Qed.

Lemma digit_word c : is_digit c = true -> is_word c = true.
Proof.
  intros H. unfold is_word. rewrite H. rewrite orb_true_r. reflexivity.
Qed.

Lemma digit_not_space c : is_digit c = true -> is_space c = false.
Proof. intros H. class_solve. Qed.

Lemma operator_not_word c : is_operator c = true -> is_word c = false.
Proof. intros H. class_solve. Qed.

(** ** The matcher on classes and literals *)

(** A greedy quantifier over a class reads the longest run of the class,
    provided that what follows, when it fails after the longest run, fails
    after every shorter one as well. *)
Lemma star_loop_max (p : N -> bool)
  (m : (mstate -> option mstate) -> mstate -> option mstate) k cs :
  (forall k' pv c tl n cs',
      m k' (MState pv (c :: tl) n cs')
      = if p c then k' (MState (Some c) tl (S n) cs') else None) ->
  (forall k' pv n cs', m k' (MState pv [] n cs') = None) ->
  forall fuel pv s n,
  length (take_while p s) <= fuel ->
  (k (MState (lastc pv (take_while p s)) (drop_while p s)
             (n + length (take_while p s)) cs) = None ->
   forall a b, take_while p s = a ++ b -> b <> [] ->
     k (MState (lastc pv a) (b ++ drop_while p s) (n + length a) cs) = None) ->
  star_loop m true k fuel (MState pv s n cs)
  = k (MState (lastc pv (take_while p s)) (drop_while p s)
              (n + length (take_while p s)) cs).
Proof.
  intros Hm Hnil.
  induction fuel as [|fuel IH]; intros pv s n Hlen H.
  - destruct (take_while p s) eqn:E; [|simpl in Hlen; lia].
    assert (drop_while p s = s) as -> by (rewrite <- (take_drop p s) at 2; rewrite E; reflexivity).
    simpl. rewrite Nat.add_0_r. reflexivity.
  - destruct s as [|c tl].
    + cbn [star_loop]. rewrite Hnil. simpl. rewrite Nat.add_0_r. reflexivity.
    + cbn [star_loop]. rewrite Hm. simpl take_while in *. simpl drop_while in *.
      destruct (p c) eqn:Hp.
      * cbn [pos].
        replace (n <? S n) with true by (symmetry; apply Nat.ltb_lt; lia).
        rewrite IH.
        -- simpl length. rewrite lastc_cons.
           replace (S n + length (take_while p tl))
             with (n + S (length (take_while p tl))) by lia.
           destruct (k _) eqn:E; [reflexivity|].
           specialize (H eq_refl [] (c :: take_while p tl) eq_refl ltac:(discriminate)).
           simpl in H. rewrite Nat.add_0_r in H. rewrite take_drop in H.
           exact H.
        -- simpl in Hlen. lia.
        -- intros E a b Hab Hb. simpl length in H. rewrite lastc_cons in H.
           replace (S n + length (take_while p tl))
             with (n + S (length (take_while p tl))) in E by lia.
           specialize (H E (c :: a) b). simpl in H. rewrite Hab in H.
           specialize (H eq_refl Hb).
           replace (S n + length a) with (n + S (length a)) by lia. exact H.
      * simpl. rewrite Nat.add_0_r. reflexivity.
Qed.

Lemma rmatch_star_max p k pv s n cs :
  (k (MState (lastc pv (take_while p s)) (drop_while p s)
             (n + length (take_while p s)) cs) = None ->
   forall a b, take_while p s = a ++ b -> b <> [] ->
     k (MState (lastc pv a) (b ++ drop_while p s) (n + length a) cs) = None) ->
  rmatch (Star true (Chr p)) k (MState pv s n cs)
  = k (MState (lastc pv (take_while p s)) (drop_while p s)
              (n + length (take_while p s)) cs).
Proof.
  intros H. cbn [rmatch rest].
  apply (star_loop_max p); [reflexivity|reflexivity| |exact H].
  pose proof (take_while_length p s). lia.
Qed.

(** A greedy quantifier over a class followed by nothing. *)
Lemma rmatch_star_final p pv s n cs :
  rmatch (Star true (Chr p)) Some (MState pv s n cs)
  = Some (MState (lastc pv (take_while p s)) (drop_while p s)
                 (n + length (take_while p s)) cs).
Proof. apply rmatch_star_max. discriminate. Qed.

Lemma rmatch_seq_cons r l k st :
  rmatch (seq (r :: l)) k st = rmatch r (rmatch (seq l) k) st.
Proof. destruct l; reflexivity. Qed.

(** ** Pieces of a global replacement *)

Lemma src_app a b : src (a ++ b) = src a ++ src b.
Proof. unfold src. apply flat_map_app. Qed.

Lemma dst_app a b : dst (a ++ b) = dst a ++ dst b.
Proof. unfold dst. apply flat_map_app. Qed.

Lemma pieces_ok_weaken nm (rule rule' : option N -> jsstring -> jsstring -> jsstring -> Prop) :
  (forall pv M B rest, rule pv M B rest -> rule' pv M B rest) ->
  forall L pv, pieces_ok nm rule pv L -> pieces_ok nm rule' pv L.
Proof.
  intros Hr. induction L as [|[c|M B] L IH]; intros pv; simpl.
  - trivial.
  - intros [H1 H2]. split; auto.
  - intros [H1 H2]. split; auto.
Qed.

Lemma pieces_ok_app nm rule A : forall L pv,
  pieces_ok nm rule pv (A ++ L) -> pieces_ok nm rule (lastc pv (src A)) L.
Proof.
  induction A as [|[c|M B] A IH]; intros L pv; simpl.
  - trivial.
  - intros [_ H]. apply IH in H. exact H.
  - intros [_ H]. apply IH in H. rewrite lastc_app. exact H.
Qed.

Section Scan.

Variable r : regex.
Variable f : jsstring -> list (nat * jsstring) -> jsstring.

(** The pattern never matches the empty string. *)
Hypothesis nonempty : forall pv s cs, exec_at r pv s <> Some (0, cs).

Lemma replace_scan_skip : forall k s pv,
  k <= length s ->
  replace_scan r f pv k s
  = replace_scan r f (lastc pv (firstn k s)) 0 (skipn k s).
Proof.
  induction k as [|k IH]; intros s pv Hk.
  - reflexivity.
  - destruct s as [|c tl]; [simpl in Hk; lia|].
    simpl in Hk. cbn [replace_scan firstn skipn]. rewrite lastc_cons.
    apply IH. lia.
Qed.

Lemma scan_pieces_aux : forall n s pv,
  length s <= n ->
  exists L, src L = s /\ dst L = replace_scan r f pv 0 s /\
            pieces_ok (scan_nomatch r) (scan_rule r f) pv L.
Proof.
  induction n as [|n IH]; intros s pv Hn.
  - destruct s; [|simpl in Hn; lia].
    exists []. repeat split. simpl.
    destruct (exec_at r pv []) as [[len cs]|] eqn:E; [|reflexivity].
    pose proof (exec_at_length _ _ _ _ _ E) as Hl. simpl in Hl.
    assert (len = 0) by lia. subst. exfalso. eapply nonempty; eassumption.
  - destruct s as [|c tl].
    + exists []. repeat split. simpl.
      destruct (exec_at r pv []) as [[len cs]|] eqn:E; [|reflexivity].
      pose proof (exec_at_length _ _ _ _ _ E) as Hl. simpl in Hl.
      assert (len = 0) by lia. subst. exfalso. eapply nonempty; eassumption.
    + cbn [replace_scan].
      destruct (exec_at r pv (c :: tl)) as [[len cs]|] eqn:E.
      * destruct len as [|k]; [exfalso; eapply nonempty; eassumption|].
        pose proof (exec_at_length _ _ _ _ _ E) as Hl.
        rewrite replace_scan_skip by (simpl in Hl; lia).
        destruct (IH (skipn k tl) (lastc (Some c) (firstn k tl))) as (L & HS & HD & HO).
        { rewrite length_skipn. simpl in Hn. lia. }
        exists (Repl (firstn (S k) (c :: tl)) (f (firstn (S k) (c :: tl)) cs) :: L).
        split; [|split].
        -- simpl. rewrite HS. f_equal. apply firstn_skipn.
        -- simpl. rewrite HD. reflexivity.
        -- split.
           ++ split; [simpl; discriminate|]. exists cs. split; [|reflexivity].
              rewrite HS. change (skipn k tl) with (skipn (S k) (c :: tl)).
              rewrite firstn_skipn. rewrite E. f_equal. f_equal.
              rewrite length_firstn. lia.
           ++ exact HO.
      * destruct (IH tl (Some c)) as (L & HS & HD & HO); [simpl in Hn; lia|].
        exists (Keep c :: L). split; [|split].
        -- simpl. rewrite HS. reflexivity.
        -- simpl. rewrite HD. reflexivity.
        -- split; [|exact HO]. unfold scan_nomatch. rewrite HS. exact E.
Qed.

Lemma scan_pieces s :
  exists L, src L = s /\ dst L = replace_all r f s /\
            pieces_ok (scan_nomatch r) (scan_rule r f) None L.
Proof. apply (scan_pieces_aux (length s)). lia. Qed.

End Scan.

(** ** Windows and pieces *)

Lemma head_word_app a b : a <> [] -> head_word (a ++ b) = head_word a.
Proof. destruct a; [congruence|reflexivity]. Qed.

Lemma last_word_app a b : b <> [] -> last_word (a ++ b) = last_word b.
Proof.
  intros Hb. unfold last_word. rewrite lastc_app.
  rewrite (lastc_nonempty _ None) by assumption. reflexivity.
Qed.

Lemma pv_word_lastc_all pv s :
  all is_word s -> s <> [] -> pv_word (lastc pv s) = true.
Proof.
  intros Hs Hn. destruct (lastc_some pv s Hn) as (c & -> & Hin).
  unfold all in Hs. rewrite Forall_forall in Hs. simpl. auto.
Qed.

Lemma pv_word_lastc_none pv s :
  none is_word s -> s <> [] -> pv_word (lastc pv s) = false.
Proof.
  intros Hs Hn. destruct (lastc_some pv s Hn) as (c & -> & Hin).
  unfold none in Hs. rewrite Forall_forall in Hs. simpl. auto.
Qed.

Lemma head_word_all s : all is_word s -> s <> [] -> head_word s = true.
Proof. intros Hs Hn. destruct s; [congruence|]. inversion Hs; assumption. Qed.

Lemma head_word_none s : none is_word s -> head_word s = false.
Proof. intros Hs. destruct s; [reflexivity|]. inversion Hs; assumption. Qed.

(** A uniform text cannot contain the end of one thing that ends with a
    unit of one class and the start of the next that starts with a unit
    of the other class. *)
Lemma uniform_no_straddle B a b pv :
  uniform B -> B = a ++ b -> a <> [] -> b <> [] ->
  pv_word (lastc pv a) = negb (head_word b) -> False.
Proof.
  intros [_ [H|H]] -> Ha Hb E; apply Forall_app in H; destruct H as [H1 H2].
  - rewrite (pv_word_lastc_all _ _ H1 Ha), (head_word_all _ H2 Hb) in E.
    discriminate.
  - rewrite (pv_word_lastc_none _ _ H1 Ha), (head_word_none _ H2) in E.
    discriminate.
Qed.

Lemma blocks_uniform_tail p L : blocks_uniform (p :: L) -> blocks_uniform L.
Proof. intros H M B Hin. apply (H M B). right. exact Hin. Qed.

(** A window that starts at the start of the result is made of whole
    pieces. *)
Lemma prefix_pieces : forall L X suf,
  blocks_uniform L -> dst L = X ++ suf -> X <> [] ->
  last_word X = true -> head_word suf = false ->
  exists l L2, L = l ++ L2 /\ dst l = X /\ dst L2 = suf /\ l <> [].
Proof.
  induction L as [|p L IH]; intros X suf HU HD HX HL HS.
  - simpl in HD. destruct X; [congruence|discriminate].
  - simpl in HD.
    assert (Hcase : (exists X', X = dst_piece p ++ X') \/
                    (exists b, b <> [] /\ dst_piece p = X ++ b /\ suf = b ++ dst L)).
    { apply app_eq_app in HD.
      destruct HD as [e [[H1 H2]|[H1 H2]]].
      - destruct e as [|x e].
        + left. exists []. rewrite app_nil_r in H1. rewrite H1. rewrite app_nil_r. reflexivity.
        + right. exists (x :: e). split; [discriminate|]. split; assumption.
      - left. exists e. exact H1. }
    destruct Hcase as [[X' HX']|(b & Hb & Hp & Hsuf)].
    + subst X. rewrite <- app_assoc in HD. apply app_inv_head in HD.
      destruct X' as [|x X'].
      * exists [p], L. rewrite app_nil_r. simpl. rewrite app_nil_r.
        repeat split; try reflexivity; try discriminate. exact HD.
      * destruct (IH (x :: X') suf) as (l & L2 & -> & Hl & HL2 & _).
        -- eapply blocks_uniform_tail; eassumption.
        -- exact HD.
        -- discriminate.
        -- rewrite last_word_app in HL by discriminate. exact HL.
        -- exact HS.
        -- exists (p :: l), L2. simpl. rewrite Hl.
           repeat split; try reflexivity; try assumption; discriminate.
    + exfalso. destruct p as [c|M B]; simpl in Hp.
      * destruct X as [|x X]; [congruence|]. destruct X; destruct b; try discriminate; congruence.
      * assert (HB : uniform B) by (apply (HU M B); left; reflexivity).
        apply (uniform_no_straddle B X b None HB Hp HX Hb).
        subst suf. rewrite head_word_app in HS by assumption.
        rewrite HS. unfold last_word in HL. rewrite HL. reflexivity.
Qed.

(** A window of the result, between two units that are not word units,
    is made of whole pieces. *)
Lemma factor_pieces : forall L pv0 pre X suf,
  blocks_uniform L -> dst L = pre ++ X ++ suf -> X <> [] ->
  head_word X = true -> last_word X = true ->
  pv_word (lastc pv0 pre) = false -> head_word suf = false ->
  exists L1 l L2, L = L1 ++ l ++ L2 /\ dst L1 = pre /\ dst l = X /\
                  dst L2 = suf /\ l <> [].
Proof.
  induction L as [|p L IH]; intros pv0 pre X suf HU HD HX HH HL HP HS.
  - simpl in HD. destruct pre; destruct X; try congruence; discriminate.
  - destruct pre as [|a pre].
    + destruct (prefix_pieces (p :: L) X suf HU HD HX HL HS)
        as (l & L2 & E & Hl & HL2 & Hne).
      exists [], l, L2. simpl. auto.
    + simpl in HD.
      change (dst_piece p ++ dst L = (a :: pre) ++ X ++ suf) in HD.
      assert (Hcase : (exists pre', a :: pre = dst_piece p ++ pre') \/
                      (exists b, b <> [] /\ dst_piece p = (a :: pre) ++ b)).
      { apply app_eq_app in HD.
        destruct HD as [e [[H1 H2]|[H1 H2]]].
        - destruct e as [|x e].
          + left. exists []. rewrite app_nil_r in *. congruence.
          + right. exists (x :: e). split; [discriminate|]. exact H1.
        - left. exists e. exact H1. }
      destruct Hcase as [[pre' Hpre]|(b & Hb & Hp)].
      * rewrite Hpre in HD. rewrite <- app_assoc in HD. apply app_inv_head in HD.
        destruct (IH (lastc pv0 (dst_piece p)) pre' X suf) as (L1 & l & L2 & -> & H1 & H2 & H3 & H4).
        -- eapply blocks_uniform_tail; eassumption.
        -- exact HD.
        -- exact HX.
        -- exact HH.
        -- exact HL.
        -- rewrite <- lastc_app. rewrite <- Hpre. exact HP.
        -- exact HS.
        -- exists (p :: L1), l, L2. simpl. rewrite H1.
           repeat split; try assumption. symmetry. exact Hpre.
      * exfalso. destruct p as [c|M B]; simpl in Hp.
        -- injection Hp as -> Hp. destruct pre; destruct b; try discriminate; congruence.
        -- assert (HB : uniform B) by (apply (HU M B); left; reflexivity).
           rewrite Hp in HD. simpl in HD. injection HD as HD.
           rewrite <- app_assoc in HD. apply app_inv_head in HD.
           apply (uniform_no_straddle B (a :: pre) b pv0 HB Hp ltac:(discriminate) Hb).
           rewrite HP.
           assert (head_word b = true) as ->; [|reflexivity].
           destruct b as [|x b]; [congruence|]. destruct X as [|y X]; [congruence|].
           simpl in HD. injection HD as <- _. exact HH.
Qed.

(** ** Contexts of a window in the source *)

Lemma pieces_ok_mid nm rule A M B L pv :
  pieces_ok nm rule pv (A ++ Repl M B :: L) ->
  rule (lastc pv (src A)) M B (src L).
Proof. intros H. apply pieces_ok_app in H. destruct H as [H _]. exact H. Qed.

Lemma pieces_blocks_uniform nm : forall L pv,
  pieces_ok nm good_rule pv L -> blocks_uniform L.
Proof.
  induction L as [|[c|M B] L IH]; intros pv H M' B' Hin.
  - destruct Hin.
  - destruct Hin as [Hin|Hin]; [discriminate|].
    destruct H as [_ H]. eapply IH; eassumption.
  - destruct H as [Hr H]. destruct Hin as [Hin|Hin].
    + injection Hin as <- <-. destruct Hr as (_ & HU & _). exact HU.
    + eapply IH; eassumption.
Qed.

Lemma pv_word_last pv s : s <> [] -> pv_word (lastc pv s) = last_word s.
Proof. intros H. unfold last_word. f_equal. apply lastc_nonempty. exact H. Qed.

(** The first piece of a window that starts with a word unit starts
    with a word unit in the source as well. *)
Lemma src_head_word nm pv l L2 :
  pieces_ok nm good_rule pv (l ++ L2) -> l <> [] ->
  head_word (dst l) = true -> head_word (src (l ++ L2)) = true.
Proof.
  intros HO Hl HH. destruct l as [|[c|M B] l]; [congruence| |].
  - exact HH.
  - destruct HO as [(HM & (HB & _) & _ & _ & H5 & _) _].
    simpl in *. rewrite head_word_app in HH by assumption.
    rewrite head_word_app by assumption. auto.
Qed.

Lemma src_last_word nm pv A l L2 :
  pieces_ok nm good_rule pv (A ++ l ++ L2) -> l <> [] ->
  last_word (dst l) = true -> pv_word (lastc pv (src (A ++ l))) = true.
Proof.
  intros HO Hl HL. destruct l as [|q l _] using rev_ind; [congruence|].
  rewrite app_assoc, src_app, lastc_app.
  rewrite dst_app in HL. destruct q as [c|M B].
  - simpl in *. rewrite last_word_app in HL by discriminate. exact HL.
  - replace (A ++ (l ++ [Repl M B]) ++ L2) with ((A ++ l) ++ Repl M B :: L2) in HO
      by (rewrite <- !app_assoc; reflexivity).
    apply pieces_ok_mid in HO.
    destruct HO as (HM & (HB & _) & _ & _ & _ & H6).
    simpl in *. rewrite app_nil_r in *.
    rewrite last_word_app in HL by assumption.
    rewrite pv_word_last by assumption. auto.
Qed.

Lemma src_left_context nm pv0 L1 l L2 :
  pieces_ok nm good_rule pv0 (L1 ++ l ++ L2) -> l <> [] ->
  head_word (dst l) = true ->
  pv_word (lastc pv0 (dst L1)) = false ->
  pv_word (lastc pv0 (src L1)) = false.
Proof.
  intros HO Hl HH HP.
  destruct L1 as [|q L1 _] using rev_ind; [exact HP|].
  rewrite dst_app, lastc_app in HP. rewrite src_app, lastc_app.
  destruct q as [c|M B]; [exact HP|].
  rewrite <- app_assoc in HO. simpl in HO.
  pose proof (pieces_ok_mid _ _ _ _ _ _ _ HO) as (HM & (HB & _) & H3 & _).
  simpl. rewrite app_nil_r. rewrite pv_word_last by assumption.
  destruct (last_word M) eqn:E; [|reflexivity].
  specialize (H3 eq_refl).
  change (L1 ++ Repl M B :: l ++ L2) with (L1 ++ [Repl M B] ++ l ++ L2) in HO.
  rewrite app_assoc in HO. apply pieces_ok_app in HO.
  rewrite (src_head_word _ _ _ _ HO Hl HH) in H3. discriminate.
Qed.

Lemma src_right_context nm pv0 L1 l L2 :
  pieces_ok nm good_rule pv0 (L1 ++ l ++ L2) -> l <> [] ->
  last_word (dst l) = true ->
  head_word (dst L2) = false ->
  head_word (src L2) = false.
Proof.
  intros HO Hl HL HS.
  destruct L2 as [|[c|M B] L2]; [reflexivity|exact HS|].
  rewrite app_assoc in HO.
  pose proof (pieces_ok_mid _ _ _ _ _ _ _ HO) as (HM & (HB & _) & _ & H4 & H5 & _).
  simpl in *. rewrite head_word_app in HS by assumption.
  rewrite head_word_app by assumption.
  destruct (head_word M) eqn:E; [|reflexivity].
  specialize (H4 eq_refl).
  replace ((L1 ++ l) ++ Repl M B :: L2) with (L1 ++ l ++ Repl M B :: L2) in HO
    by (rewrite <- !app_assoc; reflexivity).
  rewrite (src_last_word _ _ _ _ _ HO Hl HL) in H4. discriminate.
Qed.

(** ** The matcher and what a pattern matches *)

Lemma star_loop_sound m (R : mstate -> mstate -> Prop) g k :
  (forall k' st x, m k' st = Some x -> exists st', R st st' /\ k' st' = Some x) ->
  forall fuel st x, star_loop m g k fuel st = Some x ->
  exists st', iter R st st' /\ k st' = Some x.
Proof.
  intros Hm. induction fuel as [|fuel IH]; intros st x H.
  - simpl in H. exists st. split; [constructor|exact H].
  - assert (Hit : forall y,
      m (fun st' => if Nat.ltb (pos st) (pos st')
                    then star_loop m g k fuel st' else None) st = Some y ->
      exists st', iter R st st' /\ k st' = Some y).
    { intros y Hy. apply Hm in Hy. destruct Hy as (st1 & HR & Hk).
      destruct (Nat.ltb (pos st) (pos st1)) eqn:E; [|discriminate].
      apply Nat.ltb_lt in E. apply IH in Hk. destruct Hk as (st' & Hi & Hk).
      exists st'. split; [|exact Hk]. econstructor; eassumption. }
    cbn [star_loop] in H. destruct g.
    + destruct (m _ st) as [y|] eqn:E.
      * injection H as ->. apply Hit. reflexivity.
      * exists st. split; [constructor|exact H].
    + destruct (k st) as [y|] eqn:E.
      * injection H as ->. exists st. split; [constructor|exact E].
      * apply Hit. exact H.
Qed.

Lemma rmatch_sound : forall r k st x,
  rmatch r k st = Some x -> exists st', sem r st st' /\ k st' = Some x.
Proof.
  induction r as [|p|r1 IH1 r2 IH2|r1 IH1 r2 IH2|g r1 IH1|i r1 IH1| | | |r1 IH1];
    intros k st x H; cbn [rmatch] in H; cbn [sem].
  - exists st. auto.
  - destruct (rest st) as [|c tl] eqn:E; [discriminate|].
    destruct (p c) eqn:Ep; [|discriminate].
    exists (advance c tl st). split; [|exact H]. exists c, tl. auto.
  - apply IH1 in H. destruct H as (mid & H1 & H).
    apply IH2 in H. destruct H as (st' & H2 & H).
    exists st'. split; [|exact H]. exists mid. auto.
  - destruct (rmatch r1 k st) as [y|] eqn:E.
    + injection H as ->. apply IH1 in E. destruct E as (st' & H1 & H).
      exists st'. auto.
    + apply IH2 in H. destruct H as (st' & H2 & H). exists st'. auto.
  - eapply star_loop_sound; [|exact H]. intros k' st0 y. apply IH1.
  - apply IH1 in H. destruct H as (st1 & H1 & H).
    eexists. split; [|exact H]. exists st1. auto.
  - destruct (prev st) eqn:E; [discriminate|]. exists st. auto.
  - destruct (rest st) eqn:E; [|discriminate]. exists st. auto.
  - destruct (xorb (word_before st) (word_after st)) eqn:E; [|discriminate].
    exists st. auto.
  - destruct (rmatch r1 Some st) as [st1|] eqn:E; [|discriminate].
    apply IH1 in E. destruct E as (st' & H1 & E). injection E as ->.
    eexists. split; [|exact H]. exists st1. auto.
Qed.

(** What a match consumes. *)
Lemma sem_consumed : forall r st st',
  sem r st st' ->
  exists a, rest st = a ++ rest st' /\ pos st' = pos st + length a /\
            prev st' = lastc (prev st) a.
Proof.
  induction r as [|p|r1 IH1 r2 IH2|r1 IH1 r2 IH2|g r1 IH1|i r1 IH1| | | |r1 IH1];
    intros st st' H; cbn [sem] in H.
  - subst. exists []. simpl. auto.
  - destruct H as (c & tl & E & _ & ->). exists [c]. simpl. rewrite E.
    repeat split; lia.
  - destruct H as (mid & H1 & H2). apply IH1 in H1. apply IH2 in H2.
    destruct H1 as (a & E1 & P1 & V1). destruct H2 as (b & E2 & P2 & V2).
    exists (a ++ b). rewrite E1, E2, P2, P1, V2, V1, length_app, lastc_app, app_assoc.
    repeat split; lia.
  - destruct H as [H|H]; auto.
  - induction H as [st|st st1 st2 HR Hlt Hi IH].
    + exists []. simpl. auto.
    + apply IH1 in HR. destruct HR as (a & E1 & P1 & V1).
      destruct IH as (b & E2 & P2 & V2).
      exists (a ++ b). rewrite E1, E2, P2, P1, V2, V1, length_app, lastc_app, app_assoc.
      repeat split; lia.
  - destruct H as (st1 & H & ->). apply IH1 in H. exact H.
  - destruct H as (_ & ->). exists []. simpl. auto.
  - destruct H as (_ & ->). exists []. simpl. auto.
  - destruct H as (_ & ->). exists []. simpl. auto.
  - destruct H as (st1 & _ & ->). exists []. simpl. auto.
Qed.

Lemma sem_measure r st st' :
  sem r st st' -> length (rest st') + pos st' = length (rest st) + pos st.
Proof.
  intros H. apply sem_consumed in H. destruct H as (a & E & P & _).
  rewrite E, P, length_app. lia.
Qed.

(** ** Captures do not decide whether a pattern matches *)

Lemma alike_Some : alike Some Some.
Proof. intros a b _. split; discriminate. Qed.

Lemma star_loop_alike m g k k' :
  (forall k1 k2, alike k1 k2 -> alike (m k1) (m k2)) ->
  alike k k' ->
  forall fuel, alike (star_loop m g k fuel) (star_loop m g k' fuel).
Proof.
  intros Hm Hk. induction fuel as [|fuel IH]; intros a b Hab.
  - simpl. apply Hk. exact Hab.
  - assert (Hin : alike
      (fun st' => if Nat.ltb (pos a) (pos st')
                  then star_loop m g k fuel st' else None)
      (fun st' => if Nat.ltb (pos b) (pos st')
                  then star_loop m g k' fuel st' else None)).
    { intros x y Hxy. destruct Hab as (_ & _ & Pab).
      pose proof Hxy as (_ & _ & Pxy). rewrite Pab, Pxy.
      destruct (Nat.ltb (pos b) (pos y)); [apply IH; exact Hxy|tauto]. }
    pose proof (Hm _ _ Hin a b Hab) as H1. pose proof (Hk a b Hab) as H2.
    cbn [star_loop]. destruct g.
    + destruct (m _ a), (m _ b), (k a), (k' b);
        intuition congruence.
    + destruct (m _ a), (m _ b), (k a), (k' b);
        intuition congruence.
Qed.

Lemma rmatch_alike : forall r k k', alike k k' -> alike (rmatch r k) (rmatch r k').
Proof.
  induction r as [|p|r1 IH1 r2 IH2|r1 IH1 r2 IH2|g r1 IH1|i r1 IH1| | | |r1 IH1];
    intros k k' Hk a b Hab; cbn [rmatch].
  - apply Hk. exact Hab.
  - pose proof Hab as (Vab & Rab & Pab). rewrite Rab.
    destruct (rest b) as [|c tl]; [tauto|]. destruct (p c); [|tauto].
    apply Hk. unfold advance. repeat split; simpl; congruence.
  - apply IH1; [|exact Hab]. apply IH2. exact Hk.
  - pose proof (IH1 _ _ Hk a b Hab). pose proof (IH2 _ _ Hk a b Hab).
    destruct (rmatch r1 k a), (rmatch r1 k' b); intuition congruence.
  - pose proof Hab as (Vab & Rab & Pab). rewrite Rab.
    apply star_loop_alike; [exact IH1|exact Hk|exact Hab].
  - apply IH1; [|exact Hab]. intros x y Hxy. apply Hk.
    destruct Hxy as (V & R & P). unfold set_cap. repeat split; simpl; assumption.
  - pose proof Hab as (Vab & Rab & Pab). rewrite Vab.
    destruct (prev b); [tauto|]. apply Hk. exact Hab.
  - pose proof Hab as (Vab & Rab & Pab). rewrite Rab.
    destruct (rest b); [|tauto]. apply Hk. exact Hab.
  - pose proof Hab as (Vab & Rab & Pab). unfold word_before, word_after.
    rewrite Vab, Rab.
    destruct (xorb _ _); [|tauto]. apply Hk. exact Hab.
  - pose proof (IH1 _ _ alike_Some a b Hab) as H1.
    destruct (rmatch r1 Some a) as [x|], (rmatch r1 Some b) as [y|];
      try tauto; try (exfalso; intuition congruence).
    apply Hk. destruct Hab as (V & R & P). repeat split; simpl; assumption.
Qed.

(** ** Every way to match is tried *)

Lemma star_loop_complete m (R : mstate -> mstate -> Prop) g k :
  (forall k', alike k' k' -> forall st st1,
      R st st1 -> k' st1 <> None -> m k' st <> None) ->
  (forall st st1, R st st1 ->
      length (rest st1) + pos st1 = length (rest st) + pos st) ->
  (forall k1 k2, alike k1 k2 -> alike (m k1) (m k2)) ->
  alike k k ->
  forall st st1, iter R st st1 -> k st1 <> None ->
  forall fuel, length (rest st) < fuel -> star_loop m g k fuel st <> None.
Proof.
  intros Hm Hmeas Hal Hk st st1 Hi.
  induction Hi as [st|st st1 st2 HR Hlt Hi IH]; intros Hacc fuel Hfuel.
  - destruct fuel as [|fuel]; [lia|]. cbn [star_loop].
    destruct g.
    + destruct (m _ st); [discriminate|exact Hacc].
    + destruct (k st); [discriminate|contradiction].
  - destruct fuel as [|fuel]; [lia|]. cbn [star_loop].
    assert (Hin : m (fun st' => if Nat.ltb (pos st) (pos st')
                                then star_loop m g k fuel st' else None) st
                  <> None).
    { apply (Hm _) with (st1 := st1); [|exact HR|].
      - intros x y Hxy. pose proof Hxy as (_ & _ & Pxy). rewrite Pxy.
        destruct (Nat.ltb (pos st) (pos y)); [|tauto].
        apply star_loop_alike; assumption.
      - apply Nat.ltb_lt in Hlt. rewrite Hlt. apply IH; [exact Hacc|].
        apply Nat.ltb_lt in Hlt. apply Hmeas in HR. lia. }
    destruct g.
    + destruct (m _ st); [discriminate|contradiction].
    + destruct (k st); [discriminate|exact Hin].
Qed.

Lemma rmatch_complete : forall r k, alike k k ->
  forall st st1, sem r st st1 -> k st1 <> None -> rmatch r k st <> None.
Proof.
  induction r as [|p|r1 IH1 r2 IH2|r1 IH1 r2 IH2|g r1 IH1|i r1 IH1| | | |r1 IH1];
    intros k Hk st st1 H Hacc; cbn [sem] in H; cbn [rmatch].
  - subst. exact Hacc.
  - destruct H as (c & tl & -> & -> & ->). exact Hacc.
  - destruct H as (mid & H1 & H2).
    apply (IH1 _ (rmatch_alike r2 _ _ Hk) _ _ H1).
    apply (IH2 _ Hk _ _ H2 Hacc).
  - destruct H as [H|H].
    + pose proof (IH1 _ Hk _ _ H Hacc). destruct (rmatch r1 k st); congruence.
    + pose proof (IH2 _ Hk _ _ H Hacc). destruct (rmatch r1 k st); congruence.
  - apply (star_loop_complete (rmatch r1) (sem r1) g k) with (st1 := st1);
      [exact IH1|apply sem_measure|apply rmatch_alike|exact Hk|exact H|exact Hacc|lia].
  - destruct H as (st2 & H & ->).
    refine (IH1 _ _ _ _ H Hacc).
    intros x y Hxy. apply Hk.
    destruct Hxy as (V & R & P). unfold set_cap. repeat split; simpl; assumption.
  - destruct H as (-> & ->). exact Hacc.
  - destruct H as (-> & ->). exact Hacc.
  - destruct H as (-> & ->). exact Hacc.
  - destruct H as (st2 & H & ->).
    pose proof (IH1 _ alike_Some _ _ H) as H1.
    destruct (rmatch r1 Some st) as [y|]; [|apply H1; discriminate].
    intros Hn. apply Hacc.
    refine (proj1 (Hk _ _ _) Hn). repeat split.
Qed.

(** ** One match attempt *)

Lemma exec_at_sound r pv s len cs :
  exec_at r pv s = Some (len, cs) ->
  exists st', sem r (MState pv s 0 []) st' /\ pos st' = len /\ caps st' = cs.
Proof.
  unfold exec_at. destruct (rmatch r Some _) as [st|] eqn:E; [|discriminate].
  intros H. injection H as <- <-.
  apply rmatch_sound in E. destruct E as (st' & H & E). injection E as ->.
  exists st. auto.
Qed.

Lemma exec_at_complete r pv s st' :
  sem r (MState pv s 0 []) st' -> exec_at r pv s <> None.
Proof.
  intros H. unfold exec_at.
  pose proof (rmatch_complete r Some alike_Some _ _ H) as Hc.
  destruct (rmatch r Some _); [discriminate|]. exfalso. apply Hc; [discriminate|reflexivity].
Qed.

(** ** What the building blocks of the patterns match *)

Lemma sem_seq_cons r l st st' :
  sem (seq (r :: l)) st st' <-> exists mid, sem r st mid /\ sem (seq l) mid st'.
Proof.
  destruct l as [|r' l].
  - simpl. split.
    + intros H. exists st'. auto.
    + intros (mid & H & ->). exact H.
  - reflexivity.
Qed.

Lemma sem_chr p pv s n cs st' :
  sem (Chr p) (MState pv s n cs) st' <->
  exists c tl, s = c :: tl /\ p c = true /\ st' = MState (Some c) tl (S n) cs.
Proof. reflexivity. Qed.

Lemma sem_wordb pv s n cs st' :
  sem WordB (MState pv s n cs) st' <->
  xorb (pv_word pv) (head_word s) = true /\ st' = MState pv s n cs.
Proof. reflexivity. Qed.

Lemma sem_lit_i w : forall pv s n cs st',
  sem (lit_i w) (MState pv s n cs) st' <->
  exists a tl, s = a ++ tl /\ ci_eq w a = true /\
               st' = MState (lastc pv a) tl (n + length a) cs.
Proof.
  unfold lit_i. induction w as [|p w IH]; intros pv s n cs st'.
  - simpl. split.
    + intros ->. exists [], s. simpl. rewrite Nat.add_0_r. auto.
    + intros (a & tl & -> & H & ->). destruct a; [|discriminate].
      simpl. rewrite Nat.add_0_r. reflexivity.
  - cbn [map]. rewrite sem_seq_cons. split.
    + intros (mid & H1 & H2). apply sem_chr in H1.
      destruct H1 as (c & tl & -> & Hc & ->). apply IH in H2.
      destruct H2 as (a & tl' & -> & Ha & ->).
      exists (c :: a), tl'. simpl. rewrite Hc, Ha, Nat.add_succ_r. auto.
    + intros (a & tl & -> & Ha & ->). destruct a as [|c a]; [discriminate|].
      simpl in Ha. apply andb_true_iff in Ha. destruct Ha as [Hc Ha].
      exists (MState (Some c) (a ++ tl) (S n) cs). split.
      * apply sem_chr. exists c, (a ++ tl). auto.
      * apply IH. exists a, tl. simpl. rewrite Nat.add_succ_r. auto.
Qed.

Lemma sem_star_class g p pv s n cs st' :
  sem (Star g (Chr p)) (MState pv s n cs) st' <->
  exists a tl, s = a ++ tl /\ all p a /\
               st' = MState (lastc pv a) tl (n + length a) cs.
Proof.
  cbn [sem]. split.
  - intros H. remember (MState pv s n cs) as st eqn:E.
    revert pv s n E. induction H as [st|st st1 st2 HR Hlt Hi IH]; intros pv s n E.
    + subst. exists [], s. simpl. rewrite Nat.add_0_r. split; [|split]; auto.
      constructor.
    + subst. apply sem_chr in HR. destruct HR as (c & tl & -> & Hc & ->).
      destruct (IH _ _ _ eq_refl) as (a & tl' & -> & Ha & ->).
      exists (c :: a), tl'. simpl. rewrite Nat.add_succ_r.
      split; [|split]; auto. constructor; assumption.
  - intros (a & tl & -> & Ha & ->). revert pv n.
    induction Ha as [|c a Hc Ha IH]; intros pv n.
    + simpl. rewrite Nat.add_0_r. constructor.
    + apply iter_step with (st1 := MState (Some c) (a ++ tl) (S n) cs).
      * apply sem_chr. exists c, (a ++ tl). auto.
      * simpl. lia.
      * simpl. rewrite Nat.add_succ_r. apply IH.
Qed.

Lemma sem_plus_class p pv s n cs st' :
  sem (plus (Chr p)) (MState pv s n cs) st' <->
  exists a tl, s = a ++ tl /\ all p a /\ a <> [] /\
               st' = MState (lastc pv a) tl (n + length a) cs.
Proof.
  unfold plus. cbn [sem]. split.
  - intros (mid & H1 & H2). apply sem_chr in H1.
    destruct H1 as (c & tl & -> & Hc & ->).
    apply (sem_star_class true) in H2. destruct H2 as (a & tl' & -> & Ha & ->).
    exists (c :: a), tl'. simpl. rewrite Nat.add_succ_r.
    repeat split; [constructor; assumption|discriminate].
  - intros (a & tl & -> & Ha & Hne & ->). destruct a as [|c a]; [congruence|].
    inversion Ha; subst.
    exists (MState (Some c) (a ++ tl) (S n) cs). split.
    + exists c, (a ++ tl). auto.
    + apply (sem_star_class true). exists a, tl. simpl.
      rewrite Nat.add_succ_r. auto.
Qed.

Lemma sem_group_plus i p pv s n cs st' :
  sem (Group i (plus (Chr p))) (MState pv s n cs) st' <->
  exists a tl, s = a ++ tl /\ all p a /\ a <> [] /\
               st' = MState (lastc pv a) tl (n + length a) ((i, a) :: cs).
Proof.
  change (sem (Group i (plus (Chr p))) (MState pv s n cs) st')
    with (exists st1, sem (plus (Chr p)) (MState pv s n cs) st1 /\
            st' = set_cap i (firstn (pos st1 - n) s) st1).
  split.
  - intros (st1 & H & ->). apply sem_plus_class in H.
    destruct H as (a & tl & -> & Ha & Hne & ->).
    exists a, tl. unfold set_cap. simpl.
    replace (n + length a - n) with (length a) by lia.
    rewrite firstn_app_exact. auto.
  - intros (a & tl & -> & Ha & Hne & ->).
    exists (MState (lastc pv a) tl (n + length a) cs). split.
    + apply sem_plus_class. exists a, tl. auto.
    + unfold set_cap. simpl.
      replace (n + length a - n) with (length a) by lia.
      rewrite firstn_app_exact. reflexivity.
Qed.

Lemma sem_alt l st st' :
  sem (alt l) st st' <-> exists r, In r l /\ sem r st st'.
Proof.
  induction l as [|r l IH].
  - simpl. split.
    + intros (c & tl & _ & H & _). discriminate.
    + intros (r & [] & _).
  - destruct l as [|r' l].
    + simpl. split.
      * intros H. exists r. auto.
      * intros (r0 & [<-|[]] & H). exact H.
    + change (alt (r :: r' :: l)) with (Alt r (alt (r' :: l))).
      cbn [sem]. rewrite IH. split.
      * intros [H|(r0 & Hin & H)].
        -- exists r. split; [left; reflexivity|exact H].
        -- exists r0. split; [right; exact Hin|exact H].
      * intros (r0 & [<-|Hin] & H); [left; exact H|].
        right. exists r0. auto.
Qed.

(** The two directions, for use on hypotheses and goals. *)

Lemma wordb_inv pv s n cs st' :
  sem WordB (MState pv s n cs) st' ->
  xorb (pv_word pv) (head_word s) = true /\ st' = MState pv s n cs.
Proof. apply sem_wordb. Qed.

Lemma wordb_intro pv s n cs :
  xorb (pv_word pv) (head_word s) = true ->
  sem WordB (MState pv s n cs) (MState pv s n cs).
Proof. intros H. apply sem_wordb. auto. Qed.

Lemma chr_inv p pv s n cs st' :
  sem (Chr p) (MState pv s n cs) st' ->
  exists c tl, s = c :: tl /\ p c = true /\ st' = MState (Some c) tl (S n) cs.
Proof. apply sem_chr. Qed.

Lemma chr_intro p pv c tl n cs :
  p c = true ->
  sem (Chr p) (MState pv (c :: tl) n cs) (MState (Some c) tl (S n) cs).
Proof. intros H. apply sem_chr. exists c, tl. auto. Qed.

Lemma lit_i_inv w pv s n cs st' :
  sem (lit_i w) (MState pv s n cs) st' ->
  exists a tl, s = a ++ tl /\ ci_eq w a = true /\
               st' = MState (lastc pv a) tl (n + length a) cs.
Proof. apply sem_lit_i. Qed.

Lemma lit_i_intro w pv a tl n cs :
  ci_eq w a = true ->
  sem (lit_i w) (MState pv (a ++ tl) n cs)
      (MState (lastc pv a) tl (n + length a) cs).
Proof. intros H. apply sem_lit_i. exists a, tl. auto. Qed.

Lemma star_class_inv g p pv s n cs st' :
  sem (Star g (Chr p)) (MState pv s n cs) st' ->
  exists a tl, s = a ++ tl /\ all p a /\
               st' = MState (lastc pv a) tl (n + length a) cs.
Proof. apply sem_star_class. Qed.

Lemma star_class_intro g p pv a tl n cs :
  all p a ->
  sem (Star g (Chr p)) (MState pv (a ++ tl) n cs)
      (MState (lastc pv a) tl (n + length a) cs).
Proof. intros H. apply sem_star_class. exists a, tl. auto. Qed.

Lemma plus_class_inv p pv s n cs st' :
  sem (plus (Chr p)) (MState pv s n cs) st' ->
  exists a tl, s = a ++ tl /\ all p a /\ a <> [] /\
               st' = MState (lastc pv a) tl (n + length a) cs.
Proof. apply sem_plus_class. Qed.

Lemma plus_class_intro p pv a tl n cs :
  all p a -> a <> [] ->
  sem (plus (Chr p)) (MState pv (a ++ tl) n cs)
      (MState (lastc pv a) tl (n + length a) cs).
Proof. intros H Hn. apply sem_plus_class. exists a, tl. auto. Qed.

Lemma group_plus_inv i p pv s n cs st' :
  sem (Group i (plus (Chr p))) (MState pv s n cs) st' ->
  exists a tl, s = a ++ tl /\ all p a /\ a <> [] /\
               st' = MState (lastc pv a) tl (n + length a) ((i, a) :: cs).
Proof. apply sem_group_plus. Qed.

Lemma group_plus_intro i p pv a tl n cs :
  all p a -> a <> [] ->
  sem (Group i (plus (Chr p))) (MState pv (a ++ tl) n cs)
      (MState (lastc pv a) tl (n + length a) ((i, a) :: cs)).
Proof. intros H Hn. apply sem_group_plus. exists a, tl. auto. Qed.

Lemma seq_inv r l st st' :
  sem (seq (r :: l)) st st' -> exists mid, sem r st mid /\ sem (seq l) mid st'.
Proof. apply sem_seq_cons. Qed.

Lemma seq_intro r l st mid st' :
  sem r st mid -> sem (seq l) mid st' -> sem (seq (r :: l)) st st'.
Proof. intros H1 H2. apply sem_seq_cons. exists mid. auto. Qed.

Lemma seq_nil_inv st st' : sem (seq []) st st' -> st' = st.
Proof. intros H. exact H. Qed.

Lemma opt_inv r st st' : sem (opt r) st st' -> sem r st st' \/ st' = st.
Proof. intros H. exact H. Qed.

Lemma alt_inv l st st' : sem (alt l) st st' -> exists r, In r l /\ sem r st st'.
Proof. apply sem_alt. Qed.

Lemma alt_intro l r st st' : In r l -> sem r st st' -> sem (alt l) st st'.
Proof. intros H1 H2. apply sem_alt. exists r. auto. Qed.

(** ** Code units *)

Lemma ci_lower p c :
  is_ascii_lower p = true -> ci p c = true -> c = p \/ c = (p - 32)%N.
Proof.
  intros Hp H. unfold ci in H.
  assert (U : is_ascii_upper p = false) by class_solve.
  assert (L1 : is_latin1_lower p = false).
  { unfold is_latin1_lower. replace (in_range 224 254 p) with false; [reflexivity|].
    symmetry. class_solve. }
  assert (L2 : is_latin1_upper p = false).
  { unfold is_latin1_upper. replace (in_range 192 222 p) with false; [reflexivity|].
    symmetry. class_solve. }
  rewrite Hp, U, L1, L2 in H. simpl in H.
  rewrite !orb_false_r in H. apply orb_true_iff in H.
  destruct H as [H|H]; apply N.eqb_eq in H; auto.
Qed.

Lemma ci_lower_word p c :
  is_ascii_lower p = true -> ci p c = true -> is_word c = true.
Proof.
  intros Hp H. destruct (ci_lower p c Hp H) as [->| ->].
  - unfold is_word. unfold is_ascii_lower in Hp. rewrite Hp. reflexivity.
  - unfold is_word. replace (in_range 65 90 (p - 32)) with true.
    + rewrite orb_true_r. reflexivity.
    + symmetry. unfold is_ascii_lower, in_range in *.
      apply andb_true_iff in Hp. destruct Hp as [H1 H2].
      apply N.leb_le in H1, H2. apply andb_true_iff.
      split; apply N.leb_le; lia.
Qed.

Lemma ci_eq_word w : lower_word w -> forall X, ci_eq w X = true -> all is_word X.
Proof.
  induction 1 as [|p w Hp _ IH]; intros [|c X] H; simpl in H; try discriminate.
  - constructor.
  - apply andb_true_iff in H. destruct H as [Hc H]. constructor.
    + eapply ci_lower_word; eassumption.
    + apply IH. exact H.
Qed.

Lemma ci_eq_nonempty w X : w <> [] -> ci_eq w X = true -> X <> [].
Proof. destruct w, X; simpl; congruence. Qed.

Lemma all_app p a b : all p a -> all p b -> all p (a ++ b).
Proof. intros. apply Forall_app. auto. Qed.

Lemma digits_word d : all is_digit d -> all is_word d.
Proof. apply Forall_impl. apply digit_word. Qed.

Lemma spaces_not_word ws : all is_space ws -> none is_word ws.
Proof. apply Forall_impl. apply space_not_word. Qed.

Lemma xorb_true_l_false a b : xorb a b = true -> b = true -> a = false.
Proof. destruct a, b; simpl; congruence. Qed.

Lemma xorb_true_r_false a b : xorb a b = true -> a = true -> b = false.
Proof. destruct a, b; simpl; congruence. Qed.

Ltac next H H1 mid :=
  apply seq_inv in H; destruct H as (mid & H1 & H).

Ltac list_eq :=
  repeat (rewrite <- app_assoc || rewrite <- app_comm_cons);
  simpl; repeat (rewrite <- app_assoc || rewrite <- app_comm_cons);
  reflexivity.

(** ** One word between two word breaks *)

Lemma word_pattern_sound w pv s len cs :
  lower_word w -> w <> [] ->
  exec_at (seq [WordB; lit_i w; WordB]) pv s = Some (len, cs) ->
  exists X tl, s = X ++ tl /\ len = length X /\ ci_eq w X = true /\
               pv_word pv = false /\ head_word tl = false.
Proof.
  intros Hw Hn H. apply exec_at_sound in H. destruct H as (st' & H & <- & _).
  next H H1 mid. apply wordb_inv in H1. destruct H1 as (Hb & ->).
  next H H1 mid. apply lit_i_inv in H1. destruct H1 as (X & tl & -> & HX & ->).
  next H H1 mid. apply wordb_inv in H1. destruct H1 as (He & ->).
  apply seq_nil_inv in H. subst st'.
  pose proof (ci_eq_word w Hw X HX) as HW.
  pose proof (ci_eq_nonempty w X Hn HX) as HXn.
  exists X, tl. repeat split; try assumption.
  - apply (xorb_true_l_false _ _ Hb). rewrite head_word_app by assumption.
    apply head_word_all; assumption.
  - apply (xorb_true_r_false _ _ He). apply pv_word_lastc_all; assumption.
Qed.

Lemma word_pattern_complete w pv X tl :
  lower_word w -> w <> [] -> ci_eq w X = true ->
  pv_word pv = false -> head_word tl = false ->
  exec_at (seq [WordB; lit_i w; WordB]) pv (X ++ tl) <> None.
Proof.
  intros Hw Hn HX Hp Ht.
  pose proof (ci_eq_word w Hw X HX) as HW.
  pose proof (ci_eq_nonempty w X Hn HX) as HXn.
  eapply exec_at_complete.
  eapply seq_intro.
  { apply wordb_intro.
    rewrite Hp, head_word_app, head_word_all by assumption. reflexivity. }
  eapply seq_intro.
  { apply lit_i_intro. exact HX. }
  eapply seq_intro.
  { apply wordb_intro.
    rewrite Ht, pv_word_lastc_all by assumption. reflexivity. }
  reflexivity.
Qed.

Lemma lower_virgule : lower_word (js "virgule").
Proof. repeat constructor. Qed.

Lemma lower_fois : lower_word (js "fois").
Proof. repeat constructor. Qed.

Lemma lower_point : lower_word (js "point").
Proof. repeat constructor. Qed.

Lemma lower_pointvirgule : lower_word (js "pointvirgule").
Proof. repeat constructor. Qed.

Lemma lower_et : lower_word (js "et").
Proof. repeat constructor. Qed.

Lemma lower_number_words : Forall lower_word number_words.
Proof. repeat constructor. Qed.

Lemma sep_not_word c : is_sep c = true -> is_word c = false.
Proof.
  unfold is_sep. intros H. apply orb_true_iff in H. destruct H as [H|H].
  - apply space_not_word. exact H.
  - apply N.eqb_eq in H. subst. reflexivity.
Qed.

(** ** [re_point_virgule] *)

Lemma point_virgule_sound pv s len cs :
  exec_at re_point_virgule pv s = Some (len, cs) ->
  exists X tl, s = X ++ tl /\ len = length X /\ point_virgule_match X /\
               pv_word pv = false /\ head_word tl = false.
Proof.
  intros H. apply exec_at_sound in H. destruct H as (st' & H & <- & _).
  unfold re_point_virgule in H.
  next H H1 mid. apply wordb_inv in H1. destruct H1 as (Hb & ->).
  next H H1 mid. apply lit_i_inv in H1. destruct H1 as (P & tl & -> & HP & ->).
  next H H1 mid. apply opt_inv in H1.
  assert (Hsep : exists sep tl1, tl = sep ++ tl1 /\
            (sep = [] \/ exists c, sep = [c] /\ is_sep c = true) /\
            mid = MState (lastc (lastc pv P) sep) tl1
                          (0 + length P + length sep) []).
  { destruct H1 as [H1|H1].
    - apply chr_inv in H1. destruct H1 as (c & tl1 & -> & Hc & ->).
      exists [c], tl1. split; [reflexivity|]. split.
      + right. exists c. auto.
      + simpl. f_equal. lia.
    - subst mid. exists [], tl. split; [reflexivity|]. split; [left; reflexivity|].
      simpl. f_equal. lia. }
  clear H1. destruct Hsep as (sep & tl1 & -> & Hsep & ->).
  next H H1 mid. apply lit_i_inv in H1. destruct H1 as (V & tl & -> & HV & ->).
  next H H1 mid. apply wordb_inv in H1. destruct H1 as (He & ->).
  apply seq_nil_inv in H. subst st'.
  pose proof (ci_eq_word _ lower_point P HP) as HPw.
  pose proof (ci_eq_word _ lower_virgule V HV) as HVw.
  assert (HPn : P <> []) by (apply (ci_eq_nonempty (js "point")); [discriminate|exact HP]).
  assert (HVn : V <> []) by (apply (ci_eq_nonempty (js "virgule")); [discriminate|exact HV]).
  exists (P ++ sep ++ V), tl. split; [list_eq|]. split.
  { simpl. rewrite !length_app. lia. }
  split; [exists P, sep, V; auto|]. split.
  - apply (xorb_true_l_false _ _ Hb). rewrite head_word_app by assumption.
    apply head_word_all; assumption.
  - apply (xorb_true_r_false _ _ He). apply pv_word_lastc_all; assumption.
Qed.

Lemma ci_eq_app w1 w2 X :
  ci_eq (w1 ++ w2) X = true ->
  exists X1 X2, X = X1 ++ X2 /\ ci_eq w1 X1 = true /\ ci_eq w2 X2 = true.
Proof.
  revert X. induction w1 as [|p w1 IH]; intros X H.
  - exists [], X. auto.
  - destruct X as [|c X]; [discriminate|]. simpl in H.
    apply andb_true_iff in H. destruct H as [Hc H].
    destruct (IH _ H) as (X1 & X2 & -> & H1 & H2).
    exists (c :: X1), X2. simpl. rewrite Hc, H1. auto.
Qed.

Lemma point_virgule_complete pv X tl :
  ci_eq (js "pointvirgule") X = true ->
  pv_word pv = false -> head_word tl = false ->
  exec_at re_point_virgule pv (X ++ tl) <> None.
Proof.
  intros HX Hp Ht.
  pose proof (ci_eq_word _ lower_pointvirgule X HX) as HW.
  assert (HXn : X <> []) by (apply (ci_eq_nonempty (js "pointvirgule")); [discriminate|exact HX]).
  change (js "pointvirgule") with (js "point" ++ js "virgule") in HX.
  apply ci_eq_app in HX. destruct HX as (P & V & -> & HP & HV).
  assert (HVn : V <> []) by (apply (ci_eq_nonempty (js "virgule")); [discriminate|exact HV]).
  rewrite <- app_assoc.
  eapply exec_at_complete. unfold re_point_virgule.
  eapply seq_intro.
  { apply wordb_intro. rewrite app_assoc.
    rewrite Hp, head_word_app, head_word_all by assumption. reflexivity. }
  eapply seq_intro.
  { apply lit_i_intro. exact HP. }
  eapply seq_intro.
  { right. reflexivity. }
  eapply seq_intro.
  { apply lit_i_intro. exact HV. }
  eapply seq_intro.
  { apply wordb_intro. apply Forall_app in HW. destruct HW as [_ HW].
    rewrite Ht, pv_word_lastc_all by assumption. reflexivity. }
  reflexivity.
Qed.

(** ** [re_et] *)

Lemma digits_all_word d : digits d -> all is_word d /\ d <> [].
Proof. intros [Hn Hd]. split; [apply digits_word; exact Hd|exact Hn]. Qed.

Lemma number_word_nonempty w : In w number_words -> w <> [].
Proof.
  intros H. pose proof lower_number_words as _.
  unfold number_words in H. simpl in H.
  repeat (destruct H as [<-|H]; [discriminate|]). destruct H.
Qed.

Lemma is_num_word a : is_num a -> all is_word a /\ a <> [].
Proof.
  intros [H|(w & Hin & H)].
  - apply digits_all_word. exact H.
  - split.
    + apply (ci_eq_word w); [|exact H].
      pose proof lower_number_words as HL. rewrite Forall_forall in HL. auto.
    + apply (ci_eq_nonempty w); [|exact H]. apply number_word_nonempty. exact Hin.
Qed.

Lemma look_inv r st st' :
  sem (Look r) st st' ->
  exists st1, sem r st st1 /\
    st' = MState (prev st) (rest st) (pos st) (caps st1).
Proof. intros H. exact H. Qed.

Lemma group_inv i r st st' :
  sem (Group i r) st st' ->
  exists st1, sem r st st1 /\
    st' = set_cap i (firstn (pos st1 - pos st) (rest st)) st1.
Proof. intros H. exact H. Qed.

Lemma num_inv pv s n cs st' :
  sem (alt (plus digit :: map lit_i number_words)) (MState pv s n cs) st' ->
  exists a tl, s = a ++ tl /\ is_num a /\
               st' = MState (lastc pv a) tl (n + length a) cs.
Proof.
  intros H. apply alt_inv in H. destruct H as (r & [<-|Hin] & H).
  - apply plus_class_inv in H. destruct H as (a & tl & -> & Ha & Hn & ->).
    exists a, tl. split; [reflexivity|]. split; [|reflexivity].
    left. split; assumption.
  - apply in_map_iff in Hin. destruct Hin as (w & <- & Hin).
    apply lit_i_inv in H. destruct H as (a & tl & -> & Ha & ->).
    exists a, tl. split; [reflexivity|]. split; [|reflexivity].
    right. exists w. auto.
Qed.

Lemma num_intro pv a tl n cs :
  is_num a ->
  sem (alt (plus digit :: map lit_i number_words)) (MState pv (a ++ tl) n cs)
      (MState (lastc pv a) tl (n + length a) cs).
Proof.
  intros [[Hn Ha]|(w & Hin & Ha)].
  - apply alt_intro with (r := plus digit); [left; reflexivity|].
    apply plus_class_intro; assumption.
  - apply alt_intro with (r := lit_i w).
    + right. apply in_map. exact Hin.
    + apply lit_i_intro. exact Ha.
Qed.

Lemma et_sound pv s len cs :
  exec_at re_et pv s = Some (len, cs) ->
  exists X tl, s = X ++ tl /\ len = length X /\ et_match X /\
    pv_word pv = false /\
    exists num tl', tl = num ++ tl' /\ is_num num /\ head_word tl' = false.
Proof.
  intros H. apply exec_at_sound in H. destruct H as (st' & H & <- & _).
  unfold re_et in H.
  next H H1 mid. apply wordb_inv in H1. destruct H1 as (Hb & ->).
  next H H1 mid. apply lit_i_inv in H1. destruct H1 as (e & tl & -> & He & ->).
  next H H1 mid. apply plus_class_inv in H1.
  destruct H1 as (ws & tl1 & -> & Hws & Hwn & ->).
  next H H1 mid. apply look_inv in H1. destruct H1 as (st1 & H1 & ->).
  apply seq_nil_inv in H. subst st'.
  next H1 H2 mid. apply group_inv in H2. destruct H2 as (st2 & H2 & ->).
  apply num_inv in H2. destruct H2 as (num & tl' & -> & Hnum & ->).
  next H1 H2 mid. apply wordb_inv in H2. destruct H2 as (Hend & ->).
  apply seq_nil_inv in H1. subst st1.
  pose proof (ci_eq_word _ lower_et e He) as Hew.
  assert (Hen : e <> []) by (apply (ci_eq_nonempty (js "et")); [discriminate|exact He]).
  destruct (is_num_word _ Hnum) as [Hnw Hnn].
  exists (e ++ ws), (num ++ tl'). split; [list_eq|]. split.
  { simpl. rewrite !length_app. lia. }
  split; [exists e, ws; auto|]. split.
  - apply (xorb_true_l_false _ _ Hb). rewrite head_word_app by assumption.
    apply head_word_all; assumption.
  - exists num, tl'. split; [reflexivity|]. split; [exact Hnum|].
    apply (xorb_true_r_false _ _ Hend). simpl.
    apply pv_word_lastc_all; assumption.
Qed.

Lemma et_complete pv X num tl :
  et_match X -> is_num num ->
  pv_word pv = false -> head_word tl = false ->
  exec_at re_et pv (X ++ num ++ tl) <> None.
Proof.
  intros (e & ws & -> & He & Hws & Hwn) Hnum Hp Ht.
  pose proof (ci_eq_word _ lower_et e He) as Hew.
  assert (Hen : e <> []) by (apply (ci_eq_nonempty (js "et")); [discriminate|exact He]).
  destruct (is_num_word _ Hnum) as [Hnw Hnn].
  rewrite <- app_assoc.
  eapply exec_at_complete. unfold re_et.
  eapply seq_intro.
  { apply wordb_intro.
    rewrite Hp, head_word_app, head_word_all by assumption. reflexivity. }
  eapply seq_intro.
  { apply lit_i_intro. exact He. }
  eapply seq_intro.
  { apply plus_class_intro; assumption. }
  eapply seq_intro; [|reflexivity].
  eexists. split; [|reflexivity].
  eapply seq_intro.
  { eexists. split; [|reflexivity]. apply num_intro. exact Hnum. }
  eapply seq_intro; [|reflexivity].
  apply wordb_intro. unfold set_cap. simpl.
  rewrite Ht, pv_word_lastc_all by assumption. reflexivity.
Qed.

(** ** [re_operator] *)

Lemma operator_sound pv s len cs :
  exec_at re_operator pv s = Some (len, cs) ->
  exists X tl, s = X ++ tl /\ len = length X /\ operator_match X.
Proof.
  intros H. apply exec_at_sound in H. destruct H as (st' & H & <- & _).
  unfold re_operator, star, space in H.
  next H H1 mid. apply star_class_inv in H1.
  destruct H1 as (ws1 & tl & -> & Hws1 & ->).
  next H H1 mid. apply chr_inv in H1. destruct H1 as (o & tl1 & -> & Ho & ->).
  next H H1 mid. apply star_class_inv in H1.
  destruct H1 as (ws2 & tl & -> & Hws2 & ->).
  apply seq_nil_inv in H. subst st'.
  exists (ws1 ++ o :: ws2), tl. split; [list_eq|]. split.
  { simpl. rewrite !length_app. simpl. lia. }
  exists ws1, o, ws2. auto.
Qed.

(** ** [re_dimension] and [re_metric] *)

Lemma ci_m_word m : ci 109 m = true -> is_word m = true.
Proof. apply ci_lower_word. reflexivity. Qed.

Lemma dimension_sound pv s len cs :
  exec_at re_dimension pv s = Some (len, cs) ->
  exists X tl d1 d2, s = X ++ tl /\ len = length X /\
    dimension_match d1 d2 X /\ cap cs 1 = d1 /\ cap cs 2 = d2 /\
    pv_word pv = false /\ head_word tl = false.
Proof.
  intros H. apply exec_at_sound in H. destruct H as (st' & H & <- & <-).
  unfold re_dimension, star, space, chr_i, digit in H.
  next H H1 mid. apply wordb_inv in H1. destruct H1 as (Hb & ->).
  next H H1 mid. apply chr_inv in H1. destruct H1 as (m & tl & -> & Hm & ->).
  next H H1 mid. apply star_class_inv in H1.
  destruct H1 as (ws1 & tl1 & -> & Hws1 & ->).
  next H H1 mid. apply group_plus_inv in H1.
  destruct H1 as (d1 & tl & -> & Hd1 & Hn1 & ->).
  next H H1 mid. apply star_class_inv in H1.
  destruct H1 as (ws2 & tl1 & -> & Hws2 & ->).
  next H H1 mid. apply chr_inv in H1. destruct H1 as (x & tl & -> & Hx & ->).
  next H H1 mid. apply star_class_inv in H1.
  destruct H1 as (ws3 & tl1 & -> & Hws3 & ->).
  next H H1 mid. apply group_plus_inv in H1.
  destruct H1 as (d2 & tl & -> & Hd2 & Hn2 & ->).
  next H H1 mid. apply wordb_inv in H1. destruct H1 as (He & ->).
  apply seq_nil_inv in H. subst st'.
  exists (m :: ws1 ++ d1 ++ ws2 ++ x :: ws3 ++ d2), tl, d1, d2.
  split; [list_eq|]. split.
  { simpl. rewrite !length_app. simpl. rewrite !length_app. lia. }
  split.
  { exists m, ws1, ws2, x, ws3. repeat split; assumption. }
  split; [reflexivity|]. split; [reflexivity|]. split.
  - apply (xorb_true_l_false _ _ Hb). simpl. apply ci_m_word. exact Hm.
  - apply (xorb_true_r_false _ _ He). apply pv_word_lastc_all; [|assumption].
    apply digits_word. exact Hd2.
Qed.

Lemma dimension_complete pv d1 d2 X tl :
  dimension_match d1 d2 X ->
  pv_word pv = false -> head_word tl = false ->
  exec_at re_dimension pv (X ++ tl) <> None.
Proof.
  intros (m & ws1 & ws2 & x & ws3 & -> & Hm & Hws1 & [Hn1 Hd1] & Hws2 & Hx
          & Hws3 & [Hn2 Hd2]) Hp Ht.
  replace ((m :: ws1 ++ d1 ++ ws2 ++ x :: ws3 ++ d2) ++ tl)
    with (m :: ws1 ++ d1 ++ ws2 ++ x :: ws3 ++ d2 ++ tl) by list_eq.
  eapply exec_at_complete. unfold re_dimension, star, space, chr_i, digit.
  eapply seq_intro.
  { apply wordb_intro. simpl. rewrite Hp, (ci_m_word _ Hm). reflexivity. }
  eapply seq_intro.
  { apply chr_intro. exact Hm. }
  eapply seq_intro.
  { apply star_class_intro. exact Hws1. }
  eapply seq_intro.
  { apply group_plus_intro; assumption. }
  eapply seq_intro.
  { apply star_class_intro. exact Hws2. }
  eapply seq_intro.
  { apply chr_intro. exact Hx. }
  eapply seq_intro.
  { apply star_class_intro. exact Hws3. }
  eapply seq_intro.
  { apply group_plus_intro; assumption. }
  eapply seq_intro; [|reflexivity].
  apply wordb_intro.
  rewrite Ht, pv_word_lastc_all; [reflexivity| |assumption].
  apply digits_word. exact Hd2.
Qed.

Lemma metric_sound pv s len cs :
  exec_at re_metric pv s = Some (len, cs) ->
  exists X tl d, s = X ++ tl /\ len = length X /\
    metric_match d X /\ cap cs 1 = d /\
    pv_word pv = false /\ head_word tl = false.
Proof.
  intros H. apply exec_at_sound in H. destruct H as (st' & H & <- & <-).
  unfold re_metric, star, space, chr_i, digit in H.
  next H H1 mid. apply wordb_inv in H1. destruct H1 as (Hb & ->).
  next H H1 mid. apply chr_inv in H1. destruct H1 as (m & tl & -> & Hm & ->).
  next H H1 mid. apply star_class_inv in H1.
  destruct H1 as (ws1 & tl1 & -> & Hws1 & ->).
  next H H1 mid. apply group_plus_inv in H1.
  destruct H1 as (d1 & tl & -> & Hd1 & Hn1 & ->).
  next H H1 mid. apply wordb_inv in H1. destruct H1 as (He & ->).
  apply seq_nil_inv in H. subst st'.
  exists (m :: ws1 ++ d1), tl, d1.
  split; [list_eq|]. split.
  { simpl. rewrite !length_app. lia. }
  split.
  { exists m, ws1. repeat split; assumption. }
  split; [reflexivity|]. split.
  - apply (xorb_true_l_false _ _ Hb). simpl. apply ci_m_word. exact Hm.
  - apply (xorb_true_r_false _ _ He). apply pv_word_lastc_all; [|assumption].
    apply digits_word. exact Hd1.
Qed.

Lemma metric_complete pv d X tl :
  metric_match d X ->
  pv_word pv = false -> head_word tl = false ->
  exec_at re_metric pv (X ++ tl) <> None.
Proof.
  intros (m & ws1 & -> & Hm & Hws1 & [Hn1 Hd1]) Hp Ht.
  replace ((m :: ws1 ++ d) ++ tl) with (m :: ws1 ++ d ++ tl) by list_eq.
  eapply exec_at_complete. unfold re_metric, star, space, chr_i, digit.
  eapply seq_intro.
  { apply wordb_intro. simpl. rewrite Hp, (ci_m_word _ Hm). reflexivity. }
  eapply seq_intro.
  { apply chr_intro. exact Hm. }
  eapply seq_intro.
  { apply star_class_intro. exact Hws1. }
  eapply seq_intro.
  { apply group_plus_intro; assumption. }
  eapply seq_intro; [|reflexivity].
  apply wordb_intro.
  rewrite Ht, pv_word_lastc_all; [reflexivity| |assumption].
  apply digits_word. exact Hd1.
Qed.

(** ** [\s+] *)

Lemma spaces_exec pv s :
  exec_at (plus space) pv s
  = if head_is is_space s
    then Some (length (take_while is_space s), [])
    else None.
Proof.
  unfold exec_at, plus, space. rewrite rmatch_seq.
  destruct s as [|c tl]; [reflexivity|].
  rewrite rmatch_chr_cons. simpl head_is. cbn [take_while].
  destruct (is_space c); [|reflexivity].
  rewrite rmatch_star_final. reflexivity.
Qed.

(** ** Moving a window from the result of a replacement to its input *)

Section Transfer.

Variable nm : option N -> jsstring -> Prop.
Variable rule : option N -> jsstring -> jsstring -> jsstring -> Prop.
Hypothesis rule_good :
  forall pv M B rest, rule pv M B rest -> good_rule pv M B rest.

Variables W W' : jsstring -> Prop.
Hypothesis W_window : window W.

Hypothesis pieces_of_window : forall pvs pvd l L2,
  l <> [] ->
  pieces_ok nm rule pvs (l ++ L2) ->
  pv_word pvs = false -> pv_word pvd = false ->
  head_word (src L2) = false -> head_word (dst L2) = false ->
  W (dst l) -> W' (src l).

Lemma transfer pv0 L :
  pieces_ok nm rule pv0 L -> occurs W pv0 (dst L) -> occurs W' pv0 (src L).
Proof.
  intros HO (pre & X & suf & HD & HW & HP & HS).
  destruct (W_window X HW) as (HXn & HXh & HXl).
  pose proof (pieces_ok_weaken nm rule good_rule rule_good L pv0 HO) as HG.
  pose proof (pieces_blocks_uniform nm L pv0 HG) as HU.
  destruct (factor_pieces L pv0 pre X suf HU HD HXn HXh HXl HP HS)
    as (L1 & l & L2 & -> & H1 & H2 & H3 & Hl).
  subst pre X suf.
  pose proof (src_left_context nm pv0 L1 l L2 HG Hl HXh HP) as HPs.
  pose proof (src_right_context nm pv0 L1 l L2 HG Hl HXl HS) as HSs.
  exists (src L1), (src l), (src L2). split; [|split; [|split]].
  - rewrite !src_app. reflexivity.
  - apply (pieces_of_window (lastc pv0 (src L1)) (lastc pv0 (dst L1)) l L2);
      try assumption.
    apply pieces_ok_app. exact HO.
  - exact HPs.
  - exact HSs.
Qed.

End Transfer.

(** ** Pieces that are kept *)

Lemma kept_src_dst l : kept l -> src l = dst l.
Proof.
  induction 1 as [|[c|M B] l Hp _ IH]; simpl.
  - reflexivity.
  - f_equal. exact IH.
  - destruct Hp.
Qed.

Lemma pieces_ok_In nm rule : forall L pv M B,
  pieces_ok nm rule pv L -> In (Repl M B) L ->
  exists pv' rest, rule pv' M B rest.
Proof.
  induction L as [|[c|M' B'] L IH]; intros pv M B HO Hin.
  - destruct Hin.
  - destruct Hin as [Hin|Hin]; [discriminate|].
    destruct HO as [_ HO]. eapply IH; eassumption.
  - destruct HO as [Hr HO]. destruct Hin as [Hin|Hin].
    + injection Hin as <- <-. eauto.
    + eapply IH; eassumption.
Qed.

Lemma pieces_ok_prefix nm rule : forall l L2 pv,
  pieces_ok nm rule pv (l ++ L2) ->
  forall M B, In (Repl M B) l -> exists pv' rest, rule pv' M B rest.
Proof.
  intros l L2 pv HO M B Hin. apply (pieces_ok_In nm rule (l ++ L2) pv); [exact HO|].
  apply in_or_app. left. exact Hin.
Qed.

(** A window without any unit of the class [bad] contains no
    replacement text that has one. *)
Lemma foreign_kept (bad : N -> bool) l :
  (forall M B, In (Repl M B) l -> exists c, In c B /\ bad c = true) ->
  none bad (dst l) -> kept l.
Proof.
  induction l as [|[c|M B] l IH]; intros Hb Hn.
  - constructor.
  - constructor; [exact I|]. apply IH.
    + intros M B Hin. apply (Hb M B). right. exact Hin.
    + inversion Hn; assumption.
  - exfalso. destruct (Hb M B) as (c & Hc & Hbad); [left; reflexivity|].
    simpl in Hn. apply Forall_app in Hn. destruct Hn as [Hn _].
    unfold none in Hn. rewrite Forall_forall in Hn. specialize (Hn c Hc). congruence.
Qed.

Section Foreign.

Variable nm : option N -> jsstring -> Prop.
Variable rule : option N -> jsstring -> jsstring -> jsstring -> Prop.
Hypothesis rule_good :
  forall pv M B rest, rule pv M B rest -> good_rule pv M B rest.
Variable bad : N -> bool.
Hypothesis rule_bad :
  forall pv M B rest, rule pv M B rest -> exists c, In c B /\ bad c = true.
Variable W : jsstring -> Prop.
Hypothesis W_window : window W.
Hypothesis W_clean : forall X, W X -> none bad X.

Lemma window_kept pvs l L2 :
  pieces_ok nm rule pvs (l ++ L2) -> W (dst l) -> kept l.
Proof.
  intros HO HW. apply (foreign_kept bad).
  - intros M B Hin.
    destruct (pieces_ok_prefix nm rule l L2 pvs HO M B Hin) as (pv' & rest & Hr).
    eapply rule_bad; eassumption.
  - apply W_clean. exact HW.
Qed.

(** A window that occurs in the result occurs in the input. *)
Lemma transfer_foreign pv0 L :
  pieces_ok nm rule pv0 L -> occurs W pv0 (dst L) -> occurs W pv0 (src L).
Proof.
  apply (transfer nm rule rule_good W W W_window).
  intros pvs pvd l L2 Hl HO _ _ _ _ HW.
  rewrite (kept_src_dst l); [exact HW|].
  eapply window_kept; eassumption.
Qed.

(** Where the pattern matches every window, no window is left. *)
Hypothesis W_matched : forall X pv rest,
  W X -> pv_word pv = false -> head_word rest = false -> ~ nm pv (X ++ rest).

Lemma absent_foreign pv0 L :
  pieces_ok nm rule pv0 L -> ~ occurs W pv0 (dst L).
Proof.
  intros HO Hocc.
  assert (H : occurs (fun _ => False) pv0 (src L)).
  { revert HO Hocc. apply (transfer nm rule rule_good W _ W_window).
    intros pvs pvd l L2 Hl HO Hps _ Hss _ HW.
    pose proof (window_kept pvs l L2 HO HW) as HK.
    pose proof (kept_src_dst l HK) as E.
    destruct l as [|[c|M B] l]; [congruence| |inversion HK; subst; contradiction].
    destruct HO as [Hnm _].
    apply (W_matched (dst (Keep c :: l)) pvs (src L2) HW Hps Hss).
    rewrite <- E. rewrite src_app in Hnm. exact Hnm. }
  destruct H as (_ & _ & _ & _ & [] & _).
Qed.

End Foreign.

(** ** A replacement that changes nothing *)

Lemma pieces_same nm rule : forall L pre pv0,
  pieces_ok nm rule (lastc pv0 pre) L ->
  (forall pre' M B rest,
      pre ++ src L = pre' ++ M ++ rest ->
      rule (lastc pv0 pre') M B rest -> B = M) ->
  dst L = src L.
Proof.
  induction L as [|[c|M B] L IH]; intros pre pv0 HO Hsame.
  - reflexivity.
  - simpl. f_equal. destruct HO as [_ HO].
    apply (IH (pre ++ [c]) pv0).
    + rewrite lastc_app. exact HO.
    + intros pre' M B rest E. apply Hsame. rewrite <- E. simpl.
      rewrite <- app_assoc. reflexivity.
  - destruct HO as [Hr HO].
    assert (B = M) as ->.
    { apply (Hsame pre M B (src L)); [reflexivity|exact Hr]. }
    simpl. f_equal.
    apply (IH (pre ++ M) pv0).
    + rewrite lastc_app. exact HO.
    + intros pre' M' B' rest E. apply Hsame. rewrite <- E. simpl.
      rewrite <- app_assoc. reflexivity.
Qed.

Lemma replace_all_same r f t :
  (forall pv s cs, exec_at r pv s <> Some (0, cs)) ->
  (forall pre M rest cs,
      t = pre ++ M ++ rest -> M <> [] ->
      exec_at r (lastc None pre) (M ++ rest) = Some (length M, cs) ->
      f M cs = M) ->
  replace_all r f t = t.
Proof.
  intros Hne Hsame.
  destruct (scan_pieces r f Hne t) as (L & HS & HD & HO).
  rewrite <- HD. rewrite <- HS at 1.
  apply (pieces_same _ _ L [] None HO).
  intros pre M B rest E (HM & cs & Hex & ->).
  simpl in E. rewrite HS in E. eapply Hsame; eassumption.
Qed.

(** ** Replacements of whole runs *)

Lemma run_left nm rule pvs pvd l1 M B L' :
  (forall pv M B rest, rule pv M B rest -> run_rule pv M B rest) ->
  pieces_ok nm rule pvs (l1 ++ Repl M B :: L') ->
  pv_word pvd = false ->
  pv_word (lastc pvd (dst l1)) = false.
Proof.
  intros Hrun HO Hpvd.
  destruct l1 as [|q l1 _] using rev_ind; [exact Hpvd|].
  rewrite dst_app, lastc_app.
  pose proof (pieces_ok_mid _ _ _ _ _ _ _ HO) as Hr. apply Hrun in Hr.
  destruct Hr as (_ & Hp & _). rewrite src_app, lastc_app in Hp.
  destruct q as [c|M' B']; [exact Hp|]. exfalso.
  rewrite <- app_assoc in HO. simpl in HO.
  pose proof (pieces_ok_mid _ _ _ _ _ _ _ HO) as Hr'. apply Hrun in Hr'.
  destruct Hr' as (HM' & _ & _ & _ & HL').
  simpl in Hp. rewrite app_nil_r in Hp.
  rewrite pv_word_last in Hp by assumption. congruence.
Qed.

Lemma run_right nm rule pvs l1 M B L' :
  (forall pv M B rest, rule pv M B rest -> run_rule pv M B rest) ->
  pieces_ok nm rule pvs (l1 ++ Repl M B :: L') ->
  head_word (dst L') = false.
Proof.
  intros Hrun HO.
  pose proof (pieces_ok_mid _ _ _ _ _ _ _ HO) as Hr. apply Hrun in Hr.
  destruct Hr as (_ & _ & Hh & _).
  destruct L' as [|[c|M' B'] L']; [reflexivity|exact Hh|]. exfalso.
  change (l1 ++ Repl M B :: Repl M' B' :: L')
    with (l1 ++ [Repl M B] ++ Repl M' B' :: L') in HO.
  rewrite app_assoc in HO.
  pose proof (pieces_ok_mid _ _ _ _ _ _ _ HO) as Hr'. apply Hrun in Hr'.
  destruct Hr' as (HM' & _ & _ & HH' & _).
  simpl in Hh. rewrite head_word_app in Hh by assumption. congruence.
Qed.

Lemma app_same_length {A} (a b c d : list A) :
  a ++ b = c ++ d -> length a = length c -> a = c /\ b = d.
Proof.
  revert c. induction a as [|x a IH]; intros [|y c] E HL; simpl in *;
    try discriminate.
  - auto.
  - injection E as -> E. injection HL as HL.
    destruct (IH c E HL) as [-> ->]. auto.
Qed.

Lemma pieces_ok_impl (nm nm' : option N -> jsstring -> Prop)
  (rule rule' : option N -> jsstring -> jsstring -> jsstring -> Prop) :
  (forall pv s, nm pv s -> nm' pv s) ->
  (forall pv M B rest, rule pv M B rest -> rule' pv M B rest) ->
  forall L pv, pieces_ok nm rule pv L -> pieces_ok nm' rule' pv L.
Proof.
  intros Hn Hr. induction L as [|[c|M B] L IH]; intros pv; simpl.
  - trivial.
  - intros [H1 H2]. split; auto.
  - intros [H1 H2]. split; auto.
Qed.

(** ** No pattern of the normalizer matches the empty string *)

Lemma point_virgule_match_nonempty X : point_virgule_match X -> X <> [].
Proof.
  intros (P & sep & V & -> & HP & _).
  destruct P; [discriminate|]. discriminate.
Qed.

Lemma et_match_nonempty X : et_match X -> X <> [].
Proof.
  intros (e & ws & -> & He & _). destruct e; [discriminate|]. discriminate.
Qed.

Lemma operator_match_nonempty X : operator_match X -> X <> [].
Proof. intros (ws1 & o & ws2 & -> & _). destruct ws1; discriminate. Qed.

Lemma dimension_match_nonempty d1 d2 X : dimension_match d1 d2 X -> X <> [].
Proof. intros (m & ws1 & ws2 & x & ws3 & -> & _). discriminate. Qed.

Lemma metric_match_nonempty d X : metric_match d X -> X <> [].
Proof. intros (m & ws & -> & _). discriminate. Qed.

Lemma length_zero_nil {A} (X : list A) : 0 = length X -> X = [].
Proof. destruct X; simpl; [reflexivity|discriminate]. Qed.

Lemma nonempty_word w pv s cs :
  lower_word w -> w <> [] ->
  exec_at (seq [WordB; lit_i w; WordB]) pv s <> Some (0, cs).
Proof.
  intros Hw Hn H. apply word_pattern_sound in H; [|assumption..].
  destruct H as (X & tl & _ & HL & HX & _).
  apply length_zero_nil in HL. subst X.
  destruct w; [congruence|discriminate].
Qed.

Lemma nonempty_pv pv s cs : exec_at re_point_virgule pv s <> Some (0, cs).
Proof.
  intros H. apply point_virgule_sound in H.
  destruct H as (X & tl & _ & HL & HX & _).
  apply length_zero_nil in HL. apply point_virgule_match_nonempty in HX. auto.
Qed.

Lemma nonempty_v pv s cs : exec_at re_virgule pv s <> Some (0, cs).
Proof. apply nonempty_word; [apply lower_virgule|discriminate]. Qed.

Lemma nonempty_fois pv s cs : exec_at re_fois pv s <> Some (0, cs).
Proof. apply nonempty_word; [apply lower_fois|discriminate]. Qed.

Lemma nonempty_et pv s cs : exec_at re_et pv s <> Some (0, cs).
Proof.
  intros H. apply et_sound in H.
  destruct H as (X & tl & _ & HL & HX & _).
  apply length_zero_nil in HL. apply et_match_nonempty in HX. auto.
Qed.

Lemma nonempty_op pv s cs : exec_at re_operator pv s <> Some (0, cs).
Proof.
  intros H. apply operator_sound in H.
  destruct H as (X & tl & _ & HL & HX).
  apply length_zero_nil in HL. apply operator_match_nonempty in HX. auto.
Qed.

Lemma nonempty_dim pv s cs : exec_at re_dimension pv s <> Some (0, cs).
Proof.
  intros H. apply dimension_sound in H.
  destruct H as (X & tl & d1 & d2 & _ & HL & HX & _).
  apply length_zero_nil in HL. apply dimension_match_nonempty in HX. auto.
Qed.

Lemma nonempty_met pv s cs : exec_at re_metric pv s <> Some (0, cs).
Proof.
  intros H. apply metric_sound in H.
  destruct H as (X & tl & d & _ & HL & HX & _).
  apply length_zero_nil in HL. apply metric_match_nonempty in HX. auto.
Qed.

Lemma nonempty_sp pv s cs : exec_at (plus space) pv s <> Some (0, cs).
Proof.
  rewrite spaces_exec. destruct s as [|c tl]; [discriminate|]. simpl.
  destruct (is_space c); discriminate.
Qed.

(** ** The rule of each step *)

Lemma rule_of_pv pv M B rest :
  scan_rule re_point_virgule (const (js ";")) pv M B rest ->
  rule_pv pv M B rest.
Proof.
  intros (HM & cs & H & ->). apply point_virgule_sound in H.
  destruct H as (X & tl & E & HL & HX & Hp & Ht).
  destruct (app_same_length _ _ _ _ E HL) as [-> ->].
  repeat split; assumption.
Qed.

Lemma rule_of_word w b pv M B rest :
  lower_word w -> w <> [] ->
  scan_rule (seq [WordB; lit_i w; WordB]) (const b) pv M B rest ->
  rule_word w b pv M B rest.
Proof.
  intros Hw Hn (HM & cs & H & ->). apply word_pattern_sound in H; [|assumption..].
  destruct H as (X & tl & E & HL & HX & Hp & Ht).
  destruct (app_same_length _ _ _ _ E HL) as [-> ->].
  repeat split; assumption.
Qed.

Lemma rule_of_et pv M B rest :
  scan_rule re_et (const (js ", ")) pv M B rest -> rule_et pv M B rest.
Proof.
  intros (HM & cs & H & ->). apply et_sound in H.
  destruct H as (X & tl & E & HL & HX & Hp & _).
  destruct (app_same_length _ _ _ _ E HL) as [-> ->].
  repeat split; assumption.
Qed.

Lemma rule_of_op pv M B rest :
  scan_rule re_operator (const (js ", ")) pv M B rest -> rule_op pv M B rest.
Proof.
  intros (HM & cs & H & ->). apply operator_sound in H.
  destruct H as (X & tl & E & HL & HX).
  destruct (app_same_length _ _ _ _ E HL) as [-> ->].
  repeat split; assumption.
Qed.

Lemma rule_of_dim pv M B rest :
  scan_rule re_dimension
    (fun _ cs => js "M" ++ cap cs 1 ++ js "x" ++ cap cs 2) pv M B rest ->
  rule_dim pv M B rest.
Proof.
  intros (HM & cs & H & ->). apply dimension_sound in H.
  destruct H as (X & tl & d1 & d2 & E & HL & HX & <- & <- & Hp & Ht).
  destruct (app_same_length _ _ _ _ E HL) as [-> ->].
  split; [|split; assumption]. exists (cap cs 1), (cap cs 2). auto.
Qed.

Lemma rule_of_met pv M B rest :
  scan_rule re_metric (fun _ cs => js "M" ++ cap cs 1) pv M B rest ->
  rule_met pv M B rest.
Proof.
  intros (HM & cs & H & ->). apply metric_sound in H.
  destruct H as (X & tl & d & E & HL & HX & <- & Hp & Ht).
  destruct (app_same_length _ _ _ _ E HL) as [-> ->].
  split; [|split; assumption]. exists (cap cs 1). auto.
Qed.

Lemma rule_of_sp pv M B rest :
  scan_rule (plus space) (const (js " ")) pv M B rest -> rule_sp pv M B rest.
Proof.
  intros (HM & cs & H & ->). rewrite spaces_exec in H.
  destruct (head_is is_space (M ++ rest)) eqn:E; [|discriminate].
  injection H as HL _.
  pose proof (take_drop is_space (M ++ rest)) as HT. symmetry in HT.
  destruct (app_same_length _ _ _ _ HT (eq_sym HL)) as [HM' Hrest].
  split; [exact HM|]. split; [|split; [|reflexivity]].
  - rewrite HM'. apply take_while_all.
  - rewrite Hrest. apply drop_while_head.
Qed.

Lemma nm_of_sp pv s : scan_nomatch (plus space) pv s -> nm_sp pv s.
Proof.
  unfold scan_nomatch, nm_sp. rewrite spaces_exec.
  destruct (head_is is_space s); [discriminate|reflexivity].
Qed.

(** ** Each step as a piece list *)

Lemma pieces_semicolon s :
  exists L, src L = s /\ dst L = sep_semicolon s /\
            pieces_ok (scan_nomatch re_point_virgule) rule_pv None L.
Proof.
  destruct (scan_pieces re_point_virgule (const (js ";")) nonempty_pv s)
    as (L & HS & HD & HO).
  exists L. split; [exact HS|]. split; [exact HD|].
  eapply pieces_ok_weaken; [|exact HO]. apply rule_of_pv.
Qed.

Lemma pieces_comma s :
  exists L, src L = s /\ dst L = sep_comma s /\
            pieces_ok (scan_nomatch re_virgule)
                      (rule_word (js "virgule") (js ",")) None L.
Proof.
  destruct (scan_pieces re_virgule (const (js ",")) nonempty_v s)
    as (L & HS & HD & HO).
  exists L. split; [exact HS|]. split; [exact HD|].
  eapply pieces_ok_weaken; [|exact HO].
  intros pv M B rest. apply rule_of_word; [apply lower_virgule|discriminate].
Qed.

Lemma pieces_et s :
  exists L, src L = s /\ dst L = sep_et s /\
            pieces_ok (scan_nomatch re_et) rule_et None L.
Proof.
  destruct (scan_pieces re_et (const (js ", ")) nonempty_et s)
    as (L & HS & HD & HO).
  exists L. split; [exact HS|]. split; [exact HD|].
  eapply pieces_ok_weaken; [|exact HO]. apply rule_of_et.
Qed.

Lemma pieces_operator s :
  exists L, src L = s /\ dst L = sep_operator s /\
            pieces_ok (scan_nomatch re_operator) rule_op None L.
Proof.
  destruct (scan_pieces re_operator (const (js ", ")) nonempty_op s)
    as (L & HS & HD & HO).
  exists L. split; [exact HS|]. split; [exact HD|].
  eapply pieces_ok_weaken; [|exact HO]. apply rule_of_op.
Qed.

Lemma pieces_fois s :
  exists L, src L = s /\ dst L = mult_fois s /\
            pieces_ok (scan_nomatch re_fois)
                      (rule_word (js "fois") (js "x")) None L.
Proof.
  destruct (scan_pieces re_fois (const (js "x")) nonempty_fois s)
    as (L & HS & HD & HO).
  exists L. split; [exact HS|]. split; [exact HD|].
  eapply pieces_ok_weaken; [|exact HO].
  intros pv M B rest. apply rule_of_word; [apply lower_fois|discriminate].
Qed.

Lemma pieces_dimension s :
  exists L, src L = s /\ dst L = glue_dimension s /\
            pieces_ok (scan_nomatch re_dimension) rule_dim None L.
Proof.
  destruct (scan_pieces re_dimension
              (fun _ cs => js "M" ++ cap cs 1 ++ js "x" ++ cap cs 2)
              nonempty_dim s) as (L & HS & HD & HO).
  exists L. split; [exact HS|]. split; [exact HD|].
  eapply pieces_ok_weaken; [|exact HO]. apply rule_of_dim.
Qed.

Lemma pieces_metric s :
  exists L, src L = s /\ dst L = glue_metric s /\
            pieces_ok (scan_nomatch re_metric) rule_met None L.
Proof.
  destruct (scan_pieces re_metric (fun _ cs => js "M" ++ cap cs 1)
              nonempty_met s) as (L & HS & HD & HO).
  exists L. split; [exact HS|]. split; [exact HD|].
  eapply pieces_ok_weaken; [|exact HO]. apply rule_of_met.
Qed.

Lemma pieces_spaces s :
  exists L, src L = s /\ dst L = collapse_spaces s /\
            pieces_ok nm_sp rule_sp None L.
Proof.
  destruct (scan_pieces (plus space) (const (js " ")) nonempty_sp s)
    as (L & HS & HD & HO).
  exists L. split; [exact HS|]. split; [exact HD|].
  eapply pieces_ok_impl; [| |exact HO].
  - apply nm_of_sp.
  - apply rule_of_sp.
Qed.

(** ** The rules respect the runs of word units *)

Lemma last_word_all s : all is_word s -> s <> [] -> last_word s = true.
Proof. intros. apply pv_word_lastc_all; assumption. Qed.

Lemma last_word_none s : none is_word s -> last_word s = false.
Proof.
  intros H. destruct s as [|c s]; [reflexivity|].
  apply pv_word_lastc_none; [exact H|discriminate].
Qed.

Lemma good_pv pv M B rest : rule_pv pv M B rest -> good_rule pv M B rest.
Proof.
  intros (HM & -> & Hp & Ht). split; [apply point_virgule_match_nonempty; exact HM|].
  split; [split; [discriminate|right; repeat constructor]|].
  repeat split; auto; discriminate.
Qed.

Lemma good_word_sep w b pv M B rest :
  w <> [] -> b <> [] -> none is_word b ->
  rule_word w b pv M B rest -> good_rule pv M B rest.
Proof.
  intros Hw Hb Hn (HM & -> & Hp & Ht).
  split; [apply (ci_eq_nonempty w); assumption|].
  split; [split; [exact Hb|right; exact Hn]|].
  split; [auto|]. split; [auto|]. split.
  - rewrite (head_word_none b Hn). discriminate.
  - rewrite (last_word_none b Hn). discriminate.
Qed.

Lemma good_comma pv M B rest :
  rule_word (js "virgule") (js ",") pv M B rest -> good_rule pv M B rest.
Proof. apply good_word_sep; [discriminate|discriminate|repeat constructor]. Qed.

Lemma et_match_edges M :
  et_match M -> head_word M = true /\ last_word M = false.
Proof.
  intros (e & ws & -> & He & Hws & Hn).
  pose proof (ci_eq_word _ lower_et e He) as Hew.
  assert (Hen : e <> []) by (apply (ci_eq_nonempty (js "et")); [discriminate|exact He]).
  split.
  - rewrite head_word_app by assumption. apply head_word_all; assumption.
  - rewrite last_word_app by assumption. apply last_word_none.
    apply spaces_not_word. exact Hws.
Qed.

Lemma good_et pv M B rest : rule_et pv M B rest -> good_rule pv M B rest.
Proof.
  intros (HM & -> & Hp). destruct (et_match_edges M HM) as [Hh Hl].
  split; [apply et_match_nonempty; exact HM|].
  split; [split; [discriminate|right; repeat constructor]|].
  split; [rewrite Hl; discriminate|]. split; [auto|].
  split; discriminate.
Qed.

Lemma operator_match_edges M :
  operator_match M -> head_word M = false /\ last_word M = false.
Proof.
  intros (ws1 & o & ws2 & -> & H1 & Ho & H2).
  assert (HN : none is_word (ws1 ++ o :: ws2)).
  { apply Forall_app. split; [apply spaces_not_word; exact H1|].
    constructor; [apply operator_not_word; exact Ho|apply spaces_not_word; exact H2]. }
  split; [apply head_word_none|apply last_word_none]; exact HN.
Qed.

Lemma good_op pv M B rest : rule_op pv M B rest -> good_rule pv M B rest.
Proof.
  intros (HM & ->). destruct (operator_match_edges M HM) as [Hh Hl].
  split; [apply operator_match_nonempty; exact HM|].
  split; [split; [discriminate|right; repeat constructor]|].
  split; [rewrite Hl; discriminate|]. split; [rewrite Hh; discriminate|].
  split; discriminate.
Qed.

Lemma run_fois pv M B rest :
  rule_word (js "fois") (js "x") pv M B rest -> run_rule pv M B rest.
Proof.
  intros (HM & -> & Hp & Ht).
  pose proof (ci_eq_word _ lower_fois M HM) as Hw.
  assert (Hn : M <> []) by (apply (ci_eq_nonempty (js "fois")); [discriminate|exact HM]).
  split; [exact Hn|]. split; [exact Hp|]. split; [exact Ht|]. split.
  - apply head_word_all; assumption.
  - apply last_word_all; assumption.
Qed.

Lemma good_fois pv M B rest :
  rule_word (js "fois") (js "x") pv M B rest -> good_rule pv M B rest.
Proof.
  intros H. pose proof (run_fois _ _ _ _ H) as (Hn & Hp & Ht & Hh & Hl).
  destruct H as (_ & -> & _).
  split; [exact Hn|]. split; [split; [discriminate|left; repeat constructor]|].
  repeat split; auto.
Qed.

Lemma dimension_match_edges d1 d2 M :
  dimension_match d1 d2 M -> head_word M = true /\ last_word M = true.
Proof.
  intros (m & ws1 & ws2 & x & ws3 & -> & Hm & _ & _ & _ & _ & _ & [Hn Hd]).
  split; [simpl; apply ci_m_word; exact Hm|].
  change (m :: ws1 ++ d1 ++ ws2 ++ x :: ws3 ++ d2)
    with ([m] ++ ws1 ++ d1 ++ ws2 ++ [x] ++ ws3 ++ d2).
  rewrite !app_assoc. rewrite last_word_app by assumption.
  apply last_word_all; [apply digits_word; exact Hd|exact Hn].
Qed.

Lemma metric_match_edges d M :
  metric_match d M -> head_word M = true /\ last_word M = true.
Proof.
  intros (m & ws & -> & Hm & _ & [Hn Hd]).
  split; [simpl; apply ci_m_word; exact Hm|].
  change (m :: ws ++ d) with ([m] ++ ws ++ d).
  rewrite !app_assoc. rewrite last_word_app by assumption.
  apply last_word_all; [apply digits_word; exact Hd|exact Hn].
Qed.

Lemma run_dim pv M B rest : rule_dim pv M B rest -> run_rule pv M B rest.
Proof.
  intros ((d1 & d2 & HM & ->) & Hp & Ht).
  destruct (dimension_match_edges _ _ _ HM) as [Hh Hl].
  split; [eapply dimension_match_nonempty; exact HM|]. repeat split; assumption.
Qed.

Lemma run_met pv M B rest : rule_met pv M B rest -> run_rule pv M B rest.
Proof.
  intros ((d & HM & ->) & Hp & Ht).
  destruct (metric_match_edges _ _ HM) as [Hh Hl].
  split; [eapply metric_match_nonempty; exact HM|]. repeat split; assumption.
Qed.

Lemma dim_text_word d1 d2 :
  all is_digit d1 -> all is_digit d2 -> all is_word (dim_text d1 d2).
Proof.
  intros H1 H2. unfold dim_text.
  apply all_app; [repeat constructor|].
  apply all_app; [apply digits_word; exact H1|].
  apply all_app; [repeat constructor|apply digits_word; exact H2].
Qed.

Lemma met_text_word d : all is_digit d -> all is_word (met_text d).
Proof.
  intros H. unfold met_text. apply all_app; [repeat constructor|].
  apply digits_word; exact H.
Qed.

Lemma good_dim pv M B rest : rule_dim pv M B rest -> good_rule pv M B rest.
Proof.
  intros H. pose proof (run_dim _ _ _ _ H) as (Hn & Hp & Ht & Hh & Hl).
  destruct H as ((d1 & d2 & HM & ->) & _).
  destruct HM as (m & ws1 & ws2 & x & ws3 & _ & _ & _ & [_ H1] & _ & _ & _ & [_ H2]).
  split; [exact Hn|]. split.
  { split; [discriminate|left; apply dim_text_word; assumption]. }
  repeat split; auto.
Qed.

Lemma good_met pv M B rest : rule_met pv M B rest -> good_rule pv M B rest.
Proof.
  intros H. pose proof (run_met _ _ _ _ H) as (Hn & Hp & Ht & Hh & Hl).
  destruct H as ((d & HM & ->) & _).
  destruct HM as (m & ws & _ & _ & _ & [_ H1]).
  split; [exact Hn|]. split.
  { split; [discriminate|left; apply met_text_word; assumption]. }
  repeat split; auto.
Qed.

Lemma good_sp pv M B rest : rule_sp pv M B rest -> good_rule pv M B rest.
Proof.
  intros (Hn & HM & _ & ->).
  pose proof (spaces_not_word M HM) as HN.
  split; [exact Hn|].
  split; [split; [discriminate|right; repeat constructor]|].
  split; [rewrite (last_word_none M HN); discriminate|].
  split; [rewrite (head_word_none M HN); discriminate|].
  split; discriminate.
Qed.

(** ** The windows *)

Lemma window_ci w : lower_word w -> w <> [] -> window (fun X => ci_eq w X = true).
Proof.
  intros Hw Hn X HX.
  pose proof (ci_eq_word w Hw X HX) as HW.
  pose proof (ci_eq_nonempty w X Hn HX) as HXn.
  split; [exact HXn|]. split.
  - apply head_word_all; assumption.
  - apply last_word_all; assumption.
Qed.

Lemma window_pv : window W_pv.
Proof. apply window_ci; [apply lower_pointvirgule|discriminate]. Qed.

Lemma window_v : window W_v.
Proof. apply window_ci; [apply lower_virgule|discriminate]. Qed.

Lemma window_fois : window W_fois.
Proof. apply window_ci; [apply lower_fois|discriminate]. Qed.

Lemma window_et : window W_et.
Proof.
  intros X (M & num & -> & HM & Hnum).
  destruct (et_match_edges M HM) as [Hh _].
  pose proof (et_match_nonempty M HM) as HMn.
  destruct (is_num_word num Hnum) as [Hw Hn].
  split; [destruct M; [congruence|discriminate]|]. split.
  - rewrite head_word_app by assumption. exact Hh.
  - rewrite last_word_app by assumption. apply last_word_all; assumption.
Qed.

Lemma window_dim : window W_dim.
Proof.
  intros X (d1 & d2 & HM & _).
  split; [eapply dimension_match_nonempty; exact HM|].
  eapply dimension_match_edges; exact HM.
Qed.

Lemma window_met : window W_met.
Proof.
  intros X (d & HM & _).
  split; [eapply metric_match_nonempty; exact HM|].
  eapply metric_match_edges; exact HM.
Qed.

(** ** Units a window cannot contain *)

Lemma avoids_ci c w : lower_word w -> avoids c w = true ->
  forall X, ci_eq w X = true -> none (N.eqb c) X.
Proof.
  induction 1 as [|p w Hp _ IH]; intros Ha [|x X] HX; simpl in HX;
    try discriminate.
  - constructor.
  - apply andb_true_iff in HX. destruct HX as [Hx HX].
    simpl in Ha. apply andb_true_iff in Ha. destruct Ha as [Ha1 Ha].
    apply andb_true_iff in Ha1. destruct Ha1 as [A1 A2].
    apply negb_true_iff in A1, A2.
    constructor; [|apply IH; assumption].
    destruct (ci_lower p x Hp Hx) as [->| ->]; rewrite N.eqb_sym; assumption.
Qed.

Lemma spaces_avoid c ws : is_space c = false -> all is_space ws -> none (N.eqb c) ws.
Proof.
  intros Hc. apply Forall_impl. intros x Hx.
  destruct (N.eqb c x) eqn:E; [|reflexivity].
  apply N.eqb_eq in E. subst. congruence.
Qed.

Lemma digits_avoid c d : is_digit c = false -> all is_digit d -> none (N.eqb c) d.
Proof.
  intros Hc. apply Forall_impl. intros x Hx.
  destruct (N.eqb c x) eqn:E; [|reflexivity].
  apply N.eqb_eq in E. subst. congruence.
Qed.

Lemma num_avoid c num :
  is_digit c = false -> forallb (avoids c) number_words = true ->
  is_num num -> none (N.eqb c) num.
Proof.
  intros Hc Ha [[_ Hd]|(w & Hin & Hw)].
  - apply digits_avoid; assumption.
  - apply (avoids_ci c w); [| |exact Hw].
    + pose proof lower_number_words as HL. rewrite Forall_forall in HL. auto.
    + rewrite forallb_forall in Ha. auto.
Qed.

Lemma et_avoid c X :
  is_space c = false -> is_digit c = false ->
  avoids c (js "et") = true -> forallb (avoids c) number_words = true ->
  W_et X -> none (N.eqb c) X.
Proof.
  intros Hs Hd He Hn (M & num & -> & (e & ws & -> & Hee & Hws & _) & Hnum).
  apply Forall_app. split; [apply Forall_app; split|].
  - apply (avoids_ci c (js "et")); [apply lower_et|exact He|exact Hee].
  - apply spaces_avoid; assumption.
  - apply num_avoid; assumption.
Qed.

(** ** Windows that a step cannot produce *)

Lemma foreign_comma W :
  window W -> (forall X, W X -> none (N.eqb 44) X) ->
  forall s, occurs W None (sep_comma s) -> occurs W None s.
Proof.
  intros HW HC s H. destruct (pieces_comma s) as (L & HS & HD & HO).
  rewrite <- HD in H. rewrite <- HS.
  refine (transfer_foreign _ _ good_comma (N.eqb 44) _ W HW HC None L HO H).
  intros pv M B rest (_ & -> & _). exists 44%N. split; [left|]; reflexivity.
Qed.

Lemma foreign_et W :
  window W -> (forall X, W X -> none (N.eqb 44) X) ->
  forall s, occurs W None (sep_et s) -> occurs W None s.
Proof.
  intros HW HC s H. destruct (pieces_et s) as (L & HS & HD & HO).
  rewrite <- HD in H. rewrite <- HS.
  refine (transfer_foreign _ _ good_et (N.eqb 44) _ W HW HC None L HO H).
  intros pv M B rest (_ & -> & _). exists 44%N. split; [left|]; reflexivity.
Qed.

Lemma foreign_operator W :
  window W -> (forall X, W X -> none (N.eqb 44) X) ->
  forall s, occurs W None (sep_operator s) -> occurs W None s.
Proof.
  intros HW HC s H. destruct (pieces_operator s) as (L & HS & HD & HO).
  rewrite <- HD in H. rewrite <- HS.
  refine (transfer_foreign _ _ good_op (N.eqb 44) _ W HW HC None L HO H).
  intros pv M B rest (_ & ->). exists 44%N. split; [left|]; reflexivity.
Qed.

Lemma foreign_fois W :
  window W -> (forall X, W X -> none (N.eqb 120) X) ->
  forall s, occurs W None (mult_fois s) -> occurs W None s.
Proof.
  intros HW HC s H. destruct (pieces_fois s) as (L & HS & HD & HO).
  rewrite <- HD in H. rewrite <- HS.
  refine (transfer_foreign _ _ good_fois (N.eqb 120) _ W HW HC None L HO H).
  intros pv M B rest (_ & -> & _). exists 120%N. split; [left|]; reflexivity.
Qed.

Lemma foreign_dimension W :
  window W -> (forall X, W X -> none (N.eqb 77) X) ->
  forall s, occurs W None (glue_dimension s) -> occurs W None s.
Proof.
  intros HW HC s H. destruct (pieces_dimension s) as (L & HS & HD & HO).
  rewrite <- HD in H. rewrite <- HS.
  refine (transfer_foreign _ _ good_dim (N.eqb 77) _ W HW HC None L HO H).
  intros pv M B rest ((d1 & d2 & _ & ->) & _).
  exists 77%N. split; [left|]; reflexivity.
Qed.

Lemma foreign_metric W :
  window W -> (forall X, W X -> none (N.eqb 77) X) ->
  forall s, occurs W None (glue_metric s) -> occurs W None s.
Proof.
  intros HW HC s H. destruct (pieces_metric s) as (L & HS & HD & HO).
  rewrite <- HD in H. rewrite <- HS.
  refine (transfer_foreign _ _ good_met (N.eqb 77) _ W HW HC None L HO H).
  intros pv M B rest ((d & _ & ->) & _).
  exists 77%N. split; [left|]; reflexivity.
Qed.

Lemma foreign_spaces W :
  window W -> (forall X, W X -> none (N.eqb 32) X) ->
  forall s, occurs W None (collapse_spaces s) -> occurs W None s.
Proof.
  intros HW HC s H. destruct (pieces_spaces s) as (L & HS & HD & HO).
  rewrite <- HD in H. rewrite <- HS.
  refine (transfer_foreign _ _ good_sp (N.eqb 32) _ W HW HC None L HO H).
  intros pv M B rest (_ & _ & _ & ->).
  exists 32%N. split; [left|]; reflexivity.
Qed.

(** ** Windows a step removes *)

Lemma free_pv_semicolon s : free W_pv (sep_semicolon s).
Proof.
  destruct (pieces_semicolon s) as (L & HS & HD & HO). unfold free.
  rewrite <- HD.
  refine (absent_foreign _ _ good_pv (N.eqb 59) _ W_pv window_pv _ _ None L HO).
  - intros pv M B rest (_ & -> & _). exists 59%N. split; [left|]; reflexivity.
  - apply avoids_ci; [apply lower_pointvirgule|reflexivity].
  - intros X pv rest HX Hp Ht. unfold scan_nomatch.
    apply point_virgule_complete; assumption.
Qed.

Lemma free_v_comma s : free W_v (sep_comma s).
Proof.
  destruct (pieces_comma s) as (L & HS & HD & HO). unfold free.
  rewrite <- HD.
  refine (absent_foreign _ _ good_comma (N.eqb 44) _ W_v window_v _ _ None L HO).
  - intros pv M B rest (_ & -> & _). exists 44%N. split; [left|]; reflexivity.
  - apply avoids_ci; [apply lower_virgule|reflexivity].
  - intros X pv rest HX Hp Ht. unfold scan_nomatch.
    apply word_pattern_complete; try assumption;
      [apply lower_virgule|discriminate].
Qed.

Lemma free_et_et s : free W_et (sep_et s).
Proof.
  destruct (pieces_et s) as (L & HS & HD & HO). unfold free.
  rewrite <- HD.
  refine (absent_foreign _ _ good_et (N.eqb 44) _ W_et window_et _ _ None L HO).
  - intros pv M B rest (_ & -> & _). exists 44%N. split; [left|]; reflexivity.
  - intros X. apply et_avoid; reflexivity.
  - intros X pv rest (M & num & -> & HM & Hnum) Hp Ht. unfold scan_nomatch.
    rewrite <- app_assoc. apply et_complete; assumption.
Qed.

Lemma free_fois_fois s : free W_fois (mult_fois s).
Proof.
  destruct (pieces_fois s) as (L & HS & HD & HO). unfold free.
  rewrite <- HD.
  refine (absent_foreign _ _ good_fois (N.eqb 120) _ W_fois window_fois _ _ None L HO).
  - intros pv M B rest (_ & -> & _). exists 120%N. split; [left|]; reflexivity.
  - apply avoids_ci; [apply lower_fois|reflexivity].
  - intros X pv rest HX Hp Ht. unfold scan_nomatch.
    apply word_pattern_complete; try assumption;
      [apply lower_fois|discriminate].
Qed.

(** ** The windows of one word and the later steps *)

Lemma clean_pv c :
  avoids c (js "pointvirgule") = true -> forall X, W_pv X -> none (N.eqb c) X.
Proof. intros H. apply avoids_ci; [apply lower_pointvirgule|exact H]. Qed.

Lemma clean_v c :
  avoids c (js "virgule") = true -> forall X, W_v X -> none (N.eqb c) X.
Proof. intros H. apply avoids_ci; [apply lower_virgule|exact H]. Qed.

Lemma clean_fois c :
  avoids c (js "fois") = true -> forall X, W_fois X -> none (N.eqb c) X.
Proof. intros H. apply avoids_ci; [apply lower_fois|exact H]. Qed.

(** ** Lists *)

Lemma split_at {A} (a : list A) c b u v :
  a ++ c :: b = u ++ v ->
  (exists u2, u = a ++ c :: u2 /\ b = u2 ++ v) \/
  (exists v1, a = u ++ v1 /\ v = v1 ++ c :: b).
Proof.
  intros E. apply app_eq_app in E. destruct E as [l [[H1 H2]|[H1 H2]]].
  - right. exists l. auto.
  - destruct l as [|x l].
    + right. exists []. rewrite app_nil_r in H1. subst. rewrite app_nil_r. auto.
    + injection H2 as <- H2. left. exists l. auto.
Qed.

Lemma class_prefix_unique p a r a' r' :
  a ++ r = a' ++ r' -> all p a -> all p a' ->
  head_is p r = false -> head_is p r' = false -> a = a' /\ r = r'.
Proof.
  intros E Ha Ha' Hr Hr'.
  assert (a = a').
  { rewrite <- (take_while_app p a r Ha Hr), E. apply take_while_app; assumption. }
  subst. apply app_inv_head in E. auto.
Qed.

Lemma none_not_In c s : none (N.eqb c) s -> ~ In c s.
Proof.
  intros H Hin. unfold none in H. rewrite Forall_forall in H.
  specialize (H c Hin). rewrite N.eqb_refl in H. discriminate.
Qed.

Lemma kept_or_repl l :
  kept l \/ exists l1 M B l2, l = l1 ++ Repl M B :: l2 /\ kept l1.
Proof.
  induction l as [|[c|M B] l IH].
  - left. constructor.
  - destruct IH as [IH|(l1 & M & B & l2 & -> & Hk)].
    + left. constructor; [exact I|exact IH].
    + right. exists (Keep c :: l1), M, B, l2. split; [reflexivity|].
      constructor; [exact I|exact Hk].
  - right. exists [], M, B, l. split; [reflexivity|constructor].
Qed.

Lemma kept_dst_nil l : kept l -> dst l = [] -> l = [].
Proof.
  intros Hk E. destruct l as [|[c|M B] l]; [reflexivity|discriminate|].
  inversion Hk; subst; contradiction.
Qed.

Lemma head_not_digit b z : head_word (b ++ z) = false -> head_is is_digit b = false.
Proof.
  destruct b as [|c b]; [reflexivity|]. simpl. intros H.
  destruct (is_digit c) eqn:E; [|reflexivity].
  apply digit_word in E. congruence.
Qed.

Lemma digits_head_not_space d z : digits d -> head_is is_space (d ++ z) = false.
Proof.
  intros [Hn Hd]. destruct d as [|c d]; [congruence|]. simpl.
  inversion Hd; subst. apply digit_not_space. assumption.
Qed.

Lemma times_cases x : is_times x = true -> x = 120%N \/ x = 88%N \/ x = 215%N.
Proof.
  unfold is_times. intros H. apply orb_true_iff in H. destruct H as [H|H].
  - destruct (ci_lower 120 x eq_refl H) as [->| ->]; auto.
  - unfold ci in H. simpl in H. rewrite !orb_false_r in H.
    apply N.eqb_eq in H. auto.
Qed.

Lemma times_not_space x : is_times x = true -> is_space x = false.
Proof. intros H. destruct (times_cases x H) as [->|[->| ->]]; reflexivity. Qed.

Lemma times_not_digit x : is_times x = true -> is_digit x = false.
Proof. intros H. destruct (times_cases x H) as [->|[->| ->]]; reflexivity. Qed.

(** ** Reading a dimension or a metric reference *)

(** After the first unit, a match of [re_dimension] has no [M]. *)
Lemma dimension_tail_M ws1 d1 ws2 x ws3 d2 :
  all is_space ws1 -> all is_digit d1 -> all is_space ws2 ->
  is_times x = true -> all is_space ws3 -> all is_digit d2 ->
  none (N.eqb 77) (ws1 ++ d1 ++ ws2 ++ x :: ws3 ++ d2).
Proof.
  intros H1 H2 H3 Hx H4 H5.
  repeat (apply Forall_app; split);
    try (apply spaces_avoid; [reflexivity|assumption]);
    try (apply digits_avoid; [reflexivity|assumption]).
  constructor.
  - destruct (times_cases x Hx) as [->|[->| ->]]; reflexivity.
  - apply Forall_app; split;
      [apply spaces_avoid; [reflexivity|assumption]
      |apply digits_avoid; [reflexivity|assumption]].
Qed.

Lemma first_M_only T a b m :
  none (N.eqb 77) T -> m :: T = a ++ 77%N :: b -> a = [] /\ m = 77%N /\ T = b.
Proof.
  intros HT E. destruct a as [|y a].
  - injection E as -> E. auto.
  - exfalso. injection E as _ E. apply (none_not_In 77 T HT).
    rewrite E. apply in_or_app. right. left. reflexivity.
Qed.

(** The text [M d1 x d2 b] read as a match of [re_dimension]. *)
Lemma read_dimension ws1 d1 ws2 x ws3 d2 e1 e2 b :
  ws1 ++ d1 ++ ws2 ++ x :: ws3 ++ d2 = e1 ++ 120%N :: e2 ++ b ->
  all is_space ws1 -> digits d1 -> all is_space ws2 ->
  is_times x = true -> all is_space ws3 -> digits d2 ->
  digits e1 -> digits e2 -> head_is is_digit b = false ->
  ws1 = [] /\ ws2 = [] /\ x = 120%N /\ ws3 = [] /\ e1 = d1 /\ e2 = d2 /\ b = [].
Proof.
  intros E H1 D1 H2 Hx H3 D2 E1 E2 Hb.
  destruct (class_prefix_unique is_space ws1 _ [] _ E H1 ltac:(constructor))
    as [-> E'].
  { apply digits_head_not_space. exact D1. }
  { apply (digits_head_not_space e1 (120%N :: e2 ++ b)). exact E1. }
  simpl in E'. clear E.
  destruct (class_prefix_unique is_digit d1 _ e1 _ E' (proj2 D1) (proj2 E1))
    as [-> E].
  { destruct ws2 as [|c ws2]; simpl.
    - apply times_not_digit. exact Hx.
    - inversion H2; subst. destruct (is_digit c) eqn:Ed; [|reflexivity].
      apply digit_not_space in Ed. congruence. }
  { reflexivity. }
  clear E'.
  destruct (class_prefix_unique is_space ws2 _ [] _ E H2 ltac:(constructor))
    as [-> E'].
  { simpl. apply times_not_space. exact Hx. }
  { reflexivity. }
  simpl in E'. injection E' as -> E'. clear E.
  destruct (class_prefix_unique is_space ws3 _ [] _ E' H3 ltac:(constructor))
    as [-> E].
  { rewrite <- (app_nil_r d2). apply digits_head_not_space. exact D2. }
  { apply digits_head_not_space. exact E2. }
  simpl in E. clear E'.
  rewrite <- (app_nil_r d2) in E.
  destruct (class_prefix_unique is_digit d2 [] e2 b E (proj2 D2) (proj2 E2))
    as [-> <-]; [reflexivity|exact Hb|].
  repeat split; reflexivity.
Qed.

(** The text [M e b] read as a match of [re_dimension]. *)
Lemma read_dimension_metric ws1 d1 R e b :
  ws1 ++ d1 ++ R = e ++ b ->
  all is_space ws1 -> digits d1 -> head_is is_digit R = false ->
  digits e -> head_is is_digit b = false ->
  ws1 = [] /\ e = d1 /\ b = R.
Proof.
  intros E H1 D1 HR E1 Hb.
  destruct (class_prefix_unique is_space ws1 _ [] _ E H1 ltac:(constructor))
    as [-> E'].
  { apply digits_head_not_space. exact D1. }
  { apply digits_head_not_space. exact E1. }
  simpl in E'.
  destruct (class_prefix_unique is_digit d1 _ e _ E' (proj2 D1) (proj2 E1) HR Hb)
    as [-> ->].
  auto.
Qed.

Lemma dimension_rest_head ws2 x ws3 d2 :
  all is_space ws2 -> is_times x = true ->
  head_is is_digit (ws2 ++ x :: ws3 ++ d2) = false.
Proof.
  intros H2 Hx. destruct ws2 as [|c ws2]; simpl.
  - apply times_not_digit. exact Hx.
  - inversion H2; subst. destruct (is_digit c) eqn:Ed; [|reflexivity].
    apply digit_not_space in Ed. congruence.
Qed.

(** A match of [re_dimension] that is already written [M d1 x d2]. *)
Lemma dimension_canonical m ws1 d1 ws2 x ws3 d2 :
  m :: ws1 ++ d1 ++ ws2 ++ x :: ws3 ++ d2 = dim_text d1 d2 ->
  all is_space ws1 -> digits d1 -> all is_space ws2 ->
  is_times x = true -> all is_space ws3 -> digits d2 ->
  m = 77%N /\ ws1 = [] /\ ws2 = [] /\ x = 120%N /\ ws3 = [].
Proof.
  intros E H1 D1 H2 Hx H3 D2. unfold dim_text in E.
  change (js "M") with [77%N] in E. change (js "x") with [120%N] in E.
  simpl in E. injection E as -> E.
  rewrite <- (app_nil_r d2) in E at 2.
  destruct (read_dimension _ _ _ _ _ _ _ _ _ E H1 D1 H2 Hx H3 D2 D1 D2 eq_refl)
    as (-> & -> & -> & -> & _).
  auto.
Qed.

Lemma metric_canonical m ws d :
  m :: ws ++ d = met_text d -> all is_space ws -> digits d ->
  m = 77%N /\ ws = [].
Proof.
  intros E H1 D. unfold met_text in E. change (js "M") with [77%N] in E.
  simpl in E. injection E as -> E. split; [reflexivity|].
  rewrite <- (app_nil_r d) in E.
  destruct (class_prefix_unique is_space ws _ [] _ E H1 ltac:(constructor))
    as [-> _]; [apply digits_head_not_space; exact D..|reflexivity].
Qed.

(** ** Dimensions after [glue_dimension] *)

Lemma kept_first_nomatch r rule pvs l L2 :
  l <> [] -> kept l -> pieces_ok (scan_nomatch r) rule pvs (l ++ L2) ->
  exec_at r pvs (dst l ++ src L2) = None.
Proof.
  intros Hl HK HO. rewrite <- (kept_src_dst l HK).
  destruct l as [|[c|M B] l]; [congruence| |inversion HK; subst; contradiction].
  destruct HO as [Hnm _]. rewrite src_app in Hnm. exact Hnm.
Qed.

Lemma pieces_mid_assoc nm rule pvs l1 M B l2 L2 :
  pieces_ok nm rule pvs ((l1 ++ Repl M B :: l2) ++ L2) ->
  pieces_ok nm rule pvs (l1 ++ Repl M B :: (l2 ++ L2)).
Proof. rewrite <- app_assoc. simpl. auto. Qed.

Lemma free_dim_dimension s : free W_dim (glue_dimension s).
Proof.
  destruct (pieces_dimension s) as (L & HS & HD & HO). unfold free.
  rewrite <- HD. intros Hocc.
  assert (H : occurs (fun _ => False) None (src L)).
  { revert HO Hocc. apply (transfer _ rule_dim good_dim W_dim _ window_dim).
    intros pvs pvd l L2 Hl HO Hps Hpd Hss Hsd (d1 & d2 & HM & Hnc).
    destruct (kept_or_repl l) as [HK|(l1 & M & B & l2 & -> & HK1)].
    - apply (dimension_complete pvs d1 d2 (dst l) (src L2) HM Hps Hss).
      eapply kept_first_nomatch; eassumption.
    - apply pieces_mid_assoc in HO.
      pose proof (pieces_ok_mid _ _ _ _ _ _ _ HO) as ((e1 & e2 & HMe & ->) & _).
      pose proof (run_right _ _ _ _ _ _ _ run_dim HO) as Hr.
      rewrite dst_app in Hr. apply head_not_digit in Hr.
      destruct HM as (m & ws1 & ws2 & x & ws3 & E & Hm & H1 & D1 & H2 & Hx & H3 & D2).
      destruct HMe as (_ & _ & _ & _ & _ & _ & _ & _ & DE1 & _ & _ & _ & DE2).
      apply Hnc. rewrite E. rewrite dst_app in E. simpl in E.
      unfold dim_text in E. change (js "M") with [77%N] in E.
      change (js "x") with [120%N] in E. simpl in E.
      symmetry in E.
      destruct (first_M_only _ _ _ _
                  (dimension_tail_M _ _ _ _ _ _ H1 (proj2 D1) H2 Hx H3 (proj2 D2)) E)
        as (_ & -> & E').
      rewrite <- ?app_assoc in E'. simpl in E'. rewrite <- ?app_assoc in E'.
      destruct (read_dimension _ _ _ _ _ _ _ _ _ E' H1 D1 H2 Hx H3 D2 DE1 DE2 Hr)
        as (-> & -> & -> & -> & _).
      reflexivity. }
  destruct H as (_ & _ & _ & _ & [] & _).
Qed.

(** ** Metric references after [glue_metric] *)

Lemma metric_tail_M ws d :
  all is_space ws -> all is_digit d -> none (N.eqb 77) (ws ++ d).
Proof.
  intros H1 H2. apply Forall_app; split;
    [apply spaces_avoid; [reflexivity|assumption]
    |apply digits_avoid; [reflexivity|assumption]].
Qed.

Lemma free_met_metric s : free W_met (glue_metric s).
Proof.
  destruct (pieces_metric s) as (L & HS & HD & HO). unfold free.
  rewrite <- HD. intros Hocc.
  assert (H : occurs (fun _ => False) None (src L)).
  { revert HO Hocc. apply (transfer _ rule_met good_met W_met _ window_met).
    intros pvs pvd l L2 Hl HO Hps Hpd Hss Hsd (d & HM & Hnc).
    destruct (kept_or_repl l) as [HK|(l1 & M & B & l2 & -> & HK1)].
    - apply (metric_complete pvs d (dst l) (src L2) HM Hps Hss).
      eapply kept_first_nomatch; eassumption.
    - apply pieces_mid_assoc in HO.
      pose proof (pieces_ok_mid _ _ _ _ _ _ _ HO) as ((e & HMe & ->) & _).
      pose proof (run_right _ _ _ _ _ _ _ run_met HO) as Hr.
      rewrite dst_app in Hr. apply head_not_digit in Hr.
      destruct HM as (m & ws & E & Hm & H1 & D1).
      destruct HMe as (_ & _ & _ & _ & _ & DE).
      apply Hnc. rewrite E. rewrite dst_app in E. simpl in E.
      unfold met_text in E. change (js "M") with [77%N] in E. simpl in E.
      symmetry in E.
      destruct (first_M_only _ _ _ _ (metric_tail_M _ _ H1 (proj2 D1)) E)
        as (_ & -> & E').
      rewrite <- ?app_assoc in E'.
      destruct (class_prefix_unique is_space ws _ [] _ E' H1 ltac:(constructor))
        as [-> E2].
      { rewrite <- (app_nil_r d). apply digits_head_not_space. exact D1. }
      { apply digits_head_not_space. exact DE. }
      simpl in E2. rewrite <- (app_nil_r d) in E2.
      destruct (class_prefix_unique is_digit d [] e _ E2 (proj2 D1) (proj2 DE))
        as [-> _]; [reflexivity|exact Hr|].
      reflexivity. }
  destruct H as (_ & _ & _ & _ & [] & _).
Qed.

(** ** Dimensions and [glue_metric] *)

Lemma dim_metric s : occurs W_dim None (glue_metric s) -> occurs W_dim None s.
Proof.
  destruct (pieces_metric s) as (L & HS & HD & HO).
  rewrite <- HD, <- HS. revert HO.
  apply (transfer _ rule_met good_met W_dim W_dim window_dim).
  intros pvs pvd l L2 Hl HO Hps Hpd Hss Hsd (d1 & d2 & HM & Hnc).
  destruct (kept_or_repl l) as [HK|(l1 & M & B & l2 & -> & HK1)].
  { rewrite (kept_src_dst l HK). exists d1, d2. auto. }
  pose proof (pieces_mid_assoc _ _ _ _ _ _ _ _ HO) as HO'.
  pose proof (pieces_ok_mid _ _ _ _ _ _ _ HO') as ((e & HMe & ->) & _).
  pose proof (run_right _ _ _ _ _ _ _ run_met HO') as Hr.
  rewrite dst_app in Hr. apply head_not_digit in Hr.
  destruct HM as (m & ws1 & ws2 & x & ws3 & E & Hm & H1 & D1 & H2 & Hx & H3 & D2).
  pose proof (dimension_tail_M _ _ _ _ _ _ H1 (proj2 D1) H2 Hx H3 (proj2 D2)) as HT.
  rewrite dst_app in E. simpl in E.
  unfold met_text in E. change (js "M") with [77%N] in E. simpl in E.
  symmetry in E.
  destruct (first_M_only _ _ _ _ HT E) as (E1 & -> & E').
  apply (kept_dst_nil _ HK1) in E1. subst l1.
  assert (HK2 : kept l2).
  { apply (foreign_kept (N.eqb 77)).
    - intros M' B' Hin.
      destruct (pieces_ok_prefix _ _ _ _ _ HO M' B') as (pv' & rest' & ((e' & _ & ->) & _)).
      { apply in_or_app. right. right. exact Hin. }
      exists 77%N. split; [left|]; reflexivity.
    - rewrite E' in HT. apply Forall_app in HT. destruct HT as [_ HT]. exact HT. }
  destruct HMe as (m' & ws' & -> & Hm' & H1' & DE).
  destruct (read_dimension_metric _ _ _ _ _ E' H1 D1
              (dimension_rest_head _ _ _ _ H2 Hx) DE Hr) as (-> & -> & Eb).
  simpl. rewrite (kept_src_dst l2 HK2), Eb. clear E E'.
  exists d1, d2. split.
  - exists m', ws', ws2, x, ws3. split; [list_eq|]. repeat split; try assumption;
      try apply D1; try apply D2.
  - intros Ec.
    rewrite <- app_assoc in Ec.
    destruct (dimension_canonical _ _ _ _ _ _ _ Ec H1' D1 H2 Hx H3 D2)
      as (_ & _ & -> & -> & ->).
    apply Hnc. rewrite dst_app. simpl. rewrite Eb. reflexivity.
Qed.

(** ** [et] before a number and [mult_fois] *)

Lemma number_word_first b : ~ is_num (120%N :: b).
Proof.
  intros [[_ Hd]|(w & Hin & Hw)].
  - inversion Hd; subst. discriminate.
  - assert (H : forallb (fun w => match w with
                                  | p :: _ => negb (ci p 120)
                                  | [] => true
                                  end) number_words = true) by reflexivity.
    rewrite forallb_forall in H. specialize (H w Hin).
    destruct w as [|p w]; [discriminate|]. simpl in Hw.
    apply andb_true_iff in Hw. destruct Hw as [Hp _].
    rewrite Hp in H. discriminate.
Qed.

Lemma et_before_x X a b :
  W_et X -> X = a ++ 120%N :: b -> a <> [] /\ last_word a = true.
Proof.
  intros (M & num & -> & HM & Hnum) E. symmetry in E.
  apply split_at in E. destruct E as [(u2 & E & _)|(v1 & -> & E)].
  - exfalso.
    assert (HN : none (N.eqb 120) M).
    { destruct HM as (e & ws & -> & He & Hws & _). apply Forall_app. split.
      - apply (avoids_ci 120 (js "et")); [apply lower_et|reflexivity|exact He].
      - apply spaces_avoid; [reflexivity|exact Hws]. }
    apply (none_not_In _ _ HN). rewrite E. apply in_or_app. right. left. reflexivity.
  - destruct v1 as [|y v1].
    + exfalso. simpl in E. subst num. apply (number_word_first b Hnum).
    + split; [destruct M; discriminate|].
      rewrite last_word_app by discriminate.
      apply last_word_all; [|discriminate].
      destruct (is_num_word num Hnum) as [Hw _]. rewrite E in Hw.
      apply Forall_app in Hw. destruct Hw as [Hw _]. exact Hw.
Qed.

Lemma et_fois s : occurs W_et None (mult_fois s) -> occurs W_et None s.
Proof.
  destruct (pieces_fois s) as (L & HS & HD & HO).
  rewrite <- HD, <- HS. revert HO.
  apply (transfer _ _ good_fois W_et W_et window_et).
  intros pvs pvd l L2 Hl HO Hps Hpd Hss Hsd HW.
  destruct (kept_or_repl l) as [HK|(l1 & M & B & l2 & -> & HK1)].
  { rewrite (kept_src_dst l HK). exact HW. }
  exfalso.
  pose proof (pieces_mid_assoc _ _ _ _ _ _ _ _ HO) as HO'.
  pose proof (pieces_ok_mid _ _ _ _ _ _ _ HO') as (_ & -> & _).
  pose proof (run_left _ _ _ pvd _ _ _ _ run_fois HO' Hpd) as Hleft.
  destruct (et_before_x _ (dst l1) (dst l2) HW) as [Hn Hlast].
  { rewrite dst_app. reflexivity. }
  rewrite pv_word_last in Hleft by assumption. congruence.
Qed.

(** ** The pieces of [collapse_spaces] *)

Lemma sp_pieces_of pvs l L2 :
  pieces_ok nm_sp rule_sp pvs (l ++ L2) -> sp_pieces l.
Proof.
  intros HO M B Hin.
  destruct (pieces_ok_prefix _ _ _ _ _ HO M B Hin) as (pv' & rest & (H1 & H2 & _ & H3)).
  auto.
Qed.

Lemma sp_pieces_tail p l : sp_pieces (p :: l) -> sp_pieces l.
Proof. intros H M B Hin. apply H. right. exact Hin. Qed.

Lemma word_not_space c : is_word c = true -> is_space c = false.
Proof.
  intros H. destruct (is_space c) eqn:E; [|reflexivity].
  apply space_not_word in E. congruence.
Qed.

Lemma sp_take_nospace : forall l u v,
  sp_pieces l -> dst l = u ++ v -> none is_space u ->
  exists l2, src l = u ++ src l2 /\ dst l2 = v /\ sp_pieces l2.
Proof.
  intros l u. revert l. induction u as [|y u IH]; intros l v HP E Hu.
  - exists l. auto.
  - inversion Hu as [|? ? Hy Hu']; subst.
    destruct l as [|[c|M B] l]; [discriminate| |].
    + simpl in E. injection E as -> E.
      destruct (IH l v (sp_pieces_tail _ _ HP) E Hu') as (l2 & E1 & E2 & HP2).
      exists l2. simpl. rewrite E1. auto.
    + exfalso. destruct (HP M B) as (_ & _ & ->); [left; reflexivity|].
      simpl in E. injection E as <- _. discriminate.
Qed.

Lemma sp_take_space : forall l u v,
  sp_pieces l -> dst l = u ++ v -> all is_space u ->
  exists u' l2, src l = u' ++ src l2 /\ dst l2 = v /\ sp_pieces l2 /\
                all is_space u' /\ (u' = [] -> u = []).
Proof.
  intros l u. revert l. induction u as [|y u IH]; intros l v HP E Hu.
  - exists [], l. split; [reflexivity|]. split; [exact E|]. split; [exact HP|].
    split; [constructor|auto].
  - inversion Hu as [|? ? Hy Hu']; subst.
    destruct l as [|[c|M B] l]; [discriminate| |].
    + simpl in E. injection E as -> E.
      destruct (IH l v (sp_pieces_tail _ _ HP) E Hu')
        as (u' & l2 & E1 & E2 & HP2 & Hs & _).
      exists (y :: u'), l2. simpl. rewrite E1.
      split; [reflexivity|]. split; [exact E2|]. split; [exact HP2|].
      split; [constructor; assumption|discriminate].
    + destruct (HP M B) as (HM & HMs & ->); [left; reflexivity|].
      simpl in E. injection E as _ E.
      destruct (IH l v (sp_pieces_tail _ _ HP) E Hu')
        as (u' & l2 & E1 & E2 & HP2 & Hs & _).
      exists (M ++ u'), l2. simpl. rewrite E1, app_assoc.
      split; [reflexivity|]. split; [exact E2|]. split; [exact HP2|].
      split; [apply all_app; assumption|].
      intros H. apply app_eq_nil in H. destruct H; contradiction.
Qed.

Lemma sp_nil l : sp_pieces l -> dst l = [] -> src l = [].
Proof.
  intros HP E. destruct l as [|[c|M B] l]; [reflexivity|discriminate|].
  destruct (HP M B) as (_ & _ & ->); [left; reflexivity|]. discriminate.
Qed.

Lemma words_no_space s : all is_word s -> none is_space s.
Proof. apply Forall_impl. apply word_not_space. Qed.

Lemma et_spaces s : occurs W_et None (collapse_spaces s) -> occurs W_et None s.
Proof.
  destruct (pieces_spaces s) as (L & HS & HD & HO).
  rewrite <- HD, <- HS. revert HO.
  apply (transfer _ _ good_sp W_et W_et window_et).
  intros pvs pvd l L2 Hl HO Hps Hpd Hss Hsd (M & num & E & HM & Hnum).
  pose proof (sp_pieces_of _ _ _ HO) as HP.
  destruct HM as (e & ws & -> & He & Hws & Hwn).
  rewrite <- app_assoc in E.
  destruct (sp_take_nospace l _ _ HP E) as (l2 & E1 & E2 & HP2).
  { apply words_no_space. apply (ci_eq_word _ lower_et). exact He. }
  destruct (sp_take_space l2 _ _ HP2 E2 Hws) as (ws' & l3 & E3 & E4 & HP3 & Hs' & Hn').
  rewrite <- (app_nil_r num) in E4.
  destruct (sp_take_nospace l3 _ _ HP3 E4) as (l4 & E5 & E6 & HP4).
  { apply words_no_space. apply is_num_word. exact Hnum. }
  rewrite (sp_nil l4 HP4 E6), app_nil_r in E5.
  exists (e ++ ws'), num. split; [|split; [|exact Hnum]].
  - rewrite E1, E3, E5, app_assoc. reflexivity.
  - exists e, ws'. repeat split; auto.
Qed.

(** ** Dimensions, metric references and [collapse_spaces] *)

Lemma dim_spaces s : occurs W_dim None (collapse_spaces s) -> occurs W_dim None s.
Proof.
  destruct (pieces_spaces s) as (L & HS & HD & HO).
  rewrite <- HD, <- HS. revert HO.
  apply (transfer _ _ good_sp W_dim W_dim window_dim).
  intros pvs pvd l L2 Hl HO Hps Hpd Hss Hsd (d1 & d2 & HM & Hnc).
  pose proof (sp_pieces_of _ _ _ HO) as HP.
  destruct HM as (m & ws1 & ws2 & x & ws3 & E & Hm & H1 & D1 & H2 & Hx & H3 & D2).
  assert (Hnc' : ~ (m = 77%N /\ ws1 = [] /\ ws2 = [] /\ x = 120%N /\ ws3 = [])).
  { intros (-> & -> & -> & -> & ->). apply Hnc. rewrite E. reflexivity. }
  change (m :: ws1 ++ d1 ++ ws2 ++ x :: ws3 ++ d2)
    with ([m] ++ ws1 ++ d1 ++ ws2 ++ [x] ++ ws3 ++ d2) in E.
  destruct (sp_take_nospace l _ _ HP E) as (l1 & E1 & F1 & P1).
  { constructor; [|constructor]. apply word_not_space. apply ci_m_word. exact Hm. }
  destruct (sp_take_space l1 _ _ P1 F1 H1) as (ws1' & l2 & E2 & F2 & P2 & S1 & N1).
  destruct (sp_take_nospace l2 _ _ P2 F2) as (l3 & E3 & F3 & P3).
  { apply words_no_space. apply digits_word. apply D1. }
  destruct (sp_take_space l3 _ _ P3 F3 H2) as (ws2' & l4 & E4 & F4 & P4 & S2 & N2).
  destruct (sp_take_nospace l4 _ _ P4 F4) as (l5 & E5 & F5 & P5).
  { constructor; [|constructor]. apply times_not_space. exact Hx. }
  destruct (sp_take_space l5 _ _ P5 F5 H3) as (ws3' & l6 & E6 & F6 & P6 & S3 & N3).
  rewrite <- (app_nil_r d2) in F6.
  destruct (sp_take_nospace l6 _ _ P6 F6) as (l7 & E7 & F7 & P7).
  { apply words_no_space. apply digits_word. apply D2. }
  rewrite (sp_nil l7 P7 F7), app_nil_r in E7.
  assert (Esrc : src l = m :: ws1' ++ d1 ++ ws2' ++ x :: ws3' ++ d2).
  { rewrite E1, E2, E3, E4, E5, E6, E7. reflexivity. }
  exists d1, d2. split.
  - exists m, ws1', ws2', x, ws3'. repeat split; try assumption;
      try apply D1; try apply D2.
  - intros Ec. rewrite Esrc in Ec.
    destruct (dimension_canonical _ _ _ _ _ _ _ Ec S1 D1 S2 Hx S3 D2)
      as (-> & -> & -> & -> & ->).
    apply Hnc'. repeat split; auto.
Qed.

Lemma met_spaces s : occurs W_met None (collapse_spaces s) -> occurs W_met None s.
Proof.
  destruct (pieces_spaces s) as (L & HS & HD & HO).
  rewrite <- HD, <- HS. revert HO.
  apply (transfer _ _ good_sp W_met W_met window_met).
  intros pvs pvd l L2 Hl HO Hps Hpd Hss Hsd (d & HM & Hnc).
  pose proof (sp_pieces_of _ _ _ HO) as HP.
  destruct HM as (m & ws & E & Hm & H1 & D1).
  assert (Hnc' : ~ (m = 77%N /\ ws = [])).
  { intros (-> & ->). apply Hnc. rewrite E. reflexivity. }
  change (m :: ws ++ d) with ([m] ++ ws ++ d) in E.
  destruct (sp_take_nospace l _ _ HP E) as (l1 & E1 & F1 & P1).
  { constructor; [|constructor]. apply word_not_space. apply ci_m_word. exact Hm. }
  destruct (sp_take_space l1 _ _ P1 F1 H1) as (ws' & l2 & E2 & F2 & P2 & S1 & N1).
  rewrite <- (app_nil_r d) in F2.
  destruct (sp_take_nospace l2 _ _ P2 F2) as (l3 & E3 & F3 & P3).
  { apply words_no_space. apply digits_word. apply D1. }
  rewrite (sp_nil l3 P3 F3), app_nil_r in E3.
  assert (Esrc : src l = m :: ws' ++ d).
  { rewrite E1, E2, E3. reflexivity. }
  exists d. split.
  - exists m, ws'. repeat split; try assumption; apply D1.
  - intros Ec. rewrite Esrc in Ec.
    destruct (metric_canonical _ _ _ Ec S1 D1) as (-> & ->).
    apply Hnc'. auto.
Qed.

(** ** [trim] *)

Lemma trimStart_drop s : trimStart s = drop_while is_space s.
Proof.
  induction s as [|c s IH]; simpl; [reflexivity|].
  destruct (is_space c); [exact IH|reflexivity].
Qed.

Lemma trimStart_split s :
  exists ws, s = ws ++ trimStart s /\ all is_space ws /\
             head_is is_space (trimStart s) = false.
Proof.
  exists (take_while is_space s). rewrite trimStart_drop. split; [|split].
  - symmetry. apply take_drop.
  - apply take_while_all.
  - apply drop_while_head.
Qed.

Lemma trimEnd_split s :
  exists ws, s = trimEnd s ++ ws /\ all is_space ws /\
             head_is is_space (rev (trimEnd s)) = false.
Proof.
  destruct (trimStart_split (rev s)) as (ws & E & Hws & Hh).
  exists (rev ws). unfold trimEnd. split; [|split].
  - rewrite <- rev_app_distr, <- E, rev_involutive. reflexivity.
  - apply Forall_rev. exact Hws.
  - rewrite rev_involutive. exact Hh.
Qed.

Lemma trim_split u :
  exists ws1 ws2, u = ws1 ++ trim u ++ ws2 /\
                  all is_space ws1 /\ all is_space ws2.
Proof.
  destruct (trimStart_split u) as (ws1 & E1 & H1 & _).
  destruct (trimEnd_split (trimStart u)) as (ws2 & E2 & H2 & _).
  exists ws1, ws2. unfold trim. rewrite <- E2. auto.
Qed.

Lemma trim_trimmed u : trimmed (trim u).
Proof.
  destruct (trimStart_split u) as (ws1 & E1 & H1 & Hh).
  destruct (trimEnd_split (trimStart u)) as (ws2 & E2 & H2 & Hr).
  split; [|exact Hr]. unfold trim.
  destruct (trimEnd (trimStart u)) as [|c v]; [reflexivity|].
  rewrite E2 in Hh. exact Hh.
Qed.

Lemma trim_id t : trimmed t -> trim t = t.
Proof.
  intros [Hh Hr]. unfold trim, trimEnd.
  assert (E : forall s, head_is is_space s = false -> trimStart s = s).
  { intros [|c s] H; [reflexivity|]. simpl in *. rewrite H. reflexivity. }
  rewrite (E t Hh), (E (rev t) Hr). apply rev_involutive.
Qed.

Lemma pv_word_spaces ws : all is_space ws -> pv_word (lastc None ws) = false.
Proof.
  intros H. destruct ws as [|c ws]; [reflexivity|].
  apply pv_word_lastc_none; [apply spaces_not_word; exact H|discriminate].
Qed.

Lemma occurs_trim W u : occurs W None (trim u) -> occurs W None u.
Proof.
  intros (pre & X & suf & E & HW & Hp & Hs).
  destruct (trim_split u) as (ws1 & ws2 & Eu & H1 & H2).
  exists (ws1 ++ pre), X, (suf ++ ws2). split; [|split; [exact HW|split]].
  - rewrite Eu at 1. rewrite E. rewrite <- !app_assoc. reflexivity.
  - rewrite lastc_app. destruct pre as [|c pre].
    + simpl. apply pv_word_spaces. exact H1.
    + rewrite (lastc_nonempty _ None) by discriminate. exact Hp.
  - destruct suf as [|c suf]; [|exact Hs]. simpl.
    apply head_word_none. apply spaces_not_word. exact H2.
Qed.

(** ** White space after [collapse_spaces] *)

Lemma ws_normal_pieces : forall L pv,
  pieces_ok nm_sp rule_sp pv L -> ws_normal (dst L).
Proof.
  induction L as [|[c|M B] L IH]; intros pv HO.
  - exact I.
  - destruct HO as [Hnm HO]. simpl. split; [|eapply IH; exact HO].
    intros Hc. unfold nm_sp in Hnm. simpl in Hnm. congruence.
  - destruct HO as [(HM & HMs & Hrest & ->) HO]. simpl.
    split; [|eapply IH; exact HO]. intros _. split; [reflexivity|].
    destruct L as [|[c|M' B'] L]; [reflexivity| |].
    + destruct HO as [Hnm _]. exact Hnm.
    + exfalso. destruct HO as [(HM' & HMs' & _) _].
      simpl in Hrest. destruct M' as [|c M']; [congruence|].
      inversion HMs'; subst. simpl in Hrest. congruence.
Qed.

Lemma ws_normal_collapse s : ws_normal (collapse_spaces s).
Proof.
  destruct (pieces_spaces s) as (L & _ & <- & HO).
  eapply ws_normal_pieces; exact HO.
Qed.

Lemma ws_normal_app_r a b : ws_normal (a ++ b) -> ws_normal b.
Proof. induction a as [|c a IH]; simpl; [auto|]. intros [_ H]. auto. Qed.

Lemma ws_normal_app_l a b : ws_normal (a ++ b) -> ws_normal a.
Proof.
  induction a as [|c a IH]; simpl; [auto|]. intros [H1 H2].
  split; [|auto]. intros Hc. destruct (H1 Hc) as [-> Hh].
  split; [reflexivity|]. destruct a; [reflexivity|exact Hh].
Qed.

Lemma ws_normal_trim u : ws_normal u -> ws_normal (trim u).
Proof.
  intros H. destruct (trim_split u) as (ws1 & ws2 & E & _ & _).
  rewrite E in H. apply ws_normal_app_r in H. apply ws_normal_app_l in H.
  exact H.
Qed.

Lemma collapse_normal t : ws_normal t -> collapse_spaces t = t.
Proof.
  intros HN. unfold collapse_spaces.
  apply replace_all_same; [apply nonempty_sp|].
  intros pre M rest cs E HM Hex. unfold const.
  rewrite spaces_exec in Hex.
  destruct (head_is is_space (M ++ rest)) eqn:Eh; [|discriminate].
  injection Hex as HL _.
  rewrite E in HN. apply ws_normal_app_r in HN.
  destruct M as [|c M]; [congruence|].
  simpl in HN, Eh, HL. rewrite Eh in HL. destruct HN as [HN _].
  destruct (HN Eh) as [-> Hh]. simpl in HL. injection HL as HL.
  destruct (M ++ rest) as [|c' tl] eqn:EM.
  - apply app_eq_nil in EM. destruct EM as [-> _]. reflexivity.
  - simpl in Hh. simpl in HL. rewrite Hh in HL.
    destruct M; [reflexivity|discriminate].
Qed.

(** ** The result of the normalizer is normalized *)

Lemma normalized_free_pv x : free W_pv (normalizeDictation x).
Proof.
  unfold normalizeDictation. cbv zeta. intros H.
  apply occurs_trim in H.
  apply foreign_spaces in H; [|apply window_pv|apply clean_pv; reflexivity].
  apply foreign_metric in H; [|apply window_pv|apply clean_pv; reflexivity].
  apply foreign_dimension in H; [|apply window_pv|apply clean_pv; reflexivity].
  apply foreign_fois in H; [|apply window_pv|apply clean_pv; reflexivity].
  apply foreign_operator in H; [|apply window_pv|apply clean_pv; reflexivity].
  apply foreign_et in H; [|apply window_pv|apply clean_pv; reflexivity].
  apply foreign_comma in H; [|apply window_pv|apply clean_pv; reflexivity].
  exact (free_pv_semicolon _ H).
Qed.

Lemma normalized_free_v x : free W_v (normalizeDictation x).
Proof.
  unfold normalizeDictation. cbv zeta. intros H.
  apply occurs_trim in H.
  apply foreign_spaces in H; [|apply window_v|apply clean_v; reflexivity].
  apply foreign_metric in H; [|apply window_v|apply clean_v; reflexivity].
  apply foreign_dimension in H; [|apply window_v|apply clean_v; reflexivity].
  apply foreign_fois in H; [|apply window_v|apply clean_v; reflexivity].
  apply foreign_operator in H; [|apply window_v|apply clean_v; reflexivity].
  apply foreign_et in H; [|apply window_v|apply clean_v; reflexivity].
  exact (free_v_comma _ H).
Qed.

Lemma normalized_free_et x : free W_et (normalizeDictation x).
Proof.
  unfold normalizeDictation. cbv zeta. intros H.
  apply occurs_trim in H.
  apply et_spaces in H.
  apply foreign_metric in H;
    [|apply window_et|intros X; apply et_avoid; reflexivity].
  apply foreign_dimension in H;
    [|apply window_et|intros X; apply et_avoid; reflexivity].
  apply et_fois in H.
  apply foreign_operator in H;
    [|apply window_et|intros X; apply et_avoid; reflexivity].
  exact (free_et_et _ H).
Qed.

Lemma normalized_free_fois x : free W_fois (normalizeDictation x).
Proof.
  unfold normalizeDictation. cbv zeta. intros H.
  apply occurs_trim in H.
  apply foreign_spaces in H; [|apply window_fois|apply clean_fois; reflexivity].
  apply foreign_metric in H; [|apply window_fois|apply clean_fois; reflexivity].
  apply foreign_dimension in H; [|apply window_fois|apply clean_fois; reflexivity].
  exact (free_fois_fois _ H).
Qed.

Lemma normalized_free_dim x : free W_dim (normalizeDictation x).
Proof.
  unfold normalizeDictation. cbv zeta. intros H.
  apply occurs_trim in H. apply dim_spaces in H. apply dim_metric in H.
  exact (free_dim_dimension _ H).
Qed.

Lemma normalized_free_met x : free W_met (normalizeDictation x).
Proof.
  unfold normalizeDictation. cbv zeta. intros H.
  apply occurs_trim in H. apply met_spaces in H.
  exact (free_met_metric _ H).
Qed.

Lemma normalizeDictation_normalized x : normalized (normalizeDictation x).
Proof.
  split; [|split; [|split; [|split; [|split; [|split; [|split; [|split]]]]]]].
  - apply trim_trimmed.
  - apply ws_normal_trim. apply ws_normal_collapse.
  - apply normalizeDictation_clean.
  - apply normalized_free_pv.
  - apply normalized_free_v.
  - apply normalized_free_et.
  - apply normalized_free_fois.
  - apply normalized_free_dim.
  - apply normalized_free_met.
Qed.

(** ** A normalized text is left as it is *)

Lemma ci_eq_join w1 w2 X1 X2 :
  ci_eq w1 X1 = true -> ci_eq w2 X2 = true -> ci_eq (w1 ++ w2) (X1 ++ X2) = true.
Proof.
  revert X1. induction w1 as [|p w1 IH]; intros [|c X1] H1 H2;
    simpl in *; try discriminate.
  - exact H2.
  - apply andb_true_iff in H1. destruct H1 as [-> H1]. simpl. auto.
Qed.

Lemma semicolon_fixed t : free W_pv t -> free W_v t -> sep_semicolon t = t.
Proof.
  intros F1 F2. unfold sep_semicolon.
  apply replace_all_same; [apply nonempty_pv|].
  intros pre M rest cs E HM Hex. exfalso.
  apply point_virgule_sound in Hex.
  destruct Hex as (X & tl & E' & HL & (P & sep & V & -> & HP & HV & Hsep) & Hp & Ht).
  destruct (app_same_length _ _ _ _ E' HL) as [-> ->].
  destruct Hsep as [->|(c & -> & Hc)].
  - apply F1. exists pre, (P ++ V), tl. repeat split; try assumption.
    apply (ci_eq_join (js "point") (js "virgule")); assumption.
  - apply F2. exists (pre ++ P ++ [c]), V, tl. repeat split; try assumption.
    + rewrite E. rewrite <- !app_assoc. reflexivity.
    + rewrite !lastc_app. simpl. apply sep_not_word. exact Hc.
Qed.

Lemma comma_fixed t : free W_v t -> sep_comma t = t.
Proof.
  intros F. unfold sep_comma.
  apply replace_all_same; [apply nonempty_v|].
  intros pre M rest cs E HM Hex. exfalso.
  apply word_pattern_sound in Hex; [|apply lower_virgule|discriminate].
  destruct Hex as (X & tl & E' & HL & HX & Hp & Ht).
  destruct (app_same_length _ _ _ _ E' HL) as [-> ->].
  apply F. exists pre, X, tl. repeat split; assumption.
Qed.

Lemma et_fixed t : free W_et t -> sep_et t = t.
Proof.
  intros F. unfold sep_et.
  apply replace_all_same; [apply nonempty_et|].
  intros pre M rest cs E HM Hex. exfalso.
  apply et_sound in Hex.
  destruct Hex as (X & tl & E' & HL & HX & Hp & num & tl' & -> & Hnum & Ht).
  destruct (app_same_length _ _ _ _ E' HL) as [-> ->].
  apply F. exists pre, (X ++ num), tl'. split; [|split; [|split]].
  - rewrite E. rewrite <- !app_assoc. reflexivity.
  - exists X, num. auto.
  - exact Hp.
  - exact Ht.
Qed.

Lemma operator_fixed t : Forall not_operator t -> sep_operator t = t.
Proof.
  intros F. unfold sep_operator.
  apply replace_all_same; [apply nonempty_op|].
  intros pre M rest cs E HM Hex. exfalso.
  apply operator_sound in Hex.
  destruct Hex as (X & tl & E' & HL & (ws1 & o & ws2 & -> & _ & Ho & _)).
  destruct (app_same_length _ _ _ _ E' HL) as [-> ->].
  rewrite Forall_forall in F. specialize (F o).
  unfold not_operator in F. rewrite Ho in F.
  assert (true = false); [|discriminate]. apply F.
  rewrite E. apply in_or_app. right. apply in_or_app. left.
  apply in_or_app. right. left. reflexivity.
Qed.

Lemma fois_fixed t : free W_fois t -> mult_fois t = t.
Proof.
  intros F. unfold mult_fois.
  apply replace_all_same; [apply nonempty_fois|].
  intros pre M rest cs E HM Hex. exfalso.
  apply word_pattern_sound in Hex; [|apply lower_fois|discriminate].
  destruct Hex as (X & tl & E' & HL & HX & Hp & Ht).
  destruct (app_same_length _ _ _ _ E' HL) as [-> ->].
  apply F. exists pre, X, tl. repeat split; assumption.
Qed.

Lemma dimension_fixed t : free W_dim t -> glue_dimension t = t.
Proof.
  intros F. unfold glue_dimension.
  apply replace_all_same; [apply nonempty_dim|].
  intros pre M rest cs E HM Hex.
  apply dimension_sound in Hex.
  destruct Hex as (X & tl & d1 & d2 & E' & HL & HX & Hc1 & Hc2 & Hp & Ht).
  destruct (app_same_length _ _ _ _ E' HL) as [-> ->].
  rewrite Hc1, Hc2.
  destruct (list_eq_dec N.eq_dec X (dim_text d1 d2)) as [Ec|Ec].
  - symmetry. exact Ec.
  - exfalso. apply F. exists pre, X, tl. repeat split; try assumption.
    exists d1, d2. auto.
Qed.

Lemma metric_fixed t : free W_met t -> glue_metric t = t.
Proof.
  intros F. unfold glue_metric.
  apply replace_all_same; [apply nonempty_met|].
  intros pre M rest cs E HM Hex.
  apply metric_sound in Hex.
  destruct Hex as (X & tl & d & E' & HL & HX & Hc1 & Hp & Ht).
  destruct (app_same_length _ _ _ _ E' HL) as [-> ->].
  rewrite Hc1.
  destruct (list_eq_dec N.eq_dec X (met_text d)) as [Ec|Ec].
  - symmetry. exact Ec.
  - exfalso. apply F. exists pre, X, tl. repeat split; try assumption.
    exists d. auto.
Qed.

Lemma normalized_fixed t : normalized t -> normalizeDictation t = t.
Proof.
  intros (HT & HN & HO & F1 & F2 & F3 & F4 & F5 & F6).
  unfold normalizeDictation. cbv zeta.
  rewrite (trim_id t HT), (semicolon_fixed t F1 F2), (comma_fixed t F2),
    (et_fixed t F3), (operator_fixed t HO), (fois_fixed t F4),
    (dimension_fixed t F5), (metric_fixed t F6), (collapse_normal t HN).
  apply trim_id. exact HT.
Qed.

(** C4: the normalizer is idempotent: for every input string [x],
    normalizing the result of [normalizeDictation x] once more gives that
    result again.  The result of one pass is normalized (trimmed, single
    spaces, no operator, nothing left that a pattern of the normalizer
    would rewrite into something else), and a normalized text is a fixed
    point of every step. *)
Theorem normalizer_idempotent (x : jsstring) :
  normalizeDictation (normalizeDictation x) = normalizeDictation x.
Proof. apply normalized_fixed. apply normalizeDictation_normalized. Qed.

(* ================================================================== *)
(** * Further properties of the code *)
(* ================================================================== *)

(** ** A replacement where the pattern does not match *)

Lemma replace_scan_nomatch r f : forall s pv,
  (forall pv' pre suf, s = pre ++ suf -> exec_at r pv' suf = None) ->
  replace_scan r f pv 0 s = s.
Proof.
  induction s as [|c tl IH]; intros pv H; simpl.
  - rewrite (H pv [] []); reflexivity.
  - rewrite (H pv [] (c :: tl)) by reflexivity. f_equal. apply IH.
    intros pv' pre suf E. apply (H pv' (c :: pre) suf). rewrite E. reflexivity.
Qed.

Lemma replace_all_nomatch r f t :
  (forall pv pre suf, t = pre ++ suf -> exec_at r pv suf = None) ->
  replace_all r f t = t.
Proof. apply replace_scan_nomatch. Qed.

(** A pattern that needs a unit of the class [q] does not match in a
    text that has none. *)
Lemma replace_all_needs (q : N -> bool) r f t :
  (forall pv s x, exec_at r pv s = Some x -> exists c, In c s /\ q c = true) ->
  Forall (fun c => q c = false) t ->
  replace_all r f t = t.
Proof.
  intros Hneeds Ht. apply replace_all_nomatch. intros pv pre suf E.
  destruct (exec_at r pv suf) as [x|] eqn:Ex; [|reflexivity].
  destruct (Hneeds _ _ _ Ex) as (c & Hin & Hq).
  rewrite Forall_forall in Ht. rewrite (Ht c) in Hq; [discriminate|].
  rewrite E. apply in_or_app. right. exact Hin.
Qed.

(** ** What a literal matches *)

Lemma lit_inv w : forall pv s n cs st',
  sem (lit w) (MState pv s n cs) st' ->
  exists tl, s = w ++ tl /\ st' = MState (lastc pv w) tl (n + length w) cs.
Proof.
  unfold lit. induction w as [|p w IH]; intros pv s n cs st' H.
  - simpl in H. subst. exists s. simpl. rewrite Nat.add_0_r. auto.
  - cbn [map] in H. apply seq_inv in H. destruct H as (mid & H1 & H2).
    apply chr_inv in H1. destruct H1 as (c & tl & -> & Hc & ->).
    apply N.eqb_eq in Hc. subst c.
    apply IH in H2. destruct H2 as (tl' & -> & ->).
    exists tl'. simpl. rewrite Nat.add_succ_r. auto.
Qed.

Lemma word_needs c w pv s x :
  exec_at (word (c :: w)) pv s = Some x -> In c s.
Proof.
  destruct x as [len cs]. intros H.
  apply exec_at_sound in H. destruct H as (st' & H & _).
  unfold word in H.
  apply seq_inv in H. destruct H as (mid & H1 & H).
  apply wordb_inv in H1. destruct H1 as (_ & ->).
  apply seq_inv in H. destruct H as (mid & H1 & H).
  apply lit_inv in H1. destruct H1 as (tl & -> & _).
  left. reflexivity.
Qed.

Lemma digit_x_digit_needs pv s x :
  exec_at re_digit_x_digit pv s = Some x -> In 120%N s.
Proof.
  destruct x as [len cs]. intros H.
  apply exec_at_sound in H. destruct H as (st' & H & _).
  unfold re_digit_x_digit, digit, star, space, chr in H.
  apply seq_inv in H. destruct H as (mid & H1 & H).
  apply group_inv in H1. destruct H1 as (st1 & H1 & ->).
  apply chr_inv in H1. destruct H1 as (d & tl & -> & _ & ->).
  unfold set_cap in H. cbn [prev rest pos caps] in H.
  apply seq_inv in H. destruct H as (mid & H1 & H).
  apply star_class_inv in H1. destruct H1 as (ws & tl1 & -> & _ & ->).
  apply seq_inv in H. destruct H as (mid & H1 & H).
  apply chr_inv in H1. destruct H1 as (c & tl & -> & Hc & ->).
  apply N.eqb_eq in Hc. subst c.
  right. apply in_or_app. right. left. reflexivity.
Qed.

(** ** The result of [normalizeMathSpeech] *)

Lemma expr_unit_dec c : expr_unit c \/ ~ expr_unit c.
Proof. unfold expr_unit. destruct (is_expr_char c); auto. Qed.

Lemma not_expr_char_matches pv c tl :
  ~ expr_unit c ->
  exists n cs, exec_at re_not_expr_char pv (c :: tl) = Some (S n, cs).
Proof.
  intros H. exists 0, []. unfold exec_at, re_not_expr_char. simpl.
  unfold expr_unit in H. destruct (is_expr_char c); [congruence|reflexivity].
Qed.

(** X1: what is handed to the evaluator is made of digits and of the units
    [+ - * / ( ) .] only. *)
Theorem normalizeMathSpeech_alphabet (w : jsstring -> jsstring) text :
  Forall expr_unit (normalizeMathSpeech w text).
Proof.
  unfold normalizeMathSpeech, replace_all.
  apply replace_scan_Forall; [intros; exact (Forall_nil _)|].
  apply replace_scan_removes.
  - intros. exact (Forall_nil _).
  - apply not_expr_char_matches.
  - apply expr_unit_dec.
Qed.

Lemma expr_unit_cases c :
  expr_unit c ->
  is_digit c = true \/
  In c [43; 45; 42; 47; 40; 41; 46]%N.
Proof.
  unfold expr_unit, is_expr_char. intros H.
  apply orb_true_iff in H. destruct H as [H|H]; [left; exact H|right].
  apply existsb_exists in H. destruct H as (x & Hin & E).
  apply N.eqb_eq in E. subst. exact Hin.
Qed.

Lemma expr_unit_lower c : expr_unit c -> is_latin1 c = true /\ lower1 c = c.
Proof.
  intros H. apply expr_unit_cases in H. destruct H as [H|H].
  - unfold is_digit, in_range in H. apply andb_true_iff in H.
    destruct H as [H1 H2]. apply N.leb_le in H1, H2. split.
    + unfold is_latin1. apply N.ltb_lt. lia.
    + unfold lower1, is_ascii_upper, is_latin1_upper, in_range.
      replace (c <=? 90)%N with true by (symmetry; apply N.leb_le; lia).
      replace (65 <=? c)%N with false by (symmetry; apply N.leb_gt; lia).
      replace (192 <=? c)%N with false by (symmetry; apply N.leb_gt; lia).
      reflexivity.
  - simpl in H.
    repeat (destruct H as [<-|H]; [split; reflexivity|]). destruct H.
Qed.

Lemma lower_expr (w : jsstring -> jsstring) t :
  Forall expr_unit t -> toLowerCase w t = t.
Proof.
  intros H. unfold toLowerCase.
  assert (H1 : forallb is_latin1 t = true).
  { apply forallb_forall. rewrite Forall_forall in H. intros c Hc.
    apply expr_unit_lower. auto. }
  rewrite H1. induction H as [|c t Hc _ IH]; simpl; [reflexivity|].
  simpl in H1. apply andb_true_iff in H1. destruct H1 as [_ H1].
  rewrite IH by assumption. f_equal. apply expr_unit_lower. exact Hc.
Qed.

Lemma expr_units_lack (q : N -> bool) t :
  (forall c, q c = true -> is_expr_char c = false) ->
  Forall expr_unit t -> Forall (fun c => q c = false) t.
Proof.
  intros Hq. apply Forall_impl. intros c Hc.
  destruct (q c) eqn:E; [|reflexivity]. apply Hq in E.
  unfold expr_unit in Hc. congruence.
Qed.

Lemma word_fixed c w b t :
  is_expr_char c = false -> Forall expr_unit t ->
  replace_all (word (c :: w)) b t = t.
Proof.
  intros Hc Ht. apply (replace_all_needs (N.eqb c)).
  - intros pv s x H. exists c. split; [|apply N.eqb_refl].
    eapply word_needs; exact H.
  - apply expr_units_lack; [|exact Ht].
    intros x E. apply N.eqb_eq in E. subst. exact Hc.
Qed.

(** A text made of units of expressions is left as it is. *)
Lemma math_fixed (w : jsstring -> jsstring) t :
  Forall expr_unit t -> normalizeMathSpeech w t = t.
Proof.
  intros Ht. unfold normalizeMathSpeech.
  rewrite (lower_expr w t Ht).
  change (js "plus") with (112%N :: js "lus").
  change (js "moins") with (109%N :: js "oins").
  change (js "fois") with (102%N :: js "ois").
  change (js "multiplie") with (109%N :: js "ultiplie").
  change (js "divise") with (100%N :: js "ivise").
  change (js "divisé") with (100%N :: js "ivisé").
  change (js "par") with (112%N :: js "ar").
  rewrite (word_fixed 112 (js "lus") _ t) by (reflexivity || assumption).
  rewrite (word_fixed 109 (js "oins") _ t) by (reflexivity || assumption).
  rewrite (word_fixed 102 (js "ois") _ t) by (reflexivity || assumption).
  rewrite (word_fixed 109 (js "ultiplie") _ t) by (reflexivity || assumption).
  rewrite (word_fixed 100 (js "ivise") _ t) by (reflexivity || assumption).
  rewrite (word_fixed 100 (js "ivisé") _ t) by (reflexivity || assumption).
  rewrite (word_fixed 112 (js "ar") _ t) by (reflexivity || assumption).
  rewrite (replace_all_needs (N.eqb 120) re_digit_x_digit).
  2:{ intros pv s x H. exists 120%N. split; [|reflexivity].
      eapply digit_x_digit_needs; exact H. }
  2:{ apply expr_units_lack; [|exact Ht]. intros x E.
      apply N.eqb_eq in E. subst. reflexivity. }
  rewrite (replace_all_needs (fun c => negb (is_expr_char c)) re_not_expr_char).
  2:{ intros pv s [len cs] H. apply exec_at_sound in H.
      destruct H as (st' & H & _). apply chr_inv in H.
      destruct H as (c & tl & -> & Hc & _). exists c. split; [left; reflexivity|exact Hc]. }
  2:{ apply expr_units_lack; [|exact Ht]. intros x E.
      apply negb_true_iff in E. exact E. }
  apply (replace_all_needs is_space).
  - intros pv s x H. rewrite spaces_exec in H.
    destruct s as [|c tl]; [discriminate|]. simpl in H.
    destruct (is_space c) eqn:E; [|discriminate].
    exists c. split; [left; reflexivity|exact E].
  - apply Forall_impl with (2 := Ht). intros c Hc.
    destruct (expr_unit_lower c Hc) as [_ _].
    apply expr_unit_cases in Hc. destruct Hc as [H|H].
    + apply digit_not_space. exact H.
    + simpl in H. repeat (destruct H as [<-|H]; [reflexivity|]). destruct H.
Qed.

(** X2: [normalizeMathSpeech] is idempotent: the expression field of the
    component, which stores the normalized text, is stable when the same
    text is normalized again. *)
Theorem normalizeMathSpeech_idempotent (w : jsstring -> jsstring) text :
  normalizeMathSpeech w (normalizeMathSpeech w text)
  = normalizeMathSpeech w text.
Proof. apply math_fixed. apply normalizeMathSpeech_alphabet. Qed.

(** ** The leftmost match *)

Lemma search_from_sound r : forall s pv idx m,
  search_from r pv s idx = Some m ->
  exists pre suf len,
    s = pre ++ suf /\ index m = idx + length pre /\
    exec_at r (lastc pv pre) suf = Some (len, groups m) /\
    matched m = firstn len suf /\
    (forall pre1 suf1, s = pre1 ++ suf1 -> length pre1 < length pre ->
                       exec_at r (lastc pv pre1) suf1 = None).
Proof.
  induction s as [|c tl IH]; intros pv idx m H; simpl in H.
  - destruct (exec_at r pv []) as [[len cs]|] eqn:E; [|discriminate].
    injection H as <-. exists [], [], len. simpl.
    repeat split; auto. intros pre1 suf1 _ Hl. lia.
  - destruct (exec_at r pv (c :: tl)) as [[len cs]|] eqn:E.
    + injection H as <-. exists [], (c :: tl), len. simpl.
      repeat split; auto. intros pre1 suf1 _ Hl. lia.
    + apply IH in H. destruct H as (pre & suf & len & -> & Hi & Hex & Hm & Hleft).
      exists (c :: pre), suf, len. simpl. repeat split; auto; [lia|].
      intros pre1 suf1 E1 Hl. destruct pre1 as [|c1 pre1].
      * simpl in E1. subst suf1. exact E.
      * simpl in E1. injection E1 as <- E1. simpl.
        apply Hleft; [exact E1|simpl in Hl; lia].
Qed.

Lemma exec_sound r s m :
  exec r s = Some m ->
  exists pre suf len,
    s = pre ++ suf /\ index m = length pre /\
    exec_at r (lastc None pre) suf = Some (len, groups m) /\
    matched m = firstn len suf /\
    (forall pre1 suf1, s = pre1 ++ suf1 -> length pre1 < length pre ->
                       exec_at r (lastc None pre1) suf1 = None).
Proof. intros H. apply search_from_sound in H. exact H. Qed.

Lemma exec_at_matched r pv s len cs :
  exec_at r pv s = Some (len, cs) -> length (firstn len s) = len.
Proof.
  intros H. apply exec_at_length in H. rewrite length_firstn. lia.
Qed.

(** ** The confirmation words *)

Lemma okRe_length pv s len cs :
  exec_at okRe pv s = Some (len, cs) -> 2 <= len.
Proof.
  intros H. apply exec_at_sound in H. destruct H as (st' & H & <- & _).
  unfold okRe in H.
  apply seq_inv in H. destruct H as (mid & H1 & H).
  apply wordb_inv in H1. destruct H1 as (_ & ->).
  apply seq_inv in H. destruct H as (mid & H1 & H).
  apply group_inv in H1. destruct H1 as (st1 & H1 & ->).
  apply alt_inv in H1. destruct H1 as (r & Hin & H1).
  assert (Hw : exists w, r = lit_i w /\ 2 <= length w).
  { simpl in Hin.
    repeat (destruct Hin as [<-|Hin];
            [eexists; split; [reflexivity|simpl; lia]|]).
    destruct Hin. }
  destruct Hw as (w & -> & Hw).
  apply lit_i_inv in H1. destruct H1 as (a & tl & -> & Ha & ->).
  apply seq_inv in H. destruct H as (mid & H1 & H).
  unfold set_cap in H1. cbn [prev rest pos caps] in H1.
  apply wordb_inv in H1. destruct H1 as (_ & ->).
  apply seq_nil_inv in H. subst st'. simpl.
  assert (length a = length w); [|lia].
  clear -Ha. revert a Ha. induction w as [|p w IH]; intros [|c a] H;
    simpl in *; try discriminate; [reflexivity|].
  apply andb_true_iff in H. destruct H as [_ H]. f_equal. auto.
Qed.

(** ** [trim] and parts of a text *)

Lemma trim_length s : length (trim s) <= length s.
Proof.
  destruct (trim_split s) as (ws1 & ws2 & E & _).
  rewrite E at 2. rewrite !length_app. lia.
Qed.

Lemma part_of_refl s : part_of s s.
Proof. exists [], []. rewrite app_nil_r. reflexivity. Qed.

Lemma part_of_trans a b c : part_of a b -> part_of b c -> part_of a c.
Proof.
  intros (x & y & ->) (x' & y' & ->).
  exists (x' ++ x), (y ++ y'). rewrite <- !app_assoc. reflexivity.
Qed.

Lemma part_of_trim s : part_of (trim s) s.
Proof. destruct (trim_split s) as (ws1 & ws2 & E & _). exists ws1, ws2. exact E. Qed.

Lemma part_of_skipn n s : part_of (skipn n s) s.
Proof.
  exists (firstn n s), []. rewrite app_nil_r. symmetry. apply firstn_skipn.
Qed.

(** ** [handleSegment] and [processBuffer] return *)

Section Buffer.

Variable w : jsstring -> jsstring.
Variable rc : jsstring -> Container + jsstring.
Variable ra : Container -> jsstring -> number -> AddLineAnswer.

Lemma handleSegment_returns env raw :
  exists effs thrown, handleSegment w rc ra env raw = Some (effs, thrown).
Proof.
  unfold handleSegment.
  destruct (negb (truthy (trim raw))); [eauto|].
  destruct (is_container_segment _); [eauto|].
  destruct (is_reference_segment _).
  { destruct (negb (truthy _)); eauto. }
  destruct (negb (truthy (trim (activeItem env)))); [eauto|].
  destruct (evalExprSafe_shape (normalizeMathSpeech w (trim raw))) as (r & -> & _).
  destruct (has_error r); [eauto|].
  destruct (leb (value r) zero); [eauto|].
  destruct (addLine ra env (activeItem env) (value r)). eauto.
Qed.

Lemma drain_returns env : forall fuel buf,
  length buf < fuel ->
  exists effs left,
    drain w rc ra fuel env buf = Some (effs, left) /\
    exec okRe left = None /\ part_of left buf.
Proof.
  induction fuel as [|fuel IH]; intros buf Hfuel; [lia|].
  cbn [drain]. destruct (exec okRe buf) as [m|] eqn:E.
  - destruct (exec_sound _ _ _ E) as (pre & suf & len & Eb & Hi & Hex & Hm & _).
    pose proof (okRe_length _ _ _ _ Hex) as Hlen.
    pose proof (exec_at_matched _ _ _ _ _ Hex) as Hml. rewrite <- Hm in Hml.
    destruct (handleSegment_returns env (trim (slice buf 0 (index m))))
      as (effs & thrown & ->).
    set (buf' := trim (slice_from buf (index m + length (matched m)))).
    assert (Hshort : length buf' < fuel).
    { unfold buf', slice_from.
      pose proof (trim_length (skipn (index m + length (matched m)) buf)) as H1.
      rewrite length_skipn in H1.
      assert (length buf <> 0).
      { rewrite Eb, length_app. apply exec_at_length in Hex. lia. }
      lia. }
    destruct (IH buf' Hshort) as (more & left & -> & Hnone & Hpart).
    eexists _, left. split; [reflexivity|]. split; [exact Hnone|].
    eapply part_of_trans; [exact Hpart|]. unfold buf', slice_from.
    eapply part_of_trans; [apply part_of_trim|apply part_of_skipn].
  - exists [], buf. split; [reflexivity|]. split; [exact E|apply part_of_refl].
Qed.

(** X3: [processBuffer] returns on every buffer, and what it stores back for
    the next fragment is a part of the buffer in which no confirmation
    word is left. *)
Theorem processBuffer_leaves_no_marker env buffer :
  exists effs left,
    processBuffer w rc ra env buffer = Some (effs, left) /\
    exec okRe left = None /\ part_of left buffer.
Proof. apply drain_returns. lia. Qed.

End Buffer.

(** ** Numbers read from digits *)

Section ReadDigits.

Local Open Scope Z_scope.

Lemma shr_1_nonneg mrs : 0 <= shr_m mrs -> 0 <= shr_m (shr_1 mrs).
Proof.
  destruct mrs as [m r s]. simpl. intros H.
  destruct m as [|p|p]; [simpl; lia| |lia].
  destruct p; simpl; lia.
Qed.

Lemma shr_fexp_nonneg m e l :
  0 <= m -> 0 <= shr_m (fst (shr_fexp prec emax m e l)).
Proof.
  intros H. unfold shr_fexp, shr.
  assert (H0 : 0 <= shr_m (shr_record_of_loc m l)).
  { destruct l as [|[| |]]; exact H. }
  destruct (fexp prec emax (Zdigits2 m + e) - e) as [|p|p]; simpl; try exact H0.
  rewrite iter_pos_iter. apply Pos.iter_invariant; [|exact H0].
  intros x Hx. apply shr_1_nonneg. exact Hx.
Qed.

Lemma round_nearest_even_nonneg m l : 0 <= m -> 0 <= round_nearest_even m l.
Proof.
  intros H. unfold round_nearest_even.
  destruct l as [|[| |]]; try lia. destruct (Z.even m); lia.
Qed.

Lemma binary_round_aux_not_nan sx mx ex lx :
  0 <= mx -> binary_round_aux prec emax sx mx ex lx <> S754_nan.
Proof.
  intros H. unfold binary_round_aux.
  pose proof (shr_fexp_nonneg mx ex lx H) as H1.
  destruct (shr_fexp prec emax mx ex lx) as [mrs' e']. simpl in H1.
  pose proof (shr_fexp_nonneg _ e' loc_Exact
                (round_nearest_even_nonneg _ (loc_of_shr_record mrs') H1)) as H2.
  destruct (shr_fexp prec emax _ e' loc_Exact) as [mrs'' e'']. simpl in H2.
  destruct (shr_m mrs'') as [|p|p]; [discriminate| |lia].
  destruct (e'' <=? emax - prec); discriminate.
Qed.

Lemma of_Z_not_nan z : of_Z z <> NaN.
Proof.
  unfold of_Z, binary_normalize, NaN.
  destruct z as [|p|p]; [discriminate| |];
    unfold binary_round;
    destruct (shl_align _ _ _) as [mz ez];
    apply binary_round_aux_not_nan; lia.
Qed.

End ReadDigits.

Lemma not_le_gt q : q <> NaN -> leb q zero = false -> gtb q zero = true.
Proof.
  unfold leb, gtb, zero, NaN, SFleb, SFltb.
  destruct q as [s|s| |s m e]; simpl; intros Hn H;
    try (destruct s; simpl in *; congruence); congruence.
Qed.

Lemma digit_cases c :
  is_digit c = true ->
  In c [48; 49; 50; 51; 52; 53; 54; 55; 56; 57]%N.
Proof.
  unfold is_digit, in_range. intros H. apply andb_true_iff in H.
  destruct H as [H1 H2]. apply N.leb_le in H1, H2. simpl.
  assert (c = 48 \/ c = 49 \/ c = 50 \/ c = 51 \/ c = 52 \/ c = 53 \/ c = 54
          \/ c = 55 \/ c = 56 \/ c = 57)%N by lia.
  intuition.
Qed.

Lemma take_digits_all ds : all is_digit ds -> take_digits ds = ds.
Proof.
  induction 1 as [|c ds Hc _ IH]; simpl; [reflexivity|].
  rewrite Hc, IH. reflexivity.
Qed.

(** [parseInt] on a run of digits. *)
Lemma parseInt_digits ds :
  digits ds -> parseInt ds = of_Z (digits_to_Z ds).
Proof.
  intros [Hn Hd]. destruct ds as [|c ds]; [congruence|].
  inversion Hd as [|? ? Hc Hds]; subst.
  unfold parseInt. cbn [trimStart]. rewrite (digit_not_space c Hc).
  assert (E : take_digits (c :: ds) = c :: ds) by (apply take_digits_all; exact Hd).
  apply digit_cases in Hc. simpl in Hc.
  repeat (destruct Hc as [<-|Hc]; [rewrite E; reflexivity|]). destruct Hc.
Qed.

Lemma parseInt_digits_not_nan ds : digits ds -> parseInt ds <> NaN.
Proof. intros H. rewrite (parseInt_digits ds H). apply of_Z_not_nan. Qed.

(** ** A token made of digits *)

Lemma lastc_None pre : lastc None pre = None -> pre = [].
Proof.
  destruct pre as [|c pre]; [reflexivity|]. intros H.
  destruct (lastc_some None (c :: pre)) as (x & E & _); [discriminate|].
  congruence.
Qed.

Lemma all_digits_token tok : test re_all_digits tok = true -> digits tok.
Proof.
  unfold test. destruct (exec re_all_digits tok) as [m|] eqn:E; [|discriminate].
  intros _. destruct (exec_sound _ _ _ E) as (pre & suf & len & -> & _ & Hex & _).
  apply exec_at_sound in Hex. destruct Hex as (st' & H & _).
  unfold re_all_digits, digit in H.
  apply seq_inv in H. destruct H as (mid & H1 & H).
  destruct H1 as (Hp & ->). simpl in Hp. apply lastc_None in Hp. subst pre.
  apply seq_inv in H. destruct H as (mid & H1 & H).
  apply plus_class_inv in H1. destruct H1 as (a & tl & -> & Ha & Hn & ->).
  apply seq_inv in H. destruct H as (mid & H1 & H).
  destruct H1 as (Ht & _). simpl in Ht. subst tl.
  simpl. rewrite app_nil_r. split; assumption.
Qed.

(** ** What the strategies return *)

Lemma trimmed_trim_nonempty s : s <> [] -> trimmed s -> trim s <> [].
Proof. intros Hn Ht. rewrite (trim_id s Ht). exact Hn. Qed.

Lemma truthy_nonempty s : truthy s = true -> s <> [].
Proof. destruct s; [discriminate|discriminate]. Qed.

Lemma accept_valid q l r :
  accept q (trim l) = Some r -> valid_line (fst r) (snd r).
Proof.
  unfold accept. destruct (gtb q zero) eqn:G; [|discriminate].
  destruct (truthy (trim l)) eqn:T; [|discriminate].
  simpl. intros H. injection H as <-. simpl.
  split; [exact G|]. split; [apply truthy_nonempty; exact T|apply trim_trimmed].
Qed.

Section Results.

Variable w : jsstring -> jsstring.

Lemma strategy1_valid s r : strategy1 s = Some r -> valid_line (fst r) (snd r).
Proof.
  unfold strategy1. destruct (exec re_lead_digits s); [|discriminate].
  apply accept_valid.
Qed.

Lemma strategy3_valid s r : strategy3 s = Some r -> valid_line (fst r) (snd r).
Proof.
  unfold strategy3. destruct (exec re_trail_mult s); [|discriminate].
  apply accept_valid.
Qed.

Lemma strategy4_valid s r : strategy4 s = Some r -> valid_line (fst r) (snd r).
Proof.
  unfold strategy4. destruct (exec re_trail_digits s); [|discriminate].
  apply accept_valid.
Qed.

Lemma leading_rest_trimmed s :
  trimmed s -> trimmed (snd (parseLeadingNumberWord w s)).
Proof.
  intros Hs. unfold parseLeadingNumberWord.
  rewrite (trim_id s Hs).
  destruct (exec re_lead_word s) as [m|]; [|exact Hs].
  destruct (lookup FR_NUM _); [apply trim_trimmed|exact Hs].
Qed.

Lemma strategy2_valid s r :
  trimmed s -> strategy2 w s = Some r -> valid_line (fst r) (snd r).
Proof.
  intros Hs. unfold strategy2.
  pose proof (leading_rest_trimmed s Hs) as Ht.
  destruct (parseLeadingNumberWord w s) as [[qty|] rest]; [|discriminate].
  simpl in Ht.
  destruct (gtb qty zero) eqn:G; [|discriminate].
  destruct (truthy rest) eqn:T; [|discriminate].
  simpl. intros H. injection H as <-. simpl.
  rewrite (trim_id rest Ht).
  split; [exact G|]. split; [apply truthy_nonempty; exact T|exact Ht].
Qed.

Lemma fallback_valid : forall n from_i before r,
  length from_i <= n ->
  fallback w before from_i = Some r -> valid_line (fst r) (snd r).
Proof.
  induction n as [|n IH]; intros from_i before r Hn H.
  - destruct from_i; [discriminate|simpl in Hn; lia].
  - destruct from_i as [|tok after]; [discriminate|].
    simpl in Hn. cbn [fallback] in H.
    destruct (test re_all_digits tok) eqn:Ed.
    2:{ eapply IH; [|exact H]. lia. }
    destruct (existsb _ unit_words).
    { eapply IH; [|exact H]. lia. }
    destruct (leb (parseInt tok) zero) eqn:El.
    { eapply IH; [|exact H]. lia. }
    destruct (truthy (trim (join (js " ") (before ++ after)))) eqn:Et.
    + injection H as <-. simpl. split; [|split].
      * apply not_le_gt; [|exact El].
        apply parseInt_digits_not_nan. apply all_digits_token. exact Ed.
      * apply truthy_nonempty. exact Et.
      * apply trim_trimmed.
    + destruct after as [|moved after']; [discriminate|].
      eapply IH; [|exact H]. simpl in Hn. lia.
Qed.

Lemma strategy5_valid s r : strategy5 w s = Some r -> valid_line (fst r) (snd r).
Proof.
  unfold strategy5. apply (fallback_valid (length (split re_spaces s))). lia.
Qed.

(** X4: whatever the segment, a line that [extractQuantityAndLabel] returns
    has a quantity greater than 0 and a label that is not empty and has
    no white space at its ends. *)
Theorem extract_result_valid seg q l :
  extractQuantityAndLabel w seg = Some (q, l) -> valid_line q l.
Proof.
  unfold extractQuantityAndLabel.
  destruct (negb (truthy (trim seg))); [discriminate|].
  pose proof (trim_trimmed seg) as Ht.
  destruct (strategy1 (trim seg)) as [r1|] eqn:E1.
  { intros H. injection H as ->. exact (strategy1_valid _ _ E1). }
  destruct (strategy2 w (trim seg)) as [r2|] eqn:E2.
  { intros H. injection H as ->. exact (strategy2_valid _ _ Ht E2). }
  destruct (strategy3 (trim seg)) as [r3|] eqn:E3.
  { intros H. injection H as ->. exact (strategy3_valid _ _ E3). }
  destruct (strategy4 (trim seg)) as [r4|] eqn:E4.
  { intros H. injection H as ->. exact (strategy4_valid _ _ E4). }
  intros H. exact (strategy5_valid _ _ H).
Qed.

(** ** The lines of [parseDictation] *)

Lemma collapse_head c tl :
  is_space c = false ->
  collapse_spaces (c :: tl) = c :: replace_scan (plus space) (Normalizer.const (js " ")) (Some c) 0 tl.
Proof.
  intros Hc. unfold collapse_spaces, replace_all. cbn [replace_scan].
  rewrite spaces_exec. simpl. rewrite Hc. reflexivity.
Qed.

Lemma trim_head_nonempty c tl : is_space c = false -> trim (c :: tl) <> [].
Proof.
  intros Hc E. destruct (trim_split (c :: tl)) as (ws1 & ws2 & Es & H1 & H2).
  rewrite E in Es. simpl in Es.
  assert (Hin : In c (ws1 ++ ws2)) by (rewrite <- Es; left; reflexivity).
  apply in_app_or in Hin. unfold all in H1, H2. rewrite Forall_forall in H1, H2.
  destruct Hin as [Hin|Hin]; [apply H1 in Hin|apply H2 in Hin]; congruence.
Qed.

Lemma display_label_valid l :
  l <> [] -> trimmed l ->
  let d := trim (collapse_spaces l) in
  d <> [] /\ trimmed d /\ ws_normal d.
Proof.
  intros Hn [Hh _]. cbv zeta. split; [|split].
  - destruct l as [|c tl]; [congruence|]. simpl in Hh.
    rewrite (collapse_head c tl Hh). apply trim_head_nonempty. exact Hh.
  - apply trim_trimmed.
  - apply ws_normal_trim. apply ws_normal_collapse.
Qed.

(** X5: every line that [parseDictation] returns has a quantity greater than
    0 and a label that is not empty, has no white space at its ends and
    only single spaces inside. *)
Theorem parseDictation_lines_valid text :
  Forall (fun line => valid_line (snd line) (fst line) /\ ws_normal (fst line))
         (parseDictation w text).
Proof.
  unfold parseDictation.
  generalize (filter truthy (map trim (split re_separators (normalizeDictation text)))).
  intros segs. induction segs as [|seg segs IH]; simpl; [constructor|].
  apply Forall_app. split; [|exact IH].
  destruct (extractQuantityAndLabel w seg) as [[q l]|] eqn:E; [|constructor].
  constructor; [|constructor]. simpl.
  destruct (extract_result_valid seg q l E) as (Hq & Hl & Ht).
  destruct (display_label_valid l Hl Ht) as (H1 & H2 & H3).
  split; [split; [exact Hq|split; [exact H1|exact H2]]|exact H3].
Qed.

End Results.

Lemma extract_result_valid_witness :
  extractQuantityAndLabel wide_unchanged (js "10 vis M6x20")
    = Some (of_Z 10, js "vis M6x20") /\
  valid_line (of_Z 10) (js "vis M6x20").
Proof.
  split; [vm_compute; reflexivity|].
  apply (extract_result_valid wide_unchanged (js "10 vis M6x20")).
  vm_compute. reflexivity.
Defined.

(** ** The map of containers *)

Lemma store_get_set st k c k' :
  store_get (store_set st k c) k'
  = if str_eqb k k' then Some c else store_get st k'.
Proof.
  induction st as [|[k0 c0] st IH]; simpl.
  - reflexivity.
  - destruct (str_eqb k0 k) eqn:E0; simpl.
    + apply str_eqb_eq in E0. subst k0.
      destruct (str_eqb k k'); reflexivity.
    + rewrite IH. destruct (str_eqb k0 k') eqn:E1; [|reflexivity].
      apply str_eqb_eq in E1. subst k0.
      destruct (str_eqb k k') eqn:E2; [|reflexivity].
      apply str_eqb_eq in E2. subst k'. rewrite str_eqb_refl in E0. discriminate.
Qed.

Lemma store_set_same st k c :
  store_get st k = Some c -> store_set st k c = st.
Proof.
  induction st as [|[k0 c0] st IH]; simpl; [discriminate|].
  destruct (str_eqb k0 k) eqn:E.
  - intros H. injection H as ->. reflexivity.
  - intros H. rewrite IH by exact H. reflexivity.
Qed.

Lemma store_set_set st k c c' :
  store_set (store_set st k c) k c' = store_set st k c'.
Proof.
  induction st as [|[k0 c0] st IH]; simpl.
  - rewrite str_eqb_refl. reflexivity.
  - destruct (str_eqb k0 k) eqn:E; simpl; rewrite E; [reflexivity|].
    rewrite IH. reflexivity.
Qed.

(** ** Lines changed in place *)

Lemma update_first_ids lid f ls :
  (forall l, line_id (f l) = line_id l) ->
  map line_id (update_first lid f ls) = map line_id ls.
Proof.
  intros Hf. induction ls as [|l ls IH]; simpl; [reflexivity|].
  destruct (str_eqb (line_id l) lid); simpl; [rewrite Hf|rewrite IH]; reflexivity.
Qed.

Lemma update_first_Forall (P : ContainerLine -> Prop) lid f ls :
  (forall l, P l -> P (f l)) -> Forall P ls -> Forall P (update_first lid f ls).
Proof.
  intros Hf. induction 1 as [|l ls Hl Hls IH]; simpl; [constructor|].
  destruct (str_eqb (line_id l) lid); constructor; auto.
Qed.

Lemma find_update_first lid f ls l :
  (forall x, line_id (f x) = line_id x) ->
  find_line lid ls = Some l ->
  find_line lid (update_first lid f ls) = Some (f l).
Proof.
  intros Hf. unfold find_line.
  induction ls as [|x ls IH]; simpl; [discriminate|].
  destruct (str_eqb (line_id x) lid) eqn:E; simpl.
  - intros H. injection H as ->. rewrite Hf, E. reflexivity.
  - rewrite E. exact IH.
Qed.

Section Routes.

Variable w : jsstring -> jsstring.
Variable cmp : jsstring -> jsstring -> Z.

(** ** What the routes keep true of the map *)

Lemma good_quantity q :
  bad_quantity q = false -> isFinite q = true /\ gtb q zero = true.
Proof.
  unfold bad_quantity. intros H. apply orb_false_iff in H.
  destruct H as [H1 H2]. apply negb_false_iff in H1. split; [exact H1|].
  rewrite (finite_le_gt q H1) in H2. apply negb_false_iff in H2. exact H2.
Qed.

Lemma store_ok_set st id c :
  store_ok st -> container_ok id c -> store_ok (store_set st id c).
Proof.
  intros Hst Hc id' c'. rewrite store_get_set.
  destruct (str_eqb id id') eqn:E.
  - apply str_eqb_eq in E. subst id'. intros H. injection H as <-. exact Hc.
  - apply Hst.
Qed.

Lemma handle_keeps_ok uid st rq :
  store_ok st -> store_ok (fst (handle w cmp uid st rq)).
Proof.
  intros Hst. destruct rq as [|text|lbl|id|id item qty|id lid item qty|id]; simpl.
  - exact Hst.
  - destruct (negb (truthy (trim (string_or_empty text)))); exact Hst.
  - destruct (truthy (trim (string_or_empty lbl))) eqn:T; simpl; [|exact Hst].
    apply store_ok_set; [exact Hst|].
    split; [reflexivity|]. split; [apply truthy_nonempty; exact T|].
    split; [apply trim_trimmed|constructor].
  - destruct (store_get st id); exact Hst.
  - destruct (store_get st id) as [c|] eqn:G; [|exact Hst].
    destruct (truthy (trim (string_or_empty item))) eqn:T; simpl; [|exact Hst].
    destruct (bad_quantity (number_or_nan qty)) eqn:B; simpl; [exact Hst|].
    destruct (Hst id c G) as (H1 & H2 & H3 & H4).
    apply store_ok_set; [exact Hst|].
    split; [exact H1|]. split; [exact H2|]. split; [exact H3|].
    simpl. apply Forall_app. split; [exact H4|]. constructor; [|constructor].
    destruct (good_quantity _ B) as [F G'].
    split; [apply truthy_nonempty; exact T|]. split; [apply trim_trimmed|].
    split; assumption.
  - destruct (store_get st id) as [c|] eqn:G; [|exact Hst].
    destruct (find_line lid (lines c)); [|exact Hst].
    destruct (Hst id c G) as (H1 & H2 & H3 & H4).
    assert (Hc1 : forall c1,
      match item with
      | None => Some c
      | Some v0 =>
        if negb (truthy (trim v0)) then None
        else Some (with_lines c (update_first lid (set_itemLabel (trim v0))
                                              (lines c)))
      end = Some c1 -> container_ok id c1).
    { intros c1. destruct item as [v0|].
      - destruct (truthy (trim v0)) eqn:T; simpl; [|discriminate].
        intros H. injection H as <-.
        split; [exact H1|]. split; [exact H2|]. split; [exact H3|].
        simpl. apply update_first_Forall; [|exact H4].
        intros l (_ & _ & F & G'). split; [apply truthy_nonempty; exact T|].
        split; [apply trim_trimmed|]. split; assumption.
      - intros H. injection H as <-. exact (conj H1 (conj H2 (conj H3 H4))). }
    destruct (match item with None => _ | Some _ => _ end) as [c1|];
      [|exact Hst].
    specialize (Hc1 c1 eq_refl). destruct Hc1 as (K1 & K2 & K3 & K4).
    destruct qty as [q|]; simpl.
    + destruct (bad_quantity q) eqn:B; simpl.
      * apply store_ok_set; [exact Hst|]. exact (conj K1 (conj K2 (conj K3 K4))).
      * apply store_ok_set; [exact Hst|].
        split; [exact K1|]. split; [exact K2|]. split; [exact K3|].
        simpl. apply update_first_Forall; [|exact K4].
        intros l (L1 & L2 & _ & _). destruct (good_quantity _ B) as [F G'].
        exact (conj L1 (conj L2 (conj F G'))).
    + apply store_ok_set; [exact Hst|]. exact (conj K1 (conj K2 (conj K3 K4))).
  - destruct (store_get st id); exact Hst.
Qed.

(** X6: whatever the requests served since the backend started, every
    stored container has a label, and every stored line has a label that
    is not empty and a finite quantity greater than 0. *)
Theorem served_store_ok rqs : store_ok (serve w cmp [] rqs).
Proof.
  unfold serve.
  assert (H : store_ok []) by (intros id c H; discriminate).
  revert H. generalize (@nil (jsstring * Container)).
  induction rqs as [|[uid rq] rqs IH]; intros st Hst; simpl; [exact Hst|].
  apply IH. apply handle_keeps_ok. exact Hst.
Qed.

(** ** Adding a line *)

(** X7: [POST /containers/:id/lines] answers 200 exactly when the container
    exists, the trimmed label is not empty and the quantity is finite and
    greater than 0; the container then has one more line, the last one,
    with that label and quantity; otherwise the map is left as it is. *)
Theorem post_line_gating uid st id item qty :
  let r := handle w cmp uid st (PostLines id item qty) in
  let l := trim (string_or_empty item) in
  let q := number_or_nan qty in
  (code (snd r) = 200 <->
   exists c, store_get st id = Some c /\ l <> [] /\
             isFinite q = true /\ gtb q zero = true) /\
  (forall c, store_get st id = Some c -> code (snd r) = 200 ->
     let c' := with_lines c (lines c ++ [mkLine uid l q]) in
     body (snd r) = BodyContainer c' /\
     store_get (fst r) id = Some c') /\
  (code (snd r) <> 200 -> fst r = st).
Proof.
  cbv zeta. simpl.
  destruct (store_get st id) as [c|] eqn:G.
  2:{ simpl. split; [|split].
      - split; [discriminate|]. intros (c & H & _). discriminate.
      - intros c H. discriminate.
      - reflexivity. }
  destruct (truthy (trim (string_or_empty item))) eqn:T; simpl.
  2:{ split; [|split].
      - split; [discriminate|]. intros (c0 & _ & H & _).
        destruct (trim (string_or_empty item)); [congruence|discriminate].
      - intros c0 _ H. discriminate.
      - reflexivity. }
  destruct (bad_quantity (number_or_nan qty)) eqn:B; simpl.
  - split; [|split].
    + split; [discriminate|]. intros (c0 & _ & _ & F & G').
      unfold bad_quantity in B. rewrite F in B. simpl in B.
      rewrite (finite_le_gt _ F), G' in B. discriminate.
    + intros c0 _ H. discriminate.
    + reflexivity.
  - destruct (good_quantity _ B) as [F G']. split; [|split].
    + split; [|reflexivity]. intros _. exists c.
      split; [reflexivity|]. split; [apply truthy_nonempty; exact T|].
      split; assumption.
    + intros c0 H _. injection H as <-. split; [reflexivity|].
      rewrite store_get_set, str_eqb_refl. reflexivity.
    + intros H. congruence.
Qed.

(** ** A rejected change *)

(** X8: a request that is answered with an error leaves the map as it is,
    unless it is a [PUT] that carries a label and a quantity. *)
Theorem rejected_leaves_store uid st rq :
  changes_both rq = false ->
  400 <= code (snd (handle w cmp uid st rq)) ->
  fst (handle w cmp uid st rq) = st.
Proof.
  intros Hb. destruct rq as [|text|lbl|id|id item qty|id lid item qty|id]; simpl.
  - reflexivity.
  - destruct (negb _); reflexivity.
  - destruct (negb _); simpl; [reflexivity|lia].
  - destruct (store_get st id); reflexivity.
  - destruct (store_get st id); [|reflexivity].
    destruct (negb _); [reflexivity|].
    destruct (bad_quantity _); simpl; [reflexivity|lia].
  - destruct (store_get st id) as [c|] eqn:G; [|reflexivity].
    destruct (find_line lid (lines c)); [|reflexivity].
    destruct item as [v0|], qty as [q|]; simpl in Hb; try discriminate.
    + destruct (negb (truthy (trim v0))); simpl; [reflexivity|lia].
    + destruct (bad_quantity q); simpl; [|lia].
      intros _. apply store_set_same. exact G.
    + simpl. lia.
  - destruct (store_get st id); reflexivity.
Qed.

(** X9: a [PUT] with a label that is not blank and a quantity that is not a
    finite number greater than 0 is answered 400, and yet the label of
    the line has been replaced: the quantity is checked after the label
    is assigned. *)
Theorem put_line_half_applied uid st id lid c l v q :
  store_get st id = Some c ->
  find_line lid (lines c) = Some l ->
  trim v <> [] ->
  bad_quantity q = true ->
  let r := handle w cmp uid st (PutLine id lid (Some v) (Some q)) in
  code (snd r) = 400 /\
  exists c',
    store_get (fst r) id = Some c' /\
    find_line lid (lines c') = Some (mkLine (line_id l) (trim v) (quantity l)) /\
    map line_id (lines c') = map line_id (lines c).
Proof.
  intros G F T B. cbv zeta. simpl. rewrite G, F.
  destruct (truthy (trim v)) eqn:E; simpl.
  2:{ destruct (trim v); [congruence|discriminate]. }
  rewrite B. simpl. split; [reflexivity|].
  eexists. rewrite store_get_set, str_eqb_refl. split; [reflexivity|].
  simpl. split.
  - apply (find_update_first lid (set_itemLabel (trim v))); [reflexivity|exact F].
  - apply update_first_ids. reflexivity.
Qed.

(** ** Creating a container and reading it back *)

(** X10: [POST /containers] with a label that is not blank answers 201 with a
    container without lines; [GET /containers/:id] with the identifier of
    that container then answers it, and the other identifiers answer what
    they answered before. *)
Theorem create_then_get uid uid' st lbl :
  trim lbl <> [] ->
  let c := mkContainer uid (trim lbl) [] in
  let r := handle w cmp uid st (PostContainers (Some lbl)) in
  snd r = mkResponse 201 (BodyContainer c) /\
  handle w cmp uid' (fst r) (GetContainerById uid)
    = (fst r, mkResponse 200 (BodyContainer c)) /\
  (forall id, id <> uid ->
     handle w cmp uid' (fst r) (GetContainerById id)
     = (fst r, snd (handle w cmp uid' st (GetContainerById id)))).
Proof.
  intros T. cbv zeta. simpl.
  destruct (truthy (trim lbl)) eqn:E; simpl.
  2:{ destruct (trim lbl); [congruence|discriminate]. }
  split; [reflexivity|]. split.
  - rewrite store_get_set, str_eqb_refl. reflexivity.
  - intros id Hid. rewrite store_get_set.
    rewrite str_eqb_neq by congruence.
    destruct (store_get st id); reflexivity.
Qed.

End Routes.

Lemma rejected_leaves_store_witness :
  400 <= code (snd (handle wide_unchanged compare_units (js "u1") []
                           (PostContainers (Some (js "  "))))) /\
  fst (handle wide_unchanged compare_units (js "u1") []
              (PostContainers (Some (js "  ")))) = [].
Proof.
  split; [vm_compute; lia|].
  apply (rejected_leaves_store wide_unchanged compare_units);
    [reflexivity|vm_compute; lia].
Defined.

Lemma put_line_half_applied_witness :
  let st := [(js "c1", mkContainer (js "c1") (js "Bac")
                                   [mkLine (js "l1") (js "vis") (of_Z 3)])] in
  let r := handle wide_unchanged compare_units (js "u2") st
                  (PutLine (js "c1") (js "l1") (Some (js " ecrou "))
                           (Some zero)) in
  trim (js " ecrou ") <> [] /\
  bad_quantity zero = true /\
  code (snd r) = 400 /\
  store_get (fst r) (js "c1")
  = Some (mkContainer (js "c1") (js "Bac")
                      [mkLine (js "l1") (js "ecrou") (of_Z 3)]).
Proof.
  intros st r.
  assert (T : trim (js " ecrou ") <> []) by (vm_compute; discriminate).
  split; [exact T|]. split; [reflexivity|].
  destruct (put_line_half_applied wide_unchanged compare_units (js "u2") st
              (js "c1") (js "l1") _ _ (js " ecrou ") zero
              eq_refl eq_refl T eq_refl) as [Hc _].
  split; [exact Hc|reflexivity].
Defined.

Lemma create_then_get_witness :
  let r := handle wide_unchanged compare_units (js "u1") []
                  (PostContainers (Some (js " Bac "))) in
  trim (js " Bac ") <> [] /\
  handle wide_unchanged compare_units (js "u2") (fst r)
         (GetContainerById (js "u1"))
  = (fst r, mkResponse 200 (BodyContainer (mkContainer (js "u1") (js "Bac") []))).
Proof.
  intros r.
  assert (T : trim (js " Bac ") <> []) by (vm_compute; discriminate).
  split; [exact T|].
  exact (proj1 (proj2 (create_then_get wide_unchanged compare_units
                         (js "u1") (js "u2") [] (js " Bac ") T))).
Defined.

(** ** [updateLine] *)

Lemma apply_patch_id p l : line_id (apply_patch p l) = line_id l.
Proof.
  unfold apply_patch. destruct (patch_itemLabel p), (patch_quantity p); reflexivity.
Qed.

Lemma apply_patch_twice p l : apply_patch p (apply_patch p l) = apply_patch p l.
Proof.
  unfold apply_patch. destruct (patch_itemLabel p), (patch_quantity p);
    destruct l; reflexivity.
Qed.

Lemma update_first_twice lid f ls :
  (forall l, line_id (f l) = line_id l) ->
  (forall l, f (f l) = f l) ->
  update_first lid f (update_first lid f ls) = update_first lid f ls.
Proof.
  intros Hid Hf. induction ls as [|l ls IH]; simpl; [reflexivity|].
  destruct (str_eqb (line_id l) lid) eqn:E; simpl.
  - rewrite Hid, E, Hf. reflexivity.
  - rewrite E, IH. reflexivity.
Qed.

(** X11: [updateLine] returns [undefined] exactly when the container or the
    line is missing, and then leaves the map as it is; in no case does it
    add, remove or renumber a line of any container. *)
Theorem updateLine_keeps_lines st cid lid p :
  let r := StoreApi.updateLine st cid lid p in
  (snd r = None <->
   store_get st cid = None \/
   exists c, store_get st cid = Some c /\ find_line lid (lines c) = None) /\
  (snd r = None -> fst r = st) /\
  (forall id, line_ids (fst r) id = line_ids st id).
Proof.
  cbv zeta. unfold StoreApi.updateLine.
  destruct (store_get st cid) as [c|] eqn:G.
  2:{ simpl. split; [|split]; auto. split; auto. }
  destruct (find_line lid (lines c)) as [l|] eqn:F; simpl.
  - split; [|split].
    + split; [discriminate|]. intros [H|(c0 & H & F')]; [discriminate|].
      injection H as <-. congruence.
    + discriminate.
    + intros id. unfold line_ids. rewrite store_get_set.
      destruct (str_eqb cid id) eqn:E; [|reflexivity].
      apply str_eqb_eq in E. subst id. rewrite G. simpl. f_equal.
      apply update_first_ids. apply apply_patch_id.
  - split; [|split]; auto. split; [|reflexivity].
    intros _. right. exists c. auto.
Qed.

(** X12: applying the same patch a second time changes nothing more. *)
Theorem updateLine_idempotent st cid lid p :
  let r := StoreApi.updateLine st cid lid p in
  StoreApi.updateLine (fst r) cid lid p = r.
Proof.
  cbv zeta. unfold StoreApi.updateLine.
  destruct (store_get st cid) as [c|] eqn:G; simpl; [|rewrite G; reflexivity].
  destruct (find_line lid (lines c)) as [l|] eqn:F; simpl.
  - rewrite store_get_set, str_eqb_refl. simpl.
    rewrite (find_update_first lid (apply_patch p) (lines c) l (apply_patch_id p) F).
    rewrite update_first_twice by (apply apply_patch_id || apply apply_patch_twice).
    rewrite store_set_set. reflexivity.
  - rewrite G, F. reflexivity.
Qed.

(** ** Adding a line to the store and reading it back *)

(** X13: [addLine] of the store appends the line as it is given, whatever the
    label and the quantity (it checks neither), to the container stored
    under the identifier, which [getContainer] then returns; without
    such a container it returns [undefined] and leaves the map as it is;
    the other containers are never touched. *)
Theorem addLine_then_getContainer nanoid st cid item qty :
  let r := StoreApi.addLine nanoid st cid item qty in
  (forall c, StoreApi.getContainer st cid = Some c ->
     let c' := with_lines c (lines c ++ [mkLine nanoid item qty]) in
     snd r = Some c' /\ StoreApi.getContainer (fst r) cid = Some c') /\
  (StoreApi.getContainer st cid = None -> r = (st, None)) /\
  (forall id, id <> cid ->
     StoreApi.getContainer (fst r) id = StoreApi.getContainer st id).
Proof.
  cbv zeta. unfold StoreApi.addLine, StoreApi.getContainer.
  destruct (store_get st cid) as [c|] eqn:G; simpl.
  - split; [|split].
    + intros c0 H. injection H as <-. split; [reflexivity|].
      rewrite store_get_set, str_eqb_refl. reflexivity.
    + discriminate.
    + intros id Hid. rewrite store_get_set.
      rewrite str_eqb_neq by congruence. reflexivity.
  - split; [|split]; [discriminate|reflexivity|reflexivity].
Qed.

(** ** A quantifier over a class, at one position *)

Lemma plus_class_exec p pv s :
  exec_at (plus (Chr p)) pv s
  = if head_is p s
    then Some (length (take_while p s), [])
    else None.
Proof.
  unfold exec_at, plus. rewrite rmatch_seq.
  destruct s as [|c tl]; [reflexivity|].
  rewrite rmatch_chr_cons. simpl head_is. cbn [take_while].
  destruct (p c); [|reflexivity].
  rewrite rmatch_star_final. reflexivity.
Qed.

(** The first run of units of a class. *)
Lemma search_first_run p : forall a pv idx ds b,
  none p a -> all p ds -> ds <> [] -> head_is p b = false ->
  search_from (plus (Chr p)) pv (a ++ ds ++ b) idx
  = Some (MatchResult (idx + length a) ds []).
Proof.
  induction a as [|c a IH]; intros pv idx ds b Ha Hd Hn Hb.
  - simpl app. destruct ds as [|d ds]; [congruence|].
    inversion Hd as [|? ? Hpd Hds]; subst.
    assert (E : exec_at (plus (Chr p)) pv ((d :: ds) ++ b)
                = Some (length (d :: ds), [])).
    { rewrite plus_class_exec. simpl head_is. rewrite Hpd.
      rewrite take_while_app by assumption. reflexivity. }
    simpl app in *. cbn [search_from]. rewrite E.
    rewrite Nat.add_0_r. f_equal. f_equal.
    change (d :: ds ++ b) with ((d :: ds) ++ b). apply firstn_app_exact.
  - inversion Ha as [|? ? Hc Ha']; subst.
    simpl app. cbn [search_from]. rewrite plus_class_exec. simpl head_is.
    rewrite Hc. rewrite (IH (Some c) (S idx) ds b Ha' Hd Hn Hb).
    simpl. f_equal. f_equal. lia.
Qed.

Lemma search_no_run p : forall a pv idx,
  none p a -> search_from (plus (Chr p)) pv a idx = None.
Proof.
  induction a as [|c a IH]; intros pv idx Ha.
  - reflexivity.
  - inversion Ha as [|? ? Hc Ha']; subst.
    cbn [search_from]. rewrite plus_class_exec. simpl head_is. rewrite Hc.
    apply IH. exact Ha'.
Qed.

(** ** [indexOf] and [slice] *)

Lemma startsWith_app t b : startsWith (t ++ b) t = true.
Proof.
  induction t as [|c t IH]; simpl; [destruct b; reflexivity|].
  unfold cu_eqb. rewrite N.eqb_refl. exact IH.
Qed.

Lemma indexOf_first_run p : forall a i d ds b,
  none p a -> p d = true ->
  indexOf_from (a ++ (d :: ds) ++ b) (d :: ds) i = (i + Z.of_nat (length a))%Z.
Proof.
  induction a as [|c a IH]; intros i d ds b Ha Hd.
  - simpl app. unfold indexOf_from.
    change (d :: ds ++ b) with ((d :: ds) ++ b).
    destruct ((d :: ds) ++ b) eqn:E; [discriminate|].
    rewrite <- E. rewrite startsWith_app. simpl. lia.
  - inversion Ha as [|? ? Hc Ha']; subst.
    simpl app. cbn [indexOf_from startsWith].
    assert (cu_eqb d c = false).
    { unfold cu_eqb. apply N.eqb_neq. intros ->. congruence. }
    rewrite H. cbn [andb].
    change (a ++ d :: ds ++ b) with (a ++ (d :: ds) ++ b).
    rewrite IH by assumption.
    cbn [length]. rewrite Nat2Z.inj_succ. lia.
Qed.

Lemma slice_before a rest :
  slice_between (a ++ rest) 0 (Z.of_nat (length a)) = a.
Proof.
  unfold slice_between, slice_index. simpl.
  destruct (Z.of_nat (length a) <? 0)%Z eqn:E; [apply Z.ltb_lt in E; lia|].
  rewrite Nat2Z.id, length_app.
  replace (Nat.min (length a) (length a + length rest)) with (length a) by lia.
  rewrite Nat.sub_0_r. apply firstn_app_exact.
Qed.

Lemma slice_behind a ds b :
  slice_after (a ++ ds ++ b) (Z.of_nat (length a) + Z.of_nat (length ds)) = b.
Proof.
  unfold slice_after, slice_index.
  destruct (_ <? 0)%Z eqn:E; [apply Z.ltb_lt in E; lia|].
  rewrite <- Nat2Z.inj_add, Nat2Z.id, !length_app.
  replace (Nat.min (length a + length ds) (length a + (length ds + length b)))
    with (length (a ++ ds)) by (rewrite length_app; lia).
  rewrite app_assoc. rewrite skipn_app, Nat.sub_diag, skipn_all. reflexivity.
Qed.

(** ** One segment *)

(** X14: a segment without a digit gives no line.  Otherwise the quantity is
    read from the first run of digits [ds] of the segment, and the label
    is what is left of the segment once that run is taken out, trimmed;
    there is a line unless the quantity is not finite or the label is
    empty.  The quantity may be 0. *)
Theorem parse_segment_first_run :
  (forall seg, none is_digit seg -> parse_segment seg = None) /\
  (forall a ds b,
     none is_digit a -> digits ds -> head_is is_digit b = false ->
     parse_segment (a ++ ds ++ b)
     = if isFinite (of_Z (digits_to_Z ds)) && truthy (trim (a ++ b))
       then Some (trim (a ++ b), of_Z (digits_to_Z ds))
       else None).
Proof.
  split.
  - intros seg H. unfold parse_segment, exec, digit.
    rewrite search_no_run by exact H. reflexivity.
  - intros a ds b Ha [Hn Hd] Hb. unfold parse_segment, exec, digit.
    rewrite (search_first_run is_digit a None 0 ds b Ha Hd Hn Hb).
    cbn [matched]. rewrite (parseInt_digits ds (conj Hn Hd)).
    destruct (isFinite (of_Z (digits_to_Z ds))); simpl; [|reflexivity].
    destruct ds as [|d ds]; [congruence|].
    inversion Hd as [|? ? Hpd _]; subst.
    unfold indexOf.
    rewrite (indexOf_first_run is_digit a 0 d ds b Ha Hpd).
    rewrite Z.add_0_l, slice_before, slice_behind.
    destruct (truthy (trim (a ++ b))); reflexivity.
Qed.

(** ** The lines of [parseDictationText] *)

Section Sign.

Local Open Scope Z_scope.

Lemma binary_round_aux_sign sx mx ex lx :
  0 <= mx ->
  match binary_round_aux prec emax sx mx ex lx with
  | S754_zero s | S754_infinity s | S754_finite s _ _ => s = sx
  | S754_nan => False
  end.
Proof.
  intros H. unfold binary_round_aux.
  pose proof (shr_fexp_nonneg mx ex lx H) as H1.
  destruct (shr_fexp prec emax mx ex lx) as [mrs' e']. simpl in H1.
  pose proof (shr_fexp_nonneg _ e' loc_Exact
                (round_nearest_even_nonneg _ (loc_of_shr_record mrs') H1)) as H2.
  destruct (shr_fexp prec emax _ e' loc_Exact) as [mrs'' e'']. simpl in H2.
  destruct (shr_m mrs'') as [|p|p]; [reflexivity| |lia].
  destruct (e'' <=? emax - prec); reflexivity.
Qed.

Lemma of_Z_nonneg z : 0 <= z -> leb zero (of_Z z) = true.
Proof.
  intros Hz. unfold of_Z, binary_normalize.
  destruct z as [|p|p]; [reflexivity| |lia].
  unfold binary_round. destruct (shl_align _ _ _) as [mz ez].
  pose proof (binary_round_aux_sign false (Zpos mz) ez loc_Exact ltac:(lia)) as H.
  destruct (binary_round_aux prec emax false (Z.pos mz) ez loc_Exact);
    try subst; try contradiction; reflexivity.
Qed.

Lemma digits_to_Z_nonneg ds : all is_digit ds -> 0 <= digits_to_Z ds.
Proof.
  unfold digits_to_Z. intros H.
  assert (G : forall acc, 0 <= acc ->
            0 <= fold_left (fun acc c => acc * 10 + digit_val c) ds acc).
  { induction H as [|c ds Hc _ IH]; intros acc Hacc; simpl; [exact Hacc|].
    apply IH. unfold digit_val, is_digit, in_range in *.
    apply andb_true_iff in Hc. destruct Hc as [H1 _]. apply N.leb_le in H1. lia. }
  apply G. lia.
Qed.

End Sign.

Lemma first_run_split seg :
  none is_digit seg \/
  exists a ds b, seg = a ++ ds ++ b /\ none is_digit a /\ digits ds /\
                 head_is is_digit b = false.
Proof.
  induction seg as [|c seg IH].
  - left. constructor.
  - destruct (is_digit c) eqn:E.
    + right. exists [], (take_while is_digit (c :: seg)),
                    (drop_while is_digit (c :: seg)).
      split; [symmetry; exact (take_drop is_digit (c :: seg))|].
      split; [constructor|]. split; [|apply drop_while_head].
      split; [simpl; rewrite E; discriminate|apply take_while_all].
    + destruct IH as [IH|(a & ds & b & -> & Ha & Hd & Hb)].
      * left. constructor; assumption.
      * right. exists (c :: a), ds, b. split; [reflexivity|].
        split; [constructor; assumption|]. split; assumption.
Qed.

Lemma parse_segment_valid seg l q :
  parse_segment seg = Some (l, q) ->
  l <> [] /\ trimmed l /\ isFinite q = true /\ leb zero q = true.
Proof.
  destruct (first_run_split seg) as [H|(a & ds & b & -> & Ha & Hd & Hb)].
  - rewrite (proj1 parse_segment_first_run seg H). discriminate.
  - rewrite (proj2 parse_segment_first_run a ds b Ha Hd Hb).
    destruct (isFinite (of_Z (digits_to_Z ds))) eqn:F; [|discriminate].
    destruct (truthy (trim (a ++ b))) eqn:T; [|discriminate].
    simpl. intros H. injection H as <- <-.
    split; [apply truthy_nonempty; exact T|]. split; [apply trim_trimmed|].
    split; [exact F|]. apply of_Z_nonneg. apply digits_to_Z_nonneg. apply Hd.
Qed.

(** X15: every line that [parseDictationText] returns has a label that is not
    empty and has no white space at its ends, and a finite quantity that
    is not negative; a blank text gives no line. *)
Theorem parseDictationText_lines text :
  Forall (fun line => fst line <> [] /\ trimmed (fst line) /\
                      isFinite (snd line) = true /\
                      leb zero (snd line) = true)
         (parseDictationText text) /\
  (trim text = [] -> parseDictationText text = []).
Proof.
  unfold parseDictationText. split.
  - destruct (negb (truthy (trim text))); [constructor|].
    generalize (filter truthy (map trim (split re_separator (trim text)))).
    intros segs. induction segs as [|seg segs IH]; simpl; [constructor|].
    apply Forall_app. split; [|exact IH].
    destruct (parse_segment seg) as [[l q]|] eqn:E; [|constructor].
    constructor; [|constructor]. simpl. eapply parse_segment_valid. exact E.
  - intros ->. reflexivity.
Qed.

(** ** The sub-total of the active reference *)

Section LocalTotalsFacts.

Variable w : jsstring -> jsstring.

Lemma fold_add_local ls : forall m,
  fold_left (add_local w) (map int_line ls) m
  = fold_left add_line (map int_line (map (keyed w) ls)) m.
Proof.
  induction ls as [|l ls IH]; intros m; simpl; [reflexivity|].
  rewrite IH. reflexivity.
Qed.

Lemma keyed_quantities ls :
  Forall (fun l => (0 < snd l)%Z) ls ->
  Forall (fun l => (0 < snd l)%Z) (map (keyed w) ls).
Proof. induction 1; simpl; constructor; assumption. Qed.

Lemma keyed_total ls : int_total (map (keyed w) ls) = int_total ls.
Proof. induction ls as [|l ls IH]; simpl; [reflexivity|]. rewrite IH. reflexivity. Qed.

Lemma label_sum_absent k ls : has_label k ls = false -> label_sum k ls = 0%Z.
Proof.
  induction ls as [|x ls IH]; simpl; [reflexivity|].
  intros H. apply orb_false_iff in H. destruct H as [-> H]. auto.
Qed.

(** X16: with quantities that are positive integers whose sum is below 2^53,
    the sub-total shown for the active reference is exactly the sum of
    the quantities of the lines whose label is the reference up to case
    and to white space at the ends; it is 0 when the reference is blank. *)
Theorem currentSubtotal_sum cid clabel ls active :
  Forall (fun l => (0 < snd l)%Z) ls ->
  (int_total ls < 2 ^ 53)%Z ->
  currentSubtotal w active (Some (mkContainer cid clabel (map int_line ls)))
  = if truthy (trim active)
    then of_Z (label_sum (normKey w active) (map (keyed w) ls))
    else zero.
Proof.
  intros Hpos Hsum. unfold currentSubtotal.
  destruct (truthy (trim active)); simpl; [|reflexivity].
  unfold totalsMap. cbn [lines]. rewrite fold_add_local.
  change (fold_left add_line (map int_line (map (keyed w) ls)) [])
    with (totals (map int_line (map (keyed w) ls))).
  rewrite totals_int;
    [|apply keyed_quantities; exact Hpos|rewrite keyed_total; exact Hsum].
  destruct (has_label (normKey w active) (map (keyed w) ls)) eqn:E;
    [reflexivity|].
  rewrite (label_sum_absent _ _ E). reflexivity.
Qed.

End LocalTotalsFacts.

Lemma currentSubtotal_sum_witness :
  currentSubtotal wide_unchanged (js " VIS m6 ")
    (Some (mkContainer (js "c1") (js "Contenant 001")
             (map int_line [(js "l1", js "vis M6", 10%Z);
                            (js "l2", js "Vis m6 ", 5%Z);
                            (js "l3", js "ecrou", 2%Z)])))
  = of_Z 15.
Proof.
  rewrite (currentSubtotal_sum wide_unchanged);
    [vm_compute; reflexivity|repeat constructor|vm_compute; reflexivity].
Defined.

(** ** The bounded stack changes a result into the overflow only *)

Section StackFacts.

Variable overflow : jsstring.

Lemma within_or_overflow f :
  (forall d s, factor_in overflow f d s = factor f s \/
               factor_in overflow f d s = Throw overflow) /\
  (forall d s, term_in overflow f d s = term f s \/
               term_in overflow f d s = Throw overflow) /\
  (forall d v s, term_loop_in overflow f d v s = term_loop f v s \/
                 term_loop_in overflow f d v s = Throw overflow) /\
  (forall d s, expr_in overflow f d s = expr_ f s \/
               expr_in overflow f d s = Throw overflow) /\
  (forall d v s, expr_loop_in overflow f d v s = expr_loop f v s \/
                 expr_loop_in overflow f d v s = Throw overflow).
Proof.
  induction f as [|f (IHf & IHt & IHtl & IHe & IHel)].
  - repeat split; intros; left; reflexivity.
  - repeat split.
    + intros d s. cbn [factor_in factor].
      destruct d as [|[|d]]; [right; reflexivity|right; reflexivity|].
      cbn [leaf].
      destruct (peek_is (skip s) 43); [apply IHf|].
      destruct (peek_is (skip s) 45).
      { destruct (IHf (S d) (consume (skip s))) as [-> | ->];
          [left|right]; reflexivity. }
      destruct (peek_is (skip s) 40).
      { destruct (IHe (S d) (consume (skip s))) as [-> | ->];
          [left|right]; reflexivity. }
      unfold number_in. destruct d; [right|left]; reflexivity.
    + intros d s. cbn [term_in term].
      destruct d as [|d]; [right; reflexivity|].
      destruct (IHf d s) as [-> | ->]; [|right; reflexivity].
      destruct (factor f s); try (left; reflexivity). apply IHtl.
    + intros d v s. cbn [term_loop_in term_loop].
      destruct d as [|d]; [right; reflexivity|]. cbn [leaf].
      destruct (peek_is (skip s) 42).
      { destruct (IHf (S d) (consume (skip s))) as [-> | ->];
          [|right; reflexivity].
        destruct (factor f (consume (skip s))); try (left; reflexivity).
        apply IHtl. }
      destruct (peek_is (skip s) 47); [|left; reflexivity].
      destruct (IHf (S d) (consume (skip s))) as [-> | ->];
        [|right; reflexivity].
      destruct (factor f (consume (skip s))); try (left; reflexivity).
      apply IHtl.
    + intros d s. cbn [expr_in expr_].
      destruct d as [|d]; [right; reflexivity|].
      destruct (IHt d s) as [-> | ->]; [|right; reflexivity].
      destruct (term f s); try (left; reflexivity). apply IHel.
    + intros d v s. cbn [expr_loop_in expr_loop].
      destruct d as [|d]; [right; reflexivity|]. cbn [leaf].
      destruct (peek_is (skip s) 43).
      { destruct (IHt (S d) (consume (skip s))) as [-> | ->];
          [|right; reflexivity].
        destruct (term f (consume (skip s))); try (left; reflexivity).
        apply IHel. }
      destruct (peek_is (skip s) 45); [|left; reflexivity].
      destruct (IHt (S d) (consume (skip s))) as [-> | ->];
        [|right; reflexivity].
      destruct (term f (consume (skip s))); try (left; reflexivity).
      apply IHel.
Qed.

Lemma fuel_enough_in d s :
  expr_in overflow (3 * length s + 3) d s <> OutOfFuel.
Proof.
  destruct (within_or_overflow (3 * length s + 3)) as (_ & _ & _ & He & _).
  destruct (He d s) as [-> | ->]; [|discriminate].
  exact (proj1 (proj2 (proj2 (proj2 (fuel_enough (3 * length s + 3))))) s
               (Nat.le_refl _)).
Qed.

(** ** More fuel does not change a result *)

Lemma fuel_more_in f :
  (forall d s g, f <= g -> factor_in overflow f d s <> OutOfFuel ->
                 factor_in overflow g d s = factor_in overflow f d s) /\
  (forall d s g, f <= g -> term_in overflow f d s <> OutOfFuel ->
                 term_in overflow g d s = term_in overflow f d s) /\
  (forall d v s g, f <= g -> term_loop_in overflow f d v s <> OutOfFuel ->
                   term_loop_in overflow g d v s
                   = term_loop_in overflow f d v s) /\
  (forall d s g, f <= g -> expr_in overflow f d s <> OutOfFuel ->
                 expr_in overflow g d s = expr_in overflow f d s) /\
  (forall d v s g, f <= g -> expr_loop_in overflow f d v s <> OutOfFuel ->
                   expr_loop_in overflow g d v s
                   = expr_loop_in overflow f d v s).
Proof.
  induction f as [|f (IHf & IHt & IHtl & IHe & IHel)].
  - repeat split; intros; simpl in *; congruence.
  - repeat split.
    + intros d s g Hg H. destruct g as [|g]; [lia|].
      cbn [factor_in] in *. assert (Hfg : f <= g) by lia.
      destruct d as [|[|d]]; [reflexivity|reflexivity|]. cbn [leaf] in *.
      destruct (peek_is (skip s) 43); [apply IHf; assumption|].
      destruct (peek_is (skip s) 45).
      { destruct (factor_in overflow f (S d) (consume (skip s))) eqn:E;
          try congruence;
          rewrite (IHf _ _ g Hfg) by congruence; rewrite E; reflexivity. }
      destruct (peek_is (skip s) 40); [|reflexivity].
      destruct (expr_in overflow f (S d) (consume (skip s))) eqn:E;
        try congruence;
        rewrite (IHe _ _ g Hfg) by congruence; rewrite E; reflexivity.
    + intros d s g Hg H. destruct g as [|g]; [lia|].
      cbn [term_in] in *. assert (Hfg : f <= g) by lia.
      destruct d as [|d]; [reflexivity|].
      destruct (factor_in overflow f d s) eqn:E; try congruence;
        rewrite (IHf _ _ g Hfg) by congruence; rewrite E; [|reflexivity].
      apply IHtl; assumption.
    + intros d v s g Hg H. destruct g as [|g]; [lia|].
      cbn [term_loop_in] in *. assert (Hfg : f <= g) by lia.
      destruct d as [|d]; [reflexivity|]. cbn [leaf] in *.
      destruct (peek_is (skip s) 42).
      { destruct (factor_in overflow f (S d) (consume (skip s))) eqn:E;
          try congruence;
          rewrite (IHf _ _ g Hfg) by congruence; rewrite E; [|reflexivity].
        apply IHtl; assumption. }
      destruct (peek_is (skip s) 47); [|reflexivity].
      destruct (factor_in overflow f (S d) (consume (skip s))) eqn:E;
        try congruence;
        rewrite (IHf _ _ g Hfg) by congruence; rewrite E; [|reflexivity].
      apply IHtl; assumption.
    + intros d s g Hg H. destruct g as [|g]; [lia|].
      cbn [expr_in] in *. assert (Hfg : f <= g) by lia.
      destruct d as [|d]; [reflexivity|].
      destruct (term_in overflow f d s) eqn:E; try congruence;
        rewrite (IHt _ _ g Hfg) by congruence; rewrite E; [|reflexivity].
      apply IHel; assumption.
    + intros d v s g Hg H. destruct g as [|g]; [lia|].
      cbn [expr_loop_in] in *. assert (Hfg : f <= g) by lia.
      destruct d as [|d]; [reflexivity|]. cbn [leaf] in *.
      destruct (peek_is (skip s) 43).
      { destruct (term_in overflow f (S d) (consume (skip s))) eqn:E;
          try congruence;
          rewrite (IHt _ _ g Hfg) by congruence; rewrite E; [|reflexivity].
        apply IHel; assumption. }
      destruct (peek_is (skip s) 45); [|reflexivity].
      destruct (term_in overflow f (S d) (consume (skip s))) eqn:E;
        try congruence;
        rewrite (IHt _ _ g Hfg) by congruence; rewrite E; [|reflexivity].
      apply IHel; assumption.
Qed.

(** What returns with enough fuel returns with the fuel of
    [evalExprSafe]. *)
Lemma returns_expr_in d s v r :
  returns (fun m => expr_in overflow m d s) v r ->
  expr_in overflow (3 * length s + 3) d s = Ret v r.
Proof.
  intros (n & Hn).
  pose proof (fuel_enough_in d s) as Hf.
  destruct (fuel_more_in (3 * length s + 3)) as (_ & _ & _ & He & _).
  rewrite <- (He d s (Nat.max n (3 * length s + 3))) by (lia || assumption).
  apply Hn. lia.
Qed.

End StackFacts.

(** ** The parsing functions on the text of a tree *)

Lemma skip_head c s : N.eqb c 32 = false -> skip (c :: s) = c :: s.
Proof. intros H. simpl. rewrite H. reflexivity. Qed.

Lemma returns_step (run run' : nat -> outcome) v r :
  (forall m, run (S m) = run' m) -> returns run' v r -> returns run v r.
Proof.
  intros Hs (n & Hn). exists (S n). intros m Hm.
  destruct m as [|m]; [lia|]. rewrite Hs. apply Hn. lia.
Qed.

Lemma digit_not_blank c : is_digit c = true -> N.eqb c 32 = false.
Proof.
  intros H. apply digit_not_space in H. unfold is_space in H.
  repeat (apply orb_false_iff in H; destruct H as [H ?]).
  assumption.
Qed.

Lemma number_digits ds r :
  digits ds -> no_digit r ->
  number_ (ds ++ r) = Ret (Number_of_digits ds) r.
Proof.
  intros [Hn Hd] Hr. unfold number_.
  assert (Hs : skip (ds ++ r) = ds ++ r).
  { destruct ds as [|d ds]; [congruence|]. inversion Hd; subst.
    apply skip_head. apply digit_not_blank. assumption. }
  rewrite Hs.
  assert (Ht : take_digits (ds ++ r) = ds).
  { clear Hs Hn. induction Hd as [|d ds Hpd _ IH]; simpl.
    - destruct r as [|c r]; [reflexivity|]. simpl in *.
      unfold no_digit in Hr. simpl in Hr. rewrite Hr. reflexivity.
    - rewrite Hpd, IH. reflexivity. }
  rewrite Ht. destruct ds as [|d ds]; [congruence|].
  rewrite skipn_app, Nat.sub_diag, skipn_all. reflexivity.
Qed.

Lemma need_least :
  (forall f, 3 <= need_f f) /\ (forall t, 4 <= need_t t) /\
  (forall e, 5 <= need_e e).
Proof. apply grammar_ind; simpl; intros; lia. Qed.

Lemma ends_term_no_digit r : ends_term r -> no_digit r.
Proof.
  unfold ends_term, no_digit. destruct r as [|c r]; [reflexivity|]. simpl.
  intros H. repeat (apply orb_false_iff in H; destruct H as [H ?]). assumption.
Qed.

Section Parsed.

Variable overflow : jsstring.

Lemma factor_in_digits m d ds r :
  digits ds -> no_digit r -> 3 <= d ->
  factor_in overflow (S m) d (ds ++ r) = Ret (Number_of_digits ds) r.
Proof.
  intros Hd Hr H3. pose proof (number_digits ds r Hd Hr) as Hnum.
  destruct d as [|[|[|d]]]; try lia.
  destruct Hd as [Hn Hd]. destruct ds as [|c ds]; [congruence|].
  inversion Hd as [|? ? Hpd _]; subst.
  assert (Hs : skip ((c :: ds) ++ r) = (c :: ds) ++ r).
  { apply skip_head. apply digit_not_blank. assumption. }
  cbn [factor_in leaf number_in]. rewrite Hs. simpl app. cbn [peek_is].
  apply digit_cases in Hpd. simpl in Hpd.
  repeat (destruct Hpd as [<-|Hpd];
          [cbn [N.eqb Pos.eqb]; simpl app in Hnum; exact Hnum|]).
  destruct Hpd.
Qed.

Lemma term_loop_in_ends m d v r :
  ends_term r -> term_loop_in overflow (S m) (S d) v r = Ret v r.
Proof.
  unfold ends_term. intros H. destruct r as [|c r]; [reflexivity|].
  simpl in H. repeat (apply orb_false_iff in H; destruct H as [H ?]).
  cbn [term_loop_in leaf]. rewrite skip_head by assumption. cbn [peek_is].
  replace (c =? 42)%N with false by (symmetry; assumption).
  replace (c =? 47)%N with false by (symmetry; assumption).
  reflexivity.
Qed.

Lemma grammar_parsed_in :
  (forall f, wf_f f -> forall r d, no_digit r -> need_f f <= d ->
     returns (fun m => factor_in overflow m d (text_f f ++ r)) (value_f f) r) /\
  (forall t, wf_t t -> forall r d v r', no_digit r -> need_t t <= S d ->
     returns (fun m => term_loop_in overflow m d (value_t t) r) v r' ->
     returns (fun m => term_in overflow m (S d) (text_t t ++ r)) v r') /\
  (forall e, wf_e e -> forall r d v r', ends_term r -> need_e e <= S d ->
     returns (fun m => expr_loop_in overflow m d (value_e e) r) v r' ->
     returns (fun m => expr_in overflow m (S d) (text_e e ++ r)) v r').
Proof.
  destruct need_least as (Nf & Nt & Ne).
  apply grammar_ind.
  - (* number *)
    intros ds Hd r d Hr Hn. exists 1. intros m Hm.
    destruct m as [|m]; [lia|]. apply factor_in_digits; assumption.
  - (* + factor *)
    intros f IH Hw r d Hr Hn. cbn [need_f wf_f] in *. pose proof (Nf f).
    destruct d as [|[|d]]; try lia.
    destruct (IH Hw r (S d) Hr) as (n & Hk); [lia|].
    exists (S n). intros m Hm. destruct m as [|m]; [lia|].
    cbn [text_f app factor_in leaf skip N.eqb Pos.eqb peek_is consume tl].
    apply Hk. lia.
  - (* - factor *)
    intros f IH Hw r d Hr Hn. cbn [need_f wf_f] in *. pose proof (Nf f).
    destruct d as [|[|d]]; try lia.
    destruct (IH Hw r (S d) Hr) as (n & Hk); [lia|].
    exists (S n). intros m Hm. destruct m as [|m]; [lia|].
    cbn [text_f app factor_in leaf skip N.eqb Pos.eqb peek_is consume tl].
    rewrite Hk by lia. reflexivity.
  - (* ( expression ) *)
    intros e IH Hw r d Hr Hn. cbn [need_f wf_f] in *. pose proof (Ne e).
    destruct d as [|[|d]]; try lia.
    destruct (IH Hw (41%N :: r) d (value_e e) (41%N :: r)) as (n & Hk).
    { reflexivity. }
    { lia. }
    { exists 1. intros m Hm. destruct m as [|m]; [lia|].
      destruct d as [|d]; [lia|]. reflexivity. }
    exists (S n). intros m Hm. destruct m as [|m]; [lia|].
    replace (text_f (GParen e) ++ r) with (40%N :: text_e e ++ 41%N :: r)
      by (simpl; rewrite <- app_assoc; reflexivity).
    cbn [factor_in leaf skip N.eqb Pos.eqb peek_is consume tl].
    rewrite Hk by lia. reflexivity.
  - (* factor as a term *)
    intros f IH Hw r d v r' Hr Hn (n2 & H2). cbn [need_t wf_t] in *.
    destruct (IH Hw r d Hr) as (n1 & H1); [lia|].
    exists (S (Nat.max n1 n2)). intros m Hm. destruct m as [|m]; [lia|].
    cbn [term_in text_t]. rewrite H1 by lia. apply H2. lia.
  - (* term * factor *)
    intros t IHt f IHf [Hwt Hwf] r d v r' Hr Hn (n2 & H2).
    cbn [need_t] in Hn. pose proof (Nf f).
    replace (text_t (GMul t f) ++ r) with (text_t t ++ 42%N :: text_f f ++ r)
      by (simpl; rewrite <- app_assoc; reflexivity).
    apply (IHt Hwt); [reflexivity|lia|].
    destruct (IHf Hwf r d Hr) as (n1 & H1); [lia|].
    exists (S (Nat.max n1 n2)). intros m Hm. destruct m as [|m]; [lia|].
    destruct d as [|d]; [lia|].
    cbn [term_loop_in leaf skip N.eqb Pos.eqb peek_is consume tl].
    rewrite H1 by lia. apply H2. lia.
  - (* term / factor *)
    intros t IHt f IHf [Hwt Hwf] r d v r' Hr Hn (n2 & H2).
    cbn [need_t] in Hn. pose proof (Nf f).
    replace (text_t (GDiv t f) ++ r) with (text_t t ++ 47%N :: text_f f ++ r)
      by (simpl; rewrite <- app_assoc; reflexivity).
    apply (IHt Hwt); [reflexivity|lia|].
    destruct (IHf Hwf r d Hr) as (n1 & H1); [lia|].
    exists (S (Nat.max n1 n2)). intros m Hm. destruct m as [|m]; [lia|].
    destruct d as [|d]; [lia|].
    cbn [term_loop_in leaf skip N.eqb Pos.eqb peek_is consume tl].
    rewrite H1 by lia. apply H2. lia.
  - (* term as an expression *)
    intros t IH Hw r d v r' Hr Hn (n2 & H2). cbn [need_e wf_e] in *.
    pose proof (Nt t).
    destruct d as [|d]; [lia|].
    destruct (IH Hw r d (value_t t) r (ends_term_no_digit r Hr)) as (n1 & H1).
    { lia. }
    { exists 1. intros m Hm. destruct m as [|m]; [lia|].
      destruct d as [|d]; [lia|]. apply term_loop_in_ends. exact Hr. }
    exists (S (Nat.max n1 n2)). intros m Hm. destruct m as [|m]; [lia|].
    cbn [expr_in text_e]. rewrite H1 by lia. apply H2. lia.
  - (* expression + term *)
    intros e IHe t IHt [Hwe Hwt] r d v r' Hr Hn (n2 & H2).
    cbn [need_e] in Hn. pose proof (Nt t).
    replace (text_e (GAdd e t) ++ r) with (text_e e ++ 43%N :: text_t t ++ r)
      by (simpl; rewrite <- app_assoc; reflexivity).
    apply (IHe Hwe); [reflexivity|lia|].
    destruct d as [|d]; [lia|].
    destruct (IHt Hwt r d (value_t t) r (ends_term_no_digit r Hr)) as (n1 & H1).
    { lia. }
    { exists 1. intros m Hm. destruct m as [|m]; [lia|].
      destruct d as [|d]; [lia|]. apply term_loop_in_ends. exact Hr. }
    exists (S (Nat.max n1 n2)). intros m Hm. destruct m as [|m]; [lia|].
    cbn [expr_loop_in leaf skip N.eqb Pos.eqb peek_is consume tl].
    rewrite H1 by lia. apply H2. lia.
  - (* expression - term *)
    intros e IHe t IHt [Hwe Hwt] r d v r' Hr Hn (n2 & H2).
    cbn [need_e] in Hn. pose proof (Nt t).
    replace (text_e (GSub e t) ++ r) with (text_e e ++ 45%N :: text_t t ++ r)
      by (simpl; rewrite <- app_assoc; reflexivity).
    apply (IHe Hwe); [reflexivity|lia|].
    destruct d as [|d]; [lia|].
    destruct (IHt Hwt r d (value_t t) r (ends_term_no_digit r Hr)) as (n1 & H1).
    { lia. }
    { exists 1. intros m Hm. destruct m as [|m]; [lia|].
      destruct d as [|d]; [lia|]. apply term_loop_in_ends. exact Hr. }
    exists (S (Nat.max n1 n2)). intros m Hm. destruct m as [|m]; [lia|].
    cbn [expr_loop_in leaf skip N.eqb Pos.eqb peek_is consume tl].
    rewrite H1 by lia. apply H2. lia.
Qed.

End Parsed.

(** ** The text of a tree *)

Lemma expr_unit_not_space c : expr_unit c -> is_space c = false.
Proof.
  intros H. apply expr_unit_cases in H. destruct H as [H|H].
  - apply digit_not_space. exact H.
  - simpl in H.
    repeat (destruct H as [<-|H]; [reflexivity|]). destruct H.
Qed.

Lemma digit_expr_unit c : is_digit c = true -> expr_unit c.
Proof. intros H. unfold expr_unit, is_expr_char. rewrite H. reflexivity. Qed.

Lemma text_units :
  (forall f, wf_f f -> text_f f <> [] /\ Forall expr_unit (text_f f)) /\
  (forall t, wf_t t -> text_t t <> [] /\ Forall expr_unit (text_t t)) /\
  (forall e, wf_e e -> text_e e <> [] /\ Forall expr_unit (text_e e)).
Proof.
  apply grammar_ind; simpl.
  - intros ds [Hn Hd]. split; [exact Hn|].
    clear Hn. induction Hd; constructor; [apply digit_expr_unit|]; assumption.
  - intros f IH Hw. split; [discriminate|].
    constructor; [reflexivity|apply IH; exact Hw].
  - intros f IH Hw. split; [discriminate|].
    constructor; [reflexivity|apply IH; exact Hw].
  - intros e IH Hw. split; [discriminate|].
    constructor; [reflexivity|]. apply Forall_app. split; [apply IH; exact Hw|].
    constructor; [reflexivity|constructor].
  - intros f IH Hw. apply IH; exact Hw.
  - intros t IHt f IHf [Hwt Hwf]. destruct (IHt Hwt) as [Hn Hu]. split.
    + intros E. apply app_eq_nil in E. destruct E; auto.
    + apply Forall_app. split; [exact Hu|].
      constructor; [reflexivity|apply IHf; exact Hwf].
  - intros t IHt f IHf [Hwt Hwf]. destruct (IHt Hwt) as [Hn Hu]. split.
    + intros E. apply app_eq_nil in E. destruct E; auto.
    + apply Forall_app. split; [exact Hu|].
      constructor; [reflexivity|apply IHf; exact Hwf].
  - intros t IH Hw. apply IH; exact Hw.
  - intros e IHe t IHt [Hwe Hwt]. destruct (IHe Hwe) as [Hn Hu]. split.
    + intros E. apply app_eq_nil in E. destruct E; auto.
    + apply Forall_app. split; [exact Hu|].
      constructor; [reflexivity|apply IHt; exact Hwt].
  - intros e IHe t IHt [Hwe Hwt]. destruct (IHe Hwe) as [Hn Hu]. split.
    + intros E. apply app_eq_nil in E. destruct E; auto.
    + apply Forall_app. split; [exact Hu|].
      constructor; [reflexivity|apply IHt; exact Hwt].
Qed.

Lemma units_trimmed s : Forall expr_unit s -> trimmed s.
Proof.
  intros H. split.
  - destruct H as [|c s Hc _]; [reflexivity|]. simpl.
    apply expr_unit_not_space. exact Hc.
  - apply Forall_rev in H. destruct H as [|c s' Hc _]; [reflexivity|]. simpl.
    apply expr_unit_not_space. exact Hc.
Qed.

(** ** The evaluator computes the value of the tree *)

Lemma grammar_value_in overflow stack e :
  wf_e e -> need_e e <= stack ->
  evalExprSafe_in overflow stack (text_e e)
  = Some (Returned (if isFinite (value_e e) then mkEval (value_e e) None
                    else failure msg_invalid)).
Proof.
  intros Hw Hn.
  destruct text_units as (_ & _ & Hu). destruct (Hu e Hw) as [Hne Hunits].
  destruct (grammar_parsed_in overflow) as (_ & _ & Hp).
  destruct need_least as (_ & _ & Ne). pose proof (Ne e).
  destruct stack as [|d]; [lia|].
  assert (Hr : returns (fun m => expr_in overflow m (S d) (text_e e ++ []))
                       (value_e e) []).
  { apply (Hp e Hw); [reflexivity|exact Hn|].
    exists 1. intros m Hm. destruct m as [|m]; [lia|].
    destruct d as [|d]; [lia|]. reflexivity. }
  rewrite app_nil_r in Hr. apply returns_expr_in in Hr.
  unfold evalExprSafe_in.
  rewrite (trim_id (text_e e)) by (apply units_trimmed; exact Hunits).
  rewrite Hr.
  destruct (text_e e) as [|c s]; [congruence|].
  simpl. destruct (isFinite (value_e e)); reflexivity.
Qed.

(** X17: on the text of a tree of the grammar whose evaluation nests no more
    calls than the stack allows, the evaluator reads the whole text and
    computes the value of the tree: [*] and [/] bind tighter than [+] and
    [-], operators of one level group to the left, signs apply to the
    factor behind them and parentheses to the expression inside.  The
    result is the value when it is finite, and the failure
    [Résultat invalide] otherwise. *)
Theorem evalExprSafe_grammar overflow stack e :
  wf_e e -> need_e e <= stack ->
  evalExprSafe_in overflow stack (text_e e)
  = Some (Returned (if isFinite (value_e e) then mkEval (value_e e) None
                    else failure msg_invalid)).
Proof. apply grammar_value_in. Qed.

Lemma evalExprSafe_grammar_witness :
  let e := GAdd (GTerm (GFactor (GNum (js "2"))))
                (GMul (GFactor (GNum (js "3")))
                      (GParen (GSub (GTerm (GFactor (GNum (js "10"))))
                                    (GFactor (GMinus (GNum (js "4"))))))) in
  let overflow := js "Maximum call stack size exceeded" in
  wf_e e /\
  need_e e = 9 /\
  text_e e = js "2+3*(10--4)" /\
  evalExprSafe_in overflow 9 (text_e e)
  = Some (Returned (mkEval (of_Z 44) None)) /\
  evalExprSafe_in overflow 8 (text_e e)
  = Some (Returned (failure overflow)).
Proof.
  intros e overflow.
  assert (Hw : wf_e e).
  { unfold e. simpl. unfold digits. repeat split; try discriminate;
      repeat constructor. }
  split; [exact Hw|]. split; [reflexivity|]. split; [reflexivity|].
  split; [|vm_compute; reflexivity].
  rewrite (evalExprSafe_grammar overflow 9 e Hw) by (vm_compute; lia).
  reflexivity.
Defined.

(** X25: with at least one call left, the evaluator on a bounded stack
    returns what it returns on a stack that suffices, or else the
    overflow as an error; with no call left the overflow is raised by the
    call of [trim], before the [try]. *)
Theorem evalExprSafe_in_or_overflow overflow stack s :
  evalExprSafe_in overflow 0 s = Some (Raised overflow) /\
  (evalExprSafe_in overflow (S stack) s
   = option_map Returned (evalExprSafe s) \/
   evalExprSafe_in overflow (S stack) s
   = Some (Returned (failure (caught overflow)))).
Proof.
  split; [reflexivity|].
  unfold evalExprSafe_in, evalExprSafe, evalExprSafe_fuel.
  destruct (negb (truthy (trim s))); [left; reflexivity|].
  destruct (within_or_overflow overflow (3 * length (trim s) + 3))
    as (_ & _ & _ & He & _).
  destruct (He (S stack) (trim s)) as [-> | ->]; [|right; reflexivity].
  left. destruct (expr_ _ (trim s)) as [v r| |]; try reflexivity.
  destruct (skip r); [|reflexivity].
  destruct (negb (isFinite v)); reflexivity.
Qed.

(** ** The summary: one line for each label, in order *)

Lemma insert_sorted_perm cmp x l : Permutation (insert_sorted cmp x l) (x :: l).
Proof.
  induction l as [|y l IH]; simpl; [reflexivity|].
  destruct (cmp _ _ <=? 0)%Z; [reflexivity|].
  rewrite IH. apply perm_swap.
Qed.

Lemma sort_permutation cmp l : Permutation (sort cmp l) l.
Proof.
  induction l as [|x l IH]; simpl; [reflexivity|].
  rewrite insert_sorted_perm. constructor. exact IH.
Qed.

Lemma totals_labels_keys ls k :
  In k (map itemLabel ls) -> In k (map fst (totals ls)).
Proof.
  induction ls as [|l ls IH] using rev_ind; [simpl; tauto|].
  rewrite totals_snoc. unfold add_line. rewrite map_set_keys, map_app.
  intros H. apply in_app_or in H.
  destruct (existsb _ (totals ls)) eqn:E.
  - destruct H as [H|[<-|[]]]; [apply IH; exact H|].
    apply existsb_key_In. exact E.
  - apply in_or_app. destruct H as [H|H]; [left; apply IH; exact H|right; exact H].
Qed.

Lemma summarize_labels cmp ls :
  Permutation (map sum_itemLabel (summarize cmp ls)) (map fst (totals ls)).
Proof.
  unfold summarize. rewrite sort_permutation, map_map. reflexivity.
Qed.

(** X18: one summary line for each label that a line carries, and never two
    for the same label. *)
Theorem summarize_one_line_per_label cmp ls :
  NoDup (map sum_itemLabel (summarize cmp ls)) /\
  (forall k, In k (map sum_itemLabel (summarize cmp ls))
             <-> In k (map itemLabel ls)).
Proof.
  split.
  - eapply Permutation_NoDup; [symmetry; apply summarize_labels|].
    apply totals_NoDup.
  - intros k. split; intros H.
    + apply totals_keys_labels.
      eapply Permutation_in; [apply summarize_labels|exact H].
    + eapply Permutation_in; [symmetry; apply summarize_labels|].
      apply totals_labels_keys. exact H.
Qed.

Lemma insert_sorted_ascending cmp L x l :
  orders cmp L ->
  In (sum_itemLabel x) L -> Forall (fun z => In (sum_itemLabel z) L) l ->
  ascending cmp l -> ascending cmp (insert_sorted cmp x l).
Proof.
  intros (Tot & Tr & _) Hx Hl. induction Hl as [|y l Hy Hl IH]; simpl.
  - intros _. split; [constructor|exact I].
  - intros [Hy' Ha].
    destruct (Z.leb_spec (cmp (sum_itemLabel x) (sum_itemLabel y)) 0) as [B|B].
    + simpl. split; [|split; assumption].
      constructor; [exact B|].
      rewrite Forall_forall in Hy', Hl |- *. intros z Hz.
      apply (Tr _ (sum_itemLabel y) _ Hx Hy (Hl z Hz) B). apply Hy'. exact Hz.
    + simpl. split; [|apply IH; exact Ha].
      apply Forall_forall. intros z Hz.
      apply (Permutation_in _ (insert_sorted_perm cmp x l)) in Hz.
      destruct Hz as [<-|Hz].
      * destruct (Tot _ _ Hx Hy); lia.
      * rewrite Forall_forall in Hy'. apply Hy'. exact Hz.
Qed.

Lemma sort_ascending cmp L l :
  orders cmp L -> Forall (fun z => In (sum_itemLabel z) L) l ->
  ascending cmp (sort cmp l).
Proof.
  intros Ho Hl. induction Hl as [|x l Hx Hl IH]; simpl; [exact I|].
  apply (insert_sorted_ascending cmp L); try assumption.
  apply Forall_forall. intros z Hz.
  apply (Permutation_in _ (sort_permutation cmp l)) in Hz.
  rewrite Forall_forall in Hl. apply Hl. exact Hz.
Qed.

(** X19: with a comparator that orders the labels of the lines, every summary
    line comes before all the summary lines behind it. *)
Theorem summarize_ascending cmp ls :
  orders cmp (map itemLabel ls) -> ascending cmp (summarize cmp ls).
Proof.
  intros Ho. unfold summarize. apply (sort_ascending cmp (map itemLabel ls) _ Ho).
  apply Forall_forall. intros z Hz. apply in_map_iff in Hz.
  destruct Hz as [[k v] [<- Hin]]. simpl.
  apply totals_keys_labels. apply in_map_iff. exists (k, v). auto.
Qed.

Lemma summarize_ascending_witness :
  ascending compare_units (summarize compare_units (map int_line example_lines)).
Proof.
  apply summarize_ascending. apply compare_units_orders.
Defined.

(** X20: with quantities that are positive integers whose sum is below 2^53,
    the total of a summary line is exactly the sum of the quantities of
    the lines with its label. *)
Theorem summarize_totals_exact cmp ls x :
  Forall (fun l => (0 < snd l)%Z) ls ->
  (int_total ls < 2 ^ 53)%Z ->
  In x (summarize cmp (map int_line ls)) ->
  totalQuantity x = of_Z (label_sum (sum_itemLabel x) ls).
Proof.
  intros Hpos Hsum Hin. unfold summarize in Hin.
  apply (Permutation_in _ (sort_permutation cmp _)) in Hin.
  apply in_map_iff in Hin. destruct Hin as [[k v] [<- Hin]]. simpl.
  apply (map_get_In _ _ _ (totals_NoDup _)) in Hin.
  rewrite (totals_int ls Hpos Hsum k) in Hin.
  destruct (has_label k ls); congruence.
Qed.

Lemma summarize_totals_exact_witness :
  In (mkSummary (js "M6x20") (of_Z 15))
     (summarize compare_units (map int_line example_lines)) /\
  totalQuantity (mkSummary (js "M6x20") (of_Z 15))
  = of_Z (label_sum (js "M6x20") example_lines).
Proof.
  assert (Hin : In (mkSummary (js "M6x20") (of_Z 15))
                   (summarize compare_units (map int_line example_lines)))
    by (vm_compute; auto).
  split; [exact Hin|].
  assert (Hpos : Forall (fun l => (0 < snd l)%Z) example_lines)
    by (repeat constructor).
  assert (Hsum : (int_total example_lines < 2 ^ 53)%Z) by reflexivity.
  exact (summarize_totals_exact compare_units example_lines
           (mkSummary (js "M6x20") (of_Z 15)) Hpos Hsum Hin).
Defined.

(** ** What the evaluator reads *)

Lemma eaten_refl s : eaten s s.
Proof. exists []. split; [reflexivity|constructor]. Qed.

Lemma eaten_trans s r t : eaten s r -> eaten r t -> eaten s t.
Proof.
  intros (p1 & -> & H1) (p2 & -> & H2). exists (p1 ++ p2).
  split; [apply app_assoc|]. apply Forall_app. split; assumption.
Qed.

Lemma skip_eaten s : eaten s (skip s).
Proof.
  induction s as [|c s IH]; simpl; [apply eaten_refl|].
  destruct (N.eqb_spec c 32) as [->|_]; [|apply eaten_refl].
  apply (eaten_trans _ s); [|exact IH].
  exists [32%N]. split; [reflexivity|]. repeat constructor.
Qed.

Lemma consume_eaten s c :
  peek_is s c = true -> is_calc_char c = true -> eaten s (consume s).
Proof.
  destruct s as [|x s]; simpl; [discriminate|].
  intros E Hc. apply N.eqb_eq in E. subst x.
  exists [c]. split; [reflexivity|]. constructor; [exact Hc|constructor].
Qed.

Lemma take_digits_eaten s :
  eaten s (skipn (length (take_digits s)) s).
Proof.
  induction s as [|c s IH]; simpl; [apply eaten_refl|].
  destruct (is_digit c) eqn:E; simpl; [|apply eaten_refl].
  apply (eaten_trans _ s); [|exact IH].
  exists [c]. split; [reflexivity|].
  constructor; [|constructor]. unfold is_calc_char. rewrite E. reflexivity.
Qed.

Lemma number_eaten s v r : number_ s = Ret v r -> eaten s r.
Proof.
  unfold number_. intros H.
  apply (eaten_trans _ (skip s)); [apply skip_eaten|].
  pose proof (take_digits_eaten (skip s)) as Ht.
  destruct (take_digits (skip s)) as [|d ds]; [discriminate|].
  injection H as _ <-. exact Ht.
Qed.

Ltac eat :=
  repeat match goal with
         | |- eaten ?s ?s => apply eaten_refl
         | |- eaten ?s (skip ?s) => apply skip_eaten
         | H : peek_is ?s _ = true |- eaten ?s (consume ?s) =>
           apply (consume_eaten _ _ H); reflexivity
         | H : eaten ?a ?r |- eaten ?a ?r => exact H
         end.

Lemma ret_eaten fuel :
  (forall s v r, factor fuel s = Ret v r -> eaten s r) /\
  (forall s v r, term fuel s = Ret v r -> eaten s r) /\
  (forall v0 s v r, term_loop fuel v0 s = Ret v r -> eaten s r) /\
  (forall s v r, expr_ fuel s = Ret v r -> eaten s r) /\
  (forall v0 s v r, expr_loop fuel v0 s = Ret v r -> eaten s r).
Proof.
  induction fuel as [|f (IHf & IHt & IHtl & IHe & IHel)].
  - repeat split; intros; discriminate.
  - repeat split.
    + intros s v r. simpl.
      intros H. apply (eaten_trans _ (skip s)); [apply skip_eaten|]. revert H.
      destruct (peek_is (skip s) 43) eqn:P1.
      { intros H. apply IHf in H.
        apply (eaten_trans _ (consume (skip s))); [eat|exact H]. }
      destruct (peek_is (skip s) 45) eqn:P2.
      { destruct (factor f (consume (skip s))) eqn:E; try discriminate.
        intros H; injection H as _ <-. apply IHf in E.
        apply (eaten_trans _ (consume (skip s))); [eat|exact E]. }
      destruct (peek_is (skip s) 40) eqn:P3.
      { destruct (expr_ f (consume (skip s))) eqn:E; try discriminate.
        destruct (peek_is (skip rest0) 41) eqn:P4; try discriminate.
        intros H; injection H as _ <-. apply IHe in E.
        apply (eaten_trans _ (consume (skip s))); [eat|].
        apply (eaten_trans _ rest0); [exact E|].
        apply (eaten_trans _ (skip rest0)); [apply skip_eaten|eat]. }
      intros H. apply number_eaten in H. exact H.
    + intros s v r. simpl.
      destruct (factor f s) eqn:E; try discriminate.
      intros H. apply IHtl in H. apply IHf in E.
      exact (eaten_trans _ _ _ E H).
    + intros v0 s v r. simpl.
      intros H. apply (eaten_trans _ (skip s)); [apply skip_eaten|]. revert H.
      destruct (peek_is (skip s) 42) eqn:P1.
      { destruct (factor f (consume (skip s))) eqn:E; try discriminate.
        intros H. apply IHtl in H. apply IHf in E.
        apply (eaten_trans _ (consume (skip s))); [eat|].
        exact (eaten_trans _ _ _ E H). }
      destruct (peek_is (skip s) 47) eqn:P2.
      { destruct (factor f (consume (skip s))) eqn:E; try discriminate.
        intros H. apply IHtl in H. apply IHf in E.
        apply (eaten_trans _ (consume (skip s))); [eat|].
        exact (eaten_trans _ _ _ E H). }
      intros H; injection H as _ <-. apply eaten_refl.
    + intros s v r. simpl.
      destruct (term f s) eqn:E; try discriminate.
      intros H. apply IHel in H. apply IHt in E.
      exact (eaten_trans _ _ _ E H).
    + intros v0 s v r. simpl.
      intros H. apply (eaten_trans _ (skip s)); [apply skip_eaten|]. revert H.
      destruct (peek_is (skip s) 43) eqn:P1.
      { destruct (term f (consume (skip s))) eqn:E; try discriminate.
        intros H. apply IHel in H. apply IHt in E.
        apply (eaten_trans _ (consume (skip s))); [eat|].
        exact (eaten_trans _ _ _ E H). }
      destruct (peek_is (skip s) 45) eqn:P2.
      { destruct (term f (consume (skip s))) eqn:E; try discriminate.
        intros H. apply IHel in H. apply IHt in E.
        apply (eaten_trans _ (consume (skip s))); [eat|].
        exact (eaten_trans _ _ _ E H). }
      intros H; injection H as _ <-. apply eaten_refl.
Qed.

Lemma accepted_chars s r :
  evalExprSafe s = Some r -> error r = None -> all is_calc_char (trim s).
Proof.
  unfold evalExprSafe, evalExprSafe_fuel.
  destruct (negb (truthy (trim s))); [intros H; injection H as <-; discriminate|].
  destruct (expr_ _ (trim s)) as [v r0| |] eqn:E; try discriminate.
  2:{ intros H; injection H as <-; discriminate. }
  destruct (ret_eaten (3 * length (trim s) + 3)) as (_ & _ & _ & He & _).
  apply He in E.
  destruct (skip r0) as [|c tl] eqn:Es;
    [|intros H; injection H as <-; discriminate].
  intros _ _.
  pose proof (skip_eaten r0) as Hs. rewrite Es in Hs.
  destruct (eaten_trans _ _ _ E Hs) as (pre & -> & Hp).
  rewrite app_nil_r. exact Hp.
Qed.

Lemma in_trim c s : In c s -> is_space c = false -> In c (trim s).
Proof.
  intros Hin Hc. destruct (trim_split s) as (a & b & E & Ha & Hb).
  rewrite E in Hin. unfold all in Ha, Hb. rewrite Forall_forall in Ha, Hb.
  apply in_app_or in Hin. destruct Hin as [H|H].
  { apply Ha in H. congruence. }
  apply in_app_or in H. destruct H as [H|H]; [exact H|].
  apply Hb in H. congruence.
Qed.

(** X21: a text that holds a character other than a digit, [+ - * / ( )] and
    white space is never evaluated: the result is an error with a
    message, and the value 0.  The decimal point, which
    [normalizeMathSpeech] lets through, is such a character. *)
Theorem evalExprSafe_rejects s c :
  In c s -> is_space c = false -> is_calc_char c = false ->
  exists msg, msg <> [] /\ evalExprSafe s = Some (failure msg).
Proof.
  intros Hin Hs Hc.
  destruct (evalExprSafe_shape s) as (r & Er & [[En _]|(msg & Em & Hm & Hv)]).
  - pose proof (accepted_chars s r Er En) as Ha.
    unfold all in Ha. rewrite Forall_forall in Ha.
    exfalso. apply (in_trim c s) in Hin; [|exact Hs]. apply Ha in Hin. congruence.
  - exists msg. split; [exact Hm|]. rewrite Er. f_equal.
    destruct r as [v e]. simpl in *. subst. reflexivity.
Qed.

Lemma evalExprSafe_rejects_witness :
  is_expr_char 46 = true /\
  exists msg, msg <> [] /\ evalExprSafe (js "2.5") = Some (failure msg).
Proof.
  split; [reflexivity|].
  apply (evalExprSafe_rejects (js "2.5") 46%N);
    [vm_compute; tauto|reflexivity|reflexivity].
Defined.

(** ** The component sends no request that the backend refuses *)

Lemma fields_ok_accepted w e : request_fields_ok e -> accepted_by_backend w e.
Proof.
  intros H cmp uid0 st0. destruct e; simpl in *; try exact I.
  - rewrite H. reflexivity.
  - destruct H as [Hi Hq].
    match goal with
    | |- context [store_get ?s ?k] => destruct (store_get s k)
    end; [|simpl; discriminate].
    rewrite Hi, Hq. simpl. discriminate.
Qed.

Section Requests.

Variable w : jsstring -> jsstring.
Variable rc : jsstring -> Container + jsstring.
Variable ra : Container -> jsstring -> number -> AddLineAnswer.

Lemma createContainer_requests env lbl :
  Forall request_fields_ok (createContainer rc env lbl).
Proof.
  unfold createContainer.
  set (l := trim _).
  destruct (truthy l) eqn:T; simpl; [|constructor].
  constructor; [exact I|]. constructor.
  { simpl. unfold l in *. rewrite (trim_id _ (trim_trimmed _)). exact T. }
  destruct (rc l); repeat constructor.
Qed.

Lemma addLine_requests env item q :
  truthy (trim item) = true -> bad_quantity q = false ->
  Forall request_fields_ok (fst (addLine ra env item q)).
Proof.
  intros Hi Hq. unfold addLine.
  destruct (container env) as [c|]; [|constructor].
  destruct (ra c item q); simpl; repeat constructor; assumption.
Qed.

Lemma handleSegment_requests env raw effs thrown :
  handleSegment w rc ra env raw = Some (effs, thrown) ->
  Forall request_fields_ok effs.
Proof.
  unfold handleSegment.
  destruct (negb (truthy (trim raw))).
  { intros H; injection H as <- _. constructor. }
  destruct (is_container_segment _).
  { intros H; injection H as <- _.
    constructor; [exact I|]. constructor; [exact I|].
    apply createContainer_requests. }
  destruct (is_reference_segment _).
  { destruct (negb (truthy _)); intros H; injection H as <- _;
      repeat constructor. }
  destruct (truthy (trim (activeItem env))) eqn:Ha; simpl.
  2:{ intros H; injection H as <- _. repeat constructor. }
  destruct (evalExprSafe_shape (normalizeMathSpeech w (trim raw)))
    as (r & -> & Wr).
  destruct (has_error r) eqn:He.
  { intros H; injection H as <- _. repeat constructor. }
  destruct (leb (value r) zero) eqn:Hl.
  { intros H; injection H as <- _. repeat constructor. }
  assert (Hq : bad_quantity (value r) = false).
  { unfold bad_quantity. rewrite Hl.
    destruct Wr as [[_ ->]|(msg & Em & Hm & _)]; [reflexivity|].
    unfold has_error in He. rewrite Em in He.
    destruct msg; [congruence|discriminate]. }
  pose proof (addLine_requests env (activeItem env) (value r) Ha Hq) as Hadd.
  destruct (addLine ra env (activeItem env) (value r)) as [es err].
  intros H; injection H as <- _. simpl in Hadd.
  repeat (constructor; [exact I|]).
  apply Forall_app. split; [exact Hadd|].
  destruct err; repeat constructor.
Qed.

Lemma drain_requests env : forall fuel buf effs left,
  drain w rc ra fuel env buf = Some (effs, left) ->
  Forall request_fields_ok effs.
Proof.
  induction fuel as [|fuel IH]; intros buf effs left; [discriminate|].
  cbn [drain]. destruct (exec okRe buf) as [m|].
  2:{ intros H; injection H as <- _. constructor. }
  destruct (handleSegment w rc ra env _) as [[es thrown]|] eqn:Eh;
    [|discriminate].
  destruct (drain w rc ra fuel env _) as [[more final]|] eqn:Ed; [|discriminate].
  intros H; injection H as <- _.
  apply Forall_app. split; [|exact (IH _ _ _ Ed)].
  apply Forall_app. split; [exact (handleSegment_requests _ _ _ _ Eh)|].
  destruct thrown; repeat constructor.
Qed.

(** X22: whatever the buffer, the requests that [processBuffer] sends carry
    fields that the routes of the backend accept: the creation of a
    container is answered 201, and the addition of a line is never
    answered 400 (the quantity is finite and greater than 0, the label is
    not blank). *)
Theorem streamed_requests_accepted env buffer :
  exists effs left,
    processBuffer w rc ra env buffer = Some (effs, left) /\
    Forall (accepted_by_backend w) effs.
Proof.
  destruct (drain_returns w rc ra env (S (length buffer)) buffer)
    as (effs & left & E & _); [lia|].
  exists effs, left. split; [exact E|].
  apply drain_requests in E.
  eapply Forall_impl; [|exact E]. intros e. apply fields_ok_accepted.
Qed.

End Requests.

(** ** One word between two word breaks, as written *)

Lemma lit_intro w : forall pv tl n cs,
  sem (lit w) (MState pv (w ++ tl) n cs)
      (MState (lastc pv w) tl (n + length w) cs).
Proof.
  unfold lit. induction w as [|c w IH]; intros pv tl n cs.
  - simpl. rewrite Nat.add_0_r. reflexivity.
  - cbn [map]. eapply seq_intro.
    + apply chr_intro. apply N.eqb_refl.
    + rewrite lastc_cons. cbn [length]. rewrite Nat.add_succ_r. apply IH.
Qed.

Lemma written_word_inv wd pv s len cs :
  exec_at (word wd) pv s = Some (len, cs) ->
  exists tl, s = wd ++ tl /\ len = length wd /\
             xorb (pv_word pv) (head_word s) = true /\
             xorb (pv_word (lastc pv wd)) (head_word tl) = true.
Proof.
  intros H. apply exec_at_sound in H. destruct H as (st' & H & <- & _).
  unfold word in H.
  next H H1 mid. apply wordb_inv in H1. destruct H1 as (Hb & ->).
  next H H1 mid. apply lit_inv in H1. destruct H1 as (tl & -> & ->).
  next H H1 mid. apply wordb_inv in H1. destruct H1 as (He & ->).
  apply seq_nil_inv in H. subst st'.
  exists tl. repeat split; assumption.
Qed.

Lemma stop_head rest : stop rest -> head_word rest = false.
Proof. intros [->|(m & ->)]; reflexivity. Qed.

Lemma written_word_hit wd pv rest :
  wd <> [] -> all is_word wd -> pv_word pv = false -> stop rest ->
  exists cs, exec_at (word wd) pv (wd ++ rest) = Some (length wd, cs).
Proof.
  intros Hn Hw Hp Hs. apply stop_head in Hs.
  destruct (exec_at (word wd) pv (wd ++ rest)) as [[len cs]|] eqn:E.
  - destruct (written_word_inv _ _ _ _ _ E) as (tl & _ & -> & _).
    exists cs. reflexivity.
  - exfalso. revert E. eapply exec_at_complete. unfold word.
    eapply seq_intro.
    { apply wordb_intro.
      rewrite Hp, head_word_app, head_word_all by assumption. reflexivity. }
    eapply seq_intro.
    { apply lit_intro. }
    eapply seq_intro.
    { apply wordb_intro.
      rewrite Hs, pv_word_lastc_all by assumption. reflexivity. }
    reflexivity.
Qed.

Lemma contains_spec wd : forall t pre suf tl,
  contains wd t = false -> t = pre ++ suf -> suf <> wd ++ tl.
Proof.
  induction t as [|c t IH]; intros pre suf tl H E Es.
  - destruct pre; [|discriminate]. simpl in E. subst suf.
    symmetry in Es. apply app_eq_nil in Es. destruct Es as [-> _].
    simpl in H. discriminate.
  - cbn [contains] in H. apply orb_false_iff in H. destruct H as [H1 H2].
    destruct pre as [|p pre].
    + simpl in E. subst suf. rewrite Es, startsWith_app in H1. discriminate.
    + injection E as _ E. exact (IH pre suf tl H2 E Es).
Qed.

Lemma prefix_within wd : forall suf rest tl,
  suf ++ rest = wd ++ tl -> ~ In 32%N wd -> stop rest ->
  exists tl', suf = wd ++ tl'.
Proof.
  induction wd as [|c wd IH]; intros suf rest tl E Hn Hs.
  - exists suf. reflexivity.
  - destruct suf as [|c' suf].
    + simpl in E. destruct Hs as [->|(m & ->)]; [discriminate|].
      injection E as <- _. exfalso. apply Hn. left. reflexivity.
    + injection E as -> E.
      destruct (IH suf rest tl E) as (tl' & ->); [|exact Hs|].
      * intros Hin. apply Hn. right. exact Hin.
      * exists tl'. reflexivity.
Qed.

Lemma written_word_miss wd t pre suf pv rest :
  ~ In 32%N wd -> contains wd t = false ->
  t = pre ++ suf -> stop rest ->
  exec_at (word wd) pv (suf ++ rest) = None.
Proof.
  intros Hn Hc E Hs.
  destruct (exec_at (word wd) pv (suf ++ rest)) as [[len cs]|] eqn:X;
    [exfalso|reflexivity].
  destruct (written_word_inv _ _ _ _ _ X) as (tl & Es & _).
  destruct (prefix_within wd suf rest tl Es Hn Hs) as (tl' & Et).
  exact (contains_spec wd t pre suf tl' Hc E Et).
Qed.

Lemma digits_lack wd ds :
  all is_digit ds -> head_is is_digit wd = false -> wd <> [] ->
  contains wd ds = false.
Proof.
  intros Hd Hh Hn. destruct wd as [|c wd]; [congruence|]. simpl in Hh.
  induction Hd as [|d ds Hdd _ IH]; [reflexivity|].
  cbn [contains startsWith]. rewrite IH, orb_false_r.
  unfold cu_eqb. destruct (N.eqb_spec c d) as [->|_]; [congruence|reflexivity].
Qed.

(** ** A replacement over the words of an utterance *)

Lemma scan_keep R f : forall a pv b,
  (forall pre suf pv', a = pre ++ suf -> suf <> [] ->
                       exec_at R pv' (suf ++ b) = None) ->
  replace_scan R f pv 0 (a ++ b)
  = a ++ replace_scan R f (lastc pv a) 0 b.
Proof.
  induction a as [|c a IH]; intros pv b H; [reflexivity|].
  assert (E : exec_at R pv ((c :: a) ++ b) = None)
    by (apply (H [] (c :: a) pv eq_refl); discriminate).
  simpl app in *. cbn [replace_scan]. rewrite E.
  rewrite ?lastc_cons. f_equal. apply IH.
  intros pre suf pv' Ea Hs. apply (H (c :: pre) suf pv'); [|exact Hs].
  simpl. rewrite Ea. reflexivity.
Qed.

Section Pass.

Context {A : Type}.
Variable R : regex.
Variable f : jsstring -> list (nat * jsstring) -> jsstring.
Variable r : jsstring.
Variable rend : A -> jsstring.
Variable hits : A -> bool.

Hypothesis f_const : forall M cs, f M cs = r.
Hypothesis sep_none : forall pv m, exec_at R pv (32%N :: m) = None.
Hypothesis end_none : forall pv, exec_at R pv [] = None.

Let out (x : A) : jsstring := if hits x then r else rend x.

Lemma scan_token x pv rest :
  token_ok R rend hits x -> pv_word pv = false -> stop rest ->
  replace_scan R f pv 0 (rend x ++ rest)
  = out x ++ replace_scan R f (lastc pv (rend x)) 0 rest.
Proof.
  unfold token_ok, out. intros H Hp Hs. destruct (hits x).
  - destruct H as [Hn H]. destruct (H pv rest Hp Hs) as (cs & E).
    destruct (rend x) as [|c t]; [congruence|].
    simpl app in *. cbn [replace_scan]. rewrite E. cbn [length].
    rewrite f_const. f_equal.
    rewrite replace_scan_skip by (rewrite length_app; lia).
    rewrite firstn_app, Nat.sub_diag, firstn_all, firstn_O, app_nil_r.
    rewrite skipn_app, Nat.sub_diag, skipn_all. rewrite ?lastc_cons.
    reflexivity.
  - apply scan_keep. intros pre suf pv' E Hsuf. exact (H pre suf pv' rest E Hsuf Hs).
Qed.

Lemma scan_words : forall xs pv,
  pv_word pv = false -> Forall (token_ok R rend hits) xs ->
  replace_scan R f pv 0 (join (js " ") (map rend xs))
  = join (js " ") (map out xs).
Proof.
  induction xs as [|x xs IH]; intros pv Hp Hx.
  - simpl. rewrite end_none. reflexivity.
  - inversion Hx as [|? ? Hx1 Hx2]; subst.
    destruct xs as [|y ys].
    + cbn [map join]. rewrite <- (app_nil_r (rend x)).
      rewrite (scan_token x pv [] Hx1 Hp) by (left; reflexivity).
      cbn [replace_scan]. rewrite end_none, !app_nil_r. reflexivity.
    + change (join (js " ") (map rend (x :: y :: ys)))
        with (rend x ++ 32%N :: join (js " ") (map rend (y :: ys))).
      change (join (js " ") (map out (x :: y :: ys)))
        with (out x ++ 32%N :: join (js " ") (map out (y :: ys))).
      rewrite (scan_token x pv _ Hx1 Hp) by (right; eexists; reflexivity).
      f_equal. cbn [replace_scan]. rewrite sep_none. f_equal.
      apply IH; [reflexivity|exact Hx2].
Qed.

Lemma pass_words xs :
  Forall (token_ok R rend hits) xs ->
  replace_all R f (join (js " ") (map rend xs)) = join (js " ") (map out xs).
Proof. intros H. apply scan_words; [reflexivity|exact H]. Qed.

End Pass.

(** ** The seven replacements of words *)

Lemma written_word_sep wd pv m :
  wd <> [] -> ~ In 32%N wd -> exec_at (word wd) pv (32%N :: m) = None.
Proof.
  intros Hn Hs.
  destruct (exec_at (word wd) pv (32%N :: m)) as [[len cs]|] eqn:X;
    [exfalso|reflexivity].
  destruct (written_word_inv _ _ _ _ _ X) as (tl & E & _).
  destruct wd as [|c wd]; [congruence|]. injection E as <- _.
  apply Hs. left. reflexivity.
Qed.

Lemma written_word_end wd pv : wd <> [] -> exec_at (word wd) pv [] = None.
Proof.
  intros Hn.
  destruct (exec_at (word wd) pv []) as [[len cs]|] eqn:X; [exfalso|reflexivity].
  destruct (written_word_inv _ _ _ _ _ X) as (tl & E & _).
  symmetry in E. apply app_eq_nil in E. destruct E. congruence.
Qed.

(** [\bdivisé\b] matches nowhere in [divisé] before a space or at the
    end: [é] is no word character, so there is no word break behind it. *)
Lemma accent_miss pre suf pv rest :
  js "divisé" = pre ++ suf -> stop rest ->
  exec_at (word (js "divisé")) pv (suf ++ rest) = None.
Proof.
  intros E Hs.
  destruct (exec_at (word (js "divisé")) pv (suf ++ rest)) as [[len cs]|] eqn:X;
    [exfalso|reflexivity].
  destruct (written_word_inv _ _ _ _ _ X) as (tl & Es & _ & _ & Hb).
  destruct (prefix_within _ suf rest tl Es) as (tl' & Et); [|exact Hs|].
  { vm_compute. intuition discriminate. }
  assert (Hl : length (js "divisé") = length pre + length suf)
    by (rewrite E at 1; apply length_app).
  assert (Hl' : length suf = length (js "divisé") + length tl')
    by (rewrite Et at 1; apply length_app).
  assert (tl' = []) by (destruct tl'; [reflexivity|simpl in Hl, Hl'; lia]).
  subst tl'. rewrite app_nil_r in Et. subst suf.
  apply app_inv_head in Es. subst tl.
  rewrite (stop_head rest Hs) in Hb. vm_compute in Hb. discriminate.
Qed.

Lemma pass_word_plain k : pass_word k <> [] /\ ~ In 32%N (pass_word k).
Proof.
  do 7 (destruct k as [|k]; [split; [discriminate|vm_compute; intuition discriminate]|]).
  split; [discriminate|vm_compute; intuition discriminate].
Qed.

Lemma all_forallb p s : forallb p s = true -> all p s.
Proof.
  intros H. apply Forall_forall. intros c Hc.
  exact (proj1 (forallb_forall p s) H c Hc).
Qed.

Lemma stage_token_ok k x :
  k < 7 -> spoken_ok x ->
  token_ok (word (pass_word k)) (stage k) (hit k) x.
Proof.
  intros Hk Hx.
  assert (Hit : forall wd, all is_word wd -> wd <> [] ->
            wd <> [] /\
            forall pv rest, pv_word pv = false -> stop rest ->
              exists cs, exec_at (word wd) pv (wd ++ rest)
                         = Some (length wd, cs)).
  { intros wd Hw Hn. split; [exact Hn|]. intros pv rest Hp Hs.
    apply written_word_hit; assumption. }
  assert (Miss : forall wd t, wd <> [] -> ~ In 32%N wd -> contains wd t = false ->
            forall pre suf pv rest, t = pre ++ suf -> suf <> [] -> stop rest ->
              exec_at (word wd) pv (suf ++ rest) = None).
  { intros wd t _ Hs Hc pre suf pv rest E _ Hr.
    eapply written_word_miss; eassumption. }
  destruct (pass_word_plain k) as [Hn Hs].
  destruct x as [ds| | | | | | | | |]; unfold token_ok.
  - (* a number *)
    assert (hit k (WNum ds) = false) as -> by (do 7 (destruct k as [|k]; [reflexivity|]); reflexivity).
    apply Miss; [exact Hn|exact Hs|].
    apply digits_lack; [exact Hx| |exact Hn].
    do 7 (destruct k as [|k]; [reflexivity|]). reflexivity.
  - do 7 (destruct k as [|k]; [cbn [hit]; first
      [ apply Hit; [apply all_forallb; reflexivity|discriminate]
      | apply Miss; [discriminate|exact Hs|reflexivity] ]|]). lia.
  - do 7 (destruct k as [|k]; [cbn [hit]; first
      [ apply Hit; [apply all_forallb; reflexivity|discriminate]
      | apply Miss; [discriminate|exact Hs|reflexivity] ]|]). lia.
  - do 7 (destruct k as [|k]; [cbn [hit]; first
      [ apply Hit; [apply all_forallb; reflexivity|discriminate]
      | apply Miss; [discriminate|exact Hs|reflexivity] ]|]). lia.
  - do 7 (destruct k as [|k]; [cbn [hit]; first
      [ apply Hit; [apply all_forallb; reflexivity|discriminate]
      | apply Miss; [discriminate|exact Hs|reflexivity] ]|]). lia.
  - do 7 (destruct k as [|k]; [cbn [hit]; first
      [ apply Hit; [apply all_forallb; reflexivity|discriminate]
      | apply Miss; [discriminate|exact Hs|reflexivity] ]|]). lia.
  - (* divisé *)
    do 7 (destruct k as [|k]; [cbn [hit]; first
      [ apply Miss; [discriminate|exact Hs|reflexivity]
      | intros pre suf pv rest E _ Hr; exact (accent_miss pre suf pv rest E Hr) ]|]).
    lia.
  - do 7 (destruct k as [|k]; [cbn [hit]; first
      [ apply Hit; [apply all_forallb; reflexivity|discriminate]
      | apply Miss; [discriminate|exact Hs|reflexivity] ]|]). lia.
  - do 7 (destruct k as [|k]; [cbn [hit]; first
      [ apply Hit; [apply all_forallb; reflexivity|discriminate]
      | apply Miss; [discriminate|exact Hs|reflexivity] ]|]). lia.
  - do 7 (destruct k as [|k]; [cbn [hit]; first
      [ apply Hit; [apply all_forallb; reflexivity|discriminate]
      | apply Miss; [discriminate|exact Hs|reflexivity] ]|]). lia.
Qed.

Lemma stage_next k x :
  k < 7 -> (if hit k x then pass_symbol k else stage k x) = stage (S k) x.
Proof.
  intros Hk.
  do 7 (destruct k as [|k]; [destruct x; reflexivity|]). lia.
Qed.

Lemma pass_stage k f xs :
  k < 7 -> (forall M cs, f M cs = pass_symbol k) -> Forall spoken_ok xs ->
  replace_all (word (pass_word k)) f (join (js " ") (map (stage k) xs))
  = join (js " ") (map (stage (S k)) xs).
Proof.
  intros Hk Hf Hx. destruct (pass_word_plain k) as [Hn Hs].
  rewrite (pass_words (word (pass_word k)) f (pass_symbol k) (stage k) (hit k)).
  - f_equal. apply map_ext. intros x. apply stage_next. exact Hk.
  - exact Hf.
  - intros pv m. apply written_word_sep; assumption.
  - intros pv. apply written_word_end. exact Hn.
  - eapply Forall_impl; [|exact Hx]. intros x. apply stage_token_ok. exact Hk.
Qed.

(** ** The other steps of [normalizeMathSpeech] *)

Lemma join_Forall (P : N -> Prop) toks :
  P 32%N -> Forall (Forall P) toks -> Forall P (join (js " ") toks).
Proof.
  intros Hs H. induction H as [|t toks Ht _ IH]; [constructor|].
  destruct toks as [|u toks]; [exact Ht|].
  change (join (js " ") (t :: u :: toks))
    with (t ++ 32%N :: join (js " ") (u :: toks)).
  apply Forall_app. split; [exact Ht|]. constructor; assumption.
Qed.

Lemma lower_fixed (w : jsstring -> jsstring) t :
  Forall (fun c => is_latin1 c = true /\ lower1 c = c) t ->
  toLowerCase w t = t.
Proof.
  intros H. unfold toLowerCase.
  assert (H1 : forallb is_latin1 t = true).
  { apply forallb_forall. rewrite Forall_forall in H. intros c Hc.
    apply H. exact Hc. }
  rewrite H1. clear H1. induction H as [|c t [_ Hc] _ IH]; simpl; [reflexivity|].
  rewrite IH, Hc. reflexivity.
Qed.

Lemma stage_chars (P : N -> Prop) n x :
  (forall c, is_digit c = true -> P c) ->
  Forall P (js "plus moins fois multiplie divise divisé par +-*/()") ->
  spoken_ok x -> Forall P (stage n x).
Proof.
  intros Hd Hl Hx.
  assert (In_l : forall t, incl t (js "plus moins fois multiplie divise divisé par +-*/()") ->
                           Forall P t).
  { intros t Ht. apply Forall_forall. intros c Hc.
    rewrite Forall_forall in Hl. apply Hl. apply Ht. exact Hc. }
  destruct x; unfold stage, spoken_ok in *;
    try (apply Forall_impl with (2 := Hx); exact Hd);
    repeat match goal with
           | |- context [Nat.leb ?a n] => destruct (Nat.leb a n)
           end;
    try (apply In_l; intros c Hc; vm_compute in Hc |- *; tauto).
Qed.

Lemma stage_words_chars (P : N -> Prop) n xs :
  (forall c, is_digit c = true -> P c) ->
  Forall P (js "plus moins fois multiplie divise divisé par +-*/()") ->
  Forall spoken_ok xs -> Forall P (join (js " ") (map (stage n) xs)).
Proof.
  intros Hd Hl Hx. apply join_Forall.
  - rewrite Forall_forall in Hl. apply Hl. vm_compute. tauto.
  - apply Forall_map. eapply Forall_impl; [|exact Hx].
    intros x. apply stage_chars; assumption.
Qed.

Lemma remove_chars p f : forall s pv,
  (forall M cs, f M cs = []) ->
  replace_scan (Chr p) f pv 0 s = filter (fun c => negb (p c)) s.
Proof.
  intros s pv Hf. revert pv. induction s as [|c s IH]; intros pv.
  - reflexivity.
  - cbn [replace_scan filter]. unfold exec_at. cbn [rmatch rest].
    destruct (p c); cbn [negb].
    + cbn [pos advance]. rewrite Hf. apply IH.
    + f_equal. apply IH.
Qed.

Lemma filter_join p toks :
  p 32%N = false ->
  filter p (join (js " ") toks) = concat (map (filter p) toks).
Proof.
  intros Hs. induction toks as [|t toks IH]; [reflexivity|].
  destruct toks as [|u toks]; [simpl; rewrite app_nil_r; reflexivity|].
  change (join (js " ") (t :: u :: toks))
    with (t ++ 32%N :: join (js " ") (u :: toks)).
  rewrite filter_app. cbn [filter]. rewrite Hs, IH. reflexivity.
Qed.

Lemma filter_all (p : N -> bool) s : all p s -> filter p s = s.
Proof.
  intros H. induction H as [|c s Hc _ IH]; simpl; [reflexivity|].
  rewrite Hc, IH. reflexivity.
Qed.

Lemma stage_symbol x :
  spoken_ok x -> filter is_expr_char (stage 7 x) = symbol x.
Proof.
  destruct x; try reflexivity. simpl. intros H. apply filter_all.
  eapply Forall_impl; [|exact H]. intros c Hc.
  unfold is_expr_char. rewrite Hc. reflexivity.
Qed.

Lemma spaces_fixed f t :
  Forall expr_unit t -> replace_all (plus space) f t = t.
Proof.
  intros Ht. apply (replace_all_needs is_space).
  - intros pv s x H. rewrite spaces_exec in H.
    destruct s as [|c tl]; [discriminate|]. simpl in H.
    destruct (is_space c) eqn:E; [|discriminate].
    exists c. split; [left; reflexivity|exact E].
  - apply Forall_impl with (2 := Ht). intros c Hc.
    apply expr_unit_not_space. exact Hc.
Qed.

(** The expression of an utterance. *)
Lemma utterance_expression (w : jsstring -> jsstring) ws :
  Forall spoken_ok ws ->
  normalizeMathSpeech w (utterance ws) = concat (map symbol ws).
Proof.
  intros Hx. unfold normalizeMathSpeech, utterance.
  rewrite (map_ext word_text (stage 0)) by (intros x; destruct x; reflexivity).
  rewrite lower_fixed.
  2:{ apply stage_words_chars; [| |exact Hx].
      - intros c Hc. apply expr_unit_lower. apply digit_expr_unit. exact Hc.
      - apply Forall_forall. intros c Hc. vm_compute in Hc.
        repeat (destruct Hc as [<-|Hc]; [split; reflexivity|]). destruct Hc. }
  rewrite (pass_stage 0) by (reflexivity || lia || exact Hx).
  rewrite (pass_stage 1) by (reflexivity || lia || exact Hx).
  rewrite (pass_stage 2) by (reflexivity || lia || exact Hx).
  rewrite (pass_stage 3) by (reflexivity || lia || exact Hx).
  rewrite (pass_stage 4) by (reflexivity || lia || exact Hx).
  rewrite (pass_stage 5) by (reflexivity || lia || exact Hx).
  rewrite (pass_stage 6) by (reflexivity || lia || exact Hx).
  rewrite (replace_all_needs (N.eqb 120) re_digit_x_digit).
  2:{ intros pv s x H. exists 120%N. split; [|reflexivity].
      eapply digit_x_digit_needs; exact H. }
  2:{ apply stage_words_chars; [| |exact Hx].
      - intros c Hc. apply digit_cases in Hc. simpl in Hc.
        repeat (destruct Hc as [<-|Hc]; [reflexivity|]). destruct Hc.
      - apply Forall_forall. intros c Hc. vm_compute in Hc.
        repeat (destruct Hc as [<-|Hc]; [reflexivity|]). destruct Hc. }
  assert (E : forall f, (forall M cs, f M cs = []) ->
              replace_all re_not_expr_char f (join (js " ") (map (stage 7) ws))
              = concat (map symbol ws)).
  { intros f Hf. unfold replace_all, re_not_expr_char.
    rewrite remove_chars by exact Hf.
    rewrite (filter_ext _ is_expr_char) by (intros c; apply negb_involutive).
    rewrite filter_join by reflexivity. rewrite map_map. f_equal.
    apply map_ext_in. intros x Hin. apply stage_symbol.
    rewrite Forall_forall in Hx. apply Hx. exact Hin. }
  rewrite E by reflexivity. apply spaces_fixed.
  rewrite <- (E (fun _ _ => [])) by reflexivity.
  unfold replace_all, re_not_expr_char.
  rewrite remove_chars by reflexivity.
  apply Forall_forall. intros c Hc. apply filter_In in Hc.
  destruct Hc as [_ Hc]. apply negb_true_iff in Hc. apply negb_false_iff in Hc.
  exact Hc.
Qed.

(** ** What a dictated calculation becomes *)

(** X23: of an utterance made of numbers in digits, of the words [plus],
    [moins], [fois], [multiplie], [divise], [divisé], [par] and of
    parentheses, with one space between them, [normalizeMathSpeech] keeps
    the numbers and the parentheses and puts [+ - * * /] for the first
    five words; [par] gives nothing, and neither does [divisé] written
    with its accent: [é] is not a word character, so [\bdivisé\b] does
    not match before a space or at the end of the text. *)
Theorem dictation_normalized (w : jsstring -> jsstring) ws :
  Forall spoken_ok ws ->
  normalizeMathSpeech w (utterance ws) = concat (map symbol ws).
Proof. apply utterance_expression. Qed.

Lemma dictation_normalized_witness :
  Forall spoken_ok [WNum (js "10"); WDivise_accent; WPar; WNum (js "2")] /\
  utterance [WNum (js "10"); WDivise_accent; WPar; WNum (js "2")]
  = js "10 divisé par 2" /\
  normalizeMathSpeech wide_unchanged
    (utterance [WNum (js "10"); WDivise_accent; WPar; WNum (js "2")])
  = js "102".
Proof.
  assert (H : Forall spoken_ok
                [WNum (js "10"); WDivise_accent; WPar; WNum (js "2")])
    by (repeat constructor).
  split; [exact H|]. split; [reflexivity|].
  rewrite (dictation_normalized wide_unchanged _ H). reflexivity.
Defined.

Lemma speech_symbols :
  (forall f, concat (map symbol (speech_f f)) = text_f f) /\
  (forall t, concat (map symbol (speech_t t)) = text_t t) /\
  (forall e, concat (map symbol (speech_e e)) = text_e e).
Proof.
  apply grammar_ind; intros; cbn [speech_f speech_t speech_e text_f text_t text_e];
    rewrite ?map_app, ?concat_app; cbn [map concat symbol];
    rewrite ?map_app, ?concat_app; cbn [map concat symbol];
    rewrite ?app_nil_r;
    repeat match goal with H : _ = _ |- _ => rewrite H; clear H end;
    reflexivity.
Qed.

Lemma speech_ok :
  (forall f, wf_f f -> Forall spoken_ok (speech_f f)) /\
  (forall t, wf_t t -> Forall spoken_ok (speech_t t)) /\
  (forall e, wf_e e -> Forall spoken_ok (speech_e e)).
Proof.
  apply grammar_ind; cbn [speech_f speech_t speech_e wf_f wf_t wf_e]; intros;
    repeat match goal with
           | H : _ /\ _ |- _ => destruct H
           | |- Forall _ (_ ++ _) => apply Forall_app; split
           | |- Forall _ (_ :: _) => constructor
           | |- Forall _ [] => constructor
           | |- spoken_ok _ => exact I
           end; auto.
  destruct H as [_ H]. exact H.
Qed.

(** X24: a calculation dictated after a tree of the grammar, with [plus],
    [moins], [fois] and [divise par] for the operations, is normalized
    and, when its evaluation nests no more calls than the stack allows,
    evaluated to the value of the tree. *)
Theorem dictated_value (w : jsstring -> jsstring) overflow stack e :
  wf_e e -> need_e e <= stack ->
  evalExprSafe_in overflow stack
    (normalizeMathSpeech w (utterance (speech_e e)))
  = Some (Returned (if isFinite (value_e e) then mkEval (value_e e) None
                    else failure msg_invalid)).
Proof.
  intros Hw Hn.
  destruct speech_ok as (_ & _ & Ho). destruct speech_symbols as (_ & _ & Hs).
  rewrite (utterance_expression w _ (Ho e Hw)), Hs.
  apply grammar_value_in; assumption.
Qed.

Lemma dictated_value_witness :
  let e := GAdd (GTerm (GFactor (GNum (js "5"))))
                (GDiv (GMul (GFactor (GNum (js "10"))) (GNum (js "3")))
                      (GNum (js "2"))) in
  let overflow := js "Maximum call stack size exceeded" in
  wf_e e /\
  need_e e = 5 /\
  utterance (speech_e e) = js "5 plus 10 fois 3 divise par 2" /\
  evalExprSafe_in overflow 5
    (normalizeMathSpeech wide_unchanged (utterance (speech_e e)))
  = Some (Returned (mkEval (of_Z 20) None)).
Proof.
  intros e overflow.
  assert (Hw : wf_e e).
  { unfold e. simpl. unfold digits. repeat split; try discriminate;
      repeat constructor. }
  split; [exact Hw|]. split; [reflexivity|]. split; [reflexivity|].
  rewrite (dictated_value wide_unchanged overflow 5 e Hw) by (vm_compute; lia).
  reflexivity.
Defined.

(* ------------------------------------------------------------------ *)
(** ** The order of the strategies of the extractor *)

(** C5: the extractor tries its five strategies in a fixed order on the
    trimmed segment, and the first that succeeds gives the result: for
    every segment the result is that of strategy k when strategies 1 to
    k-1 give nothing and strategy k gives a line, and there is no line
    exactly when the segment is blank or no strategy gives one.  The
    order decides: on ["10 vis x 5"], ["dix vis x 5"], ["vis M6 x 10"]
    and ["vis 5 boulons 10"] a later strategy would give another line
    than the one returned.  The four documented segments all extract to
    quantity 10 with item label ["vis M6x20"], by strategies 1 to 4. *)
Theorem extractor_priority_order (w : jsstring -> jsstring) :
  (forall seg,
     extractQuantityAndLabel w seg
     = if truthy (trim seg)
       then first_of (strategy1 (trim seg))
              (first_of (strategy2 w (trim seg))
                 (first_of (strategy3 (trim seg))
                    (first_of (strategy4 (trim seg))
                       (strategy5 w (trim seg)))))
       else None) /\
  (forall seg r, trim seg <> [] ->
     strategy1 (trim seg) = Some r ->
     extractQuantityAndLabel w seg = Some r) /\
  (forall seg r, trim seg <> [] ->
     strategy1 (trim seg) = None -> strategy2 w (trim seg) = Some r ->
     extractQuantityAndLabel w seg = Some r) /\
  (forall seg r, trim seg <> [] ->
     strategy1 (trim seg) = None -> strategy2 w (trim seg) = None ->
     strategy3 (trim seg) = Some r ->
     extractQuantityAndLabel w seg = Some r) /\
  (forall seg r, trim seg <> [] ->
     strategy1 (trim seg) = None -> strategy2 w (trim seg) = None ->
     strategy3 (trim seg) = None -> strategy4 (trim seg) = Some r ->
     extractQuantityAndLabel w seg = Some r) /\
  (forall seg, trim seg <> [] ->
     strategy1 (trim seg) = None -> strategy2 w (trim seg) = None ->
     strategy3 (trim seg) = None -> strategy4 (trim seg) = None ->
     extractQuantityAndLabel w seg = strategy5 w (trim seg)) /\
  (forall seg,
     extractQuantityAndLabel w seg = None <->
     trim seg = [] \/
     (strategy1 (trim seg) = None /\ strategy2 w (trim seg) = None /\
      strategy3 (trim seg) = None /\ strategy4 (trim seg) = None /\
      strategy5 w (trim seg) = None)) /\
  (strategy1 (js "10 vis x 5") = Some (of_Z 10, js "vis x 5") /\
   strategy3 (js "10 vis x 5") = Some (of_Z 5, js "10 vis") /\
   extractQuantityAndLabel w (js "10 vis x 5") = Some (of_Z 10, js "vis x 5")) /\
  (strategy2 w (js "dix vis x 5") = Some (of_Z 10, js "vis x 5") /\
   strategy3 (js "dix vis x 5") = Some (of_Z 5, js "dix vis") /\
   extractQuantityAndLabel w (js "dix vis x 5") = Some (of_Z 10, js "vis x 5")) /\
  (strategy3 (js "vis M6 x 10") = Some (of_Z 10, js "vis M6") /\
   strategy4 (js "vis M6 x 10") = Some (of_Z 10, js "vis M6 x") /\
   extractQuantityAndLabel w (js "vis M6 x 10") = Some (of_Z 10, js "vis M6")) /\
  (strategy4 (js "vis 5 boulons 10") = Some (of_Z 10, js "vis 5 boulons") /\
   strategy5 w (js "vis 5 boulons 10") = Some (of_Z 5, js "vis boulons 10") /\
   extractQuantityAndLabel w (js "vis 5 boulons 10")
   = Some (of_Z 10, js "vis 5 boulons")) /\
  (let line := Some (of_Z 10, js "vis M6x20") in
   (strategy1 (js "10 vis M6x20") = line /\
    extractQuantityAndLabel w (js "10 vis M6x20") = line) /\
   (strategy1 (js "dix vis M6x20") = None /\
    strategy2 w (js "dix vis M6x20") = line /\
    extractQuantityAndLabel w (js "dix vis M6x20") = line) /\
   (strategy1 (js "vis M6x20 x 10") = None /\
    strategy2 w (js "vis M6x20 x 10") = None /\
    strategy3 (js "vis M6x20 x 10") = line /\
    extractQuantityAndLabel w (js "vis M6x20 x 10") = line) /\
   (strategy1 (js "vis M6x20 10") = None /\
    strategy2 w (js "vis M6x20 10") = None /\
    strategy3 (js "vis M6x20 10") = None /\
    strategy4 (js "vis M6x20 10") = line /\
    extractQuantityAndLabel w (js "vis M6x20 10") = line)).
Proof.
  assert (Cascade : forall seg,
     extractQuantityAndLabel w seg
     = if truthy (trim seg)
       then first_of (strategy1 (trim seg))
              (first_of (strategy2 w (trim seg))
                 (first_of (strategy3 (trim seg))
                    (first_of (strategy4 (trim seg))
                       (strategy5 w (trim seg)))))
       else None).
  { intros seg. unfold extractQuantityAndLabel, first_of.
    destruct (truthy (trim seg)); simpl; [|reflexivity].
    destruct (strategy1 (trim seg)); [reflexivity|].
    destruct (strategy2 w (trim seg)); [reflexivity|].
    destruct (strategy3 (trim seg)); [reflexivity|].
    destruct (strategy4 (trim seg)); reflexivity. }
  assert (T : forall seg, trim seg <> [] -> truthy (trim seg) = true).
  { intros seg H. destruct (trim seg); [congruence|reflexivity]. }
  split; [exact Cascade|].
  split. { intros seg r Hn H1. rewrite Cascade, (T seg Hn), H1. reflexivity. }
  split. { intros seg r Hn H1 H2. rewrite Cascade, (T seg Hn), H1, H2. reflexivity. }
  split. { intros seg r Hn H1 H2 H3.
           rewrite Cascade, (T seg Hn), H1, H2, H3. reflexivity. }
  split. { intros seg r Hn H1 H2 H3 H4.
           rewrite Cascade, (T seg Hn), H1, H2, H3, H4. reflexivity. }
  split. { intros seg Hn H1 H2 H3 H4.
           rewrite Cascade, (T seg Hn), H1, H2, H3, H4. reflexivity. }
  split.
  { intros seg. rewrite Cascade. unfold first_of.
    destruct (trim seg) as [|c s] eqn:E.
    - simpl. split; [left; reflexivity|reflexivity].
    - cbn [truthy]. rewrite <- E. split.
      + intros H. right.
        destruct (strategy1 (trim seg)); [discriminate|].
        destruct (strategy2 w (trim seg)); [discriminate|].
        destruct (strategy3 (trim seg)); [discriminate|].
        destruct (strategy4 (trim seg)); [discriminate|].
        repeat split; assumption.
      + intros [H|(H1 & H2 & H3 & H4 & H5)]; [congruence|].
        rewrite H1, H2, H3, H4. exact H5. }
  repeat split; vm_compute; reflexivity.
Qed.

(* ------------------------------------------------------------------ *)
(** ** The operators in the normalizer *)




(* ------------------------------------------------------------------ *)
(** ** The dispatch of a segment: calls and requests *)





(** ** The lines of one buffer *)

Section Session.

Variable w : jsstring -> jsstring.
Variable rc : jsstring -> Container + jsstring.
Variable ra : Container -> jsstring -> number -> AddLineAnswer.






End Session.



